(** * Chi design-system toolchain: token generator, theme build runner, popover

    A shallow embedding of
      - [scripts/generate-css-custom-properties.ts] (SCSS variable parser,
        token classifier, SCSS / JSON emitters, command-line driver),
      - [scripts/build/css/build.js] (theme build runner),
      - the [Popover] component (show / hide / toggle),
    together with the properties stated about them.

    JavaScript strings are sequences of UTF-16 code units; they are modelled as
    lists of [N].  File contents, the clock and the outcome of external
    processes are inputs of the model. *)

From Stdlib Require Import List NArith ZArith QArith Qround Bool Ascii String Lia.
From Stdlib Require Import Permutation Sorted.
Import ListNotations.
Close Scope Q_scope.

Set Implicit Arguments.

(* ========================================================================= *)
(** * JavaScript strings *)
(* ========================================================================= *)

Module JS.

(** A UTF-16 code unit. *)
Definition char := N.

(** A JavaScript string value. *)
Definition jsstring := list char.

(** Literals of the source are written with [str]; every literal converted
    this way is plain ASCII, so one byte is one code unit. *)
Definition str (s : string) : jsstring :=
  List.map N_of_ascii (list_ascii_of_string s).

Definition char_eqb (a b : char) : bool := N.eqb a b.

Fixpoint eqb (a b : jsstring) : bool :=
  match a, b with
  | [], [] => true
  | x :: a', y :: b' => N.eqb x y && eqb a' b'
  | _, _ => false
  end.

(** [s.startsWith(p)] *)
Fixpoint startsWith (s p : jsstring) {struct p} : bool :=
  match p, s with
  | [], _ => true
  | _ :: _, [] => false
  | y :: p', x :: s' => N.eqb x y && startsWith s' p'
  end.

(** [s.includes(p)] *)
Fixpoint includes (s p : jsstring) : bool :=
  startsWith s p ||
  match s with
  | [] => false
  | _ :: s' => includes s' p
  end.

(** [s.endsWith(p)] *)
Definition endsWith (s p : jsstring) : bool :=
  startsWith (rev s) (rev p).

(** ECMAScript LineTerminator code units: LF, CR, LS, PS. *)
Definition isLineTerminator (c : char) : bool :=
  N.eqb c 10 || N.eqb c 13 || N.eqb c 8232 || N.eqb c 8233.

(** ECMAScript WhiteSpace and LineTerminator code units: what [\s] matches and
    what [trim] removes. *)
Definition isSpace (c : char) : bool :=
  N.eqb c 9 || N.eqb c 10 || N.eqb c 11 || N.eqb c 12 || N.eqb c 13 ||
  N.eqb c 32 || N.eqb c 160 || N.eqb c 5760 ||
  (N.leb 8192 c && N.leb c 8202) ||
  N.eqb c 8232 || N.eqb c 8233 || N.eqb c 8239 || N.eqb c 8287 ||
  N.eqb c 12288 || N.eqb c 65279.

Fixpoint trimStart (s : jsstring) : jsstring :=
  match s with
  | [] => []
  | c :: s' => if isSpace c then trimStart s' else s
  end.

Definition trimEnd (s : jsstring) : jsstring := rev (trimStart (rev s)).

(** [s.trim()] *)
Definition trim (s : jsstring) : jsstring := trimEnd (trimStart s).

(** [s.lastIndexOf(c)] for a one-character needle; [-1] when absent. *)
Fixpoint lastIndexOfFrom (c : char) (s : jsstring) (i : Z) (found : Z) : Z :=
  match s with
  | [] => found
  | x :: s' => lastIndexOfFrom c s' (i + 1) (if N.eqb x c then i else found)
  end.

Definition lastIndexOf (s : jsstring) (c : char) : Z :=
  lastIndexOfFrom c s 0 (-1).

(** [s.slice(0, n)] for [0 <= n]. *)
Definition slice0 (s : jsstring) (n : Z) : jsstring := firstn (Z.to_nat n) s.

(** [s.split(sep)[0]]: the text before the first occurrence of [sep]
    (all of [s] when there is none); [sep] is not empty. *)
Fixpoint splitHead (s sep : jsstring) : jsstring :=
  if startsWith s sep then []
  else match s with
       | [] => []
       | c :: s' => c :: splitHead s' sep
       end.

(** [s.split(c)] for a one-character separator. *)
Fixpoint splitChar (s : jsstring) (c : char) : list jsstring :=
  match s with
  | [] => [[]]
  | x :: s' =>
      if N.eqb x c then [] :: splitChar s' c
      else match splitChar s' c with
           | [] => [[x]]
           | l :: ls => (x :: l) :: ls
           end
  end.

(** [a.join(sep)] *)
Fixpoint join (a : list jsstring) (sep : jsstring) : jsstring :=
  match a with
  | [] => []
  | [x] => x
  | x :: a' => x ++ sep ++ join a' sep
  end.

(** [c.repeat(n)] *)
Definition repeat (s : jsstring) (n : nat) : jsstring :=
  List.concat (List.repeat s n).

(** Decimal rendering of a natural number, [String(n)]. *)
Fixpoint digitsFuel (fuel : nat) (n : N) (acc : jsstring) : jsstring :=
  match fuel with
  | O => acc
  | S f =>
      let acc' := (48 + N.modulo n 10)%N :: acc in
      if N.ltb n 10 then acc' else digitsFuel f (N.div n 10) acc'
  end.

Definition ofN (n : N) : jsstring := digitsFuel (S (N.to_nat (N.log2 n))) n [].

Definition ofNat (n : nat) : jsstring := ofN (N.of_nat n).

End JS.

Import JS.

(* ========================================================================= *)
(** * Regular expressions *)
(* ========================================================================= *)

(** The patterns of the source only ask whether a string matches ([test],
    [match] used as a condition).  They are modelled as extended regular
    expressions decided with Brzozowski derivatives; complement is there for
    the negative lookahead of [SEMANTIC_PATTERNS]. *)
Module Re.

Inductive regex : Type :=
| Void : regex
| Eps : regex
| Cls : (char -> bool) -> regex
| Cat : regex -> regex -> regex
| Alt : regex -> regex -> regex
| Star : regex -> regex
| Not : regex -> regex.

Fixpoint nullable (r : regex) : bool :=
  match r with
  | Void => false
  | Eps => true
  | Cls _ => false
  | Cat a b => nullable a && nullable b
  | Alt a b => nullable a || nullable b
  | Star _ => true
  | Not a => negb (nullable a)
  end.

Fixpoint der (c : char) (r : regex) : regex :=
  match r with
  | Void => Void
  | Eps => Void
  | Cls p => if p c then Eps else Void
  | Cat a b =>
      if nullable a then Alt (Cat (der c a) b) (der c b)
      else Cat (der c a) b
  | Alt a b => Alt (der c a) (der c b)
  | Star a => Cat (der c a) (Star a)
  | Not a => Not (der c a)
  end.

(** [matches r s]: the whole of [s] is in the language of [r]. *)
Fixpoint matches (r : regex) (s : jsstring) : bool :=
  match s with
  | [] => nullable r
  | c :: s' => matches (der c r) s'
  end.

(** The words of a regular expression. *)
Fixpoint lang (r : regex) (s : jsstring) : Prop :=
  match r with
  | Void => False
  | Eps => s = []
  | Cls p => exists c, s = [c] /\ p c = true
  | Cat a b => exists s1 s2, s = s1 ++ s2 /\ lang a s1 /\ lang b s2
  | Alt a b => lang a s \/ lang b s
  | Star a => exists ss, s = List.concat ss /\ Forall (lang a) ss
  | Not a => ~ lang a s
  end.

Definition chr (c : char) : regex := Cls (N.eqb c).

(** The literal text [s]. *)
Fixpoint lit (s : jsstring) : regex :=
  match s with
  | [] => Eps
  | c :: s' => Cat (chr c) (lit s')
  end.

(** [(a|b|...)] over literal alternatives, written as in the source. *)
Fixpoint altsOf (l : list jsstring) : regex :=
  match l with
  | [] => Void
  | a :: l' => Alt (lit a) (altsOf l')
  end.

Definition alts (s : string) : regex := altsOf (splitChar (str s) 124%N).

Definition anyChar : regex := Cls (fun _ => true).
Definition anything : regex := Star anyChar.

(** [\d] *)
Definition isDigit (c : char) : bool := N.leb 48 c && N.leb c 57.
Definition digit : regex := Cls isDigit.

(** [[a-b]] *)
Definition range (a b : N) : regex := Cls (fun c => N.leb a c && N.leb c b).

(** [r+] *)
Definition plus (r : regex) : regex := Cat r (Star r).

(** A pattern of the source, by the anchors it carries.  All patterns of the
    toolchain start with [^]. *)
Inductive RegExp : Type :=
| Whole : regex -> RegExp      (* /^r$/ *)
| Prefix : regex -> RegExp     (* /^r/  *)
| Suffix : regex -> RegExp     (* /r$/  *)
| PrefixNotBefore : regex -> regex -> RegExp.   (* /^r(?!n)/ *)

(** [pattern.test(s)]; the patterns carry no flag, so [$] is the end of the
    input.  In [/^r(?!n)/] the lookahead is the last item: the pattern matches
    when the input is a word of [r] followed by a rest that has no prefix in
    [n]. *)
Definition test (p : RegExp) (s : jsstring) : bool :=
  match p with
  | Whole r => matches r s
  | Prefix r => matches (Cat r anything) s
  | Suffix r => matches (Cat anything r) s
  | PrefixNotBefore r n => matches (Cat r (Not (Cat n anything))) s
  end.

End Re.

Import Re.

(* ========================================================================= *)
(** * Traces and exceptions *)
(* ========================================================================= *)

(** The scripts act on the outside (console, files, child processes) and stop
    early by [throw] or [process.exit].  A computation is its trace of events
    together with an exception or a value. *)
Module Eff.

Inductive Thrown : Type :=
| Exception : jsstring -> Thrown     (* [throw], with the message *)
| ProcessExit : Z -> Thrown.         (* [process.exit(code)] *)

Section Run.

Variable E : Type.

Definition Run (A : Type) : Type := list E * (Thrown + A).

Definition ret {A : Type} (a : A) : Run A := ([], inr a).

Definition bind {A B : Type} (m : Run A) (f : A -> Run B) : Run B :=
  match m with
  | (t, inl e) => (t, inl e)
  | (t, inr a) => let (t', r) := f a in (t ++ t', r)
  end.

Definition emit (e : E) : Run unit := ([e], inr tt).

Definition throw {A : Type} (e : Thrown) : Run A := ([], inl e).

(** [try { m } catch (err) { handler(err.message) }]; [process.exit] is not
    caught. *)
Definition tryCatch {A : Type} (m : Run A) (handler : jsstring -> Run A) : Run A :=
  match m with
  | (t, inl (Exception msg)) => let (t', r) := handler msg in (t ++ t', r)
  | _ => m
  end.

(** The trace of a computation, and whether it ended normally. *)
Definition trace {A : Type} (m : Run A) : list E := fst m.

Definition completed {A : Type} (m : Run A) : bool :=
  match snd m with
  | inr _ => true
  | inl _ => false
  end.

End Run.

Arguments ret {E A} a.
Arguments bind {E A B} m f.
Arguments emit {E} e.
Arguments throw {E A} e.
Arguments tryCatch {E A} m handler.
Arguments trace {E A} m.
Arguments completed {E A} m.

End Eff.

Import Eff.

Notation "x <- m ;; k" := (bind m (fun x => k))
  (at level 61, m at next level, right associativity).
Notation "m ;;; k" := (bind m (fun _ => k))
  (at level 61, right associativity).

(* ========================================================================= *)
(** * generate-css-custom-properties.ts *)
(* ========================================================================= *)

Module Gen.

(** ** Configuration *)

Inductive Theme : Type :=
| lumen | connect | brightspeed | centurylink | colt | portal.

Definition THEMES : list Theme :=
  [lumen; connect; brightspeed; centurylink; colt; portal].

Definition themeName (t : Theme) : jsstring :=
  match t with
  | lumen => str "lumen"
  | connect => str "connect"
  | brightspeed => str "brightspeed"
  | centurylink => str "centurylink"
  | colt => str "colt"
  | portal => str "portal"
  end.

Inductive Layer : Type := foundation | semantic.

Definition LAYERS : list Layer := [foundation; semantic].

Definition Layer_eqb (a b : Layer) : bool :=
  match a, b with
  | foundation, foundation => true
  | semantic, semantic => true
  | _, _ => false
  end.

(** [layers.includes(l)] *)
Definition layersInclude (layers : list Layer) (l : Layer) : bool :=
  existsb (Layer_eqb l) layers.

(** [ScssVariable['layer']]: [Layer | 'component' | 'excluded']. *)
Inductive TokenLayer : Type :=
| L : Layer -> TokenLayer
| component : TokenLayer
| excluded : TokenLayer.

Definition TokenLayer_eqb (a b : TokenLayer) : bool :=
  match a, b with
  | L x, L y => Layer_eqb x y
  | component, component => true
  | excluded, excluded => true
  | _, _ => false
  end.

Definition PREFIX : jsstring := str "chi".

(** ** Token classification rules *)

Definition lits (s : string) : regex := lit (str s).

(** [/^\$<stem>(a|b|...|h[1-6])$/] *)
Definition stemAltsOrHeading (stem : string) (l : string) : RegExp :=
  Whole (Cat (lits stem) (Alt (alts l) (Cat (lits "h") (range 49 54)))).

Definition FOUNDATION_PATTERNS : list RegExp :=
  [ Whole (Cat (lits "$font-family-") (alts "base|mono"));
    stemAltsOrHeading "$font-size-"
      "3xl|2xl|xl|lg|md|sm|xs|2xs|base";
    stemAltsOrHeading "$font-weight-"
      "light|normal|medium|semi-bold|bold|extra-bold|black|base";
    stemAltsOrHeading "$line-height-" "base|xl|lg|md|sm";
    Whole (Cat (lits "$color-")
          (Cat (alts "grey|red|pink|purple|indigo|violet|navy|blue|bright-blue|cyan|teal|teal-blue|mint|green|yellow|orange")
          (Cat (lits "-") (plus digit))));
    Whole (Cat (lits "$color-") (alts "black|white"));
    Whole (lits "$base-unit");
    Whole (Cat (lits "$opacity-") (plus digit));
    Whole (Cat (lits "$border-radius-")
               (alts "base|sharp|circle|medium|rounded-pill"));
    Whole (lits "$focus-color");
    Whole (lits "$link-color");
    Whole (lits "$link-hover-color");
    Whole (Cat (lits "$icon-size-")
               (alts "base|xs|sm|sm2|sm3|md|lg|xl|xxl"));
    Whole (Cat (lits "$")
          (Cat (alts "sm|md|lg|xl|xxl") (lits "-breakpoint")));
    Prefix (lits "$zindex-") ].

Definition SEMANTIC_PATTERNS : list RegExp :=
  [ Prefix (lits "$color-text-");
    Prefix (lits "$color-icon-");
    Prefix (lits "$color-border-");
    PrefixNotBefore (lits "$color-background-") (lits "gradient") ].

Definition EXCLUDE_PATTERNS : list RegExp :=
  [ Whole (lits "$state-colors");
    Whole (lits "$color-semantic");
    Whole (lits "$screen-sizes");
    Whole (lits "$shadow");
    Whole (lits "$cap-height");
    Whole (lits "$font-family-icon");
    Whole (lits "$icon-color") ].

(** [for (const pattern of patterns) { if (pattern.test(s)) return ...; }]:
    whether the loop returns. *)
Fixpoint firstMatch (patterns : list RegExp) (s : jsstring) : bool :=
  match patterns with
  | [] => false
  | pattern :: rest => if test pattern s then true else firstMatch rest s
  end.

(** Classify a token into foundation, semantic, component, or excluded. *)
Definition classifyToken (fullName value : jsstring) : TokenLayer :=
  if firstMatch EXCLUDE_PATTERNS fullName then excluded
  else if startsWith value (str "(") || includes value (str "linear-gradient")
  then excluded
  else if firstMatch FOUNDATION_PATTERNS fullName then L foundation
  else if firstMatch SEMANTIC_PATTERNS fullName then L semantic
  else component.

(** ** Synthetic tokens *)

Record SyntheticToken : Type := mkSyn {
  syn_name : jsstring;
  scssExpression : jsstring;
  syn_comment : option jsstring;
  syn_type : jsstring;
  syn_category : jsstring
}.

(** U+2014, the dash of the comments. *)
Definition emDash : jsstring := [8212%N].

(** [{ name, scssExpression, comment: a + ' — ' + b, type, category }] *)
Definition synDash (n e a b t c : string) : SyntheticToken :=
  mkSyn (str n) (str e) (Some (str a ++ str " " ++ emDash ++ str " " ++ str b))
        (str t) (str c).

Definition synPlain (n e a t c : string) : SyntheticToken :=
  mkSyn (str n) (str e) (Some (str a)) (str t) (str c).

Definition SYNTHETIC_SHADOW_TOKENS : list SyntheticToken :=
  [ synPlain "shadow-0" "none" "No shadow" "shadow" "elevation";
    synDash "shadow-1" "map-get($shadow, 1)" "Elevation 1" "subtle" "shadow" "elevation";
    synDash "shadow-2" "map-get($shadow, 2)" "Elevation 2" "card" "shadow" "elevation";
    synDash "shadow-3" "map-get($shadow, 3)" "Elevation 3" "dropdown" "shadow" "elevation";
    synDash "shadow-4" "map-get($shadow, 4)" "Elevation 4" "modal" "shadow" "elevation";
    synDash "shadow-5" "map-get($shadow, 5)" "Elevation 5" "max elevation" "shadow" "elevation" ].

(** *** The spacing scale

    The numbers of [buildSpacingScale] are multiples of 0.25 below 25, their
    products with 100 and 16, and their quotients by 100 and 0.5; on these
    values every operation of the function is exact in binary64, so the
    numbers are modelled as the rationals they denote. *)

Local Open Scope Q_scope.

(** [Math.round(x)] *)
Definition mathRound (x : Q) : Q := inject_Z (Qfloor (x + (1 # 2))).

(** [a % b] (the result has the sign of [a]). *)
Definition jsRem (a b : Q) : Q :=
  let q := Qred (a / b) in
  Qred (a - b * inject_Z (Z.quot (Qnum q) (Zpos (Qden q)))).

(** [String(x)] for a number [x >= 0] with at most two decimals: the digits
    of the integer part, then the decimals without trailing zero. *)
Definition numToString (x : Q) : jsstring :=
  let h := Z.to_N (Qfloor (x * 100)) in
  let ip := N.div h 100 in
  let fp := N.modulo h 100 in
  if N.eqb fp 0 then ofN ip
  else if N.eqb (N.modulo fp 10) 0 then ofN ip ++ str "." ++ ofN (N.div fp 10)
  else ofN ip ++ str "." ++ (if N.ltb fp 10 then str "0" else []) ++ ofN fp.

Record Step : Type := mkStep { index : nat; rem : Q }.

(** [for (let r = r0; cond(r); r = next(r)) steps.push({ index: index++, rem: r })]
    on the pair of [steps] and [index]. *)
Fixpoint forPush (fuel : nat) (cond : Q -> bool) (next : Q -> Q) (r : Q)
  (st : list Step * nat) : option (list Step * nat) :=
  match fuel with
  | O => None
  | S fuel' =>
      if cond r
      then forPush fuel' cond next (next r)
             (fst st ++ [mkStep (snd st) r], S (snd st))
      else Some st
  end.

Definition bindOpt {A B : Type} (o : option A) (f : A -> option B) : option B :=
  match o with
  | Some a => f a
  | None => None
  end.

(** The [steps] array of [buildSpacingScale]. *)
Definition spacingSteps (fuel : nat) : option (list Step) :=
  let st0 := ([mkStep 0 0], 1%nat) in
  bindOpt (forPush fuel (fun r => Qle_bool r 3)
             (fun r => Qred (mathRound ((r + (1 # 4)) * 100) / 100)) (1 # 4) st0)
    (fun st1 =>
  bindOpt (forPush fuel (fun r => Qle_bool r 4)
             (fun r => Qred (mathRound ((r + (1 # 2)) * 100) / 100)) (7 # 2) st1)
    (fun st2 =>
  bindOpt (forPush fuel (fun r => Qle_bool r 24)
             (fun r => Qred (r + 1)) 5 st2)
    (fun st3 => Some (fst st3)))).

(** The function mapped over [steps]. *)
Definition spacingToken (s : Step) : SyntheticToken :=
  let i := index s in
  let rem := rem s in
  let value := if Qeq_bool rem 0 then str "0" else numToString rem ++ str "rem" in
  let px := Qred (rem * 16) in
  let chiSpaceIdx :=
    if Qeq_bool (jsRem rem (1 # 2)) 0 then Some (Qred (rem / (1 # 2))) else None in
  let spaceNote :=
    match chiSpaceIdx with
    | Some k =>
        if Qle_bool 0 k && Qle_bool k 10
        then str " " ++ emDash ++ str " Chi space(" ++ numToString k ++ str ")"
        else []
    | None => []
    end in
  mkSyn (str "spacing-" ++ ofNat i) value
    (Some (value ++
           (if negb (Qle_bool rem 0)
            then str " (" ++ numToString px ++ str "px)" else []) ++
           spaceNote))
    (str "spacing") (str "spacing").

(** [buildSpacingScale()], with the fuel of its three loops. *)
Definition buildSpacingScaleFuel (fuel : nat) : option (list SyntheticToken) :=
  option_map (List.map spacingToken) (spacingSteps fuel).

Definition buildSpacingScale : option (list SyntheticToken) :=
  buildSpacingScaleFuel 64.

Local Close Scope Q_scope.

Definition SYNTHETIC_SPACING_TOKENS : list SyntheticToken :=
  Eval vm_compute in
  match buildSpacingScale with
  | Some l => l
  | None => []
  end.

Definition SYNTHETIC_BORDER_WIDTH_TOKENS : list SyntheticToken :=
  [ synPlain "border-width-0" "0" "0 (0px)" "borderWidth" "border-width";
    synDash "border-width-1" "0.0625rem" "0.0625rem (1px)" "standard" "borderWidth" "border-width";
    synDash "border-width-2" "0.125rem" "0.125rem (2px)" "active/emphasis" "borderWidth" "border-width";
    synDash "border-width-3" "0.1875rem" "0.1875rem (3px)" "heavy (Lumen buttons)" "borderWidth" "border-width";
    synDash "border-width-4" "0.25rem" "0.25rem (4px)" "max" "borderWidth" "border-width" ].

Definition SYNTHETIC_DURATION_TOKENS : list SyntheticToken :=
  [ synDash "duration-fastest" "0.075s" "0.075s (75ms)" "collapse/expand height" "duration" "motion";
    synDash "duration-faster" "0.1s" "0.1s (100ms)" "hover micro-interactions" "duration" "motion";
    synDash "duration-fast" "0.15s" "0.15s (150ms)" "input focus, tags" "duration" "motion";
    synDash "duration-normal" "0.2s" "0.2s (200ms)" "general purpose default" "duration" "motion";
    synDash "duration-slow" "0.3s" "0.3s (300ms)" "toggle switch, tabs" "duration" "motion";
    synDash "duration-slower" "0.4s" "0.4s (400ms)" "header search" "duration" "motion";
    synDash "duration-slowest" "0.5s" "0.5s (500ms)" "modal, drawer, backdrop" "duration" "motion";
    synDash "duration-skeleton" "2s" "2s (2000ms)" "skeleton loading animation" "duration" "motion" ].

Definition SYNTHETIC_EASING_TOKENS : list SyntheticToken :=
  [ synDash "ease" "ease" "Ease" "cards, sidenav" "easing" "motion";
    synDash "ease-in" "ease-in" "Ease-in" "buttons, links, carousel" "easing" "motion";
    synDash "ease-out" "ease-out" "Ease-out" "accordion height collapse" "easing" "motion";
    synDash "ease-in-out" "ease-in-out" "Ease-in-out" "general purpose (most common)" "easing" "motion";
    synDash "ease-bounce" "cubic-bezier(1, 0.38, 0, 1.19)" "Bounce" "toggle switch" "easing" "motion" ].

Definition ALL_SYNTHETIC_TOKENS : list (list SyntheticToken) :=
  [ SYNTHETIC_SHADOW_TOKENS;
    SYNTHETIC_SPACING_TOKENS;
    SYNTHETIC_BORDER_WIDTH_TOKENS;
    SYNTHETIC_DURATION_TOKENS;
    SYNTHETIC_EASING_TOKENS ].

(** ** SCSS parser *)

Record ScssVariable : Type := mkScssVariable {
  name : jsstring;            (* without the dollar sign *)
  rawValue : jsstring;
  comment : option jsstring;  (* [undefined] is [None] *)
  line : nat;
  layer : TokenLayer
}.

(** [[a-zA-Z0-9_-]] *)
Definition isIdentChar (c : char) : bool :=
  (N.leb 97 c && N.leb c 122) || (N.leb 65 c && N.leb c 90) ||
  (N.leb 48 c && N.leb c 57) || N.eqb c 95 || N.eqb c 45.

(** The longest prefix of [s] whose characters satisfy [p], and the rest. *)
Fixpoint span (p : char -> bool) (s : jsstring) : jsstring * jsstring :=
  match s with
  | [] => ([], [])
  | c :: s' =>
      if p c then let (a, b) := span p s' in (c :: a, b) else ([], s)
  end.

(** [.] matches every code unit but the line terminators. *)
Definition isDot (c : char) : bool := negb (isLineTerminator c).

(** What the group captures in [\s*(.+)$] and in [\s*(.+?)$], matched at the
    start of [s].  [\s*] first takes all the white space; the group then has to
    reach the end of the input, so it is the rest [r] when [r] is not empty and
    holds no line terminator.  A line terminator in [r] stays in the group
    however much [\s*] gives back: no match.  When [r] is empty, [\s*] gives
    back its last character, which is the group unless it is a line
    terminator (giving back more keeps that character in the group). *)
Definition spacesThenRest (s : jsstring) : option jsstring :=
  let (w, r) := span isSpace s in
  match r with
  | _ :: _ => if forallb isDot r then Some r else None
  | [] =>
      match rev w with
      | c :: _ => if isDot c then Some [c] else None
      | [] => None
      end
  end.

(** The declaration pattern, [/^\$([a-zA-Z0-9_-]+)\s*:\s*(.+)$/], and the
    comment pattern, [/\/\/\s*(.+?)$/] (searched anywhere in the text),
    without their groups. *)
Definition DECL_PATTERN : RegExp :=
  Whole (Cat (lits "$")
        (Cat (plus (Cls isIdentChar))
        (Cat (Star (Cls isSpace))
        (Cat (lits ":")
        (Cat (Star (Cls isSpace)) (plus (Cls isDot))))))).

Definition COMMENT_PATTERN : RegExp :=
  Suffix (Cat (lits "//") (Cat (Star (Cls isSpace)) (plus (Cls isDot)))).

(** [line.match(/^\$([a-zA-Z0-9_-]+)\s*:\s*(.+)$/)]: groups 1 and 2.  After
    the dollar sign the name is the longest run of name characters (a shorter
    one would be followed by a name character, which is neither white space
    nor a colon). *)
Definition matchDecl (line : jsstring) : option (jsstring * jsstring) :=
  match line with
  | 36%N :: s =>
      let (nm, r) := span isIdentChar s in
      match nm with
      | [] => None
      | _ :: _ =>
          match snd (span isSpace r) with
          | 58%N :: r2 =>
              match spacesThenRest r2 with
              | Some v => Some (nm, v)
              | None => None
              end
          | _ => None
          end
      end
  | _ => None
  end.

(** [s.match(/\/\/\s*(.+?)$/)]: group 1 of the leftmost match. *)
Fixpoint matchComment (s : jsstring) : option jsstring :=
  match s with
  | [] => None
  | _ :: s' =>
      match (if startsWith s (str "//") then spacesThenRest (skipn 2 s)
             else None) with
      | Some g => Some g
      | None => matchComment s'
      end
  end.

(** The body of the [if (match)] branch once [rawValuePart] is complete:
    the record pushed, [i] being the index of the last line consumed. *)
Definition mkVariable (name rawValuePart : jsstring) (i : nat) : ScssVariable :=
  let semicolonIdx := lastIndexOf rawValuePart 59%N in
  let value :=
    if (0 <=? semicolonIdx)%Z then trim (slice0 rawValuePart semicolonIdx)
    else trim rawValuePart in
  let commentMatch := matchComment rawValuePart in
  let comment := option_map trim commentMatch in
  let value :=
    match commentMatch with
    | Some _ =>
        if includes value (str "//") then trim (splitHead value (str "//"))
        else value
    | None => value
    end in
  let layer := classifyToken (str "$" ++ name) value in
  mkScssVariable name value comment (i + 1) layer.

(** The guard of the multi-line accumulation. *)
Definition continues (rawValuePart : jsstring) : bool :=
  negb (includes rawValuePart (str ";")) ||
  (includes rawValuePart (str "(") && negb (includes rawValuePart (str ")"))).

(** [while (i + 1 < lines.length && !rawValuePart.includes(';'))]: [rest] is
    [lines] after index [i]; returns the accumulated text, the lines left and
    the index reached. *)
Fixpoint accumulate (rawValuePart : jsstring) (rest : list jsstring) (i : nat)
  {struct rest} : jsstring * list jsstring * nat :=
  match rest with
  | [] => (rawValuePart, [], i)
  | l :: rest' =>
      if includes rawValuePart (str ";") then (rawValuePart, rest, i)
      else accumulate (rawValuePart ++ str " " ++ trim l) rest' (S i)
  end.

(** The main loop, from index [i] on: [lines] is what is left of the array
    from that index.  The inner fixpoint is [accumulate] followed by the push
    and the rest of the loop. *)
Fixpoint parseFrom (lines : list jsstring) (i : nat) {struct lines}
  : list ScssVariable :=
  match lines with
  | [] => []
  | line :: rest =>
      match matchDecl line with
      | None => parseFrom rest (S i)
      | Some (name, rawValuePart) =>
          if continues rawValuePart then
            (fix acc (part : jsstring) (rest : list jsstring) (i : nat)
               {struct rest} : list ScssVariable :=
               match rest with
               | [] => [mkVariable name part i]
               | l :: rest' =>
                   if includes part (str ";")
                   then mkVariable name part i :: parseFrom rest (S i)
                   else acc (part ++ str " " ++ trim l) rest' (S i)
               end) rawValuePart rest i
          else mkVariable name rawValuePart i :: parseFrom rest (S i)
      end
  end.

(** [parseScssVariables], on the content read from the file. *)
Definition parseScssVariables (content : jsstring) : list ScssVariable :=
  let lines := splitChar content 10%N in
  parseFrom lines 0.

(** ** CSS custom property names *)

Definition toCssCustomProp (scssName : jsstring) : jsstring :=
  str "--" ++ PREFIX ++ str "-" ++ scssName.

Definition toScssInterpolation (scssVarName : jsstring) : jsstring :=
  str "#{$" ++ scssVarName ++ str "}".

(** ** Maps with string keys *)

(** A [Map<string, V>] (and a plain object used as a record of entries): the
    keys in the order of their first insertion, each with its current value.
    [mapSet] is [m.set(k, v)]: an existing key keeps its place. *)
Section StringMap.

Variable V : Type.

Definition StringMap : Type := list (jsstring * V).

Fixpoint mapSet (m : StringMap) (k : jsstring) (v : V) : StringMap :=
  match m with
  | [] => [(k, v)]
  | (k', v') :: m' =>
      if JS.eqb k' k then (k', v) :: m' else (k', v') :: mapSet m' k v
  end.

Fixpoint mapGet (m : StringMap) (k : jsstring) : option V :=
  match m with
  | [] => None
  | (k', v') :: m' => if JS.eqb k' k then Some v' else mapGet m' k
  end.

(** [Array.from(m.values())] *)
Definition mapValues (m : StringMap) : list V := List.map snd m.

Definition mapKeys (m : StringMap) : list jsstring := List.map fst m.

(** [addToGroup(name, token)] on a [Map<string, V[]>]; the [order] array of
    the source lists the keys of [groups] in insertion order, which is the
    order of the list here. *)
Fixpoint addToGroup (groups : list (jsstring * list V)) (name : jsstring)
  (token : V) : list (jsstring * list V) :=
  match groups with
  | [] => [(name, [token])]
  | (k, ts) :: groups' =>
      if JS.eqb k name then (k, ts ++ [token]) :: groups'
      else (k, ts) :: addToGroup groups' name token
  end.

(** [for (const token of tokens) addToGroup(groupOf(token), token)] *)
Definition groupBy (groupOf : V -> jsstring) (tokens : list V)
  : list (jsstring * list V) :=
  fold_left (fun groups token => addToGroup groups (groupOf token) token)
            tokens [].

End StringMap.

(** ** Token grouping *)

Definition startsWithS (s : jsstring) (p : string) : bool := startsWith s (str p).

Definition foundationGroupName (n : jsstring) : jsstring :=
  if startsWithS n "font-family-" then str "Typography - Font Family"
  else if test (Whole (Cat (lits "font-size-")
                           (alts "3xl|2xl|xl|lg|md|sm|xs|2xs|base"))) n
  then str "Typography - Font Size (Text)"
  else if test (Whole (Cat (lits "font-size-h") digit)) n
  then str "Typography - Font Size (Headings)"
  else if test (Whole (Cat (lits "font-weight-")
         (alts "light|normal|medium|semi-bold|bold|extra-bold|black|base"))) n
  then str "Typography - Font Weight"
  else if test (Whole (Cat (lits "font-weight-h") digit)) n
  then str "Typography - Font Weight (Headings)"
  else if test (Whole (Cat (lits "line-height-") (alts "base|xl|lg|md|sm"))) n
  then str "Typography - Line Height"
  else if test (Whole (Cat (lits "line-height-h") digit)) n
  then str "Typography - Line Height (Headings)"
  else if startsWithS n "color-grey-" then str "Colors - Grey Ramp"
  else if startsWithS n "color-red-" then str "Colors - Red Ramp"
  else if startsWithS n "color-pink-" then str "Colors - Pink Ramp"
  else if startsWithS n "color-purple-" then str "Colors - Purple Ramp"
  else if startsWithS n "color-indigo-" then str "Colors - Indigo Ramp"
  else if startsWithS n "color-navy-" then str "Colors - Navy Ramp"
  else if startsWithS n "color-bright-blue-" then str "Colors - Bright Blue Ramp"
  else if startsWithS n "color-blue-" then str "Colors - Blue Ramp"
  else if startsWithS n "color-cyan-" then str "Colors - Cyan Ramp"
  else if startsWithS n "color-teal-blue-" then str "Colors - Teal Blue Ramp"
  else if startsWithS n "color-teal-" then str "Colors - Teal Ramp"
  else if startsWithS n "color-mint-" then str "Colors - Mint Ramp"
  else if startsWithS n "color-green-" then str "Colors - Green Ramp"
  else if startsWithS n "color-yellow-" then str "Colors - Yellow Ramp"
  else if startsWithS n "color-orange-" then str "Colors - Orange Ramp"
  else if JS.eqb n (str "color-black") || JS.eqb n (str "color-white")
  then str "Colors - Black & White"
  else if JS.eqb n (str "base-unit") then str "Base Unit"
  else if startsWithS n "opacity-" then str "Opacity Scale"
  else if startsWithS n "border-radius" then str "Border Radius"
  else if startsWithS n "focus-" then str "Focus"
  else if startsWithS n "link-" then str "Link"
  else if startsWithS n "icon-size-" then str "Icon Sizing"
  else if test (Suffix (lits "-breakpoint")) n then str "Breakpoints"
  else if startsWithS n "zindex-" then str "Z-Index Scale"
  else str "Other Foundation".

Definition groupFoundationTokens (tokens : list ScssVariable)
  : list (jsstring * list ScssVariable) :=
  groupBy (fun token => foundationGroupName (name token)) tokens.

Definition semanticGroupName (n : jsstring) : jsstring :=
  if startsWithS n "color-text-" then str "Text Colors"
  else if startsWithS n "color-icon-" then str "Icon Colors"
  else if startsWithS n "color-border-" then str "Border Colors"
  else if startsWithS n "color-background-" then str "Background Colors"
  else str "Other Semantic".

Definition groupSemanticTokens (tokens : list ScssVariable)
  : list (jsstring * list ScssVariable) :=
  groupBy (fun token => semanticGroupName (name token)) tokens.

(** ** SCSS file generator *)

Record GeneratedOutput : Type := mkOutput {
  scss : jsstring;
  foundationCount : nat;
  semanticCount : nat;
  totalCount : nat
}.

Definition isFoundation (v : ScssVariable) : bool :=
  TokenLayer_eqb (layer v) (L foundation).

Definition isSemantic (v : ScssVariable) : bool :=
  TokenLayer_eqb (layer v) (L semantic).

Definition isComponent (v : ScssVariable) : bool :=
  TokenLayer_eqb (layer v) component.

(** [s.charAt(0).toUpperCase() + s.slice(1)]; the theme names are lower-case
    ASCII, for which [toUpperCase] subtracts 32. *)
Definition capitalize (s : jsstring) : jsstring :=
  match s with
  | [] => []
  | c :: s' =>
      (if N.leb 97 c && N.leb c 122 then (c - 32)%N else c) :: s'
  end.

(** U+2500, the rule of the group headings. *)
Definition boxRule : jsstring := [9472%N].

Definition ruleLine : jsstring :=
  str "// =============================================================================".

(** [`  // ── ${label} ${'─'.repeat(Math.max(0, 60 - label.length))}──`] *)
Definition groupHeading (label : jsstring) : jsstring :=
  str "  // " ++ boxRule ++ boxRule ++ str " " ++ label ++ str " " ++
  JS.repeat boxRule (60 - List.length label) ++ boxRule ++ boxRule.

(** [x ? ` // ${x}` : ''] for an optional string. *)
Definition commentSuffix (c : option jsstring) : jsstring :=
  match c with
  | Some ((_ :: _) as text) => str " // " ++ text
  | _ => []
  end.

(** The line of a parsed token. *)
Definition tokenLine (token : ScssVariable) : jsstring :=
  let cssName := toCssCustomProp (name token) in
  let scssValue := toScssInterpolation (name token) in
  str "  " ++ cssName ++ str ": " ++ scssValue ++ str ";" ++
  commentSuffix (comment token).

(** The line of a synthetic token. *)
Definition syntheticLine (syn : SyntheticToken) : jsstring :=
  let cssName := toCssCustomProp (syn_name syn) in
  let needsInterpolation := includes (scssExpression syn) (str "map-get(") in
  let value :=
    if needsInterpolation then str "#{" ++ scssExpression syn ++ str "}"
    else scssExpression syn in
  str "  " ++ cssName ++ str ": " ++ value ++ str ";" ++
  commentSuffix (syn_comment syn).

(** The lines of one group: heading, tokens, empty line. *)
Definition groupLines {T : Type} (lineOf : T -> jsstring)
  (g : jsstring * list T) : list jsstring :=
  groupHeading (fst g) :: List.map lineOf (snd g) ++ [[]].

Definition syntheticScales : list (jsstring * list SyntheticToken) :=
  [ (str "Shadow Scale", SYNTHETIC_SHADOW_TOKENS);
    (str "Spacing Scale", SYNTHETIC_SPACING_TOKENS);
    (str "Border Width Scale", SYNTHETIC_BORDER_WIDTH_TOKENS);
    (str "Transition Duration Scale", SYNTHETIC_DURATION_TOKENS);
    (str "Easing Functions", SYNTHETIC_EASING_TOKENS) ].

(** [foundationMap.set(v.name, v)] for every token, then the values. *)
Definition dedupe (tokens : list ScssVariable) : list ScssVariable :=
  mapValues (fold_left (fun m v => mapSet m (name v) v) tokens []).

(** The lines pushed under [if (dedupedFoundation.length > 0)]. *)
Definition foundationSection (dedupedFoundation : list ScssVariable)
  : list jsstring :=
  match dedupedFoundation with
  | [] => []
  | _ :: _ =>
      [ ruleLine;
        str "// Foundation Layer - :root scope (universal, not theme-switchable)";
        ruleLine;
        str ":root {" ] ++
      List.concat (List.map (groupLines tokenLine)
                            (groupFoundationTokens dedupedFoundation)) ++
      List.concat (List.map (groupLines syntheticLine) syntheticScales) ++
      [ str "}"; [] ]
  end.

(** The lines pushed under [if (semanticTokens.length > 0)]. *)
Definition semanticSection (semanticTokens dedupedFoundation : list ScssVariable)
  : list jsstring :=
  match semanticTokens with
  | [] => []
  | _ :: _ =>
      (match dedupedFoundation with
       | [] => [ str ":root {" ]
       | _ :: _ =>
           [ ruleLine;
             str "// Semantic Layer - :root scope (globally accessible, theme-specific values)";
             ruleLine;
             str ":root {" ]
       end) ++
      List.concat (List.map (groupLines tokenLine)
                            (groupSemanticTokens semanticTokens)) ++
      [ str "}"; [];
        ruleLine;
        str "// Legacy Custom Properties (backward compat " ++ emDash ++
          str " kept under %css-variables / .chi)";
        ruleLine;
        str "%css-variables {";
        str "  --color-background-primary: #{$color-background-primary};";
        str "  --color-background-secondary: #{$color-background-secondary};";
        str "  --color-link-cta-icon: #{$link-cta-icon-color};";
        str "  --color-marketing-icon-primary: #{$marketing-icon-primary-color};";
        str "  --color-marketing-icon-secondary: #{$marketing-icon-secondary-color};";
        str "  --color-marketing-icon-tertiary: #{$marketing-icon-tertiary-color};";
        str "  --color-marketing-icon-shadow: #{$marketing-icon-shadow-color};";
        str "}" ]
  end.

(** The tokens [generateCssVariablesScss] selects. *)
Definition foundationTokensOf (themeVars globalVars : list ScssVariable)
  (layers : list Layer) : list ScssVariable :=
  if layersInclude layers foundation
  then filter isFoundation globalVars ++ filter isFoundation themeVars
  else [].

Definition semanticTokensOf (themeVars : list ScssVariable)
  (layers : list Layer) : list ScssVariable :=
  if layersInclude layers semantic then filter isSemantic themeVars else [].

Definition syntheticCount : nat :=
  fold_left (fun sum arr => sum + List.length arr) ALL_SYNTHETIC_TOKENS 0.

(** The header of the generated file; [now] is [new Date().toISOString()]. *)
Definition headerLines (theme : Theme) (now : jsstring)
  (foundationCount semanticCount totalCount : nat) : list jsstring :=
  [ ruleLine;
    str "// CSS Custom Properties - " ++ capitalize (themeName theme) ++ str " Theme";
    str "// Generated by: scripts/generate-css-custom-properties.ts";
    str "// Generated at: " ++ now;
    str "// Total Properties: " ++ ofNat totalCount;
    str "// Foundation: " ++ ofNat foundationCount ++ str " | Semantic: " ++
      ofNat semanticCount;
    str "// All foundation + semantic tokens at :root (globally accessible)";
    str "// Legacy properties under %css-variables / .chi (backward compat)";
    ruleLine;
    [];
    str "@import '_global-variables';";
    str "@import '_variables';";
    str "@import '_global-mixins';";
    str "@import '_mixins';";
    [];
    str "// sass-lint:disable-all";
    [] ].

(** The [lines] array at the end of [generateCssVariablesScss]. *)
Definition scssLines (themeVars globalVars : list ScssVariable) (theme : Theme)
  (layers : list Layer) (now : jsstring) : list jsstring :=
  let foundationTokens := foundationTokensOf themeVars globalVars layers in
  let semanticTokens := semanticTokensOf themeVars layers in
  let dedupedFoundation := dedupe foundationTokens in
  let foundationCount := List.length dedupedFoundation + syntheticCount in
  let semanticCount := List.length semanticTokens in
  let totalCount := foundationCount + semanticCount in
  headerLines theme now foundationCount semanticCount totalCount ++
  foundationSection dedupedFoundation ++
  semanticSection semanticTokens dedupedFoundation ++
  [ [] ].

Definition generateCssVariablesScss (themeVars globalVars : list ScssVariable)
  (theme : Theme) (layers : list Layer) (now : jsstring) : GeneratedOutput :=
  let foundationTokens := foundationTokensOf themeVars globalVars layers in
  let semanticTokens := semanticTokensOf themeVars layers in
  let dedupedFoundation := dedupe foundationTokens in
  let foundationCount := List.length dedupedFoundation + syntheticCount in
  let semanticCount := List.length semanticTokens in
  let totalCount := foundationCount + semanticCount in
  mkOutput (join (scssLines themeVars globalVars theme layers now) [10%N])
           foundationCount semanticCount totalCount.

(** ** JSON metadata generator *)

Record TokenEntry : Type := mkEntry {
  scssVariable : jsstring;
  cssVariable : jsstring;
  entry_rawValue : jsstring;
  resolvedValue : jsstring;
  entry_type : jsstring;
  entry_category : jsstring;
  entry_comment : option jsstring
}.

Record TokenCount : Type := mkTokenCount {
  count_foundation : nat;
  count_semantic : nat;
  count_component : nat;
  count_total : nat;
  cssCustomProperties : nat
}.

Record TokenMetadata : Type := mkMetadata {
  meta_theme : jsstring;
  version : jsstring;
  generatedAt : jsstring;
  tokenCount : TokenCount;
  tokens_foundation : StringMap TokenEntry;
  tokens_semantic : StringMap TokenEntry
}.

Definition inferTokenType (name value : jsstring) : jsstring :=
  if startsWithS name "color-" || startsWithS name "focus-color" then str "color"
  else if startsWithS name "font-family-" then str "fontFamily"
  else if startsWithS name "font-size-" then str "fontSize"
  else if startsWithS name "font-weight-" then str "fontWeight"
  else if startsWithS name "line-height" then str "lineHeight"
  else if startsWithS name "opacity-" then str "opacity"
  else if startsWithS name "border-radius" then str "borderRadius"
  else if startsWithS name "border-width-" then str "borderWidth"
  else if startsWithS name "icon-size-" then str "size"
  else if JS.eqb name (str "base-unit") then str "dimension"
  else if startsWithS name "link-" then str "color"
  else if startsWithS name "shadow-" then str "shadow"
  else if startsWithS name "spacing-" then str "spacing"
  else if startsWithS name "duration-" then str "duration"
  else if startsWithS name "ease" then str "easing"
  else if test (Suffix (lits "-breakpoint")) name then str "breakpoint"
  else if startsWithS name "zindex-" then str "zIndex"
  else str "other".

Definition inferCategory (name : jsstring) : jsstring :=
  if startsWithS name "font-" || startsWithS name "line-height" then str "typography"
  else if startsWithS name "color-text-" then str "text-colors"
  else if startsWithS name "color-icon-" then str "icon-colors"
  else if startsWithS name "color-border-" then str "border-colors"
  else if startsWithS name "color-background-" then str "background-colors"
  else if startsWithS name "color-" then str "color-palette"
  else if startsWithS name "opacity-" then str "opacity"
  else if startsWithS name "border-radius" then str "border-radius"
  else if startsWithS name "border-width-" then str "border-width"
  else if startsWithS name "icon-size" then str "icon-sizing"
  else if startsWithS name "focus-" || startsWithS name "link-" then str "interactive"
  else if JS.eqb name (str "base-unit") then str "spacing"
  else if startsWithS name "spacing-" then str "spacing"
  else if startsWithS name "shadow-" then str "elevation"
  else if startsWithS name "duration-" || startsWithS name "ease" then str "motion"
  else if test (Suffix (lits "-breakpoint")) name then str "breakpoints"
  else if startsWithS name "zindex-" then str "z-index"
  else str "other".

(** [...(c ? { comment: c } : {})]: the property is there for a non-empty
    comment only. *)
Definition truthyComment (c : option jsstring) : option jsstring :=
  match c with
  | Some (_ :: _) => c
  | _ => None
  end.

(** [s.replace(pat, rep)] for a non-empty string pattern: the first
    occurrence only. *)
Fixpoint replaceFirst (s pat rep : jsstring) : jsstring :=
  if startsWith s pat then rep ++ skipn (List.length pat) s
  else match s with
       | [] => []
       | c :: s' => c :: replaceFirst s' pat rep
       end.

(** The entry of a parsed token (foundation and semantic alike). *)
Definition tokenEntry (token : ScssVariable) : TokenEntry :=
  mkEntry (str "$" ++ name token)
          (toCssCustomProp (name token))
          (rawValue token)
          []
          (inferTokenType (name token) (rawValue token))
          (inferCategory (name token))
          (truthyComment (comment token)).

Definition syntheticEntry (syn : SyntheticToken) : TokenEntry :=
  mkEntry (if includes (scssExpression syn) (str "map-get")
           then str "map-get($shadow, " ++
                replaceFirst (syn_name syn) (str "shadow-") [] ++ str ")"
           else scssExpression syn)
          (toCssCustomProp (syn_name syn))
          (scssExpression syn)
          []
          (inferTokenType (syn_name syn) (scssExpression syn))
          (inferCategory (syn_name syn))
          (truthyComment (syn_comment syn)).

(** [for (const token of tokens) entries[token.name] = entry(token)], on a
    plain object.  An object lists its keys in the order of their insertion
    as long as none of them is an array index (such keys come first, in
    ascending order) and [__proto__] is not among them.  The names that reach
    the entries are those of the classified variables and of the synthetic
    tokens; for these the list below is the object (a semantic name starts
    with [color-], see [semantic_name_prefix]). *)
Definition putEntries {T : Type} (nameOf : T -> jsstring)
  (entryOf : T -> TokenEntry) (tokens : list T) (entries : StringMap TokenEntry)
  : StringMap TokenEntry :=
  fold_left (fun e token => mapSet e (nameOf token) (entryOf token)) tokens entries.

Definition generateTokenMetadata (themeVars globalVars : list ScssVariable)
  (theme : Theme) (generatedOutput : GeneratedOutput) (now : jsstring)
  : TokenMetadata :=
  let allFoundation :=
    filter isFoundation globalVars ++ filter isFoundation themeVars in
  let dedupedFoundation := dedupe allFoundation in
  let semanticTokens := filter isSemantic themeVars in
  let componentCount := List.length (filter isComponent themeVars) in
  let foundationEntries := putEntries name tokenEntry dedupedFoundation [] in
  let foundationEntries :=
    fold_left (fun e synArr => putEntries syn_name syntheticEntry synArr e)
              ALL_SYNTHETIC_TOKENS foundationEntries in
  let semanticEntries := putEntries name tokenEntry semanticTokens [] in
  mkMetadata (themeName theme) (str "7.0.0") now
    (mkTokenCount (foundationCount generatedOutput)
                  (semanticCount generatedOutput)
                  componentCount
                  (foundationCount generatedOutput +
                   semanticCount generatedOutput + componentCount)
                  (totalCount generatedOutput))
    foundationEntries semanticEntries.

(** [applyResolvedValues]: an entry whose [cssVariable] has a non-empty
    resolved value takes it. *)
Definition applyResolvedValues (entries : StringMap TokenEntry)
  (resolvedMap : StringMap jsstring) : StringMap TokenEntry :=
  List.map (fun ke =>
    let entry := snd ke in
    match mapGet resolvedMap (cssVariable entry) with
    | Some ((_ :: _) as resolved) =>
        (fst ke,
         mkEntry (scssVariable entry) (cssVariable entry) (entry_rawValue entry)
                 resolved (entry_type entry) (entry_category entry)
                 (entry_comment entry))
    | _ => ke
    end) entries.

(** ** Command line and main loop *)

(** What the script does to the outside, in order.  Informational
    [console.log] lines are not traced; the creation of [dist/tokens] is part
    of the write of a theme's JSON file. *)
Inductive Event : Type :=
| ConsoleWarn : jsstring -> Event
| ConsoleError : jsstring -> Event
| PrintDryRun : Theme -> GeneratedOutput -> TokenMetadata -> Event
| WriteScss : Theme -> jsstring -> Event
| WriteJson : Theme -> TokenMetadata -> Event
| WriteAllThemes : Event
| MakeDocsDir : jsstring -> Event              (* documentation repository *)
| CopyToDocs : jsstring -> jsstring -> Event.  (* repository, file name *)

(** The files, the SCSS compiler and the clock, as the script meets them. *)
Inductive CompileResult : Type :=
| CompileFails : jsstring -> CompileResult                 (* [sass.compile] throws *)
| Compiled : StringMap jsstring -> CompileResult.
       (* the [--chi-*] declarations scanned from the compiled CSS *)

(** The outcome of a file operation: [Fails msg] when it throws. *)
Inductive FileResult (A : Type) : Type :=
| Fails : jsstring -> FileResult A
| Done : A -> FileResult A.

Arguments Fails {A} _.
Arguments Done {A} _.

Record World : Type := mkWorld {
  readGlobalVars : FileResult jsstring;
  varsFile : Theme -> jsstring;
       (* [path.join(THEMES_DIR, theme, '_variables.scss')]: an absolute path,
          [THEMES_DIR] being resolved from the directory of the script *)
  varsFileExists : Theme -> bool;
  readThemeVars : Theme -> FileResult jsstring;
  writeScss : Theme -> FileResult unit;
  sassCompile : Theme -> CompileResult;
  writeJson : Theme -> FileResult unit;
  readThemeJson : Theme -> FileResult unit;
       (* [dist/tokens/<theme>.json] read back and parsed when it exists *)
  writeAllThemes : FileResult unit;
  docsRepoExists : jsstring -> bool;
       (* the sibling directory of that name exists *)
  makeDocsTokensDir : jsstring -> FileResult unit;
  readTokensDir : jsstring -> FileResult (list jsstring);
       (* [fs.readdirSync(DIST_TOKENS_DIR)], as met when syncing to the
          repository *)
  copyToDocs : jsstring -> jsstring -> FileResult unit;
  clock : jsstring                 (* [new Date().toISOString()] *)
}.

Record Args : Type := mkArgs {
  arg_themes : list Theme;
  arg_layers : list Layer;
  jsonOnly : bool;
  dryRun : bool
}.

Definition themeOfName (t : jsstring) : option Theme :=
  find (fun th => JS.eqb (themeName th) t) THEMES.

Definition layerName (l : Layer) : jsstring :=
  match l with
  | foundation => str "foundation"
  | semantic => str "semantic"
  end.

Definition layerOfName (l : jsstring) : option Layer :=
  find (fun x => JS.eqb (layerName x) l) LAYERS.

(** [arg.split('=')[1]] for an argument that holds an equal sign. *)
Definition afterEquals (arg : jsstring) : jsstring :=
  nth 1 (splitChar arg 61%N) [].

(** [a.filter((l) => LAYERS.includes(l))] *)
Fixpoint keepLayers (a : list jsstring) : list Layer :=
  match a with
  | [] => []
  | l :: a' =>
      match layerOfName l with
      | Some x => x :: keepLayers a'
      | None => keepLayers a'
      end
  end.

(** The loop of [parseArgs] over the arguments left. *)
Fixpoint parseArgsFrom (args : list jsstring) (a : Args) : Run Event Args :=
  match args with
  | [] => ret a
  | arg :: rest =>
      if startsWithS arg "--theme=" then
        let t := afterEquals arg in
        match themeOfName t with
        | Some th => parseArgsFrom rest (mkArgs [th] (arg_layers a) (jsonOnly a) (dryRun a))
        | None =>
            emit (ConsoleError (str "Unknown theme: " ++ t ++ str ". Available: " ++
                                join (List.map themeName THEMES) (str ", "))) ;;;
            throw (ProcessExit 1)
        end
      else if startsWithS arg "--layers=" then
        let layerArg := splitChar (afterEquals arg) 44%N in
        parseArgsFrom rest (mkArgs (arg_themes a) (keepLayers layerArg) (jsonOnly a) (dryRun a))
      else if JS.eqb arg (str "--json-only") then
        parseArgsFrom rest (mkArgs (arg_themes a) (arg_layers a) true (dryRun a))
      else if JS.eqb arg (str "--dry-run") then
        parseArgsFrom rest (mkArgs (arg_themes a) (arg_layers a) (jsonOnly a) true)
      else if JS.eqb arg (str "--help") || JS.eqb arg (str "-h") then
        throw (ProcessExit 0)
      else parseArgsFrom rest a
  end.

Definition parseArgs (argv : list jsstring) : Run Event Args :=
  parseArgsFrom argv (mkArgs THEMES LAYERS false false).

(** U+26A0, the sign of the warnings. *)
Definition warnSign : jsstring := [9888%N].

(** [resolveTokenValues]: a failed compilation is caught, warned about, and
    gives the empty map. *)
Definition resolveTokenValues (w : World) (theme : Theme) : Run Event (StringMap jsstring) :=
  tryCatch
    (match sassCompile w theme with
     | Compiled resolved => ret resolved
     | CompileFails msg => throw (Exception msg)
     end)
    (fun msg =>
       emit (ConsoleWarn (str "     " ++ warnSign ++ str " Failed to resolve values for " ++
                          themeName theme ++ str ": " ++ msg)) ;;;
       ret []).

(** A file operation that returns its result or throws. *)
Definition orThrow {A : Type} (r : FileResult A) : Run Event A :=
  match r with
  | Done a => ret a
  | Fails msg => throw (Exception msg)
  end.

(** [fs.readFileSync] followed by the parse. *)
Definition readAndParse (content : FileResult jsstring) : Run Event (list ScssVariable) :=
  match content with
  | Done c => ret (parseScssVariables c)
  | Fails msg => throw (Exception msg)
  end.

(** A write: traced when it succeeds. *)
Definition writeOrThrow (r : FileResult unit) (e : Event) : Run Event unit :=
  match r with
  | Done _ => emit e
  | Fails msg => throw (Exception msg)
  end.

(** The body of [for (const theme of themes)] for one theme. *)
Definition processTheme (w : World) (a : Args) (globalVars : list ScssVariable)
  (theme : Theme) : Run Event unit :=
  if negb (varsFileExists w theme) then
    emit (ConsoleWarn (str "   " ++ warnSign ++ str " Theme " ++ [34%N] ++
                       themeName theme ++ [34%N] ++
                       str " variables file not found: " ++ varsFile w theme))
  else
    themeVars <- readAndParse (readThemeVars w theme) ;;
    let output := generateCssVariablesScss themeVars globalVars theme (arg_layers a) (clock w) in
    let metadata := generateTokenMetadata themeVars globalVars theme output (clock w) in
    if dryRun a then emit (PrintDryRun theme output metadata)
    else
      (if negb (jsonOnly a)
       then writeOrThrow (writeScss w theme) (WriteScss theme (scss output))
       else ret tt) ;;;
      resolvedMap <- resolveTokenValues w theme ;;
      let metadata :=
        match resolvedMap with
        | [] => metadata
        | _ :: _ =>
            mkMetadata (meta_theme metadata) (version metadata) (generatedAt metadata)
              (tokenCount metadata)
              (applyResolvedValues (tokens_foundation metadata) resolvedMap)
              (applyResolvedValues (tokens_semantic metadata) resolvedMap)
        end in
      writeOrThrow (writeJson w theme) (WriteJson theme metadata).

(** [for (const theme of themes) { ... }] *)
Fixpoint processThemes (w : World) (a : Args) (globalVars : list ScssVariable)
  (themes : list Theme) : Run Event unit :=
  match themes with
  | [] => ret tt
  | theme :: rest =>
      processTheme w a globalVars theme ;;;
      processThemes w a globalVars rest
  end.

(** The theme files read back for [all-themes.json]:
    [if (fs.existsSync(jsonPath)) allThemes[theme] = JSON.parse(...)]. *)
Fixpoint readAllThemeJson (w : World) (themes : list Theme) : Run Event unit :=
  match themes with
  | [] => ret tt
  | theme :: rest =>
      orThrow (readThemeJson w theme) ;;;
      readAllThemeJson w rest
  end.

Definition DOCS_REPOS : list jsstring :=
  [str "matt-chi-documentation"; str "chi-documentation"].

(** [for (const file of files) fs.copyFileSync(...)] *)
Fixpoint copyFiles (w : World) (docsDir : jsstring) (files : list jsstring)
  : Run Event unit :=
  match files with
  | [] => ret tt
  | file :: rest =>
      writeOrThrow (copyToDocs w docsDir file) (CopyToDocs docsDir file) ;;;
      copyFiles w docsDir rest
  end.

(** The body of [for (const docsDir of DOCS_REPOS)]. *)
Definition syncDocs (w : World) (docsDir : jsstring) : Run Event unit :=
  if docsRepoExists w docsDir then
    writeOrThrow (makeDocsTokensDir w docsDir) (MakeDocsDir docsDir) ;;;
    files <- orThrow (readTokensDir w docsDir) ;;
    copyFiles w docsDir files
  else ret tt.

Fixpoint syncAllDocs (w : World) (docs : list jsstring) : Run Event unit :=
  match docs with
  | [] => ret tt
  | docsDir :: rest => syncDocs w docsDir ;;; syncAllDocs w rest
  end.

(** The body of [if (!dryRun && themes.length === THEMES.length)]: the theme
    files are read back, [all-themes.json] is written, and the token files
    are then copied to the documentation repositories that exist. *)
Definition consolidate (w : World) (themes : list Theme) : Run Event unit :=
  readAllThemeJson w themes ;;;
  writeOrThrow (writeAllThemes w) WriteAllThemes ;;;
  syncAllDocs w DOCS_REPOS.

(** [main()] *)
Definition main (w : World) (argv : list jsstring) : Run Event unit :=
  a <- parseArgs argv ;;
  globalVars <- readAndParse (readGlobalVars w) ;;
  processThemes w a globalVars (arg_themes a) ;;;
  if negb (dryRun a) && Nat.eqb (List.length (arg_themes a)) (List.length THEMES)
  then consolidate w (arg_themes a)
  else ret tt.

(** The process: [main().catch((err) => { console.error('Error:', err);
    process.exit(1); })]; the trace and the exit code ([0] when [main]
    returns).  The error is traced by its message after the label. *)
Definition runScript (w : World) (argv : list jsstring) : list Event * Z :=
  match main w argv with
  | (t, inr _) => (t, 0%Z)
  | (t, inl (ProcessExit code)) => (t, code)
  | (t, inl (Exception msg)) => (t ++ [ConsoleError (str "Error: " ++ msg)], 1%Z)
  end.

End Gen.

Import Gen.

(* ========================================================================= *)
(** * build/css/build.js *)
(* ========================================================================= *)

Module Build.

Definition allowedThemes : list jsstring :=
  [ str "lumen"; str "portal"; str "connect"; str "test"; str "colt";
    str "brightspeed"; str "centurylink" ].

(** [allowedThemes.includes(theme)] *)
Definition isAllowed (theme : jsstring) : bool :=
  existsb (JS.eqb theme) allowedThemes.

(** [process.env.THEMES_TO_BUILD?.split(',') || allowedThemes] *)
Definition themes (THEMES_TO_BUILD : option jsstring) : list jsstring :=
  match THEMES_TO_BUILD with
  | Some v => splitChar v 44%N
  | None => allowedThemes
  end.

Inductive Event : Type :=
| SpinnerStart : jsstring -> Event
| SpinnerSucceed : jsstring -> Event
| SpinnerFail : jsstring -> Event
| ConsoleError : jsstring -> Event
| ExecFile : jsstring -> list jsstring -> Event.   (* command, arguments *)

(** The platform, the [dist] directory and the child processes.  [None] from
    a child process is success, [Some msg] the message of the error
    [execFileSync] throws. *)
Record World : Type := mkWorld {
  isWindows : bool;
  distPath : jsstring -> jsstring;   (* [path.resolve(__dirname, 'dist', fileName)] *)
  existsSync : jsstring -> bool;
  deleteFails : jsstring -> option jsstring;   (* by file path *)
  viteFails : jsstring -> option jsstring      (* by theme *)
}.

(** [execFileSync(cmd, args)] *)
Definition execFileSync (cmd : jsstring) (args : list jsstring)
  (fails : option jsstring) : Run Event unit :=
  emit (ExecFile cmd args) ;;;
  match fails with
  | Some msg => throw (Exception msg)
  | None => ret tt
  end.

Definition cssFileName (theme : jsstring) : jsstring :=
  if JS.eqb theme (str "lumen") then str "chi.css"
  else str "chi-" ++ theme ++ str ".css".

Definition deleteCssFile (w : World) (theme : jsstring) : Run Event unit :=
  if negb (isAllowed theme) then
    throw (Exception (str "[CHI]: Invalid theme: " ++ theme))
  else
    let fileName := cssFileName theme in
    let filePath := distPath w fileName in
    if existsSync w filePath then
      tryCatch
        (if isWindows w
         then execFileSync (str "cmd")
                [str "/c"; str "del"; str "/f"; [34%N] ++ filePath ++ [34%N]]
                (deleteFails w filePath)
         else execFileSync (str "rm") [str "-f"; filePath] (deleteFails w filePath))
        (fun msg =>
           emit (ConsoleError (str "[CHI]: Error deleting " ++ fileName ++
                               str ": " ++ msg)))
    else ret tt.

Definition buildTheme (w : World) (theme : jsstring) : Run Event unit :=
  emit (SpinnerStart (str "[CHI]: Building " ++ theme ++
                      str " theme (no file mutations)")) ;;;
  tryCatch
    (deleteCssFile w theme ;;;
     execFileSync (str "cross-env")
       [str "THEME=" ++ theme; str "vite"; str "build"; str "--c";
        str "vite-css.config.ts"]
       (viteFails w theme) ;;;
     emit (SpinnerSucceed (str "[CHI]: Build for " ++ theme ++
                           str " theme completed successfully")))
    (fun msg =>
       emit (SpinnerFail (str "[CHI]: Error during build for " ++ theme ++
                          str " theme: " ++ msg)) ;;;
       throw (Exception msg)).

(** [for (const theme of themes) { await buildTheme(theme); }] *)
Fixpoint buildAllThemes (w : World) (themes : list jsstring) : Run Event unit :=
  match themes with
  | [] => ret tt
  | theme :: rest => buildTheme w theme ;;; buildAllThemes w rest
  end.

(** The process: the rejection of [buildAllThemes()] is not handled, which
    ends the process with exit code 1. *)
Definition runScript (w : World) (THEMES_TO_BUILD : option jsstring)
  : list Event * Z :=
  match buildAllThemes w (themes THEMES_TO_BUILD) with
  | (t, inr _) => (t, 0%Z)
  | (t, inl (ProcessExit code)) => (t, code)
  | (t, inl (Exception _)) => (t, 1%Z)
  end.

End Build.

(* ========================================================================= *)
(** * The popover component *)
(* ========================================================================= *)

Module Popover.

(** What [show] and [hide] do to the page, in order.  The animation, which
    runs later from promises and timers, is traced by its start. *)
(** [chi.classes.ACTIVE] and [chi.classes.TRANSITIONING]. *)
Inductive ChiClass : Type := ACTIVE | TRANSITIONING.

Inductive DomOp : Type :=
| Dispatch : jsstring -> DomOp              (* on the trigger element *)
| AddClass : ChiClass -> DomOp              (* on the popover element *)
| RemoveClass : ChiClass -> DomOp
| SetAriaHidden : bool -> DomOp
| StartShowAnimation : DomOp
| StartHideAnimation : DomOp.

Definition SHOW_DEPRECATED : jsstring := str "chi.popover.show".
Definition HIDE_DEPRECATED : jsstring := str "chi.popover.hide".
Definition SHOW : jsstring := str "chiPopoverShow".
Definition HIDE : jsstring := str "chiPopoverHide".

(** The fields of an instance that [show], [hide] and [toggle] read or
    write, and the operations done so far. *)
Record Popover : Type := mkPopover {
  _shown : bool;
  lastActioned : option Z;          (* [None]: never assigned *)
  animate : bool;                   (* [_config.animate] *)
  delayBetweenInteractions : Z;     (* [_config.delayBetweenInteractions] *)
  dom : list DomOp
}.

Definition setShown (p : Popover) (b : bool) : Popover :=
  mkPopover b (lastActioned p) (animate p) (delayBetweenInteractions p) (dom p).

Definition setLastActioned (p : Popover) (t : Z) : Popover :=
  mkPopover (_shown p) (Some t) (animate p) (delayBetweenInteractions p) (dom p).

Definition doAll (p : Popover) (ops : list DomOp) : Popover :=
  mkPopover (_shown p) (lastActioned p) (animate p) (delayBetweenInteractions p)
            (dom p ++ ops).

(** [allowConsecutiveActions()]; [now] is [new Date().getTime()].  A
    [lastActioned] of [0] is falsy like an unassigned one. *)
Definition allowConsecutiveActions (p : Popover) (now : Z) : bool * Popover :=
  match lastActioned p with
  | None => (true, setLastActioned p now)
  | Some last =>
      if Z.eqb last 0 then (true, setLastActioned p now)
      else if Z.ltb (delayBetweenInteractions p) (now - last)
      then (true, setLastActioned p now)
      else (false, p)
  end.

Definition show (p : Popover) (force : bool) (now : Z) : Popover :=
  if _shown p then p
  else
    let (allowed, p) := allowConsecutiveActions p now in
    if negb allowed && negb force then p
    else
      let p := setShown p true in
      let p := doAll p [Dispatch SHOW_DEPRECATED; Dispatch SHOW] in
      if negb (animate p) then doAll p [AddClass ACTIVE; SetAriaHidden false]
      else doAll p [AddClass TRANSITIONING; StartShowAnimation].

Definition hide (p : Popover) (force : bool) (now : Z) : Popover :=
  if negb (_shown p) then p
  else
    let (allowed, p) := allowConsecutiveActions p now in
    if negb allowed && negb force then p
    else
      let p := setShown p false in
      let p := doAll p [Dispatch HIDE_DEPRECATED; Dispatch HIDE] in
      if negb (animate p) then doAll p [RemoveClass ACTIVE; SetAriaHidden true]
      else doAll p [StartHideAnimation].

Definition toggle (p : Popover) (now : Z) : Popover :=
  if _shown p then hide p false now else show p false now.

(** The instance the constructor leaves. *)
Definition create (animate : bool) (delay : Z) : Popover :=
  mkPopover false None animate delay [].

End Popover.

(* ========================================================================= *)
(** * The click handlers of the popover *)
(* ========================================================================= *)

(** The three handlers [_initDefaultEventListeners] makes, as functions on
    the instance.  [_closeOnClickOnDocument] is never assigned by the
    constructor; an unassigned field is falsy like [false]. *)
Module Clicks.

Record Instance : Type := mkInstance {
  popover : Popover.Popover;
  _closeOnClickOnDocument : bool
}.

Definition _mouseClickOnPopover (i : Instance) : Instance :=
  mkInstance (popover i) false.

(** [hide()] is called without argument: [force] is falsy. *)
Definition _mouseClickOnDocument (i : Instance) (now : Z) : Instance :=
  if _closeOnClickOnDocument i
  then mkInstance (Popover.hide (popover i) false now) (_closeOnClickOnDocument i)
  else mkInstance (popover i) true.

Definition _mouseClickEventHandler (i : Instance) (now : Z) : Instance :=
  let i := mkInstance (popover i) false in
  mkInstance (Popover.toggle (popover i) now) (_closeOnClickOnDocument i).

End Clicks.

(* ========================================================================= *)
(** * The scan of the compiled CSS *)
(* ========================================================================= *)

(** [resolveTokenValues] reads the compiled CSS with
    [/^\s*(--chi-[a-z0-9-]+)\s*:\s*(.+?)\s*;/gm], calling [exec] until it
    returns [null].  The pattern is written here item by item with the
    backtracking of the quantifiers: each takes what follows it in the
    pattern as [k]. *)
Module Resolve.

Section Backtracking.

Variable R : Type.
Variable p : char -> bool.
Variable k : jsstring -> option R.

(** [p*] and then [k]: the longest run first, then one character less. *)
Fixpoint greedyStar (s : jsstring) : option R :=
  match s with
  | c :: s' =>
      if p c
      then match greedyStar s' with
           | Some r => Some r
           | None => k s
           end
      else k s
  | [] => k []
  end.

(** [p+] and then [k]. *)
Definition greedyPlus (s : jsstring) : option R :=
  match s with
  | c :: s' => if p c then greedyStar s' else None
  | [] => None
  end.

(** [p*?] and then [k]: the shortest run first, then one character more. *)
Fixpoint lazyStar (s : jsstring) : option R :=
  match k s with
  | Some r => Some r
  | None =>
      match s with
      | c :: s' => if p c then lazyStar s' else None
      | [] => None
      end
  end.

(** [p+?] and then [k]. *)
Definition lazyPlus (s : jsstring) : option R :=
  match s with
  | c :: s' => if p c then lazyStar s' else None
  | [] => None
  end.

End Backtracking.

(** [[a-z0-9-]] *)
Definition isPropNameChar (c : char) : bool :=
  (N.leb 97 c && N.leb c 122) || (N.leb 48 c && N.leb c 57) || N.eqb c 45.

(** What a group captured: the text between where it started, [from], and
    where it ended, [to], a suffix of [from]. *)
Definition captured (from to : jsstring) : jsstring :=
  firstn (List.length from - List.length to) from.

(** The pattern after its [^], matched at the start of [s]: groups 1 and 2
    and the text after the match. *)
Definition matchProp (s : jsstring) : option (jsstring * jsstring * jsstring) :=
  greedyStar isSpace (fun s1 =>
    if startsWith s1 (str "--chi-") then
      greedyPlus isPropNameChar (fun s3 =>
        let group1 := captured s1 s3 in
        greedyStar isSpace (fun s4 =>
          match s4 with
          | 58%N :: s5 =>
              greedyStar isSpace (fun s6 =>
                lazyPlus isDot (fun s7 =>
                  let group2 := captured s6 s7 in
                  greedyStar isSpace (fun s8 =>
                    match s8 with
                    | 59%N :: s9 => Some (group1, group2, s9)
                    | _ => None
                    end) s7) s6) s5
          | _ => None
          end) s3) (skipn 6 s1)
    else None) s.

(** The loop of [exec] over the text: [prev] is the character before [s]
    ([None] at the start of the text) and [skip] the number of characters of
    [s] that the last match still covers.  With the flag [m], [^] holds at
    the start of the text and after a line terminator; [exec] tries the
    positions in order from [lastIndex], which a match sets to its end. *)
Fixpoint scan (prev : option char) (skip : nat) (s : jsstring)
  : list (jsstring * jsstring) :=
  match s with
  | [] => []
  | c :: s' =>
      match skip with
      | S skip' => scan (Some c) skip' s'
      | O =>
          let atLineStart :=
            match prev with
            | None => true
            | Some b => isLineTerminator b
            end in
          if atLineStart then
            match matchProp s with
            | Some (group1, group2, rest) =>
                (group1, group2) ::
                scan (Some c) (List.length s - List.length rest - 1) s'
            | None => scan (Some c) 0 s'
            end
          else scan (Some c) 0 s'
      end
  end.

(** The matches of the [while] loop, in order. *)
Definition cssProps (css : jsstring) : list (jsstring * jsstring) :=
  scan None 0 css.

(** [resolved] at the end of the loop: [resolved.set(match[1], match[2])]
    for every match. *)
Definition resolvedMap (css : jsstring) : StringMap jsstring :=
  fold_left (fun m kv => mapSet m (fst kv) (snd kv)) (cssProps css) [].

End Resolve.

(* ========================================================================= *)
(** * Reference definitions for the properties *)
(* ========================================================================= *)

Module Ref.

(** ** The spacing scale as a table *)

(** The rem values: 0, then 0.25 to 3 by 0.25, then 3.5 and 4, then 5 to 24. *)
Definition spacingRems : list Q :=
  [ 0; 1 # 4; 1 # 2; 3 # 4; 1; 5 # 4; 3 # 2; 7 # 4; 2; 9 # 4; 5 # 2; 11 # 4; 3;
    7 # 2; 4;
    5; 6; 7; 8; 9; 10; 11; 12; 13; 14; 15; 16; 17; 18; 19; 20; 21; 22; 23; 24 ]%Q.

(** The same values as they are printed. *)
Definition spacingRemTexts : list string :=
  [ "0"; "0.25"; "0.5"; "0.75"; "1"; "1.25"; "1.5"; "1.75"; "2"; "2.25"; "2.5";
    "2.75"; "3"; "3.5"; "4";
    "5"; "6"; "7"; "8"; "9"; "10"; "11"; "12"; "13"; "14"; "15"; "16"; "17";
    "18"; "19"; "20"; "21"; "22"; "23"; "24" ]%string.

(** [Some k] when [r] is [k] times 0.5 for an integer [k] from 0 to 10. *)
Definition chiSpaceIndex (r : Q) : option nat :=
  find (fun k => Qeq_bool r (inject_Z (Z.of_nat k) * (1 # 2))) (seq 0 11).

(** What the specification says of the token at position [i] with rem value
    [r] printed as [text]. *)
Definition spacingTokenOk (i : nat) (r : Q) (text : string) (t : SyntheticToken)
  : Prop :=
  syn_name t = str "spacing-" ++ ofNat i /\
  scssExpression t = (if Nat.eqb i 0 then str "0" else str text ++ str "rem") /\
  exists c, syn_comment t = Some c /\
    match chiSpaceIndex r with
    | Some k => endsWith c (str "Chi space(" ++ ofNat k ++ str ")") = true
    | None => includes c (str "Chi space") = false
    end.

Fixpoint spacingTableOk (i : nat) (rs : list Q) (texts : list string)
  (ts : list SyntheticToken) : Prop :=
  match rs, texts, ts with
  | [], [], [] => True
  | r :: rs', text :: texts', t :: ts' =>
      spacingTokenOk i r text t /\ spacingTableOk (S i) rs' texts' ts'
  | _, _, _ => False
  end.

(** ** The record of a declaration line *)

(** The text before the last occurrence of [c]; [None] without one. *)
Fixpoint beforeLast (c : char) (s : jsstring) : option jsstring :=
  match s with
  | [] => None
  | x :: s' =>
      match beforeLast c s' with
      | Some a => Some (x :: a)
      | None => if N.eqb x c then Some [] else None
      end
  end.

(** The text after the first [//]; [None] without one. *)
Fixpoint afterSlashes (s : jsstring) : option jsstring :=
  match s with
  | [] => None
  | _ :: s' =>
      if startsWith s (str "//") then Some (skipn 2 s) else afterSlashes s'
  end.

(** What the parser keeps as the value of a declaration whose text after the
    colon is [part]: the text before the last semicolon of [part], cut at its
    first [//] wherever that lies, trimmed. *)
Definition keptValue (part : jsstring) : jsstring :=
  match beforeLast 59%N part with
  | Some a => trim (splitHead a (str "//"))
  | None => trim (splitHead part (str "//"))
  end.

(** What it keeps as the comment: the text that follows the first [//] of
    [part], wherever that lies, trimmed, when there is such a text. *)
Definition keptComment (part : jsstring) : option jsstring :=
  match afterSlashes part with
  | Some (c :: text) => Some (trim (c :: text))
  | _ => None
  end.

(** The lines that the parser handles one at a time: those that match the
    declaration pattern with a semicolon in the text after the colon, and
    those that do not match the pattern. *)
Definition oneLineOrNone (line : jsstring) : Prop :=
  match matchDecl line with
  | Some (_, part) => includes part (str ";") = true
  | None => True
  end.

(** The fields of a record that the specification describes. *)
Definition fields (v : ScssVariable) : jsstring * jsstring * option jsstring :=
  (name v, rawValue v, comment v).

(** What the parser keeps of such lines. *)
Definition keptRecords (lines : list jsstring)
  : list (jsstring * jsstring * option jsstring) :=
  flat_map (fun l =>
              match matchDecl l with
              | Some (nm, part) => [(nm, keptValue part, keptComment part)]
              | None => []
              end) lines.

(** ** Declaration lines as the specification writes them *)

(** A line [$name: value;], an inline [// comment] possibly following, by
    its parts. *)
Record DeclLine : Type := mkDeclLine {
  dl_name : jsstring;
  dl_beforeColon : jsstring;      (* white space between the name and the colon *)
  dl_value : jsstring;            (* the text between the colon and the semicolon *)
  dl_afterSemicolon : jsstring;   (* white space after the semicolon *)
  dl_comment : option jsstring    (* the text after [//] *)
}.

(** What follows the semicolon. *)
Definition afterValue (d : DeclLine) : jsstring :=
  dl_afterSemicolon d ++
  match dl_comment d with
  | Some text => str "//" ++ text
  | None => []
  end.

Definition lineText (d : DeclLine) : jsstring :=
  str "$" ++ dl_name d ++ dl_beforeColon d ++ str ":" ++ dl_value d ++ str ";" ++
  afterValue d.

(** The parts are what they are meant to be: a name of name characters, white
    space where white space is meant, a value that holds no [//], a comment
    that holds no semicolon, and nothing that ends the line early. *)
Definition plainDecl (d : DeclLine) : bool :=
  match dl_name d with [] => false | _ :: _ => true end &&
  forallb isIdentChar (dl_name d) &&
  forallb isSpace (dl_beforeColon d) &&
  forallb isDot (dl_value d) &&
  negb (includes (dl_value d) (str "//")) &&
  forallb (fun c => isSpace c && isDot c) (dl_afterSemicolon d) &&
  match dl_comment d with
  | Some text => forallb (fun c => isDot c && negb (N.eqb c 59)) text
  | None => true
  end.

(** The record the specification gives for it: the name, the value trimmed,
    and the text of the comment trimmed when a text follows [//]. *)
Definition declared (d : DeclLine) : jsstring * jsstring * option jsstring :=
  (dl_name d,
   trim (dl_value d),
   match dl_comment d with
   | Some (c :: text) => Some (trim (c :: text))
   | _ => None
   end).

(** The lines of a file: declarations, and lines that match no declaration. *)
Inductive FileLine : Type :=
| Declaration : DeclLine -> FileLine
| OtherLine : jsstring -> FileLine.

Definition lineOf (x : FileLine) : jsstring :=
  match x with
  | Declaration d => lineText d
  | OtherLine l => l
  end.

Definition plainLine (x : FileLine) : Prop :=
  match x with
  | Declaration d => plainDecl d = true
  | OtherLine l => test DECL_PATTERN l = false
  end.

Definition recordsOf (xs : list FileLine)
  : list (jsstring * jsstring * option jsstring) :=
  flat_map (fun x => match x with
                     | Declaration d => [declared d]
                     | OtherLine _ => []
                     end) xs.

(** What the parser guarantees of every record: the name is made of name
    characters and the layer is the class of the name and value. *)
Definition parsedOk (v : ScssVariable) : Prop :=
  forallb isIdentChar (name v) = true /\
  layer v = classifyToken (str "$" ++ name v) (rawValue v).

(** ** Custom property declarations in the generated text *)

(** A line declares a [--chi-] custom property when that is how its text
    starts after the indentation. *)
Definition isChiDecl (line : jsstring) : bool :=
  startsWith (trimStart line) (str "--chi-").

(** The name such a line declares: the text up to the colon. *)
Fixpoint upToColon (s : jsstring) : jsstring :=
  match s with
  | [] => []
  | c :: s' => if N.eqb c 58 then [] else c :: upToColon s'
  end.

Definition propName (line : jsstring) : jsstring := upToColon (trimStart line).

(** The declarations among the lines of a text. *)
Definition chiDecls (text : jsstring) : list jsstring :=
  filter isChiDecl (splitChar text 10%N).

(** ** Overriding *)

(** The last variable of [l] named [n]. *)
Fixpoint lastNamed (n : jsstring) (l : list ScssVariable) : option ScssVariable :=
  match l with
  | [] => None
  | v :: l' =>
      match lastNamed n l' with
      | Some u => Some u
      | None => if JS.eqb (name v) n then Some v else None
      end
  end.

(** The names of the synthetic tokens, in the order of the scales. *)
Definition syntheticNames : list jsstring :=
  List.map syn_name (List.concat ALL_SYNTHETIC_TOKENS).

(** A check that the strings of a list are pairwise different. *)
Fixpoint distinct (l : list jsstring) : bool :=
  match l with
  | [] => true
  | x :: l' => negb (existsb (JS.eqb x) l') && distinct l'
  end.

(** ** The map behind [dedupe] *)

(** Every value sits under its own name. *)
Definition keyed (m : StringMap ScssVariable) : Prop :=
  Forall (fun kv => fst kv = name (snd kv)) m.

(** The loop of [dedupe], from a map [m]. *)
Definition setAll (l : list ScssVariable) (m : StringMap ScssVariable)
  : StringMap ScssVariable :=
  fold_left (fun m v => mapSet m (name v) v) l m.

(** ** Computations that do not exit *)

(** The computation does not end by [process.exit]. *)
Definition noExit {E A : Type} (m : Run E A) : Prop :=
  forall c, snd m <> inl (ProcessExit c).

(** ** Sample inputs and worlds *)

Definition sampleClock : jsstring := str "2025-01-01T00:00:00.000Z".

Definition sampleGlobalFile : jsstring := str "$color-white: #fff;".

Definition sampleThemeFile : jsstring := str "$color-text-base: #000;".

Definition sampleVarsFile (theme : Theme) : jsstring :=
  str "/repo/src/chi/themes/" ++ themeName theme ++ str "/_variables.scss".

(** Every file is there and every operation succeeds; no documentation
    repository beside the checkout. *)
Definition calmWorld : World :=
  mkWorld (Done sampleGlobalFile) sampleVarsFile (fun _ => true)
          (fun _ => Done sampleThemeFile)
          (fun _ => Done tt) (fun _ => Compiled []) (fun _ => Done tt)
          (fun _ => Done tt) (Done tt)
          (fun _ => false) (fun _ => Done tt) (fun _ => Done []) (fun _ _ => Done tt)
          sampleClock.

(** The variables file of every theme is missing. *)
Definition worldWithoutVarsFiles : World :=
  mkWorld (Done sampleGlobalFile) sampleVarsFile (fun _ => false)
          (fun _ => Done sampleThemeFile)
          (fun _ => Done tt) (fun _ => Compiled []) (fun _ => Done tt)
          (fun _ => Done tt) (Done tt)
          (fun _ => false) (fun _ => Done tt) (fun _ => Done []) (fun _ _ => Done tt)
          sampleClock.

(** The SCSS compilation of every theme fails. *)
Definition worldWithFailingSass : World :=
  mkWorld (Done sampleGlobalFile) sampleVarsFile (fun _ => true)
          (fun _ => Done sampleThemeFile)
          (fun _ => Done tt) (fun _ => CompileFails (str "Undefined variable."))
          (fun _ => Done tt)
          (fun _ => Done tt) (Done tt)
          (fun _ => false) (fun _ => Done tt) (fun _ => Done []) (fun _ _ => Done tt)
          sampleClock.

(** The repository [chi-documentation] is there, [dist/tokens] holds two
    files, and the copy of the second one fails. *)
Definition worldWithFailingSync : World :=
  mkWorld (Done sampleGlobalFile) sampleVarsFile (fun _ => true)
          (fun _ => Done sampleThemeFile)
          (fun _ => Done tt) (fun _ => Compiled []) (fun _ => Done tt)
          (fun _ => Done tt) (Done tt)
          (fun d => JS.eqb d (str "chi-documentation")) (fun _ => Done tt)
          (fun _ => Done [str "lumen.json"; str "all-themes.json"])
          (fun _ f => if JS.eqb f (str "all-themes.json")
                      then Fails (str "EACCES: permission denied") else Done tt)
          sampleClock.

(** The global variables file cannot be read. *)
Definition worldWithoutGlobalFile : World :=
  mkWorld (Fails (str "ENOENT: no such file or directory")) sampleVarsFile
          (fun _ => true) (fun _ => Done sampleThemeFile)
          (fun _ => Done tt) (fun _ => Compiled []) (fun _ => Done tt)
          (fun _ => Done tt) (Done tt)
          (fun _ => false) (fun _ => Done tt) (fun _ => Done []) (fun _ _ => Done tt)
          sampleClock.

(** The JSON file of the theme connect cannot be written. *)
Definition worldWithFailingJsonWrite : World :=
  mkWorld (Done sampleGlobalFile) sampleVarsFile (fun _ => true)
          (fun _ => Done sampleThemeFile)
          (fun _ => Done tt) (fun _ => Compiled [])
          (fun theme => match theme with
                        | connect => Fails (str "ENOSPC: no space left on device")
                        | _ => Done tt
                        end)
          (fun _ => Done tt) (Done tt)
          (fun _ => false) (fun _ => Done tt) (fun _ => Done []) (fun _ _ => Done tt)
          sampleClock.

(** A trace without its payloads. *)
Inductive EventKind : Type :=
| Warned | Errored | Printed | WroteScss | WroteJson | WroteAll | MadeDir | Copied.

Definition kind (e : Event) : EventKind :=
  match e with
  | ConsoleWarn _ => Warned
  | ConsoleError _ => Errored
  | PrintDryRun _ _ _ => Printed
  | WriteScss _ _ => WroteScss
  | WriteJson _ _ => WroteJson
  | WriteAllThemes => WroteAll
  | MakeDocsDir _ => MadeDir
  | CopyToDocs _ _ => Copied
  end.

(** The resolved values of the entries a [WriteJson] event carries. *)
Definition resolvedValuesOf (e : Event) : list jsstring :=
  match e with
  | WriteJson _ m =>
      List.map (fun ke => resolvedValue (snd ke))
               (tokens_foundation m ++ tokens_semantic m)
  | _ => []
  end.

(** A build world: no old stylesheet in [dist]; the compile step fails for
    the themes of [failing]. *)
Definition buildWorld (failing : list jsstring) : Build.World :=
  Build.mkWorld false (fun f => str "/repo/dist/" ++ f) (fun _ => false)
    (fun _ => None)
    (fun theme => if existsb (JS.eqb theme) failing
                  then Some (str "Command failed: cross-env") else None).

End Ref.

(* ========================================================================= *)
(** * Definitions for the further properties *)
(* ========================================================================= *)

Module Obs.

(** ** Parsed records *)

(** The text holds no line feed. *)
Definition noLF (s : jsstring) : bool :=
  forallb (fun c => negb (N.eqb c 10)) s.

(** What holds of every record [parseScssVariables] returns: a non-empty name
    of name characters, a raw value and a comment without white space at
    either end and without line feed, and the layer [classifyToken] gives. *)
Definition wellFormed (v : ScssVariable) : Prop :=
  name v <> [] /\
  forallb isIdentChar (name v) = true /\
  trim (rawValue v) = rawValue v /\
  noLF (rawValue v) = true /\
  (forall c, comment v = Some c -> trim c = c /\ noLF c = true) /\
  layer v = classifyToken (str "$" ++ name v) (rawValue v).

(** The lines [accumulate] appends to [part], one after the other. *)
Definition appendLines (part : jsstring) (used : list jsstring) : jsstring :=
  fold_left (fun acc l => acc ++ str " " ++ trim l) used part.

(** The lines that complete a declaration without semicolon: the following
    lines up to and including the first that holds one, all of them when none
    does. *)
Fixpoint upToSemicolon (rest : list jsstring) : list jsstring :=
  match rest with
  | [] => []
  | l :: rest' =>
      if includes l (str ";") then [l] else l :: upToSemicolon rest'
  end.

(** ** Pattern tables *)

(** The regular expression [test] matches the whole input against. *)
Definition regexOf (p : RegExp) : regex :=
  match p with
  | Whole r => r
  | Prefix r => Cat r anything
  | Suffix r => Cat anything r
  | PrefixNotBefore r n => Cat r (Not (Cat n anything))
  end.

(** The derivative by a word. *)
Definition ders (s : jsstring) (r : regex) : regex :=
  fold_left (fun r c => der c r) s r.

(** A check that the language of a regular expression is empty (sound, not
    complete). *)
Fixpoint dead (r : regex) : bool :=
  match r with
  | Void => true
  | Cat a b => dead a || dead b
  | Alt a b => dead a && dead b
  | _ => false
  end.

(** No pattern of the table matches an input that starts with [prefix]. *)
Definition noMatchAfter (prefix : jsstring) (patterns : list RegExp) : bool :=
  forallb (fun p => dead (ders prefix (regexOf p))) patterns.

(** The names [EXCLUDE_PATTERNS] spells out. *)
Definition excludedNames : list jsstring :=
  [ str "$state-colors"; str "$color-semantic"; str "$screen-sizes";
    str "$shadow"; str "$cap-height"; str "$font-family-icon";
    str "$icon-color" ].

(** The group and the category of the four kinds of semantic tokens. *)
Definition semanticKinds : list (jsstring * jsstring) :=
  [ (str "Text Colors", str "text-colors");
    (str "Icon Colors", str "icon-colors");
    (str "Border Colors", str "border-colors");
    (str "Background Colors", str "background-colors") ].

(** ** The names [FOUNDATION_PATTERNS] accepts *)

(** [stem] followed by each alternative of [l]. *)
Definition stemmed (stem : string) (l : string) : list jsstring :=
  List.map (fun a => str stem ++ a) (splitChar (str l) 124%N).

(** The names accepted letter for letter. *)
Definition foundationFixed : list jsstring :=
  stemmed "font-family-" "base|mono" ++
  stemmed "font-size-" "3xl|2xl|xl|lg|md|sm|xs|2xs|base|h1|h2|h3|h4|h5|h6" ++
  stemmed "font-weight-"
    "light|normal|medium|semi-bold|bold|extra-bold|black|base|h1|h2|h3|h4|h5|h6" ++
  stemmed "line-height-" "base|xl|lg|md|sm|h1|h2|h3|h4|h5|h6" ++
  stemmed "color-" "black|white" ++
  stemmed "" "base-unit|focus-color|link-color|link-hover-color" ++
  stemmed "border-radius-" "base|sharp|circle|medium|rounded-pill" ++
  stemmed "icon-size-" "base|xs|sm|sm2|sm3|md|lg|xl|xxl" ++
  stemmed "" "sm-breakpoint|md-breakpoint|lg-breakpoint|xl-breakpoint|xxl-breakpoint".

(** The colour ramps. *)
Definition hues : list jsstring :=
  splitChar (str "grey|red|pink|purple|indigo|violet|navy|blue|bright-blue|cyan|teal|teal-blue|mint|green|yellow|orange") 124%N.

(** The shape of a name [FOUNDATION_PATTERNS] accepts (without its dollar
    sign): a fixed name, a step of a colour ramp, a step of the opacity
    scale, or a z-index. *)
Definition foundationShape (name : jsstring) : Prop :=
  In name foundationFixed \/
  (exists hue ds, In hue hues /\ name = str "color-" ++ hue ++ str "-" ++ ds) \/
  (exists ds, name = str "opacity-" ++ ds) \/
  (exists x, name = str "zindex-" ++ x).

(** ** Grouping *)

(** The strings of [l] without repetition, in the order of their first
    occurrence. *)
Fixpoint firstSeen (l : list jsstring) : list jsstring :=
  match l with
  | [] => []
  | x :: l' => x :: filter (fun y => negb (JS.eqb y x)) (firstSeen l')
  end.

(** The tokens of group [k], in the order of [tokens]. *)
Definition inGroup {V : Type} (groupOf : V -> jsstring) (k : jsstring)
  (tokens : list V) : list V :=
  filter (fun t => JS.eqb (groupOf t) k) tokens.

(** The groups of [tokens]: in the order in which the groups first occur,
    each with its tokens in the order of [tokens]. *)
Definition grouped {V : Type} (groupOf : V -> jsstring) (tokens : list V)
  : list (jsstring * list V) :=
  List.map (fun k => (k, inGroup groupOf k tokens))
           (firstSeen (List.map groupOf tokens)).

(** ** Metadata *)

(** The entry of a synthetic token carries the type and the category of its
    row in the table, and the [--chi-] name of the token. *)
Definition syntheticEntryAgrees (s : SyntheticToken) : bool :=
  JS.eqb (entry_type (syntheticEntry s)) (syn_type s) &&
  JS.eqb (entry_category (syntheticEntry s)) (syn_category s) &&
  JS.eqb (cssVariable (syntheticEntry s)) (str "--chi-" ++ syn_name s) &&
  JS.eqb (entry_rawValue (syntheticEntry s)) (scssExpression s) &&
  JS.eqb (resolvedValue (syntheticEntry s)) [].

(** The entry [applyResolvedValues] leaves for [entry]. *)
Definition resolvedEntry (resolvedMap : StringMap jsstring) (entry : TokenEntry)
  : TokenEntry :=
  mkEntry (scssVariable entry) (cssVariable entry) (entry_rawValue entry)
          (match mapGet resolvedMap (cssVariable entry) with
           | Some v => v
           | None => []
           end)
          (entry_type entry) (entry_category entry) (entry_comment entry).

(** ** The command line *)

(** The event writes a file or makes a directory. *)
Definition isWrite (e : Event) : bool :=
  match e with
  | WriteScss _ _ | WriteJson _ _ | WriteAllThemes
  | MakeDocsDir _ | CopyToDocs _ _ => true
  | _ => false
  end.


(** The event writes an SCSS file. *)
Definition isScssWrite (e : Event) : bool :=
  match e with
  | WriteScss _ _ => true
  | _ => false
  end.


(** ** The copy to the documentation repositories *)

(** The files [dist/tokens] lists when the copy to [docsDir] is made. *)
Definition listed (w : World) (docsDir : jsstring) : list jsstring :=
  match readTokensDir w docsDir with
  | Done files => files
  | Fails _ => []
  end.

(** The copy of [file] to [docsDir] succeeds. *)
Definition copies (w : World) (docsDir file : jsstring) : bool :=
  match copyToDocs w docsDir file with
  | Done _ => true
  | Fails _ => false
  end.

(** Every step of the copy to [docsDir] succeeds: the directory is made,
    [dist/tokens] is listed, every file is copied. *)
Definition syncSucceeds (w : World) (docsDir : jsstring) : bool :=
  match makeDocsTokensDir w docsDir, readTokensDir w docsDir with
  | Done _, Done files => forallb (copies w docsDir) files
  | _, _ => false
  end.

(** What a copy that succeeds does, for the repositories that exist. *)
Definition syncEvents (w : World) (docs : list jsstring) : list Event :=
  flat_map (fun d => if docsRepoExists w d
                     then MakeDocsDir d :: List.map (CopyToDocs d) (listed w d)
                     else []) docs.

(** The repository an event of the copy names. *)
Definition docsOf (e : Event) : option jsstring :=
  match e with
  | MakeDocsDir d => Some d
  | CopyToDocs d _ => Some d
  | _ => None
  end.

(** ** The theme build runner *)

(** The build of [theme] goes through: the theme is allowed and the compile
    step does not fail. *)
Definition builds (w : Build.World) (theme : jsstring) : bool :=
  Build.isAllowed theme &&
  match Build.viteFails w theme with
  | None => true
  | Some _ => false
  end.

(** The themes built: those before the first theme that does not build. *)
Fixpoint built (w : Build.World) (themes : list jsstring) : list jsstring :=
  match themes with
  | [] => []
  | theme :: rest => if builds w theme then theme :: built w rest else []
  end.

(** The themes started: the themes built and the first that does not build. *)
Fixpoint attempted (w : Build.World) (themes : list jsstring) : list jsstring :=
  match themes with
  | [] => []
  | theme :: rest =>
      theme :: (if builds w theme then attempted w rest else [])
  end.

(** The messages of the spinner, by kind. *)
Definition startMessages (t : list Build.Event) : list jsstring :=
  flat_map (fun e => match e with Build.SpinnerStart m => [m] | _ => [] end) t.

Definition succeedMessages (t : list Build.Event) : list jsstring :=
  flat_map (fun e => match e with Build.SpinnerSucceed m => [m] | _ => [] end) t.

Definition failMessages (t : list Build.Event) : list jsstring :=
  flat_map (fun e => match e with Build.SpinnerFail m => [m] | _ => [] end) t.

(** The commands run. *)
Definition commands (t : list Build.Event) : list (jsstring * list jsstring) :=
  flat_map (fun e => match e with
                     | Build.ExecFile cmd args => [(cmd, args)]
                     | _ => []
                     end) t.

(** The command that removes the old stylesheet of [theme], when there is
    one, and the command that compiles the theme. *)
Definition deleteCommand (w : Build.World) (theme : jsstring)
  : list (jsstring * list jsstring) :=
  let filePath := Build.distPath w (Build.cssFileName theme) in
  if Build.existsSync w filePath then
    [ if Build.isWindows w
      then (str "cmd", [str "/c"; str "del"; str "/f"; [34%N] ++ filePath ++ [34%N]])
      else (str "rm", [str "-f"; filePath]) ]
  else [].

Definition compileCommand (theme : jsstring) : jsstring * list jsstring :=
  (str "cross-env",
   [str "THEME=" ++ theme; str "vite"; str "build"; str "--c";
    str "vite-css.config.ts"]).

(** What [deleteCssFile] does for an allowed theme. *)
Definition deleteEvents (w : Build.World) (theme : jsstring) : list Build.Event :=
  let fileName := Build.cssFileName theme in
  let filePath := Build.distPath w fileName in
  if Build.existsSync w filePath then
    (if Build.isWindows w
     then Build.ExecFile (str "cmd")
            [str "/c"; str "del"; str "/f"; [34%N] ++ filePath ++ [34%N]]
     else Build.ExecFile (str "rm") [str "-f"; filePath]) ::
    match Build.deleteFails w filePath with
    | Some msg => [Build.ConsoleError (str "[CHI]: Error deleting " ++ fileName ++
                                       str ": " ++ msg)]
    | None => []
    end
  else [].

(** ** The popover over a sequence of calls *)

(** A call of one of the three methods, with the time at which it is made. *)
Inductive Call : Type :=
| CallShow : bool -> Z -> Call       (* [show(force)] *)
| CallHide : bool -> Z -> Call       (* [hide(force)] *)
| CallToggle : Z -> Call.            (* [toggle()] *)

Definition call (p : Popover.Popover) (c : Call) : Popover.Popover :=
  match c with
  | CallShow force now => Popover.show p force now
  | CallHide force now => Popover.hide p force now
  | CallToggle now => Popover.toggle p now
  end.

Definition calls (p : Popover.Popover) (cs : list Call) : Popover.Popover :=
  fold_left call cs p.

(** Whether the popover element carries the class [ACTIVE] after the
    operations [ops]; [initial] tells whether it carried the class when the
    constructor was done.  (The constructor takes an element of the page as
    the popover when it is given a target, and adds the classes of
    [config.classes]; it removes none.) *)
Definition isActive (initial : bool) (ops : list Popover.DomOp) : bool :=
  fold_left (fun b op =>
               match op with
               | Popover.AddClass Popover.ACTIVE => true
               | Popover.RemoveClass Popover.ACTIVE => false
               | _ => b
               end) ops initial.

(** The value of [aria-hidden] after the operations [ops]; the constructor
    sets it to ['true']. *)
Definition ariaHidden (ops : list Popover.DomOp) : bool :=
  fold_left (fun b op =>
               match op with
               | Popover.SetAriaHidden h => h
               | _ => b
               end) ops true.

(** The events dispatched on the trigger element, in order. *)
Definition dispatched (ops : list Popover.DomOp) : list jsstring :=
  flat_map (fun op => match op with Popover.Dispatch e => [e] | _ => [] end) ops.

(** The events of [n] changes of a popover that starts hidden: the two show
    events, the two hide events, and so on. *)
Fixpoint showHideEvents (n : nat) (showNext : bool) : list jsstring :=
  match n with
  | O => []
  | S n' =>
      (if showNext then [Popover.SHOW_DEPRECATED; Popover.SHOW]
       else [Popover.HIDE_DEPRECATED; Popover.HIDE]) ++
      showHideEvents n' (negb showNext)
  end.

(** ** The scan of the compiled CSS *)

(** No semicolon in the text. *)
Definition noSemicolon (s : jsstring) : bool :=
  forallb (fun c => negb (N.eqb c 59)) s.

(** What holds of every match of the scan: group 1 is [--chi-] followed by
    a non-empty name of the characters [a-z0-9-]; group 2 is not empty, holds
    no line terminator, and no semicolon after its first character. *)
Definition scanned (kv : jsstring * jsstring) : Prop :=
  (exists nm, fst kv = str "--chi-" ++ nm /\ nm <> [] /\
              forallb Resolve.isPropNameChar nm = true) /\
  snd kv <> [] /\
  forallb isDot (snd kv) = true /\
  noSemicolon (tl (snd kv)) = true.

(** A declaration as an expanded style sheet prints it: a lower-case name
    and a value on one line, without semicolon and without white space at
    either end. *)
Definition plainName (n : jsstring) : bool :=
  match n with
  | [] => false
  | _ :: _ => forallb Resolve.isPropNameChar n
  end.

Definition plainValue (v : jsstring) : bool :=
  match v with
  | [] => false
  | c :: _ =>
      negb (isSpace c) && negb (isSpace (last v c)) &&
      forallb isDot v && noSemicolon v
  end.

Definition propLine (d : jsstring * jsstring) : jsstring :=
  str "  --chi-" ++ fst d ++ str ": " ++ snd d ++ str ";".

(** A [:root] block with one declaration per line. *)
Definition rootBlock (decls : list (jsstring * jsstring)) : jsstring :=
  str ":root {" ++ [10%N] ++
  List.concat (List.map (fun d => propLine d ++ [10%N]) decls) ++
  str "}" ++ [10%N].

End Obs.

(* ========================================================================= *)
(** * Sample runs *)
(* ========================================================================= *)

Definition showVar (v : ScssVariable) :=
  (name v, rawValue v, comment v, line v, layer v).


Example classify_ex1 :
  classifyToken (str "$color-grey-80") (str "#1a1a1a") = L foundation.
Proof. vm_compute. reflexivity. Qed.

Example classify_ex2 :
  classifyToken (str "$color-background-gradient-x") (str "red") = component.
Proof. vm_compute. reflexivity. Qed.

Example classify_ex3 :
  classifyToken (str "$color-background-base") (str "red") = L semantic.
Proof. vm_compute. reflexivity. Qed.

Example classify_ex4 :
  classifyToken (str "$color-black") (str "(a: b)") = excluded.
Proof. vm_compute. reflexivity. Qed.

Example classify_ex5 :
  classifyToken (str "$font-size-h7") (str "1rem") = component.
Proof. vm_compute. reflexivity. Qed.

Example classify_ex6 :
  classifyToken (str "$font-family-icon") (str "chi") = excluded.
Proof. vm_compute. reflexivity. Qed.

Example classify_ex7 :
  classifyToken (str "$zindex-") (str "1") = L foundation.
Proof. vm_compute. reflexivity. Qed.



Example parse_ex1 :
  List.map showVar (parseScssVariables (str "$a: 1; // foo; bar")) =
  [(str "a", str "1;", Some (str "foo; bar"), 1, component)].
Proof. vm_compute. reflexivity. Qed.

Example parse_ex2 :
  List.map showVar (parseScssVariables (str "$a: 1; //")) =
  [(str "a", str "1", None, 1, component)].
Proof. vm_compute. reflexivity. Qed.

Example parse_ex3 :
  List.map showVar (parseScssVariables (str "$a: 1; // ")) =
  [(str "a", str "1", Some [], 1, component)].
Proof. vm_compute. reflexivity. Qed.

Example parse_ex4 :
  List.map showVar
    (parseScssVariables
       (str "// x" ++ [10%N] ++ str "$m: (" ++ [10%N] ++ str "  a: b," ++ [10%N]
        ++ str ");" ++ [10%N] ++ str "$color-white  :  #fff; // White")) =
  [(str "m", str "( a: b, )", None, 4, excluded);
   (str "color-white", str "#fff", Some (str "White"), 5, L foundation)].
Proof. vm_compute. reflexivity. Qed.

Example parse_ex5 :
  List.map showVar (parseScssVariables (str "$u: url(http://x.com);")) =
  [(str "u", str "url(http:", Some (str "x.com);"), 1, component)].
Proof. vm_compute. reflexivity. Qed.

Example parse_ex6 :
  List.map showVar (parseScssVariables (str "$a: 1;" ++ [13%N])) = [].
Proof. vm_compute. reflexivity. Qed.

Example spacing_ex1 :
  option_map (List.map (fun t => (syn_name t, scssExpression t, syn_comment t)))
    (option_map (firstn 3) buildSpacingScale) =
  Some [(str "spacing-0", str "0", Some (str "0 " ++ emDash ++ str " Chi space(0)"));
        (str "spacing-1", str "0.25rem", Some (str "0.25rem (4px)"));
        (str "spacing-2", str "0.5rem",
         Some (str "0.5rem (8px) " ++ emDash ++ str " Chi space(1)"))].
Proof. vm_compute. reflexivity. Qed.

Example trim_ex : trim (str "  a b " ++ [9%N; 13%N]) = str "a b".
Proof. reflexivity. Qed.

Example lastIndexOf_ex :
  lastIndexOf (str "a;b;c") 59%N = 3%Z /\ lastIndexOf (str "abc") 59%N = (-1)%Z.
Proof. split; reflexivity. Qed.

Example splitHead_ex :
  splitHead (str "url(http://x) // c") (str "//") = str "url(http:" /\
  splitHead (str "#fff") (str "//") = str "#fff".
Proof. split; reflexivity. Qed.

Example splitChar_ex :
  splitChar (str "a,,b,") 44%N = [str "a"; []; str "b"; []] /\
  splitChar [] 44%N = [[]].
Proof. split; reflexivity. Qed.

Example join_ex : join [str "a"; []; str "b"] (str ", ") = str "a, , b".
Proof. reflexivity. Qed.

Example ofN_ex :
  ofN 0 = str "0" /\ ofN 9 = str "9" /\ ofN 10 = str "10" /\
  ofN 384 = str "384" /\ ofN 1000 = str "1000".
Proof. repeat split; reflexivity. Qed.

Example numToString_ex :
  numToString 0 = str "0" /\ numToString (1 # 4) = str "0.25" /\
  numToString (3 # 2) = str "1.5" /\ numToString (11 # 4) = str "2.75" /\
  numToString 24 = str "24" /\ numToString (101 # 100) = str "1.01".
Proof. repeat split; reflexivity. Qed.

Example jsRem_ex :
  jsRem (3 # 4) (1 # 2) = (1 # 4)%Q /\ jsRem (7 # 2) (1 # 2) = 0%Q /\
  jsRem 24 (1 # 2) = 0%Q.
Proof. repeat split; reflexivity. Qed.

Example capitalize_ex : capitalize (themeName centurylink) = str "Centurylink".
Proof. reflexivity. Qed.

Example groupHeading_ex :
  List.length (groupHeading (str "Shadow Scale")) = 5 + 2 + 1 + 12 + 1 + 48 + 2.
Proof. reflexivity. Qed.

Example matchDecl_ex :
  matchDecl (str "$a-b_1  :   x y ; // c") = Some (str "a-b_1", str "x y ; // c") /\
  matchDecl (str "$a:  ") = Some (str "a", str " ") /\
  matchDecl (str "$a:") = None /\
  matchDecl (str " $a: 1;") = None /\
  matchDecl (str "$: 1;") = None /\
  matchDecl (str "$a: 1;" ++ [13%N]) = None /\
  matchDecl (str "$a :" ++ [13%N] ++ str "1;") = Some (str "a", str "1;").
Proof. repeat split; reflexivity. Qed.

Example DECL_PATTERN_ex :
  test DECL_PATTERN (str "$a-b_1  :   x y ; // c") = true /\
  test DECL_PATTERN (str "$a:  ") = true /\
  test DECL_PATTERN (str "$a:") = false /\
  test DECL_PATTERN (str "$a: 1;" ++ [13%N]) = false.
Proof. vm_compute. repeat split; reflexivity. Qed.

Example matchComment_ex :
  matchComment (str "1; // a // b") = Some (str "a // b") /\
  matchComment (str "1; //") = None /\
  matchComment (str "1; //  ") = Some (str " ") /\
  matchComment (str "1; ///") = Some (str "/") /\
  matchComment (str "a //" ++ [13%N] ++ str "b // c") = Some (str "b // c") /\
  matchComment (str "a // x" ++ [13%N] ++ str "y // c") = Some (str "c").
Proof. repeat split; reflexivity. Qed.

Example dedupe_ex :
  let g := mkScssVariable (str "a") (str "1") None 1 (L foundation) in
  let h := mkScssVariable (str "b") (str "2") None 2 (L foundation) in
  let t := mkScssVariable (str "a") (str "3") None 1 (L foundation) in
  dedupe [g; h; t] = [t; h].
Proof. reflexivity. Qed.

Example groupBy_ex :
  List.map (fun g => (fst g, List.map name (snd g)))
    (groupFoundationTokens
       (List.map (fun n => mkScssVariable (str n) [] None 0 (L foundation))
          ["color-grey-10"; "font-size-h1"; "color-grey-20"; "zindex-x";
           "font-size-xl"]%string)) =
  [ (str "Colors - Grey Ramp", [str "color-grey-10"; str "color-grey-20"]);
    (str "Typography - Font Size (Headings)", [str "font-size-h1"]);
    (str "Z-Index Scale", [str "zindex-x"]);
    (str "Typography - Font Size (Text)", [str "font-size-xl"]) ].
Proof. vm_compute. reflexivity. Qed.

Example tokenLine_ex :
  tokenLine (mkScssVariable (str "color-white") (str "#fff") (Some (str "White"))
                            1 (L foundation)) =
  str "  --chi-color-white: #{$color-white}; // White" /\
  tokenLine (mkScssVariable (str "color-white") (str "#fff") (Some []) 1
                            (L foundation)) =
  str "  --chi-color-white: #{$color-white};" /\
  tokenLine (mkScssVariable (str "color-white") (str "#fff") None 1
                            (L foundation)) =
  str "  --chi-color-white: #{$color-white};".
Proof. repeat split; reflexivity. Qed.

Example syntheticLine_ex :
  List.map syntheticLine (firstn 2 SYNTHETIC_SHADOW_TOKENS) =
  [ str "  --chi-shadow-0: none; // No shadow";
    str "  --chi-shadow-1: #{map-get($shadow, 1)}; // Elevation 1 " ++ emDash ++
    str " subtle" ].
Proof. reflexivity. Qed.

Example syntheticEntry_ex :
  let e := syntheticEntry (nth 1 SYNTHETIC_SHADOW_TOKENS (synPlain "" "" "" "" "")) in
  (scssVariable e, cssVariable e, entry_type e, entry_category e) =
  (str "map-get($shadow, 1)", str "--chi-shadow-1", str "shadow", str "elevation").
Proof. reflexivity. Qed.

Example inferTokenType_ex :
  List.map (fun n => (inferTokenType (str n) [], inferCategory (str n)))
    ["color-text-base"; "focus-color"; "line-height-h1"; "border-width-1";
     "link-color"; "ease-in"; "md-breakpoint"; "cap-height"]%string =
  [ (str "color", str "text-colors"); (str "color", str "interactive");
    (str "lineHeight", str "typography"); (str "borderWidth", str "border-width");
    (str "color", str "interactive"); (str "easing", str "motion");
    (str "breakpoint", str "breakpoints"); (str "other", str "other") ].
Proof. vm_compute. reflexivity. Qed.

Example parseArgs_ex :
  parseArgs [str "--theme=colt"; str "--layers=semantic,bogus"; str "--dry-run"] =
    ([], inr (mkArgs [colt] [semantic] false true)) /\
  snd (parseArgs [str "--theme=nope"]) = inl (ProcessExit 1) /\
  parseArgs [str "-h"; str "--theme=nope"] = ([], inl (ProcessExit 0)) /\
  parseArgs [] = ([], inr (mkArgs THEMES LAYERS false false)).
Proof. vm_compute. repeat split; reflexivity. Qed.

Example runScript_ex :
  List.map Ref.kind (fst (runScript Ref.calmWorld [])) =
    [ Ref.WroteScss; Ref.WroteJson; Ref.WroteScss; Ref.WroteJson;
      Ref.WroteScss; Ref.WroteJson; Ref.WroteScss; Ref.WroteJson;
      Ref.WroteScss; Ref.WroteJson; Ref.WroteScss; Ref.WroteJson;
      Ref.WroteAll ] /\
  snd (runScript Ref.calmWorld []) = 0%Z /\
  List.map Ref.kind (fst (runScript Ref.calmWorld [str "--theme=colt"; str "--json-only"])) =
    [ Ref.WroteJson ] /\
  runScript Ref.worldWithoutGlobalFile [] =
    ([ConsoleError (str "Error: ENOENT: no such file or directory")], 1%Z) /\
  skipn 12 (List.map Ref.kind (fst (runScript Ref.worldWithFailingSync []))) =
    [ Ref.WroteAll; Ref.MadeDir; Ref.Copied; Ref.Errored ] /\
  snd (runScript Ref.worldWithFailingSync []) = 1%Z /\
  List.map Ref.kind (fst (runScript Ref.worldWithFailingJsonWrite [])) =
    [ Ref.WroteScss; Ref.WroteJson; Ref.WroteScss; Ref.Errored ] /\
  snd (runScript Ref.worldWithFailingJsonWrite []) = 1%Z.
Proof. vm_compute. repeat split; reflexivity. Qed.

Example syncAllDocs_ex :
  syncAllDocs Ref.worldWithFailingSync DOCS_REPOS =
  ([ MakeDocsDir (str "chi-documentation");
     CopyToDocs (str "chi-documentation") (str "lumen.json") ],
   inl (Exception (str "EACCES: permission denied"))) /\
  syncAllDocs Ref.calmWorld DOCS_REPOS = ([], inr tt).
Proof. vm_compute. split; reflexivity. Qed.

Example build_ex :
  Build.runScript (Ref.buildWorld []) (Some (str "lumen,nope")) =
  ([ Build.SpinnerStart (str "[CHI]: Building lumen theme (no file mutations)");
     Build.ExecFile (str "cross-env")
       [str "THEME=lumen"; str "vite"; str "build"; str "--c";
        str "vite-css.config.ts"];
     Build.SpinnerSucceed (str "[CHI]: Build for lumen theme completed successfully");
     Build.SpinnerStart (str "[CHI]: Building nope theme (no file mutations)");
     Build.SpinnerFail
       (str "[CHI]: Error during build for nope theme: [CHI]: Invalid theme: nope") ],
   1%Z) /\
  List.length (fst (Build.runScript (Ref.buildWorld []) None)) = 21.
Proof. vm_compute. split; reflexivity. Qed.

Example popover_ex :
  let p0 := Popover.create false 50 in
  let p1 := Popover.toggle p0 1000 in
  let p2 := Popover.toggle p1 1020 in
  let p3 := Popover.toggle p2 1100 in
  (Popover._shown p1, Popover._shown p2, Popover._shown p3) = (true, true, false) /\
  Popover.dom p1 =
    [ Popover.Dispatch Popover.SHOW_DEPRECATED; Popover.Dispatch Popover.SHOW;
      Popover.AddClass Popover.ACTIVE; Popover.SetAriaHidden false ] /\
  Popover.dom p2 = Popover.dom p1 /\
  Popover._shown (Popover.hide p1 true 1020) = false.
Proof. vm_compute. repeat split; reflexivity. Qed.

(* ========================================================================= *)
(** * Properties *)
(* ========================================================================= *)

Unset Implicit Arguments.

(** ** Strings *)

Lemma eqb_eq : forall a b : jsstring, JS.eqb a b = true <-> a = b.
Proof.
  induction a as [|x a IH]; destruct b as [|y b]; simpl; split; intro H;
    try reflexivity; try discriminate.
  - apply andb_true_iff in H. destruct H as [Hx Hab].
    apply N.eqb_eq in Hx. apply IH in Hab. subst. reflexivity.
  - injection H as Hx Hab. subst. rewrite N.eqb_refl. simpl.
    apply IH. reflexivity.
Qed.

Lemma eqb_refl : forall a : jsstring, JS.eqb a a = true.
Proof. intro a. apply eqb_eq. reflexivity. Qed.

Lemma eqb_neq : forall a b : jsstring, JS.eqb a b = false <-> a <> b.
Proof.
  intros a b. split.
  - intros H E. apply eqb_eq in E. congruence.
  - intro H. destruct (JS.eqb a b) eqn:E; [|reflexivity].
    apply eqb_eq in E. contradiction.
Qed.

Lemma startsWith_app : forall p s : jsstring, startsWith (p ++ s) p = true.
Proof.
  induction p as [|c p IH]; intro s; simpl.
  - reflexivity.
  - rewrite N.eqb_refl. simpl. apply IH.
Qed.

Lemma startsWith_iff : forall s p : jsstring,
  startsWith s p = true <-> exists r, s = p ++ r.
Proof.
  intros s p. revert s. induction p as [|c p IH]; intro s.
  - split; [intros _; exists s; reflexivity|].
    intros _. reflexivity.
  - destruct s as [|x s]; simpl.
    + split; [discriminate|]. intros [r Hr]. discriminate.
    + rewrite andb_true_iff, N.eqb_eq, IH. split.
      * intros [Hx [r Hr]]. subst. exists r. reflexivity.
      * intros [r Hr]. injection Hr as Hx Hs. subst. split; eauto.
Qed.

(** ** C1: classification *)

Lemma firstMatch_iff : forall patterns s,
  firstMatch patterns s = true <->
  exists p, In p patterns /\ test p s = true.
Proof.
  induction patterns as [|q ps IH]; intro s; simpl.
  - split; [discriminate|]. intros [p [[] _]].
  - destruct (test q s) eqn:E.
    + split; [|reflexivity]. intros _. exists q. auto.
    + rewrite IH. split.
      * intros [p [Hin Hp]]. exists p. auto.
      * intros [p [[Hq|Hin] Hp]]; [subst; congruence|]. exists p. auto.
Qed.

(** C1.  [classifyToken] returns ['excluded'] when the full name matches an
    entry of [EXCLUDE_PATTERNS] or the value starts with an opening
    parenthesis or contains [linear-gradient]; otherwise ['foundation'] when
    the name matches an entry of [FOUNDATION_PATTERNS]; otherwise ['semantic']
    when it matches an entry of [SEMANTIC_PATTERNS]; otherwise ['component'].
    Exclusion wins over foundation, and foundation over semantic. *)
Theorem classifyToken_precedence : forall fullName value : jsstring,
  let matchesAny patterns :=
    exists p, In p patterns /\ test p fullName = true in
  let isExcluded :=
    matchesAny EXCLUDE_PATTERNS \/
    startsWith value (str "(") = true \/
    includes value (str "linear-gradient") = true in
  (isExcluded -> classifyToken fullName value = excluded) /\
  (~ isExcluded -> matchesAny FOUNDATION_PATTERNS ->
   classifyToken fullName value = L foundation) /\
  (~ isExcluded -> ~ matchesAny FOUNDATION_PATTERNS ->
   matchesAny SEMANTIC_PATTERNS ->
   classifyToken fullName value = L semantic) /\
  (~ isExcluded -> ~ matchesAny FOUNDATION_PATTERNS ->
   ~ matchesAny SEMANTIC_PATTERNS ->
   classifyToken fullName value = component).
Proof.
  intros fullName value matchesAny isExcluded.
  unfold classifyToken.
  assert (HE : isExcluded <->
               firstMatch EXCLUDE_PATTERNS fullName = true \/
               (startsWith value (str "(") ||
                includes value (str "linear-gradient")) = true).
  { unfold isExcluded, matchesAny. rewrite firstMatch_iff, orb_true_iff.
    reflexivity. }
  assert (HF : matchesAny FOUNDATION_PATTERNS <->
               firstMatch FOUNDATION_PATTERNS fullName = true)
    by (unfold matchesAny; rewrite firstMatch_iff; reflexivity).
  assert (HS : matchesAny SEMANTIC_PATTERNS <->
               firstMatch SEMANTIC_PATTERNS fullName = true)
    by (unfold matchesAny; rewrite firstMatch_iff; reflexivity).
  rewrite HE, HF, HS. clear HE HF HS.
  destruct (firstMatch EXCLUDE_PATTERNS fullName);
    destruct (startsWith value (str "(") ||
              includes value (str "linear-gradient"));
    destruct (firstMatch FOUNDATION_PATTERNS fullName);
    destruct (firstMatch SEMANTIC_PATTERNS fullName);
    repeat split; intros; try reflexivity; try congruence;
    try (exfalso; intuition congruence).
Qed.

(** ** Regular expressions: the matcher decides the language *)

Lemma nullable_lang : forall r, nullable r = true <-> lang r [].
Proof.
  induction r as [| |p|a IHa b IHb|a IHa b IHb|a IHa|a IHa]; simpl.
  - split; [discriminate|contradiction].
  - split; reflexivity.
  - split; [discriminate|]. intros [c [H _]]. discriminate H.
  - rewrite andb_true_iff, IHa, IHb. split.
    + intros [Ha Hb]. exists [], []. auto.
    + intros [s1 [s2 [H [Ha Hb]]]]. symmetry in H.
      apply app_eq_nil in H. destruct H; subst. auto.
  - rewrite orb_true_iff, IHa, IHb. reflexivity.
  - split; [|reflexivity]. intros _. exists []. split; [reflexivity|constructor].
  - rewrite negb_true_iff. split.
    + intros H Hl. apply IHa in Hl. congruence.
    + intro H. destruct (nullable a); [|reflexivity].
      exfalso. apply H. apply IHa. reflexivity.
Qed.

Lemma star_cons : forall a c s,
  (exists ss, c :: s = List.concat ss /\ Forall (lang a) ss) ->
  exists s1 s2, s = s1 ++ s2 /\ lang a (c :: s1) /\
                exists ss, s2 = List.concat ss /\ Forall (lang a) ss.
Proof.
  intros a c s [ss [H Hall]]. induction ss as [|x ss IH]; [discriminate H|].
  inversion Hall as [|? ? Hx Hss]; subst. destruct x as [|c' x].
  - apply IH; assumption.
  - simpl in H. injection H as <- ->. exists x, (List.concat ss).
    split; [reflexivity|]. split; [exact Hx|]. exists ss. auto.
Qed.

Lemma der_lang : forall r c s, lang (der c r) s <-> lang r (c :: s).
Proof.
  induction r as [| |p|a IHa b IHb|a IHa b IHb|a IHa|a IHa]; intros c s; simpl.
  - reflexivity.
  - split; [contradiction|discriminate].
  - destruct (p c) eqn:E; simpl.
    + split.
      * intros ->. exists c. auto.
      * intros [c' [H _]]. injection H as _ ->. reflexivity.
    + split; [contradiction|]. intros [c' [H Hp]]. injection H as -> _.
      congruence.
  - destruct (nullable a) eqn:E; simpl.
    + split.
      * intros [[s1 [s2 [H [Ha Hb]]]]|Hb].
        -- subst s. exists (c :: s1), s2. rewrite <- IHa. auto.
        -- exists [], (c :: s). rewrite <- IHb, <- nullable_lang. auto.
      * intros [s1 [s2 [H [Ha Hb]]]]. destruct s1 as [|c' s1].
        -- simpl in H. subst s2. right. apply IHb. exact Hb.
        -- injection H as <- ->. left. exists s1, s2. rewrite IHa. auto.
    + split.
      * intros [s1 [s2 [H [Ha Hb]]]]. subst s. exists (c :: s1), s2.
        rewrite <- IHa. auto.
      * intros [s1 [s2 [H [Ha Hb]]]]. destruct s1 as [|c' s1].
        -- apply nullable_lang in Ha. congruence.
        -- injection H as <- ->. exists s1, s2. rewrite IHa. auto.
  - rewrite IHa, IHb. reflexivity.
  - split.
    + intros [s1 [s2 [H [Ha [ss [Hs Hall]]]]]]. subst s s2.
      exists ((c :: s1) :: ss). split; [reflexivity|].
      constructor; [apply IHa; exact Ha|exact Hall].
    + intro H. apply star_cons in H.
      destruct H as [s1 [s2 [H [Ha Hs]]]]. exists s1, s2.
      rewrite IHa. auto.
  - rewrite IHa. reflexivity.
Qed.

Lemma matches_lang : forall s r, matches r s = true <-> lang r s.
Proof.
  induction s as [|c s IH]; intro r; simpl.
  - apply nullable_lang.
  - rewrite IH. apply der_lang.
Qed.

Lemma lang_anything : forall s, lang anything s.
Proof.
  intro s. exists (List.map (fun c => [c]) s). split.
  - induction s as [|c s IH]; [reflexivity|]. simpl. f_equal. exact IH.
  - apply Forall_forall. intros x Hx. apply in_map_iff in Hx.
    destruct Hx as [c [<- _]]. exists c. auto.
Qed.

Lemma lang_lit : forall p s, lang (lit p) s <-> s = p.
Proof.
  induction p as [|c p IH]; intro s; simpl.
  - reflexivity.
  - split.
    + intros [s1 [s2 [H [[c' [H1 Hc]] H2]]]]. apply N.eqb_eq in Hc.
      apply IH in H2. subst. reflexivity.
    + intros ->. exists [c], p. split; [reflexivity|]. split.
      * exists c. split; [reflexivity|apply N.eqb_refl].
      * apply IH. reflexivity.
Qed.

(** What [test] decides, by the anchors of the pattern. *)
Lemma test_Whole : forall r s, test (Whole r) s = true <-> lang r s.
Proof. intros r s. apply matches_lang. Qed.

Lemma test_Prefix : forall r s,
  test (Prefix r) s = true <-> exists a b, s = a ++ b /\ lang r a.
Proof.
  intros r s. simpl. rewrite matches_lang. simpl. split.
  - intros [a [b [H [Ha _]]]]. eauto.
  - intros [a [b [H Ha]]]. exists a, b. split; [exact H|].
    split; [exact Ha|apply lang_anything].
Qed.

Lemma test_Suffix : forall r s,
  test (Suffix r) s = true <-> exists a b, s = a ++ b /\ lang r b.
Proof.
  intros r s. simpl. rewrite matches_lang. simpl. split.
  - intros [a [b [H [_ Hb]]]]. eauto.
  - intros [a [b [H Hb]]]. exists a, b. split; [exact H|].
    split; [apply lang_anything|exact Hb].
Qed.

Lemma test_PrefixNotBefore : forall r n s,
  test (PrefixNotBefore r n) s = true <->
  exists a b, s = a ++ b /\ lang r a /\
              ~ exists b1 b2, b = b1 ++ b2 /\ lang n b1.
Proof.
  intros r n s. simpl. rewrite matches_lang. simpl. split.
  - intros [a [b [H [Ha Hb]]]]. exists a, b. split; [exact H|].
    split; [exact Ha|]. intros [b1 [b2 [Hb1 Hn]]]. apply Hb.
    exists b1, b2. split; [exact Hb1|]. split; [exact Hn|apply lang_anything].
  - intros [a [b [H [Ha Hb]]]]. exists a, b. split; [exact H|].
    split; [exact Ha|]. intros [b1 [b2 [Hb1 [Hn _]]]]. apply Hb. eauto.
Qed.

(** The four semantic patterns, read off their languages. *)
Lemma semantic_patterns_meaning : forall fullName,
  firstMatch SEMANTIC_PATTERNS fullName = true <->
  startsWith fullName (str "$color-text-") = true \/
  startsWith fullName (str "$color-icon-") = true \/
  startsWith fullName (str "$color-border-") = true \/
  (exists rest, fullName = str "$color-background-" ++ rest /\
                startsWith rest (str "gradient") = false).
Proof.
  intro fullName. rewrite firstMatch_iff. unfold SEMANTIC_PATTERNS, lits.
  rewrite !startsWith_iff. split.
  - intros [p [Hin Hp]]. cbn [In] in Hin.
    destruct Hin as [<-|[<-|[<-|[<-|[]]]]].
    + apply test_Prefix in Hp. destruct Hp as [a [b [H Ha]]].
      apply lang_lit in Ha. subst. eauto.
    + apply test_Prefix in Hp. destruct Hp as [a [b [H Ha]]].
      apply lang_lit in Ha. subst. eauto.
    + apply test_Prefix in Hp. destruct Hp as [a [b [H Ha]]].
      apply lang_lit in Ha. subst. eauto 6.
    + apply test_PrefixNotBefore in Hp. destruct Hp as [a [b [H [Ha Hb]]]].
      apply lang_lit in Ha. subst. right. right. right. exists b.
      split; [reflexivity|].
      destruct (startsWith b (str "gradient")) eqn:E; [|reflexivity].
      exfalso. apply Hb. apply startsWith_iff in E. destruct E as [r Hr].
      exists (str "gradient"), r. split; [exact Hr|]. apply lang_lit.
      reflexivity.
  - intros [[r H]|[[r H]|[[r H]|[rest [H Hn]]]]].
    + eexists. split; [left; reflexivity|]. apply test_Prefix.
      exists (str "$color-text-"), r. split; [exact H|]. apply lang_lit.
      reflexivity.
    + eexists. split; [right; left; reflexivity|]. apply test_Prefix.
      exists (str "$color-icon-"), r. split; [exact H|]. apply lang_lit.
      reflexivity.
    + eexists. split; [right; right; left; reflexivity|]. apply test_Prefix.
      exists (str "$color-border-"), r. split; [exact H|]. apply lang_lit.
      reflexivity.
    + eexists. split; [right; right; right; left; reflexivity|].
      apply test_PrefixNotBefore. exists (str "$color-background-"), rest.
      split; [exact H|]. split; [apply lang_lit; reflexivity|].
      intros [b1 [b2 [Hb Hl]]]. apply lang_lit in Hl. subst b1.
      assert (startsWith rest (str "gradient") = true)
        by (apply startsWith_iff; eauto).
      congruence.
Qed.

(** ** C9: the spacing scale *)

Lemma spacingSteps_value :
  option_map (List.map (fun s => (index s, rem s))) (spacingSteps 64) =
  Some (combine (seq 0 35) Ref.spacingRems).
Proof. vm_compute. reflexivity. Qed.

Lemma SYNTHETIC_SPACING_TOKENS_value :
  buildSpacingScale = Some SYNTHETIC_SPACING_TOKENS.
Proof. vm_compute. reflexivity. Qed.

(** C9.  [buildSpacingScale] returns 35 tokens [spacing-0] to [spacing-34], in
    order; their rem values are 0, 0.25 to 3 by 0.25, 3.5, 4, and 5 to 24;
    the value is [0] at index 0 and the rem value followed by [rem]
    elsewhere; the comment carries [Chi space(k)] exactly when the rem value
    is [k] times 0.5 with [k] from 0 to 10. *)
Theorem buildSpacingScale_table :
  exists steps tokens,
    spacingSteps 64 = Some steps /\
    buildSpacingScale = Some tokens /\
    tokens = List.map spacingToken steps /\
    List.length tokens = 35 /\
    List.map index steps = seq 0 35 /\
    List.map rem steps = Ref.spacingRems /\
    Ref.spacingTableOk 0 Ref.spacingRems Ref.spacingRemTexts tokens.
Proof.
  destruct (spacingSteps 64) as [steps|] eqn:E; [|vm_compute in E; discriminate].
  exists steps, (List.map spacingToken steps).
  unfold buildSpacingScale, buildSpacingScaleFuel. rewrite E.
  vm_compute in E. injection E as E. subst steps.
  split; [reflexivity|]. split; [reflexivity|]. split; [reflexivity|].
  split; [reflexivity|]. split; [reflexivity|]. split; [reflexivity|].
  vm_compute.
  repeat match goal with
         | |- _ /\ _ => split
         | |- exists c, Some ?x = Some c /\ _ => exists x
         | |- _ = _ => reflexivity
         | |- True => exact I
         end.
Qed.

(** ** C6: the popover *)

Import Popover.

(** C6.  With consecutive actions allowed or [force] set: [show] changes
    nothing when the popover is shown and sets [_shown] otherwise; [hide]
    changes nothing when it is not shown and clears [_shown] otherwise;
    [toggle] is [hide()] when shown and [show()] when not. *)
Theorem popover_show_hide_toggle : forall (p : Popover) (force : bool) (now : Z),
  fst (allowConsecutiveActions p now) = true \/ force = true ->
  (_shown p = true -> show p force now = p) /\
  (_shown p = false -> _shown (show p force now) = true) /\
  (_shown p = false -> hide p force now = p) /\
  (_shown p = true -> _shown (hide p force now) = false) /\
  toggle p now = (if _shown p then hide p false now else show p false now).
Proof.
  intros p force now H.
  assert (G : negb (fst (allowConsecutiveActions p now)) && negb force = false).
  { destruct H as [H|H]; rewrite H; [reflexivity|apply andb_false_r]. }
  repeat split.
  - intro S. unfold show. rewrite S. reflexivity.
  - intro S. unfold show. rewrite S.
    destruct (allowConsecutiveActions p now) as [allowed q]. simpl in G.
    rewrite G. simpl. destruct (animate q); reflexivity.
  - intro S. unfold hide. rewrite S. reflexivity.
  - intro S. unfold hide. rewrite S. simpl.
    destruct (allowConsecutiveActions p now) as [allowed q]. simpl in G.
    rewrite G. simpl. destruct (animate q); reflexivity.
Qed.

Lemma popover_show_hide_toggle_witness :
  let p := create true 50 in
  (fst (allowConsecutiveActions p 1000) = true \/ false = true) /\
  _shown (show p false 1000) = true /\
  hide p false 1000 = p.
Proof.
  intro p. split; [left; reflexivity|].
  destruct (popover_show_hide_toggle p false 1000 (or_introl eq_refl))
    as [_ [H2 [H3 _]]].
  split; [apply H2|apply H3]; reflexivity.
Defined.

(** ** C10: deleting the old stylesheet *)

Lemma isAllowed_iff : forall theme,
  Build.isAllowed theme = true <-> In theme Build.allowedThemes.
Proof.
  intro theme. unfold Build.isAllowed. rewrite existsb_exists. split.
  - intros [x [Hin Hx]]. apply eqb_eq in Hx. subst. exact Hin.
  - intro Hin. exists theme. split; [exact Hin|apply eqb_refl].
Qed.

(** C10.  [deleteCssFile] throws, with a message that starts with
    [[CHI]: Invalid theme], exactly when the theme is not one of lumen,
    portal, connect, test, colt, brightspeed, centurylink; for one of these it
    does not throw.  The file it targets is [chi.css] for lumen and
    [chi-<theme>.css] otherwise, under [dist]: it looks for that file and,
    when the file is there, runs the removal command on that path ([rm -f],
    or [cmd /c del /f] on Windows) and reports the error of a removal that
    fails; it does nothing else. *)
Theorem deleteCssFile_invalid_theme : forall (w : Build.World) (theme : jsstring),
  let allowed :=
    In theme [ str "lumen"; str "portal"; str "connect"; str "test";
               str "colt"; str "brightspeed"; str "centurylink" ] in
  let fileName :=
    if JS.eqb theme (str "lumen") then str "chi.css"
    else str "chi-" ++ theme ++ str ".css" in
  let filePath := Build.distPath w fileName in
  (~ allowed <->
   exists msg, snd (Build.deleteCssFile w theme) = inl (Exception msg)) /\
  (~ allowed ->
   Build.deleteCssFile w theme =
     ([], inl (Exception (str "[CHI]: Invalid theme: " ++ theme)))) /\
  (allowed ->
   Build.deleteCssFile w theme =
     ((if Build.existsSync w filePath then
         (if Build.isWindows w
          then Build.ExecFile (str "cmd")
                 [str "/c"; str "del"; str "/f"; [34%N] ++ filePath ++ [34%N]]
          else Build.ExecFile (str "rm") [str "-f"; filePath]) ::
         match Build.deleteFails w filePath with
         | Some msg =>
             [Build.ConsoleError (str "[CHI]: Error deleting " ++ fileName ++
                                  str ": " ++ msg)]
         | None => []
         end
       else []),
      inr tt)).
Proof.
  intros w theme allowed fileName filePath.
  assert (HA : allowed <-> Build.isAllowed theme = true)
    by (symmetry; apply isAllowed_iff).
  assert (Hok : Build.isAllowed theme = true ->
    Build.deleteCssFile w theme =
     ((if Build.existsSync w filePath then
         (if Build.isWindows w
          then Build.ExecFile (str "cmd")
                 [str "/c"; str "del"; str "/f"; [34%N] ++ filePath ++ [34%N]]
          else Build.ExecFile (str "rm") [str "-f"; filePath]) ::
         match Build.deleteFails w filePath with
         | Some msg =>
             [Build.ConsoleError (str "[CHI]: Error deleting " ++ fileName ++
                                  str ": " ++ msg)]
         | None => []
         end
       else []),
      inr tt)).
  { intro Ha. unfold Build.deleteCssFile. rewrite Ha. simpl negb. cbv iota.
    change (Build.cssFileName theme) with fileName.
    change (Build.distPath w fileName) with filePath.
    destruct (Build.existsSync w filePath); [|reflexivity].
    unfold Build.execFileSync.
    destruct (Build.isWindows w); destruct (Build.deleteFails w filePath) as [msg|];
      reflexivity. }
  split; [|split].
  - rewrite HA. split.
    + intro Hn. apply not_true_is_false in Hn.
      unfold Build.deleteCssFile. rewrite Hn. simpl. eauto.
    + intros [msg Hm] Ha. apply Hok in Ha. rewrite Ha in Hm. discriminate Hm.
  - rewrite HA. intro Hn. apply not_true_is_false in Hn.
    unfold Build.deleteCssFile. rewrite Hn. reflexivity.
  - rewrite HA. exact Hok.
Qed.

(** ** C2: the parser *)

(** ** White space and trimming *)

Lemma span_app : forall p s a b, span p s = (a, b) -> s = a ++ b.
Proof.
  intros p. induction s as [|c s IH]; intros a b H; simpl in H.
  - injection H as <- <-. reflexivity.
  - destruct (p c).
    + destruct (span p s) as [a' b'] eqn:E. injection H as <- <-.
      simpl. f_equal. apply IH. reflexivity.
    + injection H as <- <-. reflexivity.
Qed.

Lemma span_forallb : forall p s a b, span p s = (a, b) -> forallb p a = true.
Proof.
  intros p. induction s as [|c s IH]; intros a b H; simpl in H.
  - injection H as <- <-. reflexivity.
  - destruct (p c) eqn:Ec.
    + destruct (span p s) as [a' b'] eqn:E. injection H as <- <-.
      simpl. rewrite Ec. simpl. eapply IH. reflexivity.
    + injection H as <- <-. reflexivity.
Qed.

Lemma forallb_rev : forall (p : char -> bool) s,
  forallb p (rev s) = forallb p s.
Proof.
  intros p s. induction s as [|c s IH]; [reflexivity|].
  simpl. rewrite forallb_app, IH. simpl. rewrite andb_true_r. apply andb_comm.
Qed.

Lemma trimStart_spaces_app : forall w x,
  forallb isSpace w = true -> trimStart (w ++ x) = trimStart x.
Proof.
  induction w as [|c w IH]; intros x H; [reflexivity|].
  simpl in H. apply andb_true_iff in H. destruct H as [Hc Hw].
  simpl. rewrite Hc. apply IH. exact Hw.
Qed.

Lemma trimStart_spaces : forall w, forallb isSpace w = true -> trimStart w = [].
Proof.
  intros w H. rewrite <- (app_nil_r w). rewrite trimStart_spaces_app by exact H.
  reflexivity.
Qed.

Lemma trim_spaces_app : forall w x,
  forallb isSpace w = true -> trim (w ++ x) = trim x.
Proof. intros w x H. unfold trim. rewrite trimStart_spaces_app by exact H. reflexivity. Qed.

Lemma trim_spaces : forall w, forallb isSpace w = true -> trim w = [].
Proof. intros w H. unfold trim. rewrite trimStart_spaces by exact H. reflexivity. Qed.

Lemma trimStart_decomp : forall s,
  exists w, forallb isSpace w = true /\ s = w ++ trimStart s.
Proof.
  induction s as [|c s [w [Hw Hs]]].
  - exists []. split; reflexivity.
  - simpl. destruct (isSpace c) eqn:Ec.
    + exists (c :: w). simpl. rewrite Ec, Hw. split; [reflexivity|].
      f_equal. exact Hs.
    + exists []. split; reflexivity.
Qed.

Lemma trimEnd_decomp : forall s,
  exists w, forallb isSpace w = true /\ s = trimEnd s ++ w.
Proof.
  intro s. destruct (trimStart_decomp (rev s)) as [w [Hw Hs]].
  exists (rev w). split; [rewrite forallb_rev; exact Hw|].
  unfold trimEnd. rewrite <- rev_app_distr, <- Hs, rev_involutive. reflexivity.
Qed.

Lemma trim_decomp : forall s,
  exists w1 w2, forallb isSpace w1 = true /\ forallb isSpace w2 = true /\
                s = w1 ++ trim s ++ w2.
Proof.
  intro s. destruct (trimStart_decomp s) as [w1 [H1 Hs]].
  destruct (trimEnd_decomp (trimStart s)) as [w2 [H2 Ht]].
  exists w1, w2. split; [exact H1|]. split; [exact H2|].
  unfold trim. rewrite <- Ht. exact Hs.
Qed.

(** ** The comment marker *)

Lemma includes_cons : forall c s p,
  includes (c :: s) p = startsWith (c :: s) p || includes s p.
Proof. reflexivity. Qed.

Lemma splitHead_cons : forall c s p,
  splitHead (c :: s) p =
  if startsWith (c :: s) p then [] else c :: splitHead s p.
Proof. reflexivity. Qed.

Lemma slashes_value : str "//" = [47%N; 47%N].
Proof. reflexivity. Qed.

Lemma space_not_slash : forall c, isSpace c = true -> N.eqb c 47 = false.
Proof.
  intros c H. destruct (N.eqb_spec c 47) as [E|E]; [|reflexivity].
  subst c. discriminate H.
Qed.

Lemma startsWith_slashes_space : forall c s,
  isSpace c = true -> startsWith (c :: s) (str "//") = false.
Proof.
  intros c s H. rewrite slashes_value. simpl.
  rewrite (space_not_slash c H). reflexivity.
Qed.

Lemma includes_spaces : forall w,
  forallb isSpace w = true -> includes w (str "//") = false.
Proof.
  induction w as [|c w IH]; intro H; [reflexivity|].
  simpl in H. apply andb_true_iff in H. destruct H as [Hc Hw].
  rewrite includes_cons, startsWith_slashes_space by exact Hc.
  apply IH. exact Hw.
Qed.

Lemma includes_spaces_app : forall w x,
  forallb isSpace w = true ->
  includes (w ++ x) (str "//") = includes x (str "//").
Proof.
  induction w as [|c w IH]; intros x H; [reflexivity|].
  simpl in H. apply andb_true_iff in H. destruct H as [Hc Hw].
  simpl app. rewrite includes_cons, startsWith_slashes_space by exact Hc.
  apply IH. exact Hw.
Qed.

Lemma startsWith_slashes_app_spaces : forall x w,
  forallb isSpace w = true ->
  startsWith (x ++ w) (str "//") = startsWith x (str "//").
Proof.
  intros x w H. rewrite slashes_value.
  destruct x as [|c1 [|c2 x]]; simpl.
  - destruct w as [|c w]; [reflexivity|].
    simpl in H. apply andb_true_iff in H. destruct H as [Hc _].
    simpl. rewrite (space_not_slash c Hc). reflexivity.
  - destruct w as [|c w]; simpl; [reflexivity|].
    simpl in H. apply andb_true_iff in H. destruct H as [Hc _].
    rewrite (space_not_slash c Hc). reflexivity.
  - reflexivity.
Qed.

Lemma includes_app_spaces : forall x w,
  forallb isSpace w = true ->
  includes (x ++ w) (str "//") = includes x (str "//").
Proof.
  induction x as [|c x IH]; intros w H.
  - simpl app. rewrite includes_spaces by exact H. reflexivity.
  - rewrite <- app_comm_cons, !includes_cons, app_comm_cons.
    rewrite startsWith_slashes_app_spaces by exact H.
    rewrite IH by exact H. reflexivity.
Qed.

Lemma includes_trim : forall s,
  includes (trim s) (str "//") = includes s (str "//").
Proof.
  intro s. destruct (trim_decomp s) as [w1 [w2 [H1 [H2 Hs]]]].
  rewrite Hs at 2. rewrite includes_spaces_app by exact H1.
  rewrite includes_app_spaces by exact H2. reflexivity.
Qed.

Lemma splitHead_spaces_app : forall w x,
  forallb isSpace w = true ->
  splitHead (w ++ x) (str "//") = w ++ splitHead x (str "//").
Proof.
  induction w as [|c w IH]; intros x H; [reflexivity|].
  simpl in H. apply andb_true_iff in H. destruct H as [Hc Hw].
  simpl app. rewrite splitHead_cons, startsWith_slashes_space by exact Hc.
  f_equal. apply IH. exact Hw.
Qed.

Lemma startsWith_slashes_app : forall x y,
  startsWith x (str "//") = true -> startsWith (x ++ y) (str "//") = true.
Proof.
  intros x y H. apply startsWith_iff in H. destruct H as [r Hr]. subst x.
  rewrite <- app_assoc. apply startsWith_app.
Qed.

Lemma startsWith_slashes_app_long : forall c x y,
  includes x (str "//") = true ->
  startsWith (c :: x ++ y) (str "//") = startsWith (c :: x) (str "//").
Proof.
  intros c x y H. rewrite slashes_value in *.
  destruct x as [|c2 x]; [discriminate H|]. reflexivity.
Qed.

Lemma splitHead_includes_app : forall x y,
  includes x (str "//") = true ->
  splitHead (x ++ y) (str "//") = splitHead x (str "//").
Proof.
  induction x as [|c x IH]; intros y H; [discriminate H|].
  rewrite includes_cons in H.
  rewrite <- app_comm_cons, !splitHead_cons.
  destruct (startsWith (c :: x) (str "//")) eqn:E.
  - rewrite app_comm_cons, (startsWith_slashes_app (c :: x) y E). reflexivity.
  - simpl in H. rewrite startsWith_slashes_app_long by exact H.
    rewrite E. f_equal. apply IH. exact H.
Qed.

Lemma splitHead_no_slashes : forall x,
  includes x (str "//") = false -> splitHead x (str "//") = x.
Proof.
  induction x as [|c x IH]; intro H; [reflexivity|].
  rewrite includes_cons in H.
  apply orb_false_iff in H. destruct H as [H1 H2].
  rewrite splitHead_cons, H1. f_equal. apply IH. exact H2.
Qed.

Lemma trim_splitHead_trim : forall a,
  includes a (str "//") = true ->
  trim (splitHead (trim a) (str "//")) = trim (splitHead a (str "//")).
Proof.
  intros a H. destruct (trim_decomp a) as [w1 [w2 [H1 [H2 Ha]]]].
  assert (Ht : includes (trim a) (str "//") = true)
    by (rewrite includes_trim; exact H).
  rewrite Ha at 2.
  rewrite splitHead_spaces_app by exact H1.
  rewrite trim_spaces_app by exact H1.
  rewrite splitHead_includes_app by exact Ht. reflexivity.
Qed.

(** ** The last semicolon *)

Lemma lastIndexOfFrom_beforeLast : forall c s i found,
  lastIndexOfFrom c s i found =
  match Ref.beforeLast c s with
  | Some a => (i + Z.of_nat (List.length a))%Z
  | None => found
  end.
Proof.
  intros c. induction s as [|x s IH]; intros i found; [reflexivity|].
  simpl. rewrite IH. destruct (Ref.beforeLast c s) as [a|].
  - simpl List.length. lia.
  - destruct (N.eqb x c); simpl; [lia|reflexivity].
Qed.

Lemma beforeLast_firstn : forall c s a,
  Ref.beforeLast c s = Some a -> firstn (List.length a) s = a.
Proof.
  intros c. induction s as [|x s IH]; intros a H; [discriminate H|].
  simpl in H. destruct (Ref.beforeLast c s) as [a'|].
  - injection H as <-. simpl. f_equal. apply IH. reflexivity.
  - destruct (N.eqb x c); [|discriminate H]. injection H as <-. reflexivity.
Qed.

Lemma beforeLast_split : forall c s a,
  Ref.beforeLast c s = Some a -> exists b, s = a ++ c :: b.
Proof.
  intros c. induction s as [|x s IH]; intros a H; [discriminate H|].
  simpl in H. destruct (Ref.beforeLast c s) as [a'|].
  - injection H as <-. destruct (IH a' eq_refl) as [b Hb].
    exists b. simpl. f_equal. exact Hb.
  - destruct (N.eqb_spec x c) as [E|E]; [|discriminate H].
    injection H as <-. subst x. exists s. reflexivity.
Qed.

Lemma includes_char_beforeLast : forall c s,
  includes s [c] = true -> Ref.beforeLast c s <> None.
Proof.
  intros c. induction s as [|x s IH]; intro H; [discriminate H|].
  rewrite includes_cons in H. simpl in H. simpl.
  destruct (Ref.beforeLast c s) as [a|]; [discriminate|].
  destruct (N.eqb x c); [discriminate|].
  simpl in H. exfalso. apply (IH H). reflexivity.
Qed.

Lemma slice0_lastIndexOf : forall c s a,
  Ref.beforeLast c s = Some a ->
  (0 <=? lastIndexOf s c)%Z = true /\ slice0 s (lastIndexOf s c) = a.
Proof.
  intros c s a H. unfold lastIndexOf, slice0.
  rewrite lastIndexOfFrom_beforeLast, H. split.
  - apply Z.leb_le. lia.
  - simpl. rewrite Nat2Z.id. apply beforeLast_firstn with (c := c). exact H.
Qed.

(** ** The groups of the patterns *)

Lemma forallb_app_r : forall (p : char -> bool) a b,
  forallb p (a ++ b) = true -> forallb p b = true.
Proof.
  intros p a b H. rewrite forallb_app in H.
  apply andb_true_iff in H. apply H.
Qed.

Lemma spacesThenRest_dots : forall s g,
  spacesThenRest s = Some g -> forallb isDot g = true.
Proof.
  intros s g. unfold spacesThenRest.
  destruct (span isSpace s) as [w r]. destruct r as [|c r].
  - destruct (rev w) as [|c' w']; [discriminate|].
    destruct (isDot c') eqn:E; [|discriminate].
    intro H. injection H as <-. simpl. rewrite E. reflexivity.
  - destruct (forallb isDot (c :: r)) eqn:E; [|discriminate].
    intro H. injection H as <-. exact E.
Qed.

Lemma spacesThenRest_trim : forall s,
  forallb isDot s = true -> s <> [] ->
  exists g, spacesThenRest s = Some g /\ trim g = trim s.
Proof.
  intros s Hd Hne. unfold spacesThenRest.
  destruct (span isSpace s) as [w r] eqn:E.
  pose proof (span_app _ _ _ _ E) as Hs. pose proof (span_forallb _ _ _ _ E) as Hw.
  subst s. destruct r as [|c r].
  - rewrite app_nil_r in *. destruct (rev w) as [|c' w'] eqn:Er.
    + apply (f_equal (@rev char)) in Er. rewrite rev_involutive in Er.
      simpl in Er. contradiction.
    + assert (Hin : In c' w) by (apply in_rev; rewrite Er; left; reflexivity).
      rewrite forallb_forall in Hd. rewrite (Hd c' Hin).
      exists [c']. split; [reflexivity|].
      rewrite forallb_forall in Hw. rewrite (trim_spaces w).
      * apply trim_spaces. simpl. rewrite (Hw c' Hin). reflexivity.
      * apply forallb_forall. exact Hw.
  - rewrite (forallb_app_r _ _ _ Hd). exists (c :: r). split; [reflexivity|].
    rewrite trim_spaces_app by exact Hw. reflexivity.
Qed.

Lemma matchDecl_dots : forall l nm part,
  matchDecl l = Some (nm, part) -> forallb isDot part = true.
Proof.
  intros l nm part. unfold matchDecl.
  destruct l as [|c s]; [discriminate|].
  destruct (N.eqb_spec c 36) as [E|E].
  - subst c. destruct (span isIdentChar s) as [n r].
    destruct n as [|n0 n]; [discriminate|].
    destruct (snd (span isSpace r)) as [|c r2]; [discriminate|].
    destruct (N.eqb_spec c 58) as [E|E].
    + subst c. destruct (spacesThenRest r2) as [v|] eqn:Ev; [|discriminate].
      intro H. injection H as <- <-. apply (spacesThenRest_dots _ _ Ev).
    + destruct c as [|p]; try discriminate.
      repeat (destruct p as [p|p|]; try discriminate; try congruence).
  - destruct c as [|p]; try discriminate.
    repeat (destruct p as [p|p|]; try discriminate; try congruence).
Qed.

(** ** The inline comment *)

Lemma matchComment_cons : forall c s,
  matchComment (c :: s) =
  match (if startsWith (c :: s) (str "//") then spacesThenRest (skipn 2 (c :: s))
         else None) with
  | Some g => Some g
  | None => matchComment s
  end.
Proof. reflexivity. Qed.

Lemma afterSlashes_cons : forall c s,
  Ref.afterSlashes (c :: s) =
  if startsWith (c :: s) (str "//") then Some (skipn 2 (c :: s))
  else Ref.afterSlashes s.
Proof. reflexivity. Qed.

Lemma forallb_skipn : forall (p : char -> bool) n s,
  forallb p s = true -> forallb p (skipn n s) = true.
Proof.
  intros p n s H. rewrite <- (firstn_skipn n s) in H.
  apply forallb_app_r in H. exact H.
Qed.

Lemma matchComment_keptComment : forall s,
  forallb isDot s = true ->
  option_map trim (matchComment s) = Ref.keptComment s.
Proof.
  unfold Ref.keptComment.
  induction s as [|c s IH]; intro Hd; [reflexivity|].
  assert (Hs : forallb isDot s = true)
    by (simpl in Hd; apply andb_true_iff in Hd; apply Hd).
  rewrite matchComment_cons, afterSlashes_cons.
  destruct (startsWith (c :: s) (str "//")) eqn:E.
  - destruct (skipn 2 (c :: s)) as [|x rest] eqn:Ek.
    + (* the line ends with the two slashes *)
      change (spacesThenRest []) with (@None jsstring).
      apply startsWith_iff in E. destruct E as [r Hr].
      rewrite slashes_value in Hr. simpl in Hr. injection Hr as -> ->.
      simpl in Ek. subst r. reflexivity.
    + destruct (spacesThenRest_trim (x :: rest)) as [g [Hg Ht]].
      * rewrite <- Ek. apply forallb_skipn. exact Hd.
      * discriminate.
      * rewrite Hg. simpl. rewrite Ht. reflexivity.
  - apply IH. exact Hs.
Qed.

Lemma afterSlashes_app : forall x y,
  includes x (str "//") = true -> y <> [] ->
  exists c r, Ref.afterSlashes (x ++ y) = Some (c :: r).
Proof.
  induction x as [|c x IH]; intros y H Hy; [discriminate H|].
  rewrite includes_cons in H. rewrite <- app_comm_cons, afterSlashes_cons.
  destruct (startsWith (c :: x) (str "//")) eqn:E.
  - rewrite app_comm_cons, (startsWith_slashes_app (c :: x) y E).
    apply startsWith_iff in E. destruct E as [r Hr].
    rewrite slashes_value in Hr. simpl in Hr. injection Hr as -> ->.
    simpl. destruct r as [|c r]; simpl.
    + destruct y as [|c y]; [contradiction|]. eauto.
    + eauto.
  - simpl in H. rewrite app_comm_cons.
    rewrite <- app_comm_cons, startsWith_slashes_app_long by exact H.
    rewrite E. apply IH; assumption.
Qed.

Lemma matchComment_none_no_slashes : forall part a,
  forallb isDot part = true ->
  Ref.beforeLast 59%N part = Some a ->
  matchComment part = None -> includes a (str "//") = false.
Proof.
  intros part a Hd Ha Hn.
  destruct (includes a (str "//")) eqn:E; [|reflexivity]. exfalso.
  destruct (beforeLast_split _ _ _ Ha) as [b Hb].
  destruct (afterSlashes_app a (59%N :: b) E) as [c [r Hr]]; [discriminate|].
  pose proof (matchComment_keptComment part Hd) as Hc.
  assert (Hp : Ref.afterSlashes part = Some (c :: r))
    by (rewrite Hb; exact Hr).
  unfold Ref.keptComment in Hc. rewrite Hn, Hp in Hc. discriminate Hc.
Qed.

(** ** The pushed record *)

Lemma mkVariable_rawValue : forall nm part i,
  forallb isDot part = true ->
  includes part (str ";") = true ->
  rawValue (mkVariable nm part i) = Ref.keptValue part.
Proof.
  intros nm part i Hd Hs. unfold mkVariable, Ref.keptValue. simpl rawValue.
  destruct (Ref.beforeLast 59%N part) as [a|] eqn:Ha.
  2:{ exfalso. apply (includes_char_beforeLast 59%N part); assumption. }
  destruct (slice0_lastIndexOf _ _ _ Ha) as [H0 Hsl].
  rewrite H0, Hsl.
  destruct (matchComment part) as [g|] eqn:Hc.
  - rewrite includes_trim. destruct (includes a (str "//")) eqn:E.
    + apply trim_splitHead_trim. exact E.
    + rewrite splitHead_no_slashes by exact E. reflexivity.
  - rewrite (splitHead_no_slashes a); [reflexivity|].
    apply (matchComment_none_no_slashes part a); assumption.
Qed.

Lemma mkVariable_comment : forall nm part i,
  forallb isDot part = true ->
  comment (mkVariable nm part i) = Ref.keptComment part.
Proof.
  intros nm part i Hd. unfold mkVariable. simpl comment.
  apply matchComment_keptComment. exact Hd.
Qed.

(** ** The loop *)

(** The loop in terms of [accumulate]: one iteration on a declaration. *)
Lemma parseFrom_cons_some : forall l rest i nm part,
  matchDecl l = Some (nm, part) ->
  parseFrom (l :: rest) i =
  let '(p, rest', i') :=
    if continues part then accumulate part rest i else (part, rest, i) in
  mkVariable nm p i' :: parseFrom rest' (S i').
Proof.
  intros l rest i nm part H. simpl parseFrom. rewrite H.
  destruct (continues part); [|reflexivity].
  clear H. revert part i. induction rest as [|l' rest' IH]; intros part i.
  - reflexivity.
  - simpl accumulate. destruct (includes part (str ";")); [reflexivity|].
    apply IH.
Qed.

Lemma parseFrom_cons_none : forall l rest i,
  matchDecl l = None -> parseFrom (l :: rest) i = parseFrom rest (S i).
Proof. intros l rest i H. simpl. rewrite H. reflexivity. Qed.

Lemma parseFrom_cons_one_line : forall l rest i nm part,
  matchDecl l = Some (nm, part) ->
  includes part (str ";") = true ->
  parseFrom (l :: rest) i = mkVariable nm part i :: parseFrom rest (S i).
Proof.
  intros l rest i nm part H Hs. simpl. rewrite H.
  destruct (continues part); [|reflexivity].
  destruct rest as [|l' rest'].
  - reflexivity.
  - rewrite Hs. reflexivity.
Qed.

Lemma parseFrom_one_line_records : forall lines i,
  Forall Ref.oneLineOrNone lines ->
  List.map Ref.fields (parseFrom lines i) = Ref.keptRecords lines.
Proof.
  induction lines as [|l rest IH]; intros i H; [reflexivity|].
  inversion H as [|? ? Hl Hrest]; subst.
  unfold Ref.oneLineOrNone in Hl. unfold Ref.keptRecords. simpl flat_map.
  destruct (matchDecl l) as [[nm part]|] eqn:E.
  - rewrite (parseFrom_cons_one_line l rest i nm part E Hl).
    simpl. unfold Ref.fields at 1. simpl name.
    rewrite mkVariable_rawValue, mkVariable_comment;
      try exact Hl; try apply (matchDecl_dots _ _ _ E).
    f_equal. apply IH. exact Hrest.
  - rewrite (parseFrom_cons_none l rest i E). apply IH. exact Hrest.
Qed.

(** On the lines the parser handles one at a time, the records are those of
    [Ref.keptRecords]. *)
Lemma parseScssVariables_one_line_records : forall content : jsstring,
  Forall Ref.oneLineOrNone (splitChar content 10%N) ->
  List.map Ref.fields (parseScssVariables content) =
  Ref.keptRecords (splitChar content 10%N).
Proof.
  intros content H. unfold parseScssVariables.
  apply parseFrom_one_line_records. exact H.
Qed.

(** What the emitters see of the comment (they test it for truthiness): the
    trimmed text after the first [//] when it is not empty.  An empty comment
    and no comment are the same to them. *)
Lemma keptComment_truthy : forall part,
  truthyComment (Ref.keptComment part) =
  match Ref.afterSlashes part with
  | Some text => truthyComment (Some (trim text))
  | None => None
  end.
Proof.
  intro part. unfold Ref.keptComment.
  destruct (Ref.afterSlashes part) as [[|c text]|]; reflexivity.
Qed.

(** ** What every parsed variable satisfies *)

Lemma matchDecl_name : forall l nm part,
  matchDecl l = Some (nm, part) -> forallb isIdentChar nm = true.
Proof.
  intros l nm part. unfold matchDecl.
  destruct l as [|c s]; [discriminate|].
  destruct c as [|p]; try discriminate.
  repeat (destruct p as [p|p|]; try discriminate).
  destruct (span isIdentChar s) as [n r] eqn:E.
  destruct n as [|n0 n]; [discriminate|].
  destruct (snd (span isSpace r)) as [|c r2]; [discriminate|].
  destruct c as [|p]; try discriminate.
  repeat (destruct p as [p|p|]; try discriminate).
  destruct (spacesThenRest r2) as [v|]; [|discriminate].
  intro H. injection H as <- <-. apply (span_forallb _ _ _ _ E).
Qed.

Lemma mkVariable_parsedOk : forall nm part i,
  forallb isIdentChar nm = true -> Ref.parsedOk (mkVariable nm part i).
Proof. intros nm part i H. split; [exact H|reflexivity]. Qed.

Lemma parseFrom_parsedOk : forall n lines i,
  List.length lines <= n -> Forall Ref.parsedOk (parseFrom lines i).
Proof.
  induction n as [|n IH]; intros lines i Hn.
  - destruct lines; [constructor|simpl in Hn; lia].
  - destruct lines as [|l rest]; [constructor|].
    simpl in Hn. assert (Hr : List.length rest <= n) by lia.
    simpl. destruct (matchDecl l) as [[nm part]|] eqn:E.
    + pose proof (matchDecl_name _ _ _ E) as Hnm.
      destruct (continues part).
      * clear Hn E. revert part i Hr.
        induction rest as [|l' rest' IHr]; intros part i Hr.
        -- constructor; [apply mkVariable_parsedOk; exact Hnm|constructor].
        -- destruct (includes part (str ";")).
           ++ constructor; [apply mkVariable_parsedOk; exact Hnm|].
              apply IH. exact Hr.
           ++ apply IHr. simpl in Hr. lia.
      * constructor; [apply mkVariable_parsedOk; exact Hnm|apply IH; exact Hr].
    + apply IH. exact Hr.
Qed.

Lemma parseScssVariables_parsedOk : forall content,
  Forall Ref.parsedOk (parseScssVariables content).
Proof.
  intro content. unfold parseScssVariables.
  apply (parseFrom_parsedOk (List.length (splitChar content 10%N))). lia.
Qed.

(** ** The declaration and comment patterns *)

Lemma lang_star_cls : forall p s,
  lang (Star (Cls p)) s <-> forallb p s = true.
Proof.
  intros p s. simpl. split.
  - intros [ss [-> Hall]]. induction Hall as [|x ss [c [-> Hc]] _ IH];
      [reflexivity|]. simpl. rewrite Hc. exact IH.
  - intro H. exists (List.map (fun c => [c]) s). split.
    + clear H. induction s as [|c s IH]; [reflexivity|]. simpl. f_equal.
      exact IH.
    + apply Forall_forall. intros x Hx. apply in_map_iff in Hx.
      destruct Hx as [c [<- Hc]]. exists c. split; [reflexivity|].
      rewrite forallb_forall in H. apply H. exact Hc.
Qed.

Lemma lang_plus_cls : forall p s,
  lang (plus (Cls p)) s <-> s <> [] /\ forallb p s = true.
Proof.
  intros p s. unfold plus.
  change (lang (Cat (Cls p) (Star (Cls p))) s)
    with (exists s1 s2, s = s1 ++ s2 /\ lang (Cls p) s1 /\ lang (Star (Cls p)) s2).
  split.
  - intros [s1 [s2 [-> [[c [-> Hc]] H2]]]]. apply lang_star_cls in H2.
    split; [discriminate|]. simpl. rewrite Hc. exact H2.
  - intros [Hne H]. destruct s as [|c s]; [contradiction|].
    simpl in H. apply andb_true_iff in H. destruct H as [Hc Hs].
    exists [c], s. split; [reflexivity|]. split.
    + exists c. auto.
    + apply lang_star_cls. exact Hs.
Qed.

Lemma span_all_app : forall p w x,
  forallb p w = true ->
  span p (w ++ x) = (w ++ fst (span p x), snd (span p x)).
Proof.
  intros p. induction w as [|c w IH]; intros x H.
  - simpl. destruct (span p x). reflexivity.
  - simpl in H. apply andb_true_iff in H. destruct H as [Hc Hw].
    simpl. rewrite Hc, (IH x Hw). reflexivity.
Qed.

Lemma span_stop : forall p c x, p c = false -> span p (c :: x) = ([], c :: x).
Proof. intros p c x H. simpl. rewrite H. reflexivity. Qed.

Lemma span_rest_dots : forall s,
  forallb isDot s = true -> forallb isDot (snd (span isSpace s)) = true.
Proof.
  intros s H. destruct (span isSpace s) as [a b] eqn:E.
  apply span_app in E. subst s. apply forallb_app_r in H. exact H.
Qed.

(** The group of [\s*(.+)$]: the text is white space followed by the group,
    which is not empty and holds no line terminator. *)
Lemma spacesThenRest_some : forall s g,
  spacesThenRest s = Some g ->
  exists w, s = w ++ g /\ forallb isSpace w = true /\
            g <> [] /\ forallb isDot g = true.
Proof.
  intros s g. unfold spacesThenRest.
  destruct (span isSpace s) as [w r] eqn:E.
  pose proof (span_app _ _ _ _ E) as Hs. pose proof (span_forallb _ _ _ _ E) as Hw.
  destruct r as [|c r].
  - destruct (rev w) as [|c' w'] eqn:Er; [discriminate|].
    destruct (isDot c') eqn:Ec; [|discriminate].
    intro H. injection H as <-. exists (rev w').
    assert (Hw' : w = rev w' ++ [c']).
    { rewrite <- (rev_involutive w), Er. reflexivity. }
    rewrite app_nil_r in Hs. subst s. split; [exact Hw'|].
    split.
    + rewrite Hw', forallb_app in Hw. apply andb_true_iff in Hw. apply Hw.
    + split; [discriminate|]. simpl. rewrite Ec. reflexivity.
  - destruct (forallb isDot (c :: r)) eqn:Ed; [|discriminate].
    intro H. injection H as <-. exists w. split; [exact Hs|].
    split; [exact Hw|]. split; [discriminate|exact Ed].
Qed.

Lemma spacesThenRest_matches : forall w g,
  forallb isSpace w = true -> g <> [] -> forallb isDot g = true ->
  spacesThenRest (w ++ g) <> None.
Proof.
  intros w g Hw Hg Hd. unfold spacesThenRest.
  rewrite (span_all_app _ w g Hw).
  destruct (span isSpace g) as [g1 g2] eqn:E. simpl fst. simpl snd.
  pose proof (span_app _ _ _ _ E) as Hs.
  destruct g2 as [|c g2].
  - rewrite app_nil_r in Hs. subst g1.
    rewrite rev_app_distr. destruct (rev g) as [|c' g'] eqn:Er.
    + apply (f_equal (@rev char)) in Er. rewrite rev_involutive in Er.
      contradiction.
    + simpl. assert (Hin : In c' g)
        by (apply in_rev; rewrite Er; left; reflexivity).
      rewrite forallb_forall in Hd. rewrite (Hd c' Hin). discriminate.
  - subst g. rewrite (forallb_app_r _ _ _ Hd). discriminate.
Qed.

Lemma space_not_ident : forall c, isSpace c = true -> isIdentChar c = false.
Proof.
  intros c H. destruct (isIdentChar c) eqn:E; [|reflexivity]. exfalso.
  unfold isSpace, isIdentChar in *.
  repeat rewrite ?orb_true_iff, ?andb_true_iff, ?N.eqb_eq, ?N.leb_le in *.
  lia.
Qed.

Lemma colon_not_ident : isIdentChar 58%N = false.
Proof. reflexivity. Qed.

Lemma colon_not_space : isSpace 58%N = false.
Proof. reflexivity. Qed.

(** The groups of a match spell the line. *)
Lemma matchDecl_some : forall l nm v,
  matchDecl l = Some (nm, v) ->
  exists w1 w2,
    l = str "$" ++ nm ++ w1 ++ str ":" ++ w2 ++ v /\
    nm <> [] /\ forallb isIdentChar nm = true /\
    forallb isSpace w1 = true /\ forallb isSpace w2 = true /\
    v <> [] /\ forallb isDot v = true.
Proof.
  intros l nm v. unfold matchDecl.
  destruct l as [|c s]; [discriminate|].
  destruct c as [|p]; try discriminate.
  repeat (destruct p as [p|p|]; try discriminate).
  destruct (span isIdentChar s) as [n r] eqn:E1.
  destruct n as [|n0 n]; [discriminate|].
  destruct (span isSpace r) as [w1 r1] eqn:E2. simpl snd.
  destruct r1 as [|c r2]; [discriminate|].
  destruct c as [|p]; try discriminate.
  repeat (destruct p as [p|p|]; try discriminate).
  destruct (spacesThenRest r2) as [g|] eqn:E3; [|discriminate].
  intro H. injection H as <- <-.
  destruct (spacesThenRest_some _ _ E3) as [w2 [H2 [Hw2 [Hg Hd]]]].
  exists w1, w2.
  apply span_app in E1 as Hs. apply span_forallb in E1.
  apply span_app in E2 as Hr. apply span_forallb in E2.
  subst s r r2. split; [reflexivity|].
  split; [discriminate|]. auto.
Qed.

Lemma matchDecl_matches : forall nm w1 w2 v,
  nm <> [] -> forallb isIdentChar nm = true ->
  forallb isSpace w1 = true -> forallb isSpace w2 = true ->
  v <> [] -> forallb isDot v = true ->
  matchDecl (str "$" ++ nm ++ w1 ++ str ":" ++ w2 ++ v) <> None.
Proof.
  intros nm w1 w2 v Hn Hi H1 H2 Hv Hd.
  change (str "$" ++ nm ++ w1 ++ str ":" ++ w2 ++ v)
    with (36%N :: nm ++ w1 ++ 58%N :: w2 ++ v).
  unfold matchDecl.
  assert (E1 : span isIdentChar (nm ++ w1 ++ 58%N :: w2 ++ v) =
               (nm, w1 ++ 58%N :: w2 ++ v)).
  { rewrite (span_all_app _ nm _ Hi).
    destruct w1 as [|c w1].
    - cbn [app]. rewrite span_stop by exact colon_not_ident.
      cbn [fst snd]. rewrite app_nil_r. reflexivity.
    - simpl in H1. apply andb_true_iff in H1. destruct H1 as [Hc _].
      cbn [app]. rewrite span_stop by (apply space_not_ident; exact Hc).
      cbn [fst snd]. rewrite app_nil_r. reflexivity. }
  rewrite E1. destruct nm as [|n0 nm]; [contradiction|].
  rewrite (span_all_app _ w1 _ H1), span_stop by exact colon_not_space.
  cbn [snd fst app].
  destruct (spacesThenRest (w2 ++ v)) eqn:E3; [discriminate|].
  exfalso. apply (spacesThenRest_matches w2 v H2 Hv Hd). exact E3.
Qed.

(** [matchDecl] finds a match exactly when the line is in the language of
    the declaration pattern. *)
Lemma matchDecl_pattern : forall l,
  test DECL_PATTERN l = true <-> matchDecl l <> None.
Proof.
  intro l. unfold DECL_PATTERN. rewrite test_Whole. split.
  - intros [s0 [t0 [-> [H0 [nm [t1 [-> [Hn [w1 [t2 [-> [Hw1
            [s3 [t3 [-> [H3 [w2 [v [-> [Hw2 Hv]]]]]]]]]]]]]]]]]]]].
    apply lang_lit in H0, H3. apply lang_plus_cls in Hn, Hv.
    apply lang_star_cls in Hw1, Hw2. subst s0 s3.
    destruct Hn as [Hn Hi]. destruct Hv as [Hv Hd].
    apply matchDecl_matches; assumption.
  - intro H. destruct (matchDecl l) as [[nm v]|] eqn:E; [|contradiction].
    destruct (matchDecl_some _ _ _ E)
      as [w1 [w2 [-> [Hn [Hi [H1 [H2 [Hv Hd]]]]]]]].
    exists (str "$"), (nm ++ w1 ++ str ":" ++ w2 ++ v).
    split; [reflexivity|]. split; [apply lang_lit; reflexivity|].
    exists nm, (w1 ++ str ":" ++ w2 ++ v). split; [reflexivity|].
    split; [apply lang_plus_cls; auto|].
    exists w1, (str ":" ++ w2 ++ v). split; [reflexivity|].
    split; [apply lang_star_cls; exact H1|].
    exists (str ":"), (w2 ++ v). split; [reflexivity|].
    split; [apply lang_lit; reflexivity|].
    exists w2, v. split; [reflexivity|].
    split; [apply lang_star_cls; exact H2|apply lang_plus_cls; auto].
Qed.

Lemma matchComment_here : forall w g rest,
  forallb isSpace w = true -> g <> [] -> forallb isDot g = true ->
  rest = w ++ g -> matchComment (str "//" ++ rest) <> None.
Proof.
  intros w g rest Hw Hg Hd ->.
  change (str "//" ++ w ++ g) with (47%N :: 47%N :: w ++ g).
  rewrite matchComment_cons.
  change (startsWith (47%N :: 47%N :: w ++ g) (str "//")) with true.
  cbv iota. change (skipn 2 (47%N :: 47%N :: w ++ g)) with (w ++ g).
  destruct (spacesThenRest (w ++ g)) eqn:E; [discriminate|].
  exfalso. apply (spacesThenRest_matches w g Hw Hg Hd). exact E.
Qed.

Lemma matchComment_later : forall a s,
  matchComment s <> None -> matchComment (a ++ s) <> None.
Proof.
  induction a as [|c a IH]; intros s H; [exact H|].
  rewrite <- app_comm_cons, matchComment_cons.
  destruct (if startsWith (c :: a ++ s) (str "//")
            then spacesThenRest (skipn 2 (c :: a ++ s)) else None);
    [discriminate|]. apply IH. exact H.
Qed.

(** [matchComment] finds a match exactly when the comment pattern matches
    somewhere in the text. *)
Lemma matchComment_pattern : forall s,
  test COMMENT_PATTERN s = true <-> matchComment s <> None.
Proof.
  intro s. unfold COMMENT_PATTERN. rewrite test_Suffix. split.
  - intros [a [b [-> [s0 [t0 [-> [H0 [w [g [-> [Hw Hg]]]]]]]]]]].
    apply lang_lit in H0. apply lang_star_cls in Hw.
    apply lang_plus_cls in Hg. destruct Hg as [Hg Hd]. subst s0.
    apply matchComment_later.
    apply (matchComment_here w g (w ++ g)); auto.
  - induction s as [|c s IH]; intro H; [contradiction H; reflexivity|].
    rewrite matchComment_cons in H.
    destruct (startsWith (c :: s) (str "//")) eqn:E.
    + destruct (spacesThenRest (skipn 2 (c :: s))) as [g|] eqn:Eg.
      * apply startsWith_iff in E. destruct E as [r Hr].
        destruct (spacesThenRest_some _ _ Eg) as [w [Hs [Hw [Hg Hd]]]].
        rewrite Hr in Hs. change (skipn 2 (str "//" ++ r)) with r in Hs.
        exists [], (c :: s). split; [reflexivity|].
        exists (str "//"), r. split; [exact Hr|].
        split; [apply lang_lit; reflexivity|].
        exists w, g. split; [exact Hs|].
        split; [apply lang_star_cls; exact Hw|apply lang_plus_cls; auto].
      * destruct (IH H) as [a [b [Hab Hb]]]. exists (c :: a), b.
        split; [simpl; f_equal; exact Hab|exact Hb].
    + destruct (IH H) as [a [b [Hab Hb]]]. exists (c :: a), b.
      split; [simpl; f_equal; exact Hab|exact Hb].
Qed.

(** ** C2: declaration lines by their parts *)

Lemma span_app_stop : forall p s c x,
  p c = false ->
  span p (s ++ c :: x) = (fst (span p s), snd (span p s) ++ c :: x).
Proof.
  intros p s c x H. induction s as [|a s IH].
  - simpl. rewrite H. reflexivity.
  - simpl. destruct (p a); [|reflexivity].
    rewrite IH. destruct (span p s). reflexivity.
Qed.

Lemma beforeLast_none : forall c t,
  forallb (fun x => negb (N.eqb x c)) t = true -> Ref.beforeLast c t = None.
Proof.
  intros c. induction t as [|x t IH]; intro H; [reflexivity|].
  simpl in H. apply andb_true_iff in H. destruct H as [Hx Ht].
  simpl. rewrite (IH Ht). apply negb_true_iff in Hx. rewrite Hx. reflexivity.
Qed.

Lemma beforeLast_app_last : forall c a t,
  forallb (fun x => negb (N.eqb x c)) t = true ->
  Ref.beforeLast c (a ++ c :: t) = Some a.
Proof.
  intros c a t H. induction a as [|x a IH].
  - simpl. rewrite (beforeLast_none c t H), N.eqb_refl. reflexivity.
  - simpl. rewrite IH. reflexivity.
Qed.

Lemma includes_semicolon_app : forall a t,
  includes (a ++ 59%N :: t) (str ";") = true.
Proof.
  induction a as [|x a IH]; intro t.
  - reflexivity.
  - simpl app. rewrite includes_cons, IH. apply orb_true_r.
Qed.

(** The first [//] of a text is not in a part that holds none, when what
    follows that part does not start with a slash. *)
Lemma afterSlashes_skip : forall a c y,
  includes a (str "//") = false -> N.eqb c 47 = false ->
  Ref.afterSlashes (a ++ c :: y) = Ref.afterSlashes (c :: y).
Proof.
  induction a as [|x a IH]; intros c y H Hc; [reflexivity|].
  rewrite includes_cons in H. apply orb_false_iff in H. destruct H as [H1 H2].
  rewrite <- app_comm_cons, afterSlashes_cons.
  assert (E : startsWith (x :: a ++ c :: y) (str "//") = false).
  { rewrite slashes_value in *. destruct a as [|x2 a].
    - simpl. rewrite Hc. apply andb_false_r.
    - exact H1. }
  rewrite E. apply IH; assumption.
Qed.

Lemma afterSlashes_spaces_app : forall w z,
  forallb isSpace w = true -> Ref.afterSlashes (w ++ z) = Ref.afterSlashes z.
Proof.
  induction w as [|c w IH]; intros z H; [reflexivity|].
  simpl in H. apply andb_true_iff in H. destruct H as [Hc Hw].
  rewrite <- app_comm_cons, afterSlashes_cons.
  rewrite startsWith_slashes_space by exact Hc. apply IH. exact Hw.
Qed.

Lemma forallb_and : forall (p q : char -> bool) s,
  forallb (fun c => p c && q c) s = true ->
  forallb p s = true /\ forallb q s = true.
Proof.
  intros p q. induction s as [|c s IH]; intro H; [split; reflexivity|].
  simpl in H. apply andb_true_iff in H. destruct H as [Hc Hs].
  apply andb_true_iff in Hc. destruct Hc as [Hp Hq].
  destruct (IH Hs) as [I1 I2]. simpl. rewrite Hp, Hq, I1, I2. split; reflexivity.
Qed.

Lemma spaces_no_semicolon : forall w,
  forallb isSpace w = true -> forallb (fun x => negb (N.eqb x 59)) w = true.
Proof.
  induction w as [|c w IH]; intro H; [reflexivity|].
  simpl in H. apply andb_true_iff in H. destruct H as [Hc Hw].
  simpl. rewrite (IH Hw), andb_true_r.
  destruct (N.eqb_spec c 59) as [->|]; [discriminate Hc|reflexivity].
Qed.

Lemma plainDecl_parts : forall d,
  Ref.plainDecl d = true ->
  Ref.dl_name d <> [] /\
  forallb isIdentChar (Ref.dl_name d) = true /\
  forallb isSpace (Ref.dl_beforeColon d) = true /\
  forallb isDot (Ref.dl_value d) = true /\
  includes (Ref.dl_value d) (str "//") = false /\
  forallb isSpace (Ref.dl_afterSemicolon d) = true /\
  forallb isDot (Ref.afterValue d) = true /\
  forallb (fun x => negb (N.eqb x 59)) (Ref.afterValue d) = true.
Proof.
  intros [nm w1 v w3 cm] H. unfold Ref.plainDecl in H. unfold Ref.afterValue.
  cbn [Ref.dl_name Ref.dl_beforeColon Ref.dl_value Ref.dl_afterSemicolon
       Ref.dl_comment] in *.
  repeat (apply andb_true_iff in H; destruct H as [H ?]).
  match goal with
  | X : forallb (fun c => isSpace c && isDot c) w3 = true |- _ =>
      apply forallb_and in X; destruct X as [Hs3 Hd3]
  end.
  match goal with
  | X : negb _ = true |- _ => apply negb_true_iff in X
  end.
  split; [destruct nm; [discriminate H|discriminate]|].
  repeat (split; [assumption|]).
  destruct cm as [text|].
  - match goal with
    | X : forallb (fun c => isDot c && negb (N.eqb c 59)) text = true |- _ =>
        apply forallb_and in X; destruct X as [Hdt Hst]
    end.
    rewrite !forallb_app.
    split; repeat (apply andb_true_iff; split);
      try assumption; try reflexivity; apply spaces_no_semicolon; assumption.
  - rewrite app_nil_r. split; [assumption|].
    apply spaces_no_semicolon; assumption.
Qed.

Lemma lineText_parts : forall d,
  Ref.lineText d =
  36%N :: Ref.dl_name d ++ Ref.dl_beforeColon d ++
  58%N :: Ref.dl_value d ++ 59%N :: Ref.afterValue d.
Proof. intro d. reflexivity. Qed.

(** The pattern matches such a line; its second group is the text after the
    colon without the white space it starts with. *)
Lemma matchDecl_lineText : forall d,
  Ref.plainDecl d = true ->
  matchDecl (Ref.lineText d) =
  Some (Ref.dl_name d,
        snd (span isSpace (Ref.dl_value d)) ++ 59%N :: Ref.afterValue d).
Proof.
  intros d H.
  destruct (plainDecl_parts d H) as [Hn [Hi [H1 [Hv [_ [_ [Hd _]]]]]]].
  rewrite lineText_parts. unfold matchDecl.
  set (rest := Ref.dl_value d ++ 59%N :: Ref.afterValue d).
  assert (E1 : span isIdentChar (Ref.dl_name d ++ Ref.dl_beforeColon d ++ 58%N :: rest) =
               (Ref.dl_name d, Ref.dl_beforeColon d ++ 58%N :: rest)).
  { rewrite (span_all_app _ _ _ Hi).
    destruct (Ref.dl_beforeColon d) as [|c w1] eqn:Ew.
    - cbn [app]. rewrite span_stop by exact colon_not_ident.
      simpl. rewrite app_nil_r. reflexivity.
    - cbn [app]. simpl in H1. apply andb_true_iff in H1.
      rewrite span_stop by (apply space_not_ident; apply H1).
      simpl. rewrite app_nil_r. reflexivity. }
  rewrite E1.
  destruct (Ref.dl_name d) as [|n0 nm] eqn:En; [contradiction Hn; reflexivity|].
  assert (E2 : snd (span isSpace (Ref.dl_beforeColon d)) = []).
  { rewrite <- (app_nil_r (Ref.dl_beforeColon d)).
    rewrite (span_all_app _ _ _ H1). reflexivity. }
  match goal with
  | |- context [snd (span isSpace ?x)] =>
      assert (E3 : snd (span isSpace x) = 58%N :: rest)
        by (etransitivity;
            [exact (f_equal snd (span_app_stop isSpace (Ref.dl_beforeColon d)
                                   58%N rest colon_not_space))
            |cbn [snd]; rewrite E2; reflexivity]);
      rewrite E3
  end.
  assert (Hr : forallb isDot (snd (span isSpace (Ref.dl_value d)) ++
                              59%N :: Ref.afterValue d) = true).
  { rewrite forallb_app, (span_rest_dots _ Hv). simpl. exact Hd. }
  assert (E4 : spacesThenRest rest =
               Some (snd (span isSpace (Ref.dl_value d)) ++ 59%N :: Ref.afterValue d)).
  { unfold spacesThenRest.
    assert (S2 : span isSpace rest =
                 (fst (span isSpace (Ref.dl_value d)),
                  snd (span isSpace (Ref.dl_value d)) ++ 59%N :: Ref.afterValue d))
      by exact (span_app_stop isSpace (Ref.dl_value d) 59%N (Ref.afterValue d)
                  eq_refl).
    rewrite S2.
    destruct (snd (span isSpace (Ref.dl_value d)) ++ 59%N :: Ref.afterValue d)
      as [|c r] eqn:Er.
    - destruct (snd (span isSpace (Ref.dl_value d))); discriminate Er.
    - rewrite Hr. reflexivity. }
  rewrite E4. reflexivity.
Qed.

Lemma keptValue_lineText : forall d,
  Ref.plainDecl d = true ->
  Ref.keptValue (snd (span isSpace (Ref.dl_value d)) ++ 59%N :: Ref.afterValue d) =
  trim (Ref.dl_value d).
Proof.
  intros d H.
  destruct (plainDecl_parts d H) as [_ [_ [_ [_ [Hs [_ [_ Hsemi]]]]]]].
  unfold Ref.keptValue. rewrite (beforeLast_app_last _ _ _ Hsemi).
  destruct (span isSpace (Ref.dl_value d)) as [w v'] eqn:E. cbn [snd].
  pose proof (span_app _ _ _ _ E) as Hv.
  pose proof (span_forallb _ _ _ _ E) as Hw.
  rewrite Hv in Hs |- *.
  rewrite (includes_spaces_app w v' Hw) in Hs.
  rewrite (splitHead_no_slashes v' Hs), (trim_spaces_app w v' Hw). reflexivity.
Qed.

Lemma keptComment_lineText : forall d,
  Ref.plainDecl d = true ->
  Ref.keptComment (snd (span isSpace (Ref.dl_value d)) ++ 59%N :: Ref.afterValue d) =
  match Ref.dl_comment d with
  | Some (c :: text) => Some (trim (c :: text))
  | _ => None
  end.
Proof.
  intros d H.
  destruct (plainDecl_parts d H) as [_ [_ [_ [_ [Hs [H3 _]]]]]].
  unfold Ref.keptComment.
  assert (Hv : includes (snd (span isSpace (Ref.dl_value d))) (str "//") = false).
  { destruct (span isSpace (Ref.dl_value d)) as [w v'] eqn:E. cbn [snd].
    pose proof (span_app _ _ _ _ E) as Hv.
    pose proof (span_forallb _ _ _ _ E) as Hw.
    rewrite Hv, (includes_spaces_app w v' Hw) in Hs. exact Hs. }
  rewrite (afterSlashes_skip _ 59%N _ Hv eq_refl).
  rewrite afterSlashes_cons.
  change (startsWith (59%N :: Ref.afterValue d) (str "//")) with false. cbv iota.
  unfold Ref.afterValue. rewrite (afterSlashes_spaces_app _ _ H3).
  destruct (Ref.dl_comment d) as [text|]; [|reflexivity].
  change (str "//" ++ text) with (47%N :: 47%N :: text).
  rewrite afterSlashes_cons. reflexivity.
Qed.

Lemma plainLine_oneLineOrNone : forall x,
  Ref.plainLine x -> Ref.oneLineOrNone (Ref.lineOf x).
Proof.
  intros [d|l] H; unfold Ref.oneLineOrNone; cbn [Ref.lineOf Ref.plainLine] in *.
  - rewrite (matchDecl_lineText d H). apply includes_semicolon_app.
  - destruct (matchDecl l) as [[nm part]|] eqn:E; [|exact I].
    exfalso. assert (T : test DECL_PATTERN l = true)
      by (apply matchDecl_pattern; rewrite E; discriminate).
    congruence.
Qed.

Lemma keptRecords_plain : forall xs,
  Forall Ref.plainLine xs ->
  Ref.keptRecords (List.map Ref.lineOf xs) = Ref.recordsOf xs.
Proof.
  induction xs as [|x xs IH]; intro H; [reflexivity|].
  inversion H as [|? ? Hx Hxs]; subst.
  unfold Ref.keptRecords, Ref.recordsOf in *. cbn [List.map flat_map].
  rewrite (IH Hxs). f_equal.
  destruct x as [d|l]; cbn [Ref.lineOf Ref.plainLine] in *.
  - rewrite (matchDecl_lineText d Hx).
    rewrite (keptValue_lineText d Hx), (keptComment_lineText d Hx). reflexivity.
  - destruct (matchDecl l) as [[nm part]|] eqn:E; [|reflexivity].
    exfalso. assert (T : test DECL_PATTERN l = true)
      by (apply matchDecl_pattern; rewrite E; discriminate).
    congruence.
Qed.

(** X24.  When every line of the file either is a declaration
    [$name: value;], an inline [// comment] possibly following, whose value
    holds no [//], whose comment holds no semicolon and which holds no line
    terminator after the colon (no carriage return before the line feed), or
    matches no declaration, [parseScssVariables] returns one record per
    declaration, in the order of the file: its name is the identifier without
    the dollar sign, its raw value the value trimmed, its comment the text
    after [//] trimmed when there is such a text and undefined otherwise. *)
Theorem parseScssVariables_declaration_lines :
  forall (content : jsstring) (xs : list Ref.FileLine),
  splitChar content 10%N = List.map Ref.lineOf xs ->
  Forall Ref.plainLine xs ->
  List.map Ref.fields (parseScssVariables content) = Ref.recordsOf xs.
Proof.
  intros content xs Hlines Hplain.
  rewrite parseScssVariables_one_line_records.
  - rewrite Hlines. apply keptRecords_plain. exact Hplain.
  - rewrite Hlines. apply Forall_forall. intros l Hl.
    apply in_map_iff in Hl. destruct Hl as [x [<- Hx]].
    apply plainLine_oneLineOrNone. rewrite Forall_forall in Hplain.
    apply Hplain. exact Hx.
Qed.

Lemma parseScssVariables_declaration_lines_witness :
  splitChar (str "// Colors" ++ [10%N] ++ str "$color-white: #fff; // White" ++
             [10%N] ++ [10%N] ++ str "$base-unit : 0.5rem;") 10%N =
  List.map Ref.lineOf
    [ Ref.OtherLine (str "// Colors");
      Ref.Declaration (Ref.mkDeclLine (str "color-white") [] (str " #fff")
                         (str " ") (Some (str " White")));
      Ref.OtherLine [];
      Ref.Declaration (Ref.mkDeclLine (str "base-unit") (str " ") (str " 0.5rem")
                         [] None) ] /\
  List.map Ref.fields
    (parseScssVariables
       (str "// Colors" ++ [10%N] ++ str "$color-white: #fff; // White" ++
        [10%N] ++ [10%N] ++ str "$base-unit : 0.5rem;")) =
  [ (str "color-white", str "#fff", Some (str "White"));
    (str "base-unit", str "0.5rem", None) ].
Proof.
  assert (L : splitChar (str "// Colors" ++ [10%N] ++
                         str "$color-white: #fff; // White" ++
                         [10%N] ++ [10%N] ++ str "$base-unit : 0.5rem;") 10%N =
              List.map Ref.lineOf
                [ Ref.OtherLine (str "// Colors");
                  Ref.Declaration (Ref.mkDeclLine (str "color-white") []
                                     (str " #fff") (str " ") (Some (str " White")));
                  Ref.OtherLine [];
                  Ref.Declaration (Ref.mkDeclLine (str "base-unit") (str " ")
                                     (str " 0.5rem") [] None) ])
    by (vm_compute; reflexivity).
  split; [exact L|].
  rewrite (parseScssVariables_declaration_lines _ _ L).
  - vm_compute. reflexivity.
  - repeat constructor; vm_compute; reflexivity.
Defined.

(** C2.  The line [$logo: url(http://x.com/a.png);] matches the declaration
    pattern; it is a declaration with the value [url(http://x.com/a.png)] and
    no comment.  The parser takes the [//] of the address for the start of a
    comment: the raw value of its record is [url(http:] and the comment
    [x.com/a.png);], where the text before the semicolon and no comment are
    expected. *)
Theorem value_cut_at_slashes_of_url :
  let d := Ref.mkDeclLine (str "logo") [] (str " url(http://x.com/a.png)") [] None in
  Ref.lineText d = str "$logo: url(http://x.com/a.png);" /\
  test DECL_PATTERN (Ref.lineText d) = true /\
  Ref.declared d = (str "logo", str "url(http://x.com/a.png)", None) /\
  List.map Ref.fields (parseScssVariables (Ref.lineText d)) =
    [ (str "logo", str "url(http:", Some (str "x.com/a.png);")) ].
Proof. vm_compute. repeat split; reflexivity. Qed.

(** ** Maps with string keys *)

Section MapFacts.

Variable V : Type.

Lemma mapGet_mapSet_same : forall (m : StringMap V) k v,
  mapGet (mapSet m k v) k = Some v.
Proof.
  induction m as [|[k' v'] m IH]; intros k v; simpl.
  - rewrite eqb_refl. reflexivity.
  - destruct (JS.eqb k' k) eqn:E; simpl; rewrite E; [reflexivity|apply IH].
Qed.

Lemma mapGet_mapSet_other : forall (m : StringMap V) k v k',
  k <> k' -> mapGet (mapSet m k v) k' = mapGet m k'.
Proof.
  induction m as [|[k0 v0] m IH]; intros k v k' Hne; simpl.
  - apply eqb_neq in Hne. rewrite Hne. reflexivity.
  - destruct (JS.eqb k0 k) eqn:E; simpl.
    + apply eqb_eq in E. subst k0. apply eqb_neq in Hne. rewrite Hne.
      reflexivity.
    + destruct (JS.eqb k0 k'); [reflexivity|]. apply IH. exact Hne.
Qed.

Lemma mapKeys_mapSet_in : forall (m : StringMap V) k v k',
  In k' (mapKeys (mapSet m k v)) <-> k' = k \/ In k' (mapKeys m).
Proof.
  induction m as [|[k0 v0] m IH]; intros k v k'; simpl.
  - intuition.
  - destruct (JS.eqb k0 k) eqn:E; simpl.
    + apply eqb_eq in E. subst k0. intuition.
    + rewrite IH. intuition.
Qed.

Lemma mapKeys_mapSet_NoDup : forall (m : StringMap V) k v,
  NoDup (mapKeys m) -> NoDup (mapKeys (mapSet m k v)).
Proof.
  induction m as [|[k0 v0] m IH]; intros k v H; simpl.
  - constructor; [intros []|constructor].
  - inversion H as [|? ? Hnin Hnd]; subst.
    destruct (JS.eqb k0 k) eqn:E; simpl.
    + constructor; assumption.
    + constructor; [|apply IH; exact Hnd].
      intro Hin. apply mapKeys_mapSet_in in Hin. destruct Hin as [Hin|Hin].
      * subst k0. rewrite eqb_refl in E. discriminate.
      * contradiction.
Qed.

Lemma mapGet_in : forall (m : StringMap V) k v,
  NoDup (mapKeys m) -> In (k, v) m -> mapGet m k = Some v.
Proof.
  induction m as [|[k0 v0] m IH]; intros k v Hnd Hin; [contradiction|].
  simpl in Hnd. inversion Hnd as [|? ? Hnin Hnd']; subst.
  simpl. destruct Hin as [Hin|Hin].
  - injection Hin as -> ->. rewrite eqb_refl. reflexivity.
  - destruct (JS.eqb k0 k) eqn:E.
    + apply eqb_eq in E. subst k0. exfalso. apply Hnin.
      apply (in_map fst) in Hin. exact Hin.
    + apply IH; assumption.
Qed.

Lemma mapGet_some_in : forall (m : StringMap V) k v,
  mapGet m k = Some v -> In (k, v) m.
Proof.
  induction m as [|[k0 v0] m IH]; intros k v H; [discriminate|].
  simpl in H. destruct (JS.eqb k0 k) eqn:E.
  - apply eqb_eq in E. injection H as ->. subst. left. reflexivity.
  - right. apply IH. exact H.
Qed.

Lemma mapGet_none : forall (m : StringMap V) k,
  ~ In k (mapKeys m) -> mapGet m k = None.
Proof.
  induction m as [|[k0 v0] m IH]; intros k H; [reflexivity|].
  simpl in *. destruct (JS.eqb k0 k) eqn:E.
  - apply eqb_eq in E. subst. exfalso. apply H. left. reflexivity.
  - apply IH. intro Hin. apply H. right. exact Hin.
Qed.

(** Grouping keeps every token, once. *)
Lemma addToGroup_perm : forall (groups : list (jsstring * list V)) k t,
  Permutation (List.concat (List.map snd (addToGroup groups k t)))
              (t :: List.concat (List.map snd groups)).
Proof.
  induction groups as [|[k0 ts] groups IH]; intros k t; simpl.
  - reflexivity.
  - destruct (JS.eqb k0 k); simpl.
    + rewrite <- app_assoc. simpl.
      apply Permutation_sym. apply Permutation_middle.
    + rewrite IH. apply Permutation_sym. apply Permutation_middle.
Qed.

Lemma groupBy_fold_perm : forall (groupOf : V -> jsstring) tokens groups,
  Permutation
    (List.concat (List.map snd
       (fold_left (fun g t => addToGroup g (groupOf t) t) tokens groups)))
    (List.concat (List.map snd groups) ++ tokens).
Proof.
  intros groupOf. induction tokens as [|t tokens IH]; intro groups; simpl.
  - rewrite app_nil_r. reflexivity.
  - rewrite IH, addToGroup_perm. apply Permutation_middle.
Qed.

Lemma groupBy_perm : forall (groupOf : V -> jsstring) tokens,
  Permutation (List.concat (List.map snd (groupBy groupOf tokens))) tokens.
Proof. intros groupOf tokens. apply (groupBy_fold_perm groupOf tokens []). Qed.

End MapFacts.

(** ** Deduplication *)

Lemma mapSet_keyed : forall m v, Ref.keyed m -> Ref.keyed (mapSet m (name v) v).
Proof.
  unfold Ref.keyed. induction m as [|[k0 v0] m IH]; intros v H; simpl.
  - constructor; [reflexivity|constructor].
  - inversion H as [|? ? Hk Hm]; subst. destruct (JS.eqb k0 (name v)) eqn:E.
    + constructor; [|exact Hm]. simpl. apply eqb_eq in E. exact E.
    + constructor; [exact Hk|apply IH; exact Hm].
Qed.

Lemma setAll_invariant : forall l m,
  Ref.keyed m -> NoDup (mapKeys m) ->
  Ref.keyed (Ref.setAll l m) /\ NoDup (mapKeys (Ref.setAll l m)).
Proof.
  induction l as [|v l IH]; intros m Hk Hn; simpl; [auto|].
  apply IH; [apply mapSet_keyed; exact Hk|apply mapKeys_mapSet_NoDup; exact Hn].
Qed.

Lemma setAll_get : forall l m k,
  mapGet (Ref.setAll l m) k =
  match Ref.lastNamed k l with
  | Some v => Some v
  | None => mapGet m k
  end.
Proof.
  induction l as [|v l IH]; intros m k; simpl; [reflexivity|].
  rewrite IH. destruct (Ref.lastNamed k l); [reflexivity|].
  destruct (JS.eqb (name v) k) eqn:E.
  - apply eqb_eq in E. subst k. apply mapGet_mapSet_same.
  - apply mapGet_mapSet_other. apply eqb_neq. exact E.
Qed.

Lemma keyed_names : forall m, Ref.keyed m -> List.map name (mapValues m) = mapKeys m.
Proof.
  unfold Ref.keyed, mapValues, mapKeys.
  induction m as [|[k v] m IH]; intro H; [reflexivity|].
  inversion H as [|? ? Hk Hm]; subst. simpl in *. rewrite Hk. f_equal.
  apply IH. exact Hm.
Qed.

Lemma keyed_in : forall m v, Ref.keyed m -> In v (mapValues m) -> In (name v, v) m.
Proof.
  unfold Ref.keyed, mapValues. intros m v H Hin.
  apply in_map_iff in Hin. destruct Hin as [[k u] [Hu Hin]]. simpl in Hu. subst u.
  rewrite Forall_forall in H. specialize (H _ Hin). simpl in H. subst k.
  exact Hin.
Qed.

Lemma dedupe_NoDup : forall l, NoDup (List.map name (dedupe l)).
Proof.
  intro l. unfold dedupe.
  destruct (setAll_invariant l []) as [Hk Hn]; [constructor|constructor|].
  fold (Ref.setAll l []). rewrite keyed_names by exact Hk. exact Hn.
Qed.

Lemma dedupe_lastNamed : forall l v,
  In v (dedupe l) -> Ref.lastNamed (name v) l = Some v.
Proof.
  intros l v Hin. unfold dedupe in Hin. fold (Ref.setAll l []) in Hin.
  destruct (setAll_invariant l []) as [Hk Hn]; [constructor|constructor|].
  pose proof (mapGet_in _ _ _ _ Hn (keyed_in _ _ Hk Hin)) as Hg.
  rewrite setAll_get in Hg. destruct (Ref.lastNamed (name v) l); [exact Hg|].
  discriminate Hg.
Qed.

Lemma lastNamed_in : forall n l v,
  Ref.lastNamed n l = Some v -> In v l /\ name v = n.
Proof.
  intros n. induction l as [|u l IH]; intros v H; [discriminate|].
  simpl in H. destruct (Ref.lastNamed n l) as [x|].
  - injection H as ->. destruct (IH v eq_refl). split; [right|]; assumption.
  - destruct (JS.eqb (name u) n) eqn:E; [|discriminate].
    injection H as ->. apply eqb_eq in E. split; [left; reflexivity|exact E].
Qed.

Lemma lastNamed_some : forall n l v,
  In v l -> name v = n -> Ref.lastNamed n l <> None.
Proof.
  intros n. induction l as [|u l IH]; intros v Hin Hn; [contradiction|].
  simpl. destruct (Ref.lastNamed n l) eqn:E; [discriminate|].
  destruct Hin as [Hin|Hin].
  - subst u. rewrite <- Hn, eqb_refl. discriminate.
  - exfalso. apply (IH v Hin Hn). reflexivity.
Qed.

Lemma lastNamed_app : forall n a b,
  Ref.lastNamed n (a ++ b) =
  match Ref.lastNamed n b with
  | Some u => Some u
  | None => Ref.lastNamed n a
  end.
Proof.
  intros n. induction a as [|u a IH]; intro b; simpl.
  - destruct (Ref.lastNamed n b); reflexivity.
  - rewrite IH. destruct (Ref.lastNamed n b); reflexivity.
Qed.

Lemma dedupe_in : forall l v, In v (dedupe l) -> In v l.
Proof.
  intros l v H. apply dedupe_lastNamed in H. apply lastNamed_in in H. apply H.
Qed.

Lemma dedupe_covers : forall l v, In v l -> In (name v) (List.map name (dedupe l)).
Proof.
  intros l v Hin. unfold dedupe. fold (Ref.setAll l []).
  destruct (setAll_invariant l []) as [Hk Hn]; [constructor|constructor|].
  rewrite keyed_names by exact Hk.
  destruct (Ref.lastNamed (name v) l) as [u|] eqn:E.
  - assert (Hg : mapGet (Ref.setAll l []) (name v) = Some u)
      by (rewrite setAll_get, E; reflexivity).
    apply mapGet_some_in in Hg. apply (in_map fst) in Hg. exact Hg.
  - exfalso. apply (lastNamed_some (name v) l v Hin eq_refl). exact E.
Qed.

(** ** The declarations of the generated lines *)

Lemma isChiDecl_tokenLine : forall t, Ref.isChiDecl (tokenLine t) = true.
Proof. reflexivity. Qed.

Lemma isChiDecl_syntheticLine : forall s, Ref.isChiDecl (syntheticLine s) = true.
Proof. reflexivity. Qed.

Lemma isChiDecl_groupHeading : forall label, Ref.isChiDecl (groupHeading label) = false.
Proof. reflexivity. Qed.

Lemma filter_map_all : forall (A : Type) (f : A -> jsstring) (l : list A),
  (forall a, Ref.isChiDecl (f a) = true) ->
  filter Ref.isChiDecl (List.map f l) = List.map f l.
Proof.
  intros A f l H. induction l as [|a l IH]; [reflexivity|].
  simpl. rewrite H, IH. reflexivity.
Qed.

Lemma filter_cons_false : forall (p : jsstring -> bool) x l,
  p x = false -> filter p (x :: l) = filter p l.
Proof. intros p x l H. simpl. rewrite H. reflexivity. Qed.

Lemma chiDecls_groupLines : forall (T : Type) (lineOf : T -> jsstring) g,
  (forall t, Ref.isChiDecl (lineOf t) = true) ->
  filter Ref.isChiDecl (groupLines lineOf g) = List.map lineOf (snd g).
Proof.
  intros T lineOf g H. unfold groupLines.
  rewrite filter_cons_false by apply isChiDecl_groupHeading.
  rewrite filter_app, filter_map_all by exact H.
  apply app_nil_r.
Qed.

Lemma chiDecls_groups : forall (T : Type) (lineOf : T -> jsstring) groups,
  (forall t, Ref.isChiDecl (lineOf t) = true) ->
  filter Ref.isChiDecl (List.concat (List.map (groupLines lineOf) groups)) =
  List.map lineOf (List.concat (List.map snd groups)).
Proof.
  intros T lineOf groups H. induction groups as [|g groups IH]; [reflexivity|].
  change (List.concat (List.map (groupLines lineOf) (g :: groups)))
    with (groupLines lineOf g ++ List.concat (List.map (groupLines lineOf) groups)).
  change (List.concat (List.map snd (g :: groups)))
    with (snd g ++ List.concat (List.map snd groups)).
  rewrite filter_app, map_app, IH, chiDecls_groupLines by exact H.
  reflexivity.
Qed.

Lemma chiDecls_headerLines : forall theme now f s t,
  filter Ref.isChiDecl (headerLines theme now f s t) = [].
Proof. reflexivity. Qed.

Lemma chiDecls_foundationSection : forall deduped,
  filter Ref.isChiDecl (foundationSection deduped) =
  match deduped with
  | [] => []
  | _ :: _ =>
      List.map tokenLine
        (List.concat (List.map snd (groupFoundationTokens deduped))) ++
      List.map syntheticLine (List.concat (List.map snd syntheticScales))
  end.
Proof.
  intros [|v deduped]; [reflexivity|].
  unfold foundationSection.
  rewrite !filter_app.
  rewrite (chiDecls_groups _ tokenLine) by exact isChiDecl_tokenLine.
  rewrite (chiDecls_groups _ syntheticLine) by exact isChiDecl_syntheticLine.
  match goal with
  | |- filter ?p ?a ++ ?b ++ ?c ++ filter ?p ?d = _ =>
      change (filter p a) with (@nil jsstring);
      change (filter p d) with (@nil jsstring)
  end.
  rewrite app_nil_r. reflexivity.
Qed.

Lemma chiDecls_semanticSection : forall sem deduped,
  filter Ref.isChiDecl (semanticSection sem deduped) =
  List.map tokenLine (List.concat (List.map snd (groupSemanticTokens sem))).
Proof.
  intros [|v sem] deduped; [reflexivity|].
  unfold semanticSection.
  rewrite !filter_app.
  rewrite (chiDecls_groups _ tokenLine) by exact isChiDecl_tokenLine.
  match goal with
  | |- _ ++ _ ++ filter ?p ?d = _ => change (filter p d) with (@nil jsstring)
  end.
  destruct deduped;
    match goal with
    | |- filter ?p ?a ++ _ = _ => change (filter p a) with (@nil jsstring)
    end; rewrite app_nil_r; reflexivity.
Qed.

Lemma chiDecls_scssLines : forall themeVars globalVars theme layers now,
  filter Ref.isChiDecl (scssLines themeVars globalVars theme layers now) =
  filter Ref.isChiDecl
    (foundationSection (dedupe (foundationTokensOf themeVars globalVars layers))) ++
  filter Ref.isChiDecl
    (semanticSection (semanticTokensOf themeVars layers)
       (dedupe (foundationTokensOf themeVars globalVars layers))).
Proof.
  intros. unfold scssLines. rewrite !filter_app, chiDecls_headerLines.
  change (filter Ref.isChiDecl [[]]) with (@nil jsstring).
  rewrite app_nil_r. reflexivity.
Qed.

(** ** The names the lines declare *)

Lemma upToColon_app : forall a b,
  forallb (fun c => negb (N.eqb c 58)) a = true ->
  Ref.upToColon (a ++ 58%N :: b) = a.
Proof.
  induction a as [|c a IH]; intros b H; [reflexivity|].
  simpl in H. apply andb_true_iff in H. destruct H as [Hc Ha].
  simpl. apply negb_true_iff in Hc. rewrite Hc. f_equal. apply IH. exact Ha.
Qed.

Lemma identChar_not_colon : forall c,
  isIdentChar c = true -> negb (N.eqb c 58) = true.
Proof.
  intros c H. destruct (N.eqb_spec c 58) as [E|E]; [|reflexivity].
  subst c. discriminate H.
Qed.

Lemma propName_tokenLine : forall t,
  forallb isIdentChar (name t) = true ->
  Ref.propName (tokenLine t) = toCssCustomProp (name t).
Proof.
  intros t H. unfold Ref.propName, tokenLine, toCssCustomProp.
  change (trimStart (str "  " ++ (str "--" ++ PREFIX ++ str "-" ++ name t) ++
                     str ": " ++ toScssInterpolation (name t) ++ str ";" ++
                     commentSuffix (comment t)))
    with ((str "--" ++ PREFIX ++ str "-" ++ name t) ++
          58%N :: (str " " ++ toScssInterpolation (name t) ++ str ";" ++
                   commentSuffix (comment t))).
  apply upToColon_app.
  rewrite !forallb_app. simpl.
  rewrite forallb_forall in H. apply forallb_forall.
  intros c Hc. apply identChar_not_colon. apply H. exact Hc.
Qed.

Lemma propName_syntheticLines :
  List.map Ref.propName
    (List.map syntheticLine (List.concat (List.map snd syntheticScales))) =
  List.map toCssCustomProp Ref.syntheticNames.
Proof. vm_compute. reflexivity. Qed.

Lemma toCssCustomProp_inj : forall a b,
  toCssCustomProp a = toCssCustomProp b -> a = b.
Proof.
  intros a b H. unfold toCssCustomProp in H.
  repeat apply app_inv_head in H. exact H.
Qed.

(** ** Pairwise different names *)

Lemma distinct_NoDup : forall l, Ref.distinct l = true -> NoDup l.
Proof.
  induction l as [|x l IH]; intro H; [constructor|].
  simpl in H. apply andb_true_iff in H. destruct H as [Hx Hl].
  constructor; [|apply IH; exact Hl].
  intro Hin. apply negb_true_iff in Hx.
  assert (existsb (JS.eqb x) l = true)
    by (apply existsb_exists; exists x; split; [exact Hin|apply eqb_refl]).
  congruence.
Qed.

Lemma syntheticNames_NoDup : NoDup Ref.syntheticNames.
Proof. apply distinct_NoDup. vm_compute. reflexivity. Qed.

Lemma syntheticNames_not_foundation :
  forallb (fun s => negb (firstMatch FOUNDATION_PATTERNS (str "$" ++ s)))
          Ref.syntheticNames = true.
Proof. vm_compute. reflexivity. Qed.

Lemma classify_foundation : forall fullName value,
  classifyToken fullName value = L foundation ->
  firstMatch FOUNDATION_PATTERNS fullName = true.
Proof.
  intros fullName value. unfold classifyToken.
  destruct (firstMatch EXCLUDE_PATTERNS fullName); [discriminate|].
  destruct (startsWith value (str "(") || includes value (str "linear-gradient"));
    [discriminate|].
  destruct (firstMatch FOUNDATION_PATTERNS fullName); [reflexivity|].
  destruct (firstMatch SEMANTIC_PATTERNS fullName); discriminate.
Qed.

Lemma TokenLayer_eqb_eq : forall a b, TokenLayer_eqb a b = true <-> a = b.
Proof.
  intros [[|]| |] [[|]| |]; simpl; split; intro H;
    try reflexivity; try discriminate.
Qed.

Lemma parsed_foundation_not_synthetic : forall v,
  Ref.parsedOk v -> isFoundation v = true -> ~ In (name v) Ref.syntheticNames.
Proof.
  intros v [_ Hl] Hf Hin. unfold isFoundation in Hf.
  apply TokenLayer_eqb_eq in Hf. rewrite Hf in Hl. symmetry in Hl.
  apply classify_foundation in Hl.
  pose proof syntheticNames_not_foundation as Hs.
  rewrite forallb_forall in Hs. specialize (Hs _ Hin).
  rewrite Hl in Hs. discriminate Hs.
Qed.

Lemma NoDup_app_disjoint : forall (A : Type) (a b : list A),
  NoDup a -> NoDup b -> (forall x, In x a -> ~ In x b) -> NoDup (a ++ b).
Proof.
  intros A. induction a as [|x a IH]; intros b Ha Hb Hd; [exact Hb|].
  inversion Ha as [|? ? Hx Ha']; subst. simpl. constructor.
  - intro Hin. apply in_app_or in Hin. destruct Hin as [Hin|Hin];
      [contradiction|]. apply (Hd x); [left; reflexivity|exact Hin].
  - apply IH; [exact Ha'|exact Hb|]. intros y Hy. apply Hd. right. exact Hy.
Qed.

Lemma NoDup_map_inj : forall (A B : Type) (f : A -> B) (l : list A),
  (forall a b, f a = f b -> a = b) -> NoDup l -> NoDup (List.map f l).
Proof.
  intros A B f l Hf H. induction H as [|x l Hx Hl IH]; [constructor|].
  simpl. constructor; [|exact IH].
  intro Hin. apply in_map_iff in Hin. destruct Hin as [y [Hy Hin]].
  apply Hf in Hy. subst y. contradiction.
Qed.

(** The names declared in the foundation block are pairwise different when
    the tokens are parsed foundation tokens with different names. *)
Lemma foundationSection_names_NoDup : forall deduped,
  NoDup (List.map name deduped) ->
  Forall Ref.parsedOk deduped ->
  Forall (fun v => isFoundation v = true) deduped ->
  NoDup (List.map Ref.propName
           (filter Ref.isChiDecl (foundationSection deduped))).
Proof.
  intros deduped Hnd Hok Hf. rewrite chiDecls_foundationSection.
  destruct deduped as [|v0 d0] eqn:Ed; [constructor|]. rewrite <- Ed in *.
  clear Ed v0 d0.
  pose proof (groupBy_perm _ (fun token => foundationGroupName (name token)) deduped)
    as Hp.
  fold (groupFoundationTokens deduped) in Hp.
  set (grouped := List.concat (List.map snd (groupFoundationTokens deduped))) in *.
  assert (Hin : forall v, In v grouped -> In v deduped)
    by (intros v Hv; apply (Permutation_in _ Hp Hv)).
  rewrite map_app, propName_syntheticLines.
  assert (Hg : List.map Ref.propName (List.map tokenLine grouped) =
               List.map toCssCustomProp (List.map name grouped)).
  { rewrite !map_map. apply map_ext_in. intros v Hv.
    apply propName_tokenLine. rewrite Forall_forall in Hok.
    apply (Hok v (Hin v Hv)). }
  rewrite Hg, <- map_app.
  apply NoDup_map_inj; [exact toCssCustomProp_inj|].
  apply NoDup_app_disjoint.
  - apply (Permutation_NoDup (l := List.map name deduped));
      [apply Permutation_map; apply Permutation_sym; exact Hp|exact Hnd].
  - exact syntheticNames_NoDup.
  - intros n Hn. apply in_map_iff in Hn. destruct Hn as [v [Hv Hvin]]. subst n.
    rewrite Forall_forall in Hok, Hf.
    apply parsed_foundation_not_synthetic; [apply Hok|apply Hf]; apply Hin;
      exact Hvin.
Qed.

(** ** The entries of the metadata *)

Section Entries.

Variable T : Type.
Variable nameOf : T -> jsstring.
Variable entryOf : T -> TokenEntry.

Lemma putEntries_cons : forall x l e,
  putEntries nameOf entryOf (x :: l) e =
  putEntries nameOf entryOf l (mapSet e (nameOf x) (entryOf x)).
Proof. reflexivity. Qed.

Lemma putEntries_NoDup : forall l e,
  NoDup (mapKeys e) -> NoDup (mapKeys (putEntries nameOf entryOf l e)).
Proof.
  induction l as [|x l IH]; intros e H; [exact H|].
  rewrite putEntries_cons. apply IH. apply mapKeys_mapSet_NoDup. exact H.
Qed.

Lemma putEntries_get_other : forall l e k,
  ~ In k (List.map nameOf l) ->
  mapGet (putEntries nameOf entryOf l e) k = mapGet e k.
Proof.
  induction l as [|x l IH]; intros e k H; [reflexivity|].
  rewrite putEntries_cons, IH.
  - apply mapGet_mapSet_other. intro E. apply H. left. exact E.
  - intro Hin. apply H. right. exact Hin.
Qed.

Lemma putEntries_get_in : forall l e v,
  NoDup (List.map nameOf l) -> In v l ->
  mapGet (putEntries nameOf entryOf l e) (nameOf v) = Some (entryOf v).
Proof.
  induction l as [|x l IH]; intros e v Hnd Hin; [contradiction|].
  simpl in Hnd. inversion Hnd as [|? ? Hx Hl]; subst.
  rewrite putEntries_cons. destruct Hin as [Hin|Hin].
  - subst x. rewrite putEntries_get_other by exact Hx.
    apply mapGet_mapSet_same.
  - apply IH; assumption.
Qed.

Lemma putEntries_get_some : forall l e k entry,
  mapGet (putEntries nameOf entryOf l e) k = Some entry ->
  (exists v, In v l /\ nameOf v = k /\ entry = entryOf v) \/
  mapGet e k = Some entry.
Proof.
  induction l as [|x l IH]; intros e k entry H; [right; exact H|].
  rewrite putEntries_cons in H. apply IH in H. destruct H as [[v [Hv H]]|H].
  - left. exists v. split; [right; exact Hv|exact H].
  - destruct (JS.eqb (nameOf x) k) eqn:E.
    + apply eqb_eq in E. subst k. rewrite mapGet_mapSet_same in H.
      injection H as <-. left. exists x. split; [left; reflexivity|]. auto.
    + rewrite mapGet_mapSet_other in H by (apply eqb_neq; exact E).
      right. exact H.
Qed.

Lemma putEntries_arrays : forall (arrays : list (list T)) e,
  fold_left (fun e arr => putEntries nameOf entryOf arr e) arrays e =
  putEntries nameOf entryOf (List.concat arrays) e.
Proof.
  induction arrays as [|a arrays IH]; intro e; [reflexivity|].
  simpl. rewrite IH. unfold putEntries. rewrite fold_left_app. reflexivity.
Qed.

End Entries.

(** ** C3: names in the foundation layer *)

Lemma filter_parsedOk : forall p l,
  Forall Ref.parsedOk l -> Forall Ref.parsedOk (filter p l).
Proof.
  intros p l H. apply Forall_forall. intros v Hv.
  apply filter_In in Hv. rewrite Forall_forall in H. apply H. apply Hv.
Qed.

Lemma filter_all : forall (p : ScssVariable -> bool) l,
  Forall (fun v => p v = true) (filter p l).
Proof.
  intros p l. apply Forall_forall. intros v Hv. apply filter_In in Hv. apply Hv.
Qed.

Lemma dedupe_Forall : forall (P : ScssVariable -> Prop) l,
  Forall P l -> Forall P (dedupe l).
Proof.
  intros P l H. apply Forall_forall. intros v Hv. apply dedupe_in in Hv.
  rewrite Forall_forall in H. apply H. exact Hv.
Qed.

Lemma dedupe_override : forall a b v,
  In v (dedupe (a ++ b)) ->
  match Ref.lastNamed (name v) b with
  | Some t => v = t
  | None => Ref.lastNamed (name v) a = Some v
  end.
Proof.
  intros a b v H. apply dedupe_lastNamed in H. rewrite lastNamed_app in H.
  destruct (Ref.lastNamed (name v) b); [congruence|exact H].
Qed.

Lemma tokens_foundation_value : forall themeVars globalVars theme output now,
  tokens_foundation (generateTokenMetadata themeVars globalVars theme output now) =
  putEntries syn_name syntheticEntry (List.concat ALL_SYNTHETIC_TOKENS)
    (putEntries name tokenEntry
       (dedupe (filter isFoundation globalVars ++ filter isFoundation themeVars))
       []).
Proof.
  intros. rewrite <- putEntries_arrays. reflexivity.
Qed.

(** The foundation layer, for parsed global and theme variables: the
    foundation tokens of the generated SCSS carry each name once, a theme
    variable taking the place of a global variable of the same name; the
    [--chi-] names declared in the foundation block, synthetic tokens
    included, are pairwise different; the foundation entries of the metadata
    have pairwise different keys, the entry of a name being that of the
    overriding variable. *)
Lemma foundation_names_unique :
  forall (globalContent themeContent : jsstring) (theme : Theme)
         (layers : list Layer) (now : jsstring),
  let globalVars := parseScssVariables globalContent in
  let themeVars := parseScssVariables themeContent in
  let selected := foundationTokensOf themeVars globalVars layers in
  let emitted := dedupe selected in
  let output := generateCssVariablesScss themeVars globalVars theme layers now in
  let metadata := generateTokenMetadata themeVars globalVars theme output now in
  let described :=
    dedupe (filter isFoundation globalVars ++ filter isFoundation themeVars) in
  let overrides (v : ScssVariable) :=
    match Ref.lastNamed (name v) (filter isFoundation themeVars) with
    | Some t => v = t
    | None => Ref.lastNamed (name v) (filter isFoundation globalVars) = Some v
    end in
  NoDup (List.map name emitted) /\
  (forall v, In v selected -> In (name v) (List.map name emitted)) /\
  (forall v, In v emitted -> overrides v) /\
  NoDup (List.map Ref.propName
           (filter Ref.isChiDecl (foundationSection emitted))) /\
  NoDup (mapKeys (tokens_foundation metadata)) /\
  (forall v, In v described ->
     overrides v /\
     mapGet (tokens_foundation metadata) (name v) = Some (tokenEntry v)).
Proof.
  intros globalContent themeContent theme layers now
         globalVars themeVars selected emitted output metadata described overrides.
  assert (Hg : Forall Ref.parsedOk globalVars)
    by apply parseScssVariables_parsedOk.
  assert (Ht : Forall Ref.parsedOk themeVars)
    by apply parseScssVariables_parsedOk.
  assert (Hall : Forall Ref.parsedOk
                   (filter isFoundation globalVars ++ filter isFoundation themeVars))
    by (apply Forall_app; split; apply filter_parsedOk; assumption).
  assert (Hallf : Forall (fun v => isFoundation v = true)
                   (filter isFoundation globalVars ++ filter isFoundation themeVars))
    by (apply Forall_app; split; apply filter_all).
  assert (Hsel : Forall Ref.parsedOk selected /\
                 Forall (fun v => isFoundation v = true) selected).
  { unfold selected, foundationTokensOf.
    destruct (layersInclude layers foundation); [split; assumption|].
    split; constructor. }
  destruct Hsel as [Hsel Hself].
  split; [apply dedupe_NoDup|].
  split; [intros v Hv; apply dedupe_covers; exact Hv|].
  split.
  { intros v Hv. unfold emitted, selected, foundationTokensOf in Hv.
    destruct (layersInclude layers foundation); [|contradiction].
    apply dedupe_override. exact Hv. }
  split.
  { apply foundationSection_names_NoDup;
      [apply dedupe_NoDup|apply dedupe_Forall; exact Hsel
      |apply dedupe_Forall; exact Hself]. }
  unfold metadata. rewrite tokens_foundation_value. fold described.
  split.
  { apply putEntries_NoDup. apply putEntries_NoDup. constructor. }
  intros v Hv. split; [apply dedupe_override; exact Hv|].
  rewrite putEntries_get_other.
  - apply putEntries_get_in; [apply dedupe_NoDup|exact Hv].
  - pose proof (dedupe_Forall _ _ Hall) as H1.
    pose proof (dedupe_Forall _ _ Hallf) as H2.
    rewrite Forall_forall in H1, H2.
    apply (parsed_foundation_not_synthetic v (H1 v Hv) (H2 v Hv)).
Qed.

(** ** C7: semantic tokens come from the theme *)

Lemma semanticTokensOf_in : forall themeVars layers v,
  In v (semanticTokensOf themeVars layers) ->
  In v themeVars /\ layer v = L semantic.
Proof.
  intros themeVars layers v H. unfold semanticTokensOf in H.
  destruct (layersInclude layers semantic); [|contradiction].
  apply filter_In in H. destruct H as [Hin Hs]. split; [exact Hin|].
  apply TokenLayer_eqb_eq. exact Hs.
Qed.

(** The semantic declarations and entries, for any two lists of variables. *)
Lemma semantic_tokens_from_vars :
  forall (themeVars globalVars : list ScssVariable) (theme : Theme)
         (layers : list Layer) (now : jsstring),
  let semanticTokens := semanticTokensOf themeVars layers in
  let deduped := dedupe (foundationTokensOf themeVars globalVars layers) in
  let output := generateCssVariablesScss themeVars globalVars theme layers now in
  let metadata := generateTokenMetadata themeVars globalVars theme output now in
  let emitted :=
    List.concat (List.map snd (groupSemanticTokens semanticTokens)) in
  filter Ref.isChiDecl (scssLines themeVars globalVars theme layers now) =
    filter Ref.isChiDecl (foundationSection deduped) ++
    List.map tokenLine emitted /\
  filter Ref.isChiDecl (semanticSection semanticTokens deduped) =
    List.map tokenLine emitted /\
  Permutation emitted semanticTokens /\
  (forall v, In v emitted -> In v themeVars /\ layer v = L semantic) /\
  tokens_semantic metadata =
    putEntries name tokenEntry (filter isSemantic themeVars) [] /\
  (forall k entry, mapGet (tokens_semantic metadata) k = Some entry ->
     exists v, In v themeVars /\ layer v = L semantic /\ name v = k /\
               entry = tokenEntry v).
Proof.
  intros themeVars globalVars theme layers now
         semanticTokens deduped output metadata emitted.
  assert (Hp : Permutation emitted semanticTokens)
    by apply groupBy_perm.
  split.
  { rewrite chiDecls_scssLines, chiDecls_semanticSection. reflexivity. }
  split; [apply chiDecls_semanticSection|].
  split; [exact Hp|].
  split.
  { intros v Hv. apply (semanticTokensOf_in themeVars layers).
    apply (Permutation_in _ Hp Hv). }
  split; [reflexivity|].
  intros k entry H. unfold metadata, generateTokenMetadata in H.
  simpl tokens_semantic in H. apply putEntries_get_some in H.
  destruct H as [[v [Hv [Hk He]]]|H]; [|discriminate H].
  apply filter_In in Hv. destruct Hv as [Hin Hs].
  exists v. split; [exact Hin|]. split; [|split; assumption].
  apply TokenLayer_eqb_eq. exact Hs.
Qed.

(** C7.  For every theme, the semantic tokens of the generated SCSS and of
    the metadata are variables of the theme's own file classified as
    semantic: the [--chi-] declarations of the semantic block are the lines
    of these variables, the semantic entries are built from them with their
    own raw values, and neither depends on the global variables file. *)
Theorem semantic_tokens_from_theme :
  forall (themeContent globalContent : jsstring) (theme : Theme)
         (layers : list Layer) (now : jsstring),
  let themeVars := parseScssVariables themeContent in
  let globalVars := parseScssVariables globalContent in
  let semanticTokens := semanticTokensOf themeVars layers in
  let deduped := dedupe (foundationTokensOf themeVars globalVars layers) in
  let output := generateCssVariablesScss themeVars globalVars theme layers now in
  let metadata := generateTokenMetadata themeVars globalVars theme output now in
  let emitted :=
    List.concat (List.map snd (groupSemanticTokens semanticTokens)) in
  filter Ref.isChiDecl (scssLines themeVars globalVars theme layers now) =
    filter Ref.isChiDecl (foundationSection deduped) ++
    List.map tokenLine emitted /\
  filter Ref.isChiDecl (semanticSection semanticTokens deduped) =
    List.map tokenLine emitted /\
  Permutation emitted semanticTokens /\
  (forall v, In v emitted -> In v themeVars /\ layer v = L semantic) /\
  tokens_semantic metadata =
    putEntries name tokenEntry (filter isSemantic themeVars) [] /\
  (forall k entry, mapGet (tokens_semantic metadata) k = Some entry ->
     exists v, In v themeVars /\ layer v = L semantic /\ name v = k /\
               entry = tokenEntry v).
Proof.
  intros themeContent globalContent theme layers now themeVars globalVars.
  apply semantic_tokens_from_vars.
Qed.

(** ** C3: the semantic layer *)

Lemma putEntries_get_last :
  forall (entryOf : ScssVariable -> TokenEntry) l e k,
  mapGet (putEntries name entryOf l e) k =
  match Ref.lastNamed k l with
  | Some v => Some (entryOf v)
  | None => mapGet e k
  end.
Proof.
  intros entryOf. induction l as [|v l IH]; intros e k; [reflexivity|].
  rewrite putEntries_cons, IH. simpl Ref.lastNamed.
  destruct (Ref.lastNamed k l) as [u|]; [reflexivity|].
  destruct (JS.eqb (name v) k) eqn:E.
  - apply eqb_eq in E. subst k. apply mapGet_mapSet_same.
  - apply mapGet_mapSet_other. apply eqb_neq. exact E.
Qed.

(** The names declared in the semantic block are those of the semantic
    tokens, one line per token: no name is dropped and none is merged. *)
Lemma semanticSection_names : forall sem deduped,
  Forall Ref.parsedOk sem ->
  Permutation
    (List.map Ref.propName (filter Ref.isChiDecl (semanticSection sem deduped)))
    (List.map toCssCustomProp (List.map name sem)).
Proof.
  intros sem deduped Hok. rewrite chiDecls_semanticSection.
  pose proof (groupBy_perm _ (fun token => semanticGroupName (name token)) sem)
    as Hp.
  fold (groupSemanticTokens sem) in Hp.
  set (grouped := List.concat (List.map snd (groupSemanticTokens sem))) in *.
  assert (Hg : List.map Ref.propName (List.map tokenLine grouped) =
               List.map toCssCustomProp (List.map name grouped)).
  { rewrite !map_map. apply map_ext_in. intros v Hv.
    apply propName_tokenLine. rewrite Forall_forall in Hok.
    destruct (Hok v (Permutation_in _ Hp Hv)) as [H _]. exact H. }
  rewrite Hg. apply Permutation_map. apply Permutation_map. exact Hp.
Qed.

Lemma semanticSection_names_NoDup : forall sem deduped,
  Forall Ref.parsedOk sem ->
  NoDup (List.map Ref.propName
           (filter Ref.isChiDecl (semanticSection sem deduped))) <->
  NoDup (List.map name sem).
Proof.
  intros sem deduped Hok.
  pose proof (semanticSection_names sem deduped Hok) as Hp. split.
  - intro H. apply (Permutation_NoDup Hp) in H.
    apply NoDup_map_inv in H. exact H.
  - intro H. apply (Permutation_NoDup (Permutation_sym Hp)).
    apply NoDup_map_inj; [exact toCssCustomProp_inj|exact H].
Qed.

(** C3 (amended).  For parsed global and theme variables.  Foundation names
    are unique in the output: the foundation tokens of the generated SCSS
    carry each name once, a theme variable taking the place of a global
    variable of the same name; the [--chi-] names declared in the foundation
    block, synthetic tokens included, are pairwise different; the foundation
    entries of the metadata have pairwise different keys, the entry of a name
    being that of the overriding variable.  Semantic names are unique in the
    metadata, where the last variable of a name gives the entry, but not in
    the generated SCSS: the semantic block declares one property per semantic
    variable of the theme file (when the semantic layer is asked for), so its
    names are pairwise different exactly when those of the variables are. *)
Theorem token_names_by_layer :
  forall (globalContent themeContent : jsstring) (theme : Theme)
         (layers : list Layer) (now : jsstring),
  let globalVars := parseScssVariables globalContent in
  let themeVars := parseScssVariables themeContent in
  let selected := foundationTokensOf themeVars globalVars layers in
  let emitted := dedupe selected in
  let semanticTokens := semanticTokensOf themeVars layers in
  let semanticVars :=
    if layersInclude layers semantic then filter isSemantic themeVars else [] in
  let output := generateCssVariablesScss themeVars globalVars theme layers now in
  let metadata := generateTokenMetadata themeVars globalVars theme output now in
  let described :=
    dedupe (filter isFoundation globalVars ++ filter isFoundation themeVars) in
  let overrides (v : ScssVariable) :=
    match Ref.lastNamed (name v) (filter isFoundation themeVars) with
    | Some t => v = t
    | None => Ref.lastNamed (name v) (filter isFoundation globalVars) = Some v
    end in
  NoDup (List.map name emitted) /\
  (forall v, In v selected -> In (name v) (List.map name emitted)) /\
  (forall v, In v emitted -> overrides v) /\
  NoDup (List.map Ref.propName
           (filter Ref.isChiDecl (foundationSection emitted))) /\
  NoDup (mapKeys (tokens_foundation metadata)) /\
  (forall v, In v described ->
     overrides v /\
     mapGet (tokens_foundation metadata) (name v) = Some (tokenEntry v)) /\
  Permutation
    (List.map Ref.propName
       (filter Ref.isChiDecl (semanticSection semanticTokens emitted)))
    (List.map toCssCustomProp (List.map name semanticVars)) /\
  (NoDup (List.map Ref.propName
            (filter Ref.isChiDecl (semanticSection semanticTokens emitted))) <->
   NoDup (List.map name semanticVars)) /\
  NoDup (mapKeys (tokens_semantic metadata)) /\
  (forall k, mapGet (tokens_semantic metadata) k =
             option_map tokenEntry
               (Ref.lastNamed k (filter isSemantic themeVars))).
Proof.
  intros globalContent themeContent theme layers now
         globalVars themeVars selected emitted semanticTokens semanticVars
         output metadata described overrides.
  change semanticVars with semanticTokens.
  destruct (foundation_names_unique globalContent themeContent theme layers now)
    as [F1 [F2 [F3 [F4 [F5 F6]]]]].
  split; [exact F1|]. split; [exact F2|]. split; [exact F3|].
  split; [exact F4|]. split; [exact F5|]. split; [exact F6|].
  assert (Hsem : Forall Ref.parsedOk semanticTokens).
  { apply Forall_forall. intros v Hv.
    destruct (semanticTokensOf_in themeVars layers v Hv) as [Hin _].
    pose proof (parseScssVariables_parsedOk themeContent) as Hok.
    rewrite Forall_forall in Hok. apply Hok. exact Hin. }
  split; [apply semanticSection_names; exact Hsem|].
  split; [apply semanticSection_names_NoDup; exact Hsem|].
  split.
  - unfold metadata, generateTokenMetadata. cbn [tokens_semantic].
    apply putEntries_NoDup. constructor.
  - intro k. unfold metadata, generateTokenMetadata. cbn [tokens_semantic].
    rewrite putEntries_get_last.
    destruct (Ref.lastNamed k (filter isSemantic themeVars)); reflexivity.
Qed.

(** C3 (as stated) fails for the semantic layer.  A theme file that declares
    [$color-text-base] twice gives two semantic tokens of that name, and the
    generated SCSS declares [--chi-color-text-base] twice. *)
Lemma semantic_name_declared_twice :
  let themeVars :=
    parseScssVariables
      (str "$color-text-base: #000;" ++ [10%N] ++ str "$color-text-base: #111;") in
  let globalVars := parseScssVariables [] in
  let output :=
    generateCssVariablesScss themeVars globalVars lumen LAYERS Ref.sampleClock in
  List.map name (semanticTokensOf themeVars LAYERS) =
    [str "color-text-base"; str "color-text-base"] /\
  Ref.chiDecls (scss output) =
    [ str "  --chi-color-text-base: #{$color-text-base};";
      str "  --chi-color-text-base: #{$color-text-base};" ] /\
  List.map Ref.propName (Ref.chiDecls (scss output)) =
    [str "--chi-color-text-base"; str "--chi-color-text-base"].
Proof. vm_compute. repeat split; reflexivity. Qed.

(** ** C8: the reported counts *)

Lemma syntheticCount_value : syntheticCount = 59.
Proof. reflexivity. Qed.

Lemma synthetic_lines_count :
  List.length (List.concat (List.map snd syntheticScales)) = syntheticCount.
Proof. reflexivity. Qed.

(** With a foundation block the counts are those of the declarations. *)
Lemma counts_match_with_foundation :
  forall themeVars globalVars theme layers now,
  dedupe (foundationTokensOf themeVars globalVars layers) <> [] ->
  List.length (filter Ref.isChiDecl
                 (scssLines themeVars globalVars theme layers now)) =
  totalCount (generateCssVariablesScss themeVars globalVars theme layers now).
Proof.
  intros themeVars globalVars theme layers now H.
  rewrite chiDecls_scssLines, chiDecls_foundationSection,
    chiDecls_semanticSection.
  unfold generateCssVariablesScss. simpl totalCount.
  set (deduped := dedupe (foundationTokensOf themeVars globalVars layers)) in *.
  destruct deduped as [|v d] eqn:E; [contradiction|]. rewrite <- E.
  rewrite !length_app, !length_map, synthetic_lines_count.
  unfold groupFoundationTokens, groupSemanticTokens.
  rewrite (Permutation_length (groupBy_perm _ _ deduped)).
  rewrite (Permutation_length
             (groupBy_perm _ _ (semanticTokensOf themeVars layers))).
  reflexivity.
Qed.

(** Without one the synthetic tokens are counted and not declared. *)
Lemma counts_differ_without_foundation :
  forall themeVars globalVars theme layers now,
  dedupe (foundationTokensOf themeVars globalVars layers) = [] ->
  List.length (filter Ref.isChiDecl
                 (scssLines themeVars globalVars theme layers now)) + 59 =
  totalCount (generateCssVariablesScss themeVars globalVars theme layers now).
Proof.
  intros themeVars globalVars theme layers now H.
  rewrite chiDecls_scssLines, chiDecls_foundationSection,
    chiDecls_semanticSection.
  unfold generateCssVariablesScss. simpl totalCount. rewrite H.
  rewrite length_app, length_map. unfold groupSemanticTokens.
  rewrite (Permutation_length
             (groupBy_perm _ _ (semanticTokensOf themeVars layers))).
  rewrite syntheticCount_value. simpl. lia.
Qed.

(** C8.  With the foundation layer left out ([--layers=semantic]) the
    function reports 59 foundation properties and 60 in total, in its result
    and in the header of the file, while the generated text declares one
    [--chi-] property: the synthetic tokens are counted without being
    emitted. *)
Theorem counts_exceed_declarations_without_foundation :
  let themeVars := parseScssVariables Ref.sampleThemeFile in
  let globalVars := parseScssVariables Ref.sampleGlobalFile in
  let output :=
    generateCssVariablesScss themeVars globalVars lumen [semantic] Ref.sampleClock in
  foundationCount output = 59 /\
  semanticCount output = 1 /\
  totalCount output = 60 /\
  includes (scss output) (str "// Total Properties: 60") = true /\
  includes (scss output) (str "// Foundation: 59 | Semantic: 1") = true /\
  Ref.chiDecls (scss output) =
    [str "  --chi-color-text-base: #{$color-text-base};"].
Proof. vm_compute. repeat split; reflexivity. Qed.

(** ** C4 and C5: failures *)

(** ** Computations *)

Lemma bind_value : forall (E A B : Type) (m : Run E A) (f : A -> Run E B) t a,
  m = (t, inr a) -> bind m f = (t ++ fst (f a), snd (f a)).
Proof.
  intros E A B m f t a H. subst m. unfold bind. destruct (f a). reflexivity.
Qed.

Lemma bind_thrown : forall (E A B : Type) (m : Run E A) (f : A -> Run E B) t e,
  m = (t, inl e) -> bind m f = (t, inl e).
Proof. intros E A B m f t e H. subst m. reflexivity. Qed.

Lemma bind_noExit : forall (E A B : Type) (m : Run E A) (f : A -> Run E B),
  Ref.noExit m -> (forall a, Ref.noExit (f a)) -> Ref.noExit (bind m f).
Proof.
  intros E A B [t [e|a]] f Hm Hf c; simpl.
  - intro H. apply (Hm c). simpl. injection H as ->. reflexivity.
  - specialize (Hf a c). destruct (f a) as [t' r]. exact Hf.
Qed.

Lemma ret_noExit : forall (E A : Type) (a : A), Ref.noExit (@ret E A a).
Proof. intros E A a c. discriminate. Qed.

Lemma emit_noExit : forall (E : Type) (e : E), Ref.noExit (emit e).
Proof. intros E e c. discriminate. Qed.

Lemma throw_noExit : forall (E A : Type) msg,
  Ref.noExit (@throw E A (Exception msg)).
Proof. intros E A msg c. discriminate. Qed.

(** ** The generator: what a failure does *)

Lemma resolveTokenValues_completes : forall w theme,
  exists t resolved, resolveTokenValues w theme = (t, inr resolved).
Proof.
  intros w theme. unfold resolveTokenValues.
  destruct (sassCompile w theme) as [msg|resolved];
    eexists; eexists; reflexivity.
Qed.

Lemma resolveTokenValues_failure : forall w theme msg,
  sassCompile w theme = CompileFails msg ->
  resolveTokenValues w theme =
  ([ConsoleWarn (str "     " ++ warnSign ++ str " Failed to resolve values for " ++
                 themeName theme ++ str ": " ++ msg)], inr []).
Proof.
  intros w theme msg H. unfold resolveTokenValues. rewrite H. reflexivity.
Qed.

Lemma processTheme_missing_file : forall w a globalVars theme,
  varsFileExists w theme = false ->
  processTheme w a globalVars theme =
  ([ConsoleWarn (str "   " ++ warnSign ++ str " Theme " ++ [34%N] ++
                 themeName theme ++ [34%N] ++
                 str " variables file not found: " ++ varsFile w theme)],
   inr tt).
Proof.
  intros w a globalVars theme H. unfold processTheme. rewrite H. reflexivity.
Qed.

Lemma readAndParse_noExit : forall c, Ref.noExit (readAndParse c).
Proof. intros [msg|c] k; discriminate. Qed.

Lemma writeOrThrow_noExit : forall r e, Ref.noExit (writeOrThrow r e).
Proof. intros [msg|u] e k; discriminate. Qed.

Lemma resolveTokenValues_noExit : forall w theme,
  Ref.noExit (resolveTokenValues w theme).
Proof.
  intros w theme c. destruct (resolveTokenValues_completes w theme) as [t [r H]].
  rewrite H. discriminate.
Qed.

Lemma processTheme_noExit : forall w a globalVars theme,
  Ref.noExit (processTheme w a globalVars theme).
Proof.
  intros w a globalVars theme. unfold processTheme.
  destruct (negb (varsFileExists w theme)); [apply emit_noExit|].
  apply bind_noExit; [apply readAndParse_noExit|]. intro themeVars.
  destruct (dryRun a); [apply emit_noExit|].
  apply bind_noExit.
  - destruct (negb (jsonOnly a)); [apply writeOrThrow_noExit|apply ret_noExit].
  - intros _. apply bind_noExit; [apply resolveTokenValues_noExit|].
    intro resolvedMap. apply writeOrThrow_noExit.
Qed.

Lemma processThemes_noExit : forall w a globalVars themes,
  Ref.noExit (processThemes w a globalVars themes).
Proof.
  intros w a globalVars. induction themes as [|theme rest IH].
  - apply ret_noExit.
  - simpl. apply bind_noExit; [apply processTheme_noExit|]. intros _. exact IH.
Qed.

Lemma parseArgsFrom_outcome : forall args a,
  (exists a', parseArgsFrom args a = ([], inr a')) \/
  parseArgsFrom args a = ([], inl (ProcessExit 0)) \/
  (exists msg, parseArgsFrom args a = ([ConsoleError msg], inl (ProcessExit 1))).
Proof.
  induction args as [|arg rest IH]; intro a; simpl.
  - left. exists a. reflexivity.
  - destruct (startsWithS arg "--theme=").
    { destruct (themeOfName (afterEquals arg)); [apply IH|].
      right. right. eexists. reflexivity. }
    destruct (startsWithS arg "--layers="); [apply IH|].
    destruct (JS.eqb arg (str "--json-only")); [apply IH|].
    destruct (JS.eqb arg (str "--dry-run")); [apply IH|].
    destruct (JS.eqb arg (str "--help") || JS.eqb arg (str "-h")); [|apply IH].
    right. left. reflexivity.
Qed.

Lemma orThrow_noExit : forall (A : Type) (r : FileResult A),
  Ref.noExit (orThrow r).
Proof. intros A [msg|x] k; discriminate. Qed.

Lemma readAllThemeJson_noExit : forall w themes,
  Ref.noExit (readAllThemeJson w themes).
Proof.
  intros w. induction themes as [|theme rest IH].
  - apply ret_noExit.
  - simpl. apply bind_noExit; [apply orThrow_noExit|]. intros _. exact IH.
Qed.

Lemma copyFiles_noExit : forall w docsDir files,
  Ref.noExit (copyFiles w docsDir files).
Proof.
  intros w docsDir. induction files as [|file rest IH].
  - apply ret_noExit.
  - simpl. apply bind_noExit; [apply writeOrThrow_noExit|]. intros _. exact IH.
Qed.

Lemma syncDocs_noExit : forall w docsDir, Ref.noExit (syncDocs w docsDir).
Proof.
  intros w docsDir. unfold syncDocs.
  destruct (docsRepoExists w docsDir); [|apply ret_noExit].
  apply bind_noExit; [apply writeOrThrow_noExit|]. intros _.
  apply bind_noExit; [apply orThrow_noExit|]. intro files.
  apply copyFiles_noExit.
Qed.

Lemma syncAllDocs_noExit : forall w docs, Ref.noExit (syncAllDocs w docs).
Proof.
  intros w. induction docs as [|docsDir rest IH].
  - apply ret_noExit.
  - simpl. apply bind_noExit; [apply syncDocs_noExit|]. intros _. exact IH.
Qed.

Lemma consolidate_noExit : forall w themes, Ref.noExit (consolidate w themes).
Proof.
  intros w themes. unfold consolidate.
  apply bind_noExit; [apply readAllThemeJson_noExit|]. intros _.
  apply bind_noExit; [apply writeOrThrow_noExit|]. intros _.
  apply syncAllDocs_noExit.
Qed.

Lemma afterArgs_noExit : forall w a,
  Ref.noExit
    (bind (readAndParse (readGlobalVars w)) (fun globalVars =>
     bind (processThemes w a globalVars (arg_themes a)) (fun _ =>
     if negb (dryRun a) &&
        Nat.eqb (List.length (arg_themes a)) (List.length THEMES)
     then consolidate w (arg_themes a)
     else ret tt))).
Proof.
  intros w a. apply bind_noExit; [apply readAndParse_noExit|]. intro globalVars.
  apply bind_noExit; [apply processThemes_noExit|]. intros _.
  destruct (negb (dryRun a) && _); [apply consolidate_noExit|apply ret_noExit].
Qed.

Lemma runScript_exit : forall w argv,
  (snd (runScript w argv) = 0%Z \/ snd (runScript w argv) = 1%Z) /\
  (snd (runScript w argv) = 1%Z ->
   exists t msg, fst (runScript w argv) = t ++ [ConsoleError msg]).
Proof.
  intros w argv. unfold runScript, main, parseArgs.
  destruct (parseArgsFrom_outcome argv (mkArgs THEMES LAYERS false false))
    as [[a H]|[H|[msg H]]]; rewrite H.
  - clear H. rewrite (bind_value _ _ _ ([], inr a) _ [] a eq_refl).
    match goal with
    | |- context [fst ?x] =>
        assert (Hn : Ref.noExit x) by exact (afterArgs_noExit w a);
        destruct x as [t [[m'|c]|u]]
    end.
    + simpl. split; [right; reflexivity|]. intros _. eauto.
    + exfalso. apply (Hn c). reflexivity.
    + simpl. split; [left; reflexivity|]. discriminate.
  - simpl. split; [left; reflexivity|]. discriminate.
  - simpl. split; [right; reflexivity|]. intros _. exists [], msg. reflexivity.
Qed.

(** ** The generator: an exception leaves [main] *)

Lemma runScript_exception : forall w argv t msg,
  main w argv = (t, inl (Exception msg)) ->
  runScript w argv = (t ++ [ConsoleError (str "Error: " ++ msg)], 1%Z).
Proof. intros w argv t msg H. unfold runScript. rewrite H. reflexivity. Qed.

Lemma main_after_args : forall w argv a,
  parseArgs argv = ([], inr a) ->
  main w argv =
  bind (readAndParse (readGlobalVars w)) (fun globalVars =>
  bind (processThemes w a globalVars (arg_themes a)) (fun _ =>
  if negb (dryRun a) &&
     Nat.eqb (List.length (arg_themes a)) (List.length THEMES)
  then consolidate w (arg_themes a)
  else ret tt)).
Proof.
  intros w argv a H. unfold main. rewrite H.
  match goal with
  | |- bind _ ?f = _ => rewrite (bind_value _ _ _ ([], inr a) f [] a eq_refl)
  end.
  cbn [app]. destruct (bind _ _). reflexivity.
Qed.

Lemma main_global_unreadable : forall w argv a msg,
  parseArgs argv = ([], inr a) ->
  readGlobalVars w = Fails msg ->
  main w argv = ([], inl (Exception msg)).
Proof.
  intros w argv a msg Ha Hr. rewrite (main_after_args w argv a Ha), Hr.
  reflexivity.
Qed.

Lemma processThemes_app : forall w a globalVars before rest,
  processThemes w a globalVars (before ++ rest) =
  bind (processThemes w a globalVars before)
       (fun _ => processThemes w a globalVars rest).
Proof.
  intros w a globalVars. induction before as [|theme before IH]; intro rest.
  - simpl. destruct (processThemes w a globalVars rest). reflexivity.
  - simpl. rewrite IH.
    destruct (processTheme w a globalVars theme) as [t [e|[]]]; [reflexivity|].
    simpl. destruct (processThemes w a globalVars before) as [t' [e|[]]];
      [reflexivity|].
    simpl. destruct (processThemes w a globalVars rest) as [t'' r].
    rewrite app_assoc. reflexivity.
Qed.

Lemma processThemes_stop : forall w a globalVars before theme after t0 t1 e,
  processThemes w a globalVars before = (t0, inr tt) ->
  processTheme w a globalVars theme = (t1, inl e) ->
  processThemes w a globalVars (before ++ theme :: after) = (t0 ++ t1, inl e).
Proof.
  intros w a globalVars before theme after t0 t1 e Hb Ht.
  rewrite processThemes_app, Hb. simpl. rewrite Ht. reflexivity.
Qed.

Lemma main_theme_throws : forall w argv a content before theme after t0 t1 msg,
  parseArgs argv = ([], inr a) ->
  readGlobalVars w = Done content ->
  arg_themes a = before ++ theme :: after ->
  processThemes w a (parseScssVariables content) before = (t0, inr tt) ->
  processTheme w a (parseScssVariables content) theme =
    (t1, inl (Exception msg)) ->
  main w argv = (t0 ++ t1, inl (Exception msg)).
Proof.
  intros w argv a content before theme after t0 t1 msg Ha Hr Hth Hb Ht.
  rewrite (main_after_args w argv a Ha), Hr. cbn [readAndParse].
  match goal with
  | |- bind (ret ?v) ?f = _ => rewrite (bind_value _ _ _ (ret v) f [] v eq_refl)
  end.
  rewrite Hth, (processThemes_stop w a _ before theme after t0 t1 _ Hb Ht).
  reflexivity.
Qed.

(** Where a theme throws: its variables file cannot be read, or one of its
    two files cannot be written. *)
Lemma processTheme_throws : forall w a globalVars theme msg,
  varsFileExists w theme = true ->
  (readThemeVars w theme = Fails msg ->
   processTheme w a globalVars theme = ([], inl (Exception msg))) /\
  (forall content, readThemeVars w theme = Done content ->
   dryRun a = false -> jsonOnly a = false ->
   writeScss w theme = Fails msg ->
   processTheme w a globalVars theme = ([], inl (Exception msg))) /\
  (forall content, readThemeVars w theme = Done content ->
   dryRun a = false ->
   jsonOnly a = true \/ writeScss w theme = Done tt ->
   writeJson w theme = Fails msg ->
   exists t1,
     processTheme w a globalVars theme = (t1, inl (Exception msg)) /\
     Forall (fun e => Ref.kind e = Ref.WroteScss \/ Ref.kind e = Ref.Warned) t1).
Proof.
  intros w a globalVars theme msg He.
  split; [|split].
  - intro Hr. unfold processTheme. rewrite He, Hr. reflexivity.
  - intros content Hr Hd Hj Hs. unfold processTheme.
    rewrite He, Hr, Hd, Hj, Hs. reflexivity.
  - intros content Hr Hd Hs Hj. unfold processTheme.
    rewrite He, Hr, Hd, Hj. cbn [negb readAndParse].
    match goal with
    | |- context [bind (ret ?v) ?f] =>
        rewrite (bind_value _ _ _ (ret v) f [] v eq_refl)
    end.
    cbv beta. cbn [app].
    unfold resolveTokenValues.
    destruct (jsonOnly a) eqn:J; cbn [negb].
    + destruct (sassCompile w theme) as [m|[|kv resolved]];
        (eexists; split; [reflexivity|]); repeat constructor;
        right; reflexivity.
    + destruct Hs as [Hs|Hs]; [discriminate Hs|]. rewrite Hs.
      destruct (sassCompile w theme) as [m|[|kv resolved]];
        (eexists; split; [reflexivity|]); repeat constructor;
        ((left; reflexivity) || (right; reflexivity)).
Qed.

Lemma main_all_themes_unwritable : forall w argv a content t0 msg,
  parseArgs argv = ([], inr a) ->
  readGlobalVars w = Done content ->
  processThemes w a (parseScssVariables content) (arg_themes a) = (t0, inr tt) ->
  dryRun a = false ->
  arg_themes a = THEMES ->
  (forall theme, readThemeJson w theme = Done tt) ->
  writeAllThemes w = Fails msg ->
  main w argv = (t0, inl (Exception msg)).
Proof.
  intros w argv a content t0 msg Ha Hr Hp Hd Hth Hj Hw.
  rewrite (main_after_args w argv a Ha), Hr. cbn [readAndParse].
  match goal with
  | |- bind (ret ?v) ?f = _ => rewrite (bind_value _ _ _ (ret v) f [] v eq_refl)
  end.
  rewrite Hp, Hd, Hth. unfold consolidate, THEMES, readAllThemeJson.
  rewrite !Hj, Hw. simpl. rewrite app_nil_r. reflexivity.
Qed.

(** C4 (amended).  A failure is reported on the console, and what follows
    depends on where it occurs.  The process ends with exit code 0 or 1, and
    with 1 only after a [console.error].  An unreadable variables file (the
    global one or that of a theme) and a failed write (of the SCSS file, of
    the JSON file of a theme, of [all-themes.json]) throw out of [main]: the
    run stops there, the themes that remain are not processed, the error is
    printed and the exit code is 1.  A failed SCSS compilation is caught in
    [resolveTokenValues], which warns and returns the empty map; a missing
    theme variables file is warned about and the theme skipped: neither ends
    the run. *)
Theorem failures_reported_by_kind : forall (w : World) (argv : list jsstring),
  (snd (runScript w argv) = 0%Z \/ snd (runScript w argv) = 1%Z) /\
  (snd (runScript w argv) = 1%Z ->
   exists t msg, fst (runScript w argv) = t ++ [ConsoleError msg]) /\
  (forall t msg, main w argv = (t, inl (Exception msg)) ->
   runScript w argv = (t ++ [ConsoleError (str "Error: " ++ msg)], 1%Z)) /\
  (forall a msg, parseArgs argv = ([], inr a) ->
   readGlobalVars w = Fails msg ->
   runScript w argv = ([ConsoleError (str "Error: " ++ msg)], 1%Z)) /\
  (forall a content before theme after t0 msg,
   parseArgs argv = ([], inr a) ->
   readGlobalVars w = Done content ->
   arg_themes a = before ++ theme :: after ->
   processThemes w a (parseScssVariables content) before = (t0, inr tt) ->
   varsFileExists w theme = true ->
   (readThemeVars w theme = Fails msg ->
    runScript w argv = (t0 ++ [ConsoleError (str "Error: " ++ msg)], 1%Z)) /\
   (forall themeContent, readThemeVars w theme = Done themeContent ->
    dryRun a = false -> jsonOnly a = false ->
    writeScss w theme = Fails msg ->
    runScript w argv = (t0 ++ [ConsoleError (str "Error: " ++ msg)], 1%Z)) /\
   (forall themeContent, readThemeVars w theme = Done themeContent ->
    dryRun a = false ->
    jsonOnly a = true \/ writeScss w theme = Done tt ->
    writeJson w theme = Fails msg ->
    exists t1,
      runScript w argv =
        (t0 ++ t1 ++ [ConsoleError (str "Error: " ++ msg)], 1%Z) /\
      Forall (fun e => Ref.kind e = Ref.WroteScss \/ Ref.kind e = Ref.Warned)
             t1)) /\
  (forall a content t0 msg,
   parseArgs argv = ([], inr a) ->
   readGlobalVars w = Done content ->
   processThemes w a (parseScssVariables content) (arg_themes a) = (t0, inr tt) ->
   dryRun a = false ->
   arg_themes a = THEMES ->
   (forall theme, readThemeJson w theme = Done tt) ->
   writeAllThemes w = Fails msg ->
   runScript w argv = (t0 ++ [ConsoleError (str "Error: " ++ msg)], 1%Z)) /\
  (forall theme, exists t resolved,
     resolveTokenValues w theme = (t, inr resolved)) /\
  (forall theme msg, sassCompile w theme = CompileFails msg ->
   resolveTokenValues w theme =
   ([ConsoleWarn (str "     " ++ warnSign ++
                  str " Failed to resolve values for " ++
                  themeName theme ++ str ": " ++ msg)], inr [])) /\
  (forall a globalVars theme, varsFileExists w theme = false ->
   processTheme w a globalVars theme =
   ([ConsoleWarn (str "   " ++ warnSign ++ str " Theme " ++ [34%N] ++
                  themeName theme ++ [34%N] ++
                  str " variables file not found: " ++ varsFile w theme)],
    inr tt)).
Proof.
  intros w argv. destruct (runScript_exit w argv) as [H1 H2].
  split; [exact H1|]. split; [exact H2|].
  split; [apply runScript_exception|].
  split.
  { intros a msg Ha Hr.
    rewrite (runScript_exception w argv [] msg
               (main_global_unreadable w argv a msg Ha Hr)).
    reflexivity. }
  split.
  { intros a content before theme after t0 msg Ha Hr Hth Hb He.
    destruct (processTheme_throws w a (parseScssVariables content) theme msg He)
      as [T1 [T2 T3]].
    split; [|split].
    - intro Hf.
      rewrite (runScript_exception w argv (t0 ++ []) msg
                 (main_theme_throws w argv a content before theme after
                    t0 [] msg Ha Hr Hth Hb (T1 Hf))).
      rewrite app_nil_r. reflexivity.
    - intros themeContent Hc Hd Hj Hs.
      rewrite (runScript_exception w argv (t0 ++ []) msg
                 (main_theme_throws w argv a content before theme after
                    t0 [] msg Ha Hr Hth Hb (T2 themeContent Hc Hd Hj Hs))).
      rewrite app_nil_r. reflexivity.
    - intros themeContent Hc Hd Hs Hj.
      destruct (T3 themeContent Hc Hd Hs Hj) as [t1 [Ht1 Hk]].
      exists t1. split; [|exact Hk].
      rewrite (runScript_exception w argv (t0 ++ t1) msg
                 (main_theme_throws w argv a content before theme after
                    t0 t1 msg Ha Hr Hth Hb Ht1)).
      rewrite <- app_assoc. reflexivity. }
  split.
  { intros a content t0 msg Ha Hr Hp Hd Hth Hj Hw.
    apply runScript_exception.
    apply (main_all_themes_unwritable w argv a content t0 msg); assumption. }
  split; [apply resolveTokenValues_completes|].
  split; [apply resolveTokenValues_failure|].
  apply processTheme_missing_file.
Qed.

(** C4 (as stated) fails.  With the variables file of the theme missing the
    run warns and ends with exit code 0; with a failing SCSS compilation it
    warns, still writes the JSON of the theme, every resolved value empty,
    and ends with exit code 0. *)
Lemma failure_without_exit_code :
  varsFileExists Ref.worldWithoutVarsFiles lumen = false /\
  List.map Ref.kind (fst (runScript Ref.worldWithoutVarsFiles [str "--theme=lumen"])) =
    [Ref.Warned] /\
  snd (runScript Ref.worldWithoutVarsFiles [str "--theme=lumen"]) = 0%Z /\
  sassCompile Ref.worldWithFailingSass lumen =
    CompileFails (str "Undefined variable.") /\
  List.map Ref.kind (fst (runScript Ref.worldWithFailingSass [str "--theme=lumen"])) =
    [Ref.WroteScss; Ref.Warned; Ref.WroteJson] /\
  forallb (fun r => JS.eqb r [])
    (flat_map Ref.resolvedValuesOf
       (fst (runScript Ref.worldWithFailingSass [str "--theme=lumen"]))) = true /\
  snd (runScript Ref.worldWithFailingSass [str "--theme=lumen"]) = 0%Z.
Proof. vm_compute. repeat split; reflexivity. Qed.

(** ** The loops over the themes *)

Lemma processThemes_cons : forall w a globalVars theme rest t,
  processTheme w a globalVars theme = (t, inr tt) ->
  processThemes w a globalVars (theme :: rest) =
  (t ++ fst (processThemes w a globalVars rest),
   snd (processThemes w a globalVars rest)).
Proof.
  intros w a globalVars theme rest t H. simpl.
  apply (bind_value _ _ _ _ (fun _ => processThemes w a globalVars rest) t tt H).
Qed.

Lemma processTheme_failed_compile : forall w a globalVars theme content msg,
  varsFileExists w theme = true ->
  readThemeVars w theme = Done content ->
  dryRun a = false ->
  (jsonOnly a = true \/ writeScss w theme = Done tt) ->
  sassCompile w theme = CompileFails msg ->
  writeJson w theme = Done tt ->
  exists before metadata,
    processTheme w a globalVars theme =
    (before ++
     [ConsoleWarn (str "     " ++ warnSign ++
                   str " Failed to resolve values for " ++
                   themeName theme ++ str ": " ++ msg);
      WriteJson theme metadata],
     inr tt).
Proof.
  intros w a globalVars theme content msg He Hr Hd Hs Hc Hj.
  unfold processTheme. rewrite He, Hr, Hd. simpl negb. cbv iota.
  unfold readAndParse.
  rewrite (bind_value _ _ _ (ret (parseScssVariables content)) _ [] _ eq_refl).
  cbv beta. rewrite (resolveTokenValues_failure w theme msg Hc), Hj.
  destruct (jsonOnly a) eqn:Ej; simpl negb; cbv iota.
  - exists []. eexists. reflexivity.
  - destruct Hs as [Hs|Hs]; [discriminate|]. rewrite Hs.
    eexists [_]. eexists. reflexivity.
Qed.

Lemma deleteCssFile_completes : forall w theme,
  Build.isAllowed theme = true ->
  exists t, Build.deleteCssFile w theme = (t, inr tt).
Proof.
  intros w theme Ha. unfold Build.deleteCssFile. rewrite Ha. simpl negb.
  cbv iota. destruct (Build.existsSync w _); [|eexists; reflexivity].
  unfold Build.execFileSync.
  destruct (Build.isWindows w); destruct (Build.deleteFails w _);
    eexists; reflexivity.
Qed.

Lemma buildTheme_failed_compile : forall w theme msg,
  Build.isAllowed theme = true ->
  Build.viteFails w theme = Some msg ->
  exists before,
    Build.buildTheme w theme =
    (before ++
     [Build.SpinnerFail (str "[CHI]: Error during build for " ++ theme ++
                         str " theme: " ++ msg)],
     inl (Exception msg)).
Proof.
  intros w theme msg Ha Hv. unfold Build.buildTheme.
  destruct (deleteCssFile_completes w theme Ha) as [t Ht].
  rewrite Ht. unfold Build.execFileSync. rewrite Hv.
  cbv beta iota zeta delta [bind emit throw tryCatch ret].
  eexists (_ :: t ++ [_]). cbn [app].
  rewrite ?app_nil_r, <- ?app_assoc. reflexivity.
Qed.

Lemma buildTheme_invalid : forall w theme,
  Build.isAllowed theme = false ->
  Build.buildTheme w theme =
  ([Build.SpinnerStart (str "[CHI]: Building " ++ theme ++
                        str " theme (no file mutations)");
    Build.SpinnerFail (str "[CHI]: Error during build for " ++ theme ++
                       str " theme: " ++ str "[CHI]: Invalid theme: " ++ theme)],
   inl (Exception (str "[CHI]: Invalid theme: " ++ theme))).
Proof.
  intros w theme Ha. unfold Build.buildTheme, Build.deleteCssFile.
  rewrite Ha. reflexivity.
Qed.

Lemma buildAllThemes_stops : forall w theme rest t e,
  Build.buildTheme w theme = (t, inl e) ->
  Build.buildAllThemes w (theme :: rest) = (t, inl e).
Proof. intros w theme rest t e H. simpl. rewrite H. reflexivity. Qed.

Lemma buildTheme_failed_delete : forall w theme msg,
  Build.isAllowed theme = true ->
  Build.existsSync w (Build.distPath w (Build.cssFileName theme)) = true ->
  Build.deleteFails w (Build.distPath w (Build.cssFileName theme)) = Some msg ->
  Build.viteFails w theme = None ->
  snd (Build.buildTheme w theme) = inr tt /\
  In (Build.ConsoleError (str "[CHI]: Error deleting " ++
                          Build.cssFileName theme ++ str ": " ++ msg))
     (fst (Build.buildTheme w theme)) /\
  In (Build.SpinnerSucceed (str "[CHI]: Build for " ++ theme ++
                            str " theme completed successfully"))
     (fst (Build.buildTheme w theme)).
Proof.
  intros w theme msg Ha He Hd Hv.
  unfold Build.buildTheme, Build.deleteCssFile, Build.execFileSync.
  rewrite Ha, He, Hd, Hv. simpl negb. cbv iota.
  destruct (Build.isWindows w);
    cbv beta iota zeta delta [bind emit throw tryCatch ret fst snd];
    cbn [app]; (split; [reflexivity|]); split; cbn [In]; auto 10.
Qed.

(** C5 (amended).  In the generator a missing variables file and a failed
    SCSS compilation are logged and the loop goes on with the themes that
    remain.  In the build script a failed deletion of the old stylesheet is
    logged and the build of the theme goes on, but a failed compile step, like
    an invalid theme, is logged and thrown again: the themes that remain are
    not built and the process ends with exit code 1. *)
Theorem log_and_continue_by_script :
  (forall (w : World) (a : Args) (globalVars : list ScssVariable)
          (theme : Theme) (rest : list Theme),
     varsFileExists w theme = false ->
     processThemes w a globalVars (theme :: rest) =
     (ConsoleWarn (str "   " ++ warnSign ++ str " Theme " ++ [34%N] ++
                   themeName theme ++ [34%N] ++
                   str " variables file not found: " ++ varsFile w theme)
        :: fst (processThemes w a globalVars rest),
      snd (processThemes w a globalVars rest))) /\
  (forall (w : World) (a : Args) (globalVars : list ScssVariable)
          (theme : Theme) (rest : list Theme) (content msg : jsstring),
     varsFileExists w theme = true ->
     readThemeVars w theme = Done content ->
     dryRun a = false ->
     (jsonOnly a = true \/ writeScss w theme = Done tt) ->
     sassCompile w theme = CompileFails msg ->
     writeJson w theme = Done tt ->
     exists before metadata,
       processThemes w a globalVars (theme :: rest) =
       ((before ++
         [ConsoleWarn (str "     " ++ warnSign ++
                       str " Failed to resolve values for " ++
                       themeName theme ++ str ": " ++ msg);
          WriteJson theme metadata]) ++
        fst (processThemes w a globalVars rest),
        snd (processThemes w a globalVars rest))) /\
  (forall (w : Build.World) (theme msg : jsstring) (rest : list jsstring),
     Build.isAllowed theme = true ->
     Build.viteFails w theme = Some msg ->
     exists before,
       Build.buildAllThemes w (theme :: rest) =
       (before ++
        [Build.SpinnerFail (str "[CHI]: Error during build for " ++ theme ++
                            str " theme: " ++ msg)],
        inl (Exception msg))) /\
  (forall (w : Build.World) (theme : jsstring) (rest : list jsstring),
     Build.isAllowed theme = false ->
     Build.buildAllThemes w (theme :: rest) =
     ([Build.SpinnerStart (str "[CHI]: Building " ++ theme ++
                           str " theme (no file mutations)");
       Build.SpinnerFail (str "[CHI]: Error during build for " ++ theme ++
                          str " theme: " ++ str "[CHI]: Invalid theme: " ++
                          theme)],
      inl (Exception (str "[CHI]: Invalid theme: " ++ theme)))) /\
  (forall (w : Build.World) (theme msg : jsstring),
     Build.isAllowed theme = true ->
     Build.existsSync w (Build.distPath w (Build.cssFileName theme)) = true ->
     Build.deleteFails w (Build.distPath w (Build.cssFileName theme)) = Some msg ->
     Build.viteFails w theme = None ->
     snd (Build.buildTheme w theme) = inr tt /\
     In (Build.ConsoleError (str "[CHI]: Error deleting " ++
                             Build.cssFileName theme ++ str ": " ++ msg))
        (fst (Build.buildTheme w theme))) /\
  (forall (w : Build.World) (env : option jsstring) (t : list Build.Event)
          (msg : jsstring),
     Build.buildAllThemes w (Build.themes env) = (t, inl (Exception msg)) ->
     Build.runScript w env = (t, 1%Z)).
Proof.
  split.
  { intros w a globalVars theme rest H.
    rewrite (processThemes_cons w a globalVars theme rest _
               (processTheme_missing_file w a globalVars theme H)).
    reflexivity. }
  split.
  { intros w a globalVars theme rest content msg He Hr Hd Hs Hc Hj.
    destruct (processTheme_failed_compile w a globalVars theme content msg
                He Hr Hd Hs Hc Hj) as [before [metadata H]].
    exists before, metadata. apply processThemes_cons. exact H. }
  split.
  { intros w theme msg rest Ha Hv.
    destruct (buildTheme_failed_compile w theme msg Ha Hv) as [before H].
    exists before. apply buildAllThemes_stops. exact H. }
  split.
  { intros w theme rest Ha. apply buildAllThemes_stops.
    apply buildTheme_invalid. exact Ha. }
  split.
  { intros w theme msg Ha He Hd Hv.
    destruct (buildTheme_failed_delete w theme msg Ha He Hd Hv) as [H1 [H2 _]].
    split; assumption. }
  intros w env t msg H. unfold Build.runScript. rewrite H. reflexivity.
Qed.

(** C5 (as stated) fails.  In the build script, with the compile step
    failing for lumen and the themes lumen and portal requested, the run
    ends after lumen with exit code 1: nothing is done for portal. *)
Lemma failed_build_stops_the_run :
  Build.runScript (Ref.buildWorld [str "lumen"]) (Some (str "lumen,portal")) =
  ([ Build.SpinnerStart (str "[CHI]: Building lumen theme (no file mutations)");
     Build.ExecFile (str "cross-env")
       [str "THEME=lumen"; str "vite"; str "build"; str "--c";
        str "vite-css.config.ts"];
     Build.SpinnerFail
       (str "[CHI]: Error during build for lumen theme: Command failed: cross-env") ],
   1%Z) /\
  Build.viteFails (Ref.buildWorld [str "lumen"]) (str "portal") = None.
Proof. vm_compute. split; reflexivity. Qed.

(* ========================================================================= *)
(** * Further properties *)
(* ========================================================================= *)

(** ** The parser: every record *)

Lemma accumulate_spec : forall rest part i p rest' i',
  accumulate part rest i = (p, rest', i') ->
  exists used, rest = used ++ rest' /\ i' = i + List.length used /\
               p = Obs.appendLines part used.
Proof.
  induction rest as [|l rest IH]; intros part i p rest' i' H.
  - simpl in H. injection H as <- <- <-. exists []. simpl. repeat split. lia.
  - simpl in H. destruct (includes part (str ";")).
    + injection H as <- <- <-. exists []. simpl. repeat split. lia.
    + apply IH in H. destruct H as [used [-> [-> ->]]].
      exists (l :: used). simpl. repeat split. lia.
Qed.

(** One iteration of the loop, whatever the line. *)
Lemma parseFrom_step : forall l rest i,
  parseFrom (l :: rest) i =
  match matchDecl l with
  | None => parseFrom rest (S i)
  | Some (nm, part) =>
      let '(p, rest', i') :=
        if continues part then accumulate part rest i else (part, rest, i) in
      mkVariable nm p i' :: parseFrom rest' (S i')
  end.
Proof.
  intros l rest i. destruct (matchDecl l) as [[nm part]|] eqn:E.
  - apply parseFrom_cons_some. exact E.
  - apply parseFrom_cons_none. exact E.
Qed.

(** What one iteration consumes: the declaration line and the lines [used]
    that complete it. *)
Lemma parseFrom_decl : forall l rest i nm part,
  matchDecl l = Some (nm, part) ->
  exists used rest',
    rest = used ++ rest' /\
    parseFrom (l :: rest) i =
    mkVariable nm (Obs.appendLines part used) (i + List.length used) ::
    parseFrom rest' (S (i + List.length used)).
Proof.
  intros l rest i nm part E. rewrite parseFrom_step, E.
  destruct (continues part).
  - destruct (accumulate part rest i) as [[p rest'] i'] eqn:A.
    destruct (accumulate_spec _ _ _ _ _ _ A) as [used [-> [-> ->]]].
    exists used, rest'. split; reflexivity.
  - exists [], rest. simpl. rewrite Nat.add_0_r. split; reflexivity.
Qed.

(** Induction on the runs of the loop. *)
Lemma parseFrom_records : forall (P : list jsstring -> nat -> list ScssVariable -> Prop),
  (forall i, P [] i []) ->
  (forall l rest i, matchDecl l = None ->
     P rest (S i) (parseFrom rest (S i)) ->
     P (l :: rest) i (parseFrom rest (S i))) ->
  (forall l used rest' i nm part, matchDecl l = Some (nm, part) ->
     P rest' (S (i + List.length used)) (parseFrom rest' (S (i + List.length used))) ->
     P (l :: used ++ rest') i
       (mkVariable nm (Obs.appendLines part used) (i + List.length used) ::
        parseFrom rest' (S (i + List.length used)))) ->
  forall lines i, P lines i (parseFrom lines i).
Proof.
  intros P H0 Hn Hs lines.
  assert (G : forall n lines i, List.length lines <= n -> P lines i (parseFrom lines i)).
  { induction n as [|n IH]; intros ls i Hl.
    - destruct ls; [apply H0|simpl in Hl; lia].
    - destruct ls as [|l rest]; [apply H0|]. simpl in Hl.
      destruct (matchDecl l) as [[nm part]|] eqn:E.
      + destruct (parseFrom_decl l rest i nm part E) as [used [rest' [-> Hp]]].
        rewrite Hp. apply (Hs l used rest' i nm part E).
        apply IH. rewrite length_app in Hl. lia.
      + rewrite (parseFrom_cons_none l rest i E). apply Hn; [exact E|].
        apply IH. lia. }
  intro i. apply (G (List.length lines)). lia.
Qed.

Lemma mkVariable_line : forall nm part i, line (mkVariable nm part i) = i + 1.
Proof. reflexivity. Qed.

Lemma parseFrom_lines : forall lines i,
  StronglySorted lt (List.map line (parseFrom lines i)) /\
  Forall (fun v => i < line v <= i + List.length lines) (parseFrom lines i).
Proof.
  apply (parseFrom_records (fun lines i vars =>
    StronglySorted lt (List.map line vars) /\
    Forall (fun v => i < line v <= i + List.length lines) vars)).
  - intro i. split; constructor.
  - intros l rest i _ [Hs Hb]. split; [exact Hs|].
    eapply Forall_impl; [|exact Hb]. simpl. intros v Hv. lia.
  - intros l used rest' i nm part _ [Hs Hb]. split.
    + simpl List.map. constructor; [exact Hs|].
      apply Forall_forall. intros x Hx.
      apply in_map_iff in Hx. destruct Hx as [v [<- Hv]].
      rewrite Forall_forall in Hb. specialize (Hb v Hv). lia.
    + constructor.
      * rewrite mkVariable_line. simpl List.length. rewrite length_app. lia.
      * eapply Forall_impl; [|exact Hb]. simpl. intros v Hv.
        rewrite length_app. lia.
Qed.

(** X1.  The [line] fields of the records [parseScssVariables] returns are
    strictly increasing, and each lies between 1 and the number of lines of
    the content. *)
Theorem parseScssVariables_line_numbers : forall content : jsstring,
  let vars := parseScssVariables content in
  StronglySorted lt (List.map line vars) /\
  Forall (fun v => 1 <= line v <= List.length (splitChar content 10%N)) vars.
Proof.
  intro content. unfold parseScssVariables. cbv zeta.
  destruct (parseFrom_lines (splitChar content 10%N) 0) as [Hs Hb].
  split; [exact Hs|]. eapply Forall_impl; [|exact Hb].
  simpl. intros v Hv. lia.
Qed.

(** ** The parser: the fields of a record *)

Lemma trimStart_idem : forall s, trimStart (trimStart s) = trimStart s.
Proof.
  induction s as [|c s IH]; [reflexivity|].
  simpl. destruct (isSpace c) eqn:E; [exact IH|].
  simpl. rewrite E. reflexivity.
Qed.

Lemma trimEnd_idem : forall s, trimEnd (trimEnd s) = trimEnd s.
Proof.
  intro s. unfold trimEnd. rewrite rev_involutive, trimStart_idem. reflexivity.
Qed.

Lemma trimStart_snoc : forall y c,
  isSpace c = false -> exists z, trimStart (y ++ [c]) = z ++ [c].
Proof.
  induction y as [|d y IH]; intros c Hc.
  - exists []. simpl. rewrite Hc. reflexivity.
  - simpl. destruct (isSpace d).
    + apply IH. exact Hc.
    + exists (d :: y). reflexivity.
Qed.

Lemma trimStart_length : forall s, List.length (trimStart s) <= List.length s.
Proof.
  induction s as [|c s IH]; [simpl; lia|].
  simpl. destruct (isSpace c); simpl; lia.
Qed.

Lemma trimStart_trimEnd : forall s,
  trimStart (trimEnd (trimStart s)) = trimEnd (trimStart s).
Proof.
  intro s. destruct (trimStart s) as [|c x] eqn:E; [reflexivity|].
  assert (Hc : isSpace c = false).
  { destruct (isSpace c) eqn:Hc; [|reflexivity]. exfalso.
    pose proof (trimStart_idem s) as H. rewrite E in H. simpl in H.
    rewrite Hc in H. pose proof (trimStart_length x) as L.
    rewrite H in L. simpl in L. lia. }
  unfold trimEnd. simpl rev.
  destruct (trimStart_snoc (rev x) c Hc) as [z Hz]. rewrite Hz.
  rewrite rev_app_distr. simpl. rewrite Hc. reflexivity.
Qed.

Lemma trim_idem : forall s, trim (trim s) = trim s.
Proof.
  intro s. unfold trim. rewrite trimStart_trimEnd. apply trimEnd_idem.
Qed.

Lemma noLF_app : forall a b, Obs.noLF (a ++ b) = Obs.noLF a && Obs.noLF b.
Proof. intros a b. apply forallb_app. Qed.

Lemma noLF_trim : forall s, Obs.noLF s = true -> Obs.noLF (trim s) = true.
Proof.
  intros s H. destruct (trim_decomp s) as [w1 [w2 [_ [_ E]]]].
  rewrite E in H. rewrite !noLF_app in H.
  apply andb_true_iff in H. destruct H as [_ H].
  apply andb_true_iff in H. apply H.
Qed.

Lemma noLF_firstn : forall n s, Obs.noLF s = true -> Obs.noLF (firstn n s) = true.
Proof.
  intros n s H. rewrite <- (firstn_skipn n s) in H. rewrite noLF_app in H.
  apply andb_true_iff in H. apply H.
Qed.

Lemma noLF_splitHead : forall sep s,
  Obs.noLF s = true -> Obs.noLF (splitHead s sep) = true.
Proof.
  intros sep. induction s as [|c s IH]; intro H.
  - simpl. destruct (startsWith [] sep); reflexivity.
  - rewrite splitHead_cons. destruct (startsWith (c :: s) sep); [reflexivity|].
    simpl in H. apply andb_true_iff in H. destruct H as [Hc Hs].
    simpl. rewrite Hc. apply IH. exact Hs.
Qed.

Lemma matchComment_suffix : forall s g,
  matchComment s = Some g -> exists a, s = a ++ g.
Proof.
  induction s as [|c s IH]; intros g H; [discriminate|].
  rewrite matchComment_cons in H.
  destruct (startsWith (c :: s) (str "//")) eqn:E.
  - destruct (spacesThenRest (skipn 2 (c :: s))) as [g'|] eqn:R.
    + injection H as <-.
      destruct (spacesThenRest_some _ _ R) as [w [Hw _]].
      exists (firstn 2 (c :: s) ++ w).
      rewrite <- app_assoc, <- Hw. symmetry. apply firstn_skipn.
    + destruct (IH g H) as [a ->]. exists (c :: a). reflexivity.
  - destruct (IH g H) as [a ->]. exists (c :: a). reflexivity.
Qed.

Lemma splitChar_noLF : forall s,
  Forall (fun l => Obs.noLF l = true) (splitChar s 10%N).
Proof.
  induction s as [|x s IH]; [repeat constructor|].
  simpl. destruct (N.eqb x 10) eqn:E.
  - constructor; [reflexivity|exact IH].
  - destruct (splitChar s 10%N) as [|l ls].
    + constructor; [|constructor]. simpl. rewrite E. reflexivity.
    + inversion IH as [|? ? Hl Hls]; subst. constructor; [|exact Hls].
      simpl. rewrite E. exact Hl.
Qed.

Lemma appendLines_noLF : forall used part,
  Obs.noLF part = true ->
  Forall (fun l => Obs.noLF l = true) used ->
  Obs.noLF (Obs.appendLines part used) = true.
Proof.
  induction used as [|l used IH]; intros part Hp Hu; [exact Hp|].
  inversion Hu as [|? ? Hl Hused]; subst.
  change (Obs.appendLines part (l :: used))
    with (Obs.appendLines (part ++ str " " ++ trim l) used).
  apply IH; [|exact Hused].
  rewrite noLF_app, Hp. rewrite noLF_app, (noLF_trim l Hl). reflexivity.
Qed.

Lemma mkVariable_wellFormed : forall nm part i,
  nm <> [] -> forallb isIdentChar nm = true -> Obs.noLF part = true ->
  Obs.wellFormed (mkVariable nm part i).
Proof.
  intros nm part i Hne Hid Hp. unfold Obs.wellFormed, mkVariable.
  cbn [name rawValue comment layer].
  split; [exact Hne|]. split; [exact Hid|].
  set (value := if (0 <=? lastIndexOf part 59%N)%Z
                then trim (slice0 part (lastIndexOf part 59%N)) else trim part).
  assert (Hv : trim value = value /\ Obs.noLF value = true).
  { unfold value. destruct (0 <=? lastIndexOf part 59%N)%Z.
    - split; [apply trim_idem|]. apply noLF_trim. apply noLF_firstn. exact Hp.
    - split; [apply trim_idem|]. apply noLF_trim. exact Hp. }
  destruct Hv as [Hv1 Hv2].
  assert (Hval : forall v',
            v' = match matchComment part with
                 | Some _ => if includes value (str "//")
                             then trim (splitHead value (str "//")) else value
                 | None => value
                 end ->
            trim v' = v' /\ Obs.noLF v' = true).
  { intros v' ->. destruct (matchComment part); [|split; assumption].
    destruct (includes value (str "//")); [|split; assumption].
    split; [apply trim_idem|]. apply noLF_trim. apply noLF_splitHead. exact Hv2. }
  destruct (Hval _ eq_refl) as [H1 H2].
  split; [exact H1|]. split; [exact H2|]. split; [|reflexivity].
  intros c Hc. destruct (matchComment part) as [g|] eqn:G; [|discriminate].
  simpl in Hc. injection Hc as <-.
  split; [apply trim_idem|]. apply noLF_trim.
  destruct (matchComment_suffix _ _ G) as [a Ha]. rewrite Ha in Hp.
  rewrite noLF_app in Hp. apply andb_true_iff in Hp. apply Hp.
Qed.

Lemma matchDecl_noLF : forall l nm part,
  matchDecl l = Some (nm, part) -> Obs.noLF l = true ->
  nm <> [] /\ forallb isIdentChar nm = true /\ Obs.noLF part = true.
Proof.
  intros l nm part E Hl.
  destruct (matchDecl_some _ _ _ E) as [w1 [w2 [Hd [Hne [Hid _]]]]].
  split; [exact Hne|]. split; [exact Hid|].
  rewrite Hd in Hl. rewrite !noLF_app in Hl.
  repeat (apply andb_true_iff in Hl; destruct Hl as [_ Hl]). exact Hl.
Qed.

Lemma parseFrom_wellFormed : forall lines i,
  Forall (fun l => Obs.noLF l = true) lines ->
  Forall Obs.wellFormed (parseFrom lines i).
Proof.
  apply (parseFrom_records (fun lines i vars =>
    Forall (fun l => Obs.noLF l = true) lines -> Forall Obs.wellFormed vars)).
  - constructor.
  - intros l rest i _ IH H. inversion H; subst. apply IH. assumption.
  - intros l used rest' i nm part E IH H.
    inversion H as [|? ? Hl Hrest]; subst.
    apply Forall_app in Hrest. destruct Hrest as [Hu Hr].
    destruct (matchDecl_noLF _ _ _ E Hl) as [Hne [Hid Hp]].
    constructor; [|apply IH; exact Hr].
    apply mkVariable_wellFormed; [exact Hne|exact Hid|].
    apply appendLines_noLF; assumption.
Qed.

(** X2.  Every record [parseScssVariables] returns has a non-empty name made
    of name characters; its raw value and its comment have no white space at
    either end ([trim] leaves them as they are) and hold no line feed; its
    layer is what [classifyToken] gives for the name with its dollar sign and
    the raw value. *)
Theorem parseScssVariables_records_well_formed : forall content : jsstring,
  Forall Obs.wellFormed (parseScssVariables content).
Proof.
  intro content. unfold parseScssVariables.
  apply parseFrom_wellFormed. apply splitChar_noLF.
Qed.

(** ** The parser: declarations over several lines *)

Lemma includes_char_nil : forall c, includes [] [c] = false.
Proof. reflexivity. Qed.

Lemma includes_char_cons : forall c x s,
  includes (x :: s) [c] = N.eqb x c || includes s [c].
Proof.
  intros c x s. rewrite includes_cons. simpl startsWith.
  rewrite andb_true_r. reflexivity.
Qed.

Lemma includes_char_app : forall c a b,
  includes (a ++ b) [c] = includes a [c] || includes b [c].
Proof.
  intros c. induction a as [|x a IH]; intro b.
  - reflexivity.
  - simpl app. rewrite !includes_char_cons, IH. apply orb_assoc.
Qed.

Lemma includes_char_spaces : forall c w,
  isSpace c = false -> forallb isSpace w = true -> includes w [c] = false.
Proof.
  intros c w Hc. induction w as [|x w IH]; intro H; [reflexivity|].
  simpl in H. apply andb_true_iff in H. destruct H as [Hx Hw].
  rewrite includes_char_cons, (IH Hw), orb_false_r.
  destruct (N.eqb x c) eqn:E; [|reflexivity].
  apply N.eqb_eq in E. subst x. congruence.
Qed.

Lemma includes_char_trim : forall c s,
  isSpace c = false -> includes (trim s) [c] = includes s [c].
Proof.
  intros c s Hc. destruct (trim_decomp s) as [w1 [w2 [H1 [H2 E]]]].
  rewrite E at 2. rewrite !includes_char_app.
  rewrite (includes_char_spaces c w1 Hc H1), (includes_char_spaces c w2 Hc H2).
  rewrite orb_false_r. reflexivity.
Qed.

Lemma semicolon_value : str ";" = [59%N].
Proof. reflexivity. Qed.

Lemma includes_semicolon_append : forall part l,
  includes (part ++ str " " ++ trim l) (str ";") =
  includes part (str ";") || includes l (str ";").
Proof.
  intros part l. rewrite semicolon_value.
  rewrite !includes_char_app, includes_char_trim by reflexivity.
  reflexivity.
Qed.

Lemma accumulate_cons : forall part l rest i,
  accumulate part (l :: rest) i =
  if includes part (str ";") then (part, l :: rest, i)
  else accumulate (part ++ str " " ++ trim l) rest (S i).
Proof. reflexivity. Qed.

Lemma appendLines_cons : forall part l used,
  Obs.appendLines part (l :: used) =
  Obs.appendLines (part ++ str " " ++ trim l) used.
Proof. reflexivity. Qed.

Lemma accumulate_done : forall part rest i,
  includes part (str ";") = true -> accumulate part rest i = (part, rest, i).
Proof.
  intros part rest i H. destruct rest as [|l rest]; [reflexivity|].
  simpl. rewrite H. reflexivity.
Qed.

Lemma accumulate_upToSemicolon : forall rest part i,
  includes part (str ";") = false ->
  accumulate part rest i =
  (Obs.appendLines part (Obs.upToSemicolon rest),
   skipn (List.length (Obs.upToSemicolon rest)) rest,
   i + List.length (Obs.upToSemicolon rest)).
Proof.
  induction rest as [|l rest IH]; intros part i H.
  - simpl. rewrite Nat.add_0_r. reflexivity.
  - rewrite accumulate_cons, H.
    change (Obs.upToSemicolon (l :: rest))
      with (if includes l (str ";") then [l] else l :: Obs.upToSemicolon rest).
    destruct (includes l (str ";")) eqn:E.
    + rewrite accumulate_done
        by (rewrite includes_semicolon_append, H, E; reflexivity).
      rewrite appendLines_cons. cbn [List.length skipn Obs.appendLines fold_left].
      rewrite Nat.add_1_r. reflexivity.
    + rewrite IH by (rewrite includes_semicolon_append, H, E; reflexivity).
      rewrite appendLines_cons. cbn [List.length skipn].
      rewrite Nat.add_succ_r. reflexivity.
Qed.

(** X3.  In the loop of [parseScssVariables] ([lines] from index [i] on), a
    declaration line whose text after the colon holds a semicolon gives its
    record alone.  Otherwise the declaration takes the following lines up to
    and including the first line that holds a semicolon (all the lines left
    when none does): their trimmed texts are appended, each after a space;
    the record carries the number of the last line taken; the lines taken
    give no record of their own, and the loop resumes after them. *)
Theorem parseFrom_declaration_over_lines :
  forall (l : jsstring) (rest : list jsstring) (i : nat) (nm part : jsstring),
  matchDecl l = Some (nm, part) ->
  let used :=
    if includes part (str ";") then [] else Obs.upToSemicolon rest in
  parseFrom (l :: rest) i =
  mkVariable nm (Obs.appendLines part used) (i + List.length used) ::
  parseFrom (skipn (List.length used) rest) (S (i + List.length used)).
Proof.
  intros l rest i nm part E used. rewrite parseFrom_step, E.
  unfold used, continues.
  destruct (includes part (str ";")) eqn:H.
  - cbn [negb orb]. rewrite accumulate_done by exact H.
    simpl. rewrite Nat.add_0_r.
    destruct (includes part (str "(") && negb (includes part (str ")")));
      reflexivity.
  - cbn [negb orb]. rewrite accumulate_upToSemicolon by exact H. reflexivity.
Qed.

Lemma parseFrom_declaration_over_lines_witness :
  let lines :=
    [ str "$sizes: ("; str "  $sm: 1px,"; str ");"; str "$base-unit: 8px;" ] in
  matchDecl (str "$sizes: (") = Some (str "sizes", str "(") /\
  List.map (fun v => (name v, rawValue v, line v)) (parseFrom lines 0) =
  [ (str "sizes", str "( $sm: 1px, )", 3); (str "base-unit", str "8px", 4) ].
Proof.
  intro lines.
  assert (E : matchDecl (str "$sizes: (") = Some (str "sizes", str "("))
    by (vm_compute; reflexivity).
  split; [exact E|].
  unfold lines.
  rewrite (parseFrom_declaration_over_lines _ _ 0 _ _ E).
  vm_compute. reflexivity.
Defined.

(** ** The pattern tables *)

Lemma test_regexOf : forall p s, test p s = matches (Obs.regexOf p) s.
Proof. intros [r|r|r|r n] s; reflexivity. Qed.

Lemma matches_ders : forall a r b,
  matches r (a ++ b) = matches (Obs.ders a r) b.
Proof.
  induction a as [|c a IH]; intros r b; [reflexivity|].
  simpl. apply IH.
Qed.

Lemma dead_lang : forall r s, Obs.dead r = true -> ~ lang r s.
Proof.
  induction r as [| |p|a IHa b IHb|a IHa b IHb|a IHa|a IHa]; intros s H;
    simpl in H; try discriminate.
  - intros [].
  - intros [s1 [s2 [_ [H1 H2]]]]. apply orb_true_iff in H.
    destruct H as [H|H]; [apply (IHa s1 H H1)|apply (IHb s2 H H2)].
  - apply andb_true_iff in H. destruct H as [Ha Hb].
    intros [H|H]; [apply (IHa s Ha H)|apply (IHb s Hb H)].
Qed.

Lemma noMatchAfter_sound : forall prefix patterns rest,
  Obs.noMatchAfter prefix patterns = true ->
  firstMatch patterns (prefix ++ rest) = false.
Proof.
  intros prefix patterns rest. unfold Obs.noMatchAfter.
  induction patterns as [|p ps IH]; intro H; [reflexivity|].
  simpl in H. apply andb_true_iff in H. destruct H as [Hp Hps].
  simpl firstMatch. rewrite test_regexOf, matches_ders.
  destruct (matches (Obs.ders prefix (Obs.regexOf p)) rest) eqn:E.
  - exfalso. apply matches_lang in E. exact (dead_lang _ _ Hp E).
  - apply IH. exact Hps.
Qed.

Lemma exclude_patterns_meaning : forall fullName,
  firstMatch EXCLUDE_PATTERNS fullName = true <-> In fullName Obs.excludedNames.
Proof.
  intro s. rewrite firstMatch_iff. split.
  - intros [p [Hp Ht]]. unfold EXCLUDE_PATTERNS in Hp. simpl in Hp.
    repeat (destruct Hp as [<-|Hp];
            [apply test_Whole in Ht; apply lang_lit in Ht; subst s;
             unfold Obs.excludedNames; simpl;
             repeat ((left; reflexivity) || right)|]).
    destruct Hp.
  - intro H. unfold Obs.excludedNames in H. simpl in H.
    repeat (destruct H as [<-|H];
            [match goal with
             | |- exists p, _ /\ test p ?x = true => exists (Whole (lit x))
             end; split;
             [unfold EXCLUDE_PATTERNS; simpl;
              repeat ((left; reflexivity) || right)
             |vm_compute; reflexivity]|]).
    destruct H.
Qed.

Lemma semantic_not_foundation : forall fullName,
  firstMatch SEMANTIC_PATTERNS fullName = true ->
  firstMatch FOUNDATION_PATTERNS fullName = false.
Proof.
  intros s H. apply semantic_patterns_meaning in H.
  destruct H as [H|[H|[H|[rest [-> _]]]]];
    try (apply startsWith_iff in H; destruct H as [r ->]);
    apply noMatchAfter_sound; vm_compute; reflexivity.
Qed.

Lemma excluded_name_no_layer : forall fullName,
  firstMatch EXCLUDE_PATTERNS fullName = true ->
  firstMatch FOUNDATION_PATTERNS fullName = false /\
  firstMatch SEMANTIC_PATTERNS fullName = false.
Proof.
  intros s H. apply exclude_patterns_meaning in H.
  unfold Obs.excludedNames in H. simpl in H.
  repeat (destruct H as [<-|H]; [split; vm_compute; reflexivity|]).
  destruct H.
Qed.

(** X4.  No name matches two of the three pattern tables.  So, for a value
    that is neither a map nor a gradient, each result of [classifyToken] is
    decided by its own table alone, whatever the order in which the tables
    are tried: excluded by [EXCLUDE_PATTERNS], foundation by
    [FOUNDATION_PATTERNS], semantic by [SEMANTIC_PATTERNS]. *)
Theorem classifyToken_tables_disjoint : forall fullName value : jsstring,
  let byValue :=
    startsWith value (str "(") || includes value (str "linear-gradient") in
  (firstMatch EXCLUDE_PATTERNS fullName = true ->
   firstMatch FOUNDATION_PATTERNS fullName = false /\
   firstMatch SEMANTIC_PATTERNS fullName = false) /\
  (firstMatch SEMANTIC_PATTERNS fullName = true ->
   firstMatch FOUNDATION_PATTERNS fullName = false) /\
  (byValue = false ->
   (classifyToken fullName value = excluded <->
    firstMatch EXCLUDE_PATTERNS fullName = true) /\
   (classifyToken fullName value = L foundation <->
    firstMatch FOUNDATION_PATTERNS fullName = true) /\
   (classifyToken fullName value = L semantic <->
    firstMatch SEMANTIC_PATTERNS fullName = true)).
Proof.
  intros s value byValue.
  split; [apply excluded_name_no_layer|].
  split; [apply semantic_not_foundation|].
  intro Hv. unfold byValue in Hv. unfold classifyToken. rewrite Hv.
  pose proof (excluded_name_no_layer s) as He.
  pose proof (semantic_not_foundation s) as Hs.
  destruct (firstMatch EXCLUDE_PATTERNS s);
    destruct (firstMatch FOUNDATION_PATTERNS s);
    destruct (firstMatch SEMANTIC_PATTERNS s);
    try (destruct (He eq_refl); discriminate);
    try (specialize (Hs eq_refl); discriminate);
    repeat split; intro; try reflexivity; discriminate.
Qed.

(** ** Types and categories of the classified names *)

Lemma lang_lit_cat : forall p r s,
  lang (Cat (lit p) r) s -> exists x, s = p ++ x /\ lang r x.
Proof.
  intros p r s [s1 [s2 [-> [H1 H2]]]]. apply lang_lit in H1. subst s1.
  exists s2. split; [reflexivity|exact H2].
Qed.

Lemma lang_altsOf : forall l s, lang (altsOf l) s <-> In s l.
Proof.
  induction l as [|a l IH]; intro s; simpl.
  - tauto.
  - rewrite lang_lit, IH. split; intros [H|H]; auto.
Qed.

Lemma classify_semantic : forall fullName value,
  classifyToken fullName value = L semantic ->
  firstMatch SEMANTIC_PATTERNS fullName = true.
Proof.
  intros s v. unfold classifyToken.
  destruct (firstMatch EXCLUDE_PATTERNS s); [discriminate|].
  destruct (startsWith v (str "(") || includes v (str "linear-gradient"));
    [discriminate|].
  destruct (firstMatch FOUNDATION_PATTERNS s); [discriminate|].
  destruct (firstMatch SEMANTIC_PATTERNS s); [reflexivity|discriminate].
Qed.

(** Decides a chain of [if]s: every branch taken is checked, and the branch
    of the final [else] is closed by a condition that computes to [true]. *)
Ltac chain :=
  repeat match goal with
         | |- context [if ?b then _ else _] => destruct b eqn:?
         end;
  try discriminate;
  match goal with
  | H : _ = false |- _ => vm_compute in H; discriminate H
  end.

Lemma stem_type_category : forall stem name value,
  In stem [ str "font-family-"; str "font-size-"; str "font-weight-";
            str "line-height-"; str "color-"; str "opacity-";
            str "border-radius-"; str "icon-size-"; str "zindex-" ] ->
  startsWith name stem = true ->
  inferTokenType name value <> str "other" /\
  inferCategory name <> str "other".
Proof.
  intros stem name value Hs H. apply startsWith_iff in H. destruct H as [x ->].
  cbn [In] in Hs.
  repeat (destruct Hs as [<-|Hs];
          [split; [unfold inferTokenType|unfold inferCategory]; chain|]).
  destruct Hs.
Qed.

Lemma exact_type_category : forall name value,
  In name [ str "base-unit"; str "focus-color"; str "link-color";
            str "link-hover-color"; str "sm-breakpoint"; str "md-breakpoint";
            str "lg-breakpoint"; str "xl-breakpoint"; str "xxl-breakpoint" ] ->
  inferTokenType name value <> str "other" /\
  inferCategory name <> str "other".
Proof.
  intros name value H. cbn [In] in H.
  repeat (destruct H as [<-|H]; [split; vm_compute; discriminate|]).
  destruct H.
Qed.

Lemma dollar_app : forall name p x,
  str "$" ++ name = (str "$" ++ p) ++ x -> name = p ++ x.
Proof. intros name p x H. injection H as H. exact H. Qed.

Lemma foundation_type_category : forall name value,
  firstMatch FOUNDATION_PATTERNS (str "$" ++ name) = true ->
  inferTokenType name value <> str "other" /\
  inferCategory name <> str "other".
Proof.
  intros name value H. apply firstMatch_iff in H. destruct H as [p [Hp Ht]].
  unfold FOUNDATION_PATTERNS in Hp. cbn [In] in Hp.
  unfold stemAltsOrHeading, lits in Hp.
  assert (Stem : forall stem r,
            lang (Cat (lit (str "$" ++ stem)) r) (str "$" ++ name) ->
            startsWith name stem = true).
  { intros stem r Hl. apply lang_lit_cat in Hl. destruct Hl as [x [Hx _]].
    apply dollar_app in Hx. subst name. apply startsWith_app. }
  assert (Exact : forall nm,
            lang (lit (str "$" ++ nm)) (str "$" ++ name) -> name = nm).
  { intros nm Hl. apply lang_lit in Hl. injection Hl as Hl. exact Hl. }
  destruct Hp as [<-|Hp].
  { apply test_Whole in Ht.
    apply (stem_type_category (str "font-family-")); [cbn [In]; tauto|].
    eapply (Stem (str "font-family-")). exact Ht. }
  destruct Hp as [<-|Hp].
  { apply test_Whole in Ht.
    apply (stem_type_category (str "font-size-")); [cbn [In]; tauto|].
    eapply (Stem (str "font-size-")). exact Ht. }
  destruct Hp as [<-|Hp].
  { apply test_Whole in Ht.
    apply (stem_type_category (str "font-weight-")); [cbn [In]; tauto|].
    eapply (Stem (str "font-weight-")). exact Ht. }
  destruct Hp as [<-|Hp].
  { apply test_Whole in Ht.
    apply (stem_type_category (str "line-height-")); [cbn [In]; tauto|].
    eapply (Stem (str "line-height-")). exact Ht. }
  destruct Hp as [<-|Hp].
  { apply test_Whole in Ht.
    apply (stem_type_category (str "color-")); [cbn [In]; tauto|].
    eapply (Stem (str "color-")). exact Ht. }
  destruct Hp as [<-|Hp].
  { apply test_Whole in Ht.
    apply (stem_type_category (str "color-")); [cbn [In]; tauto|].
    eapply (Stem (str "color-")). exact Ht. }
  destruct Hp as [<-|Hp].
  { apply test_Whole in Ht. apply exact_type_category.
    rewrite (Exact (str "base-unit") Ht). cbn [In]. tauto. }
  destruct Hp as [<-|Hp].
  { apply test_Whole in Ht.
    apply (stem_type_category (str "opacity-")); [cbn [In]; tauto|].
    eapply (Stem (str "opacity-")). exact Ht. }
  destruct Hp as [<-|Hp].
  { apply test_Whole in Ht.
    apply (stem_type_category (str "border-radius-")); [cbn [In]; tauto|].
    eapply (Stem (str "border-radius-")). exact Ht. }
  destruct Hp as [<-|Hp].
  { apply test_Whole in Ht. apply exact_type_category.
    rewrite (Exact (str "focus-color") Ht). cbn [In]. tauto. }
  destruct Hp as [<-|Hp].
  { apply test_Whole in Ht. apply exact_type_category.
    rewrite (Exact (str "link-color") Ht). cbn [In]. tauto. }
  destruct Hp as [<-|Hp].
  { apply test_Whole in Ht. apply exact_type_category.
    rewrite (Exact (str "link-hover-color") Ht). cbn [In]. tauto. }
  destruct Hp as [<-|Hp].
  { apply test_Whole in Ht.
    apply (stem_type_category (str "icon-size-")); [cbn [In]; tauto|].
    eapply (Stem (str "icon-size-")). exact Ht. }
  destruct Hp as [<-|Hp].
  { apply test_Whole in Ht. apply exact_type_category.
    change (lit (str "$")) with (lit (str "$" ++ [])) in Ht.
    apply lang_lit_cat in Ht. destruct Ht as [x [Hx Hl]].
    apply dollar_app in Hx. simpl in Hx. subst x.
    destruct Hl as [a [b [-> [Ha Hb]]]].
    apply lang_lit in Hb. subst b.
    apply lang_altsOf in Ha. vm_compute in Ha.
    repeat (destruct Ha as [<-|Ha];
            [vm_compute; repeat ((left; reflexivity) || right)|]).
    destruct Ha. }
  destruct Hp as [<-|Hp]; [|destruct Hp].
  apply test_Prefix in Ht. destruct Ht as [a [b [Hab Hl]]].
  apply lang_lit in Hl. subst a.
  apply (stem_type_category (str "zindex-")); [cbn [In]; tauto|].
  apply dollar_app in Hab. subst name. apply startsWith_app.
Qed.

Lemma semantic_type_category : forall name value,
  firstMatch SEMANTIC_PATTERNS (str "$" ++ name) = true ->
  inferTokenType name value = str "color" /\
  In (semanticGroupName name, inferCategory name) Obs.semanticKinds.
Proof.
  intros name value H. apply semantic_patterns_meaning in H.
  assert (P : forall stem,
            startsWith (str "$" ++ name) (str "$" ++ stem) = true ->
            exists x, name = stem ++ x).
  { intros stem Hs. apply startsWith_iff in Hs. destruct Hs as [x Hx].
    exists x. apply dollar_app. exact Hx. }
  destruct H as [H|[H|[H|[rest [H _]]]]].
  - destruct (P (str "color-text-") H) as [x ->].
    split; vm_compute; [reflexivity|tauto].
  - destruct (P (str "color-icon-") H) as [x ->].
    split; vm_compute; [reflexivity|tauto].
  - destruct (P (str "color-border-") H) as [x ->].
    split; vm_compute; [reflexivity|tauto].
  - apply (dollar_app name (str "color-background-") rest) in H. subst name.
    split; vm_compute; [reflexivity|tauto].
Qed.

(** X5.  A name classified as foundation never gets the type or the category
    ['other'] from [inferTokenType] and [inferCategory]; a name classified as
    semantic gets the type ['color'], and its group in the SCSS file and its
    category in the metadata go together: Text, Icon, Border or Background
    Colors, never ['Other Semantic']. *)
Theorem classified_names_type_and_category : forall name value : jsstring,
  (classifyToken (str "$" ++ name) value = L foundation ->
   inferTokenType name value <> str "other" /\
   inferCategory name <> str "other") /\
  (classifyToken (str "$" ++ name) value = L semantic ->
   inferTokenType name value = str "color" /\
   In (semanticGroupName name, inferCategory name)
      [ (str "Text Colors", str "text-colors");
        (str "Icon Colors", str "icon-colors");
        (str "Border Colors", str "border-colors");
        (str "Background Colors", str "background-colors") ]).
Proof.
  intros name value. split; intro H.
  - apply foundation_type_category. apply (classify_foundation _ _ H).
  - apply semantic_type_category. apply (classify_semantic _ _ H).
Qed.

(** ** The groups of the foundation names *)

Lemma range_cases : forall c,
  N.leb 49 c && N.leb c 54 = true -> In c [49; 50; 51; 52; 53; 54]%N.
Proof.
  intros c H. apply andb_true_iff in H. destruct H as [H1 H2].
  apply N.leb_le in H1. apply N.leb_le in H2. simpl.
  assert (c = 49 \/ c = 50 \/ c = 51 \/ c = 52 \/ c = 53 \/ c = 54)%N by lia.
  intuition auto.
Qed.

Lemma lang_Cat : forall a b s,
  lang (Cat a b) s -> exists s1 s2, s = s1 ++ s2 /\ lang a s1 /\ lang b s2.
Proof. intros a b s H. exact H. Qed.

Lemma lang_alts : forall l s,
  lang (alts l) s <-> In s (splitChar (str l) 124%N).
Proof. intros l s. unfold alts. apply lang_altsOf. Qed.

(** Closes [In x l] for a closed [x] and a closed [l]. *)
Ltac in_closed := vm_compute; repeat ((left; reflexivity) || right).

Lemma fixed_alts : forall stem l name,
  forallb (fun a => existsb (JS.eqb (str stem ++ a)) Obs.foundationFixed)
          (splitChar (str l) 124%N) = true ->
  lang (Cat (lit (str "$" ++ str stem)) (alts l)) (str "$" ++ name) ->
  In name Obs.foundationFixed.
Proof.
  intros stem l name Hall H. apply lang_lit_cat in H. destruct H as [a [Ha Hl]].
  apply dollar_app in Ha. subst name. apply lang_alts in Hl.
  rewrite forallb_forall in Hall. specialize (Hall a Hl).
  apply existsb_exists in Hall. destruct Hall as [n [Hn He]].
  apply eqb_eq in He. rewrite He. exact Hn.
Qed.

Lemma fixed_alts_or_heading : forall stem l name,
  forallb (fun a => existsb (JS.eqb (str stem ++ a)) Obs.foundationFixed)
          (splitChar (str l) 124%N ++
           List.map (fun c => str "h" ++ [c]) [49; 50; 51; 52; 53; 54]%N) = true ->
  test (stemAltsOrHeading (String "$" stem) l) (str "$" ++ name) = true ->
  In name Obs.foundationFixed.
Proof.
  intros stem l name Hall H. unfold stemAltsOrHeading in H.
  apply test_Whole in H.
  change (lits (String "$" stem)) with (lit (str "$" ++ str stem)) in H.
  apply lang_lit_cat in H. destruct H as [a [Ha Hl]].
  apply dollar_app in Ha. subst name.
  assert (Hin : In a (splitChar (str l) 124%N ++
                      List.map (fun c => str "h" ++ [c]) [49; 50; 51; 52; 53; 54]%N)).
  { apply in_or_app. destruct Hl as [Hl|Hl].
    - left. apply lang_alts. exact Hl.
    - right. destruct Hl as [h [d [-> [Hh Hd]]]].
      apply lang_lit in Hh. subst h. destruct Hd as [c [-> Hc]].
      apply in_map_iff. exists c. split; [reflexivity|].
      apply range_cases. exact Hc. }
  rewrite forallb_forall in Hall. specialize (Hall a Hin).
  apply existsb_exists in Hall. destruct Hall as [n [Hn He]].
  apply eqb_eq in He. rewrite He. exact Hn.
Qed.

Lemma fixed_exact : forall nm name,
  existsb (JS.eqb nm) Obs.foundationFixed = true ->
  lang (lit (str "$" ++ nm)) (str "$" ++ name) ->
  In name Obs.foundationFixed.
Proof.
  intros nm name Hall H. apply lang_lit in H. injection H as ->.
  apply existsb_exists in Hall. destruct Hall as [n [Hn He]].
  apply eqb_eq in He. rewrite He. exact Hn.
Qed.

Lemma foundation_shape : forall name,
  firstMatch FOUNDATION_PATTERNS (str "$" ++ name) = true ->
  Obs.foundationShape name.
Proof.
  intros name H. apply firstMatch_iff in H. destruct H as [p [Hp Ht]].
  unfold FOUNDATION_PATTERNS in Hp. cbn [In] in Hp. unfold Obs.foundationShape.
  destruct Hp as [<-|Hp].
  { left. apply test_Whole in Ht.
    apply (fixed_alts "font-family-" "base|mono"); [vm_compute; reflexivity|exact Ht]. }
  destruct Hp as [<-|Hp].
  { left. eapply (fixed_alts_or_heading "font-size-"); [|exact Ht].
    vm_compute; reflexivity. }
  destruct Hp as [<-|Hp].
  { left. eapply (fixed_alts_or_heading "font-weight-"); [|exact Ht].
    vm_compute; reflexivity. }
  destruct Hp as [<-|Hp].
  { left. eapply (fixed_alts_or_heading "line-height-"); [|exact Ht].
    vm_compute; reflexivity. }
  destruct Hp as [<-|Hp].
  { right. left. apply test_Whole in Ht.
    change (lits "$color-") with (lit (str "$" ++ str "color-")) in Ht.
    apply lang_lit_cat in Ht. destruct Ht as [x [Hx Hl]].
    apply dollar_app in Hx. subst name.
    apply lang_Cat in Hl. destruct Hl as [hue [y [-> [Hh Hy]]]].
    apply lang_lit_cat in Hy. destruct Hy as [ds [-> _]].
    apply lang_alts in Hh. exists hue, ds. split; [exact Hh|reflexivity]. }
  destruct Hp as [<-|Hp].
  { left. apply test_Whole in Ht.
    apply (fixed_alts "color-" "black|white"); [vm_compute; reflexivity|exact Ht]. }
  destruct Hp as [<-|Hp].
  { left. apply test_Whole in Ht.
    apply (fixed_exact (str "base-unit")); [vm_compute; reflexivity|exact Ht]. }
  destruct Hp as [<-|Hp].
  { right. right. left. apply test_Whole in Ht.
    change (lits "$opacity-") with (lit (str "$" ++ str "opacity-")) in Ht.
    apply lang_lit_cat in Ht. destruct Ht as [ds [Hx _]].
    apply dollar_app in Hx. exists ds. exact Hx. }
  destruct Hp as [<-|Hp].
  { left. apply test_Whole in Ht.
    apply (fixed_alts "border-radius-" "base|sharp|circle|medium|rounded-pill");
      [vm_compute; reflexivity|exact Ht]. }
  destruct Hp as [<-|Hp].
  { left. apply test_Whole in Ht.
    apply (fixed_exact (str "focus-color")); [vm_compute; reflexivity|exact Ht]. }
  destruct Hp as [<-|Hp].
  { left. apply test_Whole in Ht.
    apply (fixed_exact (str "link-color")); [vm_compute; reflexivity|exact Ht]. }
  destruct Hp as [<-|Hp].
  { left. apply test_Whole in Ht.
    apply (fixed_exact (str "link-hover-color")); [vm_compute; reflexivity|exact Ht]. }
  destruct Hp as [<-|Hp].
  { left. apply test_Whole in Ht.
    apply (fixed_alts "icon-size-" "base|xs|sm|sm2|sm3|md|lg|xl|xxl");
      [vm_compute; reflexivity|exact Ht]. }
  destruct Hp as [<-|Hp].
  { left. apply test_Whole in Ht.
    change (lits "$") with (lit (str "$" ++ [])) in Ht.
    apply lang_lit_cat in Ht. destruct Ht as [x [Hx Hl]].
    apply dollar_app in Hx. simpl in Hx. subst x.
    apply lang_Cat in Hl. destruct Hl as [a [b [-> [Ha Hb]]]].
    apply lang_lit in Hb. subst b.
    apply lang_alts in Ha. vm_compute in Ha.
    repeat (destruct Ha as [<-|Ha]; [in_closed|]).
    destruct Ha. }
  destruct Hp as [<-|Hp]; [|destruct Hp].
  right. right. right.
  apply test_Prefix in Ht. destruct Ht as [a [b [Hab Hl]]].
  apply lang_lit in Hl. subst a.
  apply dollar_app in Hab. exists b. exact Hab.
Qed.

Lemma fixed_names_grouped :
  forallb (fun n => negb (JS.eqb (foundationGroupName n) (str "Other Foundation")))
          Obs.foundationFixed = true.
Proof. vm_compute. reflexivity. Qed.

(** X6.  A name [FOUNDATION_PATTERNS] accepts falls into the group
    ['Other Foundation'] of [groupFoundationTokens] only when it belongs to
    the violet ramp, for which the function has no group: every other
    foundation token gets a group of its own kind. *)
Theorem foundation_groups_miss_violet_only : forall name : jsstring,
  firstMatch FOUNDATION_PATTERNS (str "$" ++ name) = true ->
  foundationGroupName name = str "Other Foundation" ->
  startsWith name (str "color-violet-") = true.
Proof.
  intros name H. apply foundation_shape in H.
  destruct H as [H|[[hue [ds [Hh ->]]]|[[ds ->]|[x ->]]]].
  - intro G. exfalso. pose proof fixed_names_grouped as F.
    rewrite forallb_forall in F. specialize (F name H).
    rewrite G in F. vm_compute in F. discriminate F.
  - vm_compute in Hh.
    repeat (destruct Hh as [<-|Hh];
            [first [ intros _; vm_compute; reflexivity
                   | intro G; exfalso; revert G; unfold foundationGroupName; chain ]|]).
    destruct Hh.
  - intro G; exfalso; revert G; unfold foundationGroupName; chain.
  - intro G; exfalso; revert G; unfold foundationGroupName; chain.
Qed.

Lemma foundation_groups_miss_violet_only_witness :
  firstMatch FOUNDATION_PATTERNS (str "$" ++ str "color-violet-50") = true /\
  foundationGroupName (str "color-violet-50") = str "Other Foundation" /\
  startsWith (str "color-violet-50") (str "color-violet-") = true.
Proof.
  assert (H1 : firstMatch FOUNDATION_PATTERNS (str "$" ++ str "color-violet-50") = true)
    by (vm_compute; reflexivity).
  assert (H2 : foundationGroupName (str "color-violet-50") = str "Other Foundation")
    by (vm_compute; reflexivity).
  split; [exact H1|]. split; [exact H2|].
  exact (foundation_groups_miss_violet_only (str "color-violet-50") H1 H2).
Defined.

(** ** Grouping *)

Lemma firstSeen_in : forall l y, In y (Obs.firstSeen l) <-> In y l.
Proof.
  induction l as [|x l IH]; intro y; simpl; [tauto|].
  rewrite filter_In, IH. split.
  - intros [H|[H _]]; auto.
  - intros [H|H]; [left; exact H|].
    destruct (JS.eqb y x) eqn:E.
    + left. apply eqb_eq in E. auto.
    + right. split; [exact H|reflexivity].
Qed.

Lemma firstSeen_snoc : forall l x,
  Obs.firstSeen (l ++ [x]) =
  if existsb (JS.eqb x) l then Obs.firstSeen l else Obs.firstSeen l ++ [x].
Proof.
  induction l as [|a l IH]; intro x; [reflexivity|].
  simpl app. simpl Obs.firstSeen. rewrite IH. simpl existsb.
  destruct (existsb (JS.eqb x) l) eqn:E.
  - rewrite orb_true_r. reflexivity.
  - rewrite orb_false_r. rewrite filter_app. simpl filter.
    destruct (JS.eqb x a) eqn:Ea; simpl.
    + rewrite app_nil_r. reflexivity.
    + reflexivity.
Qed.

Section Grouping.

Variable V : Type.
Variable groupOf : V -> jsstring.

Lemma inGroup_snoc : forall k tokens t,
  Obs.inGroup groupOf k (tokens ++ [t]) =
  if JS.eqb (groupOf t) k then Obs.inGroup groupOf k tokens ++ [t]
  else Obs.inGroup groupOf k tokens.
Proof.
  intros k tokens t. unfold Obs.inGroup. rewrite filter_app. simpl.
  destruct (JS.eqb (groupOf t) k); [reflexivity|apply app_nil_r].
Qed.

Lemma addToGroup_absent : forall (keys : list jsstring) (f : jsstring -> list V) k t,
  existsb (JS.eqb k) keys = false ->
  addToGroup (List.map (fun x => (x, f x)) keys) k t =
  List.map (fun x => (x, f x)) keys ++ [(k, [t])].
Proof.
  induction keys as [|a keys IH]; intros f k t H; [reflexivity|].
  simpl in H. apply orb_false_iff in H. destruct H as [Ha Hk].
  simpl. destruct (JS.eqb a k) eqn:E.
  - apply eqb_eq in E. subst a. rewrite eqb_refl in Ha. discriminate.
  - rewrite IH by exact Hk. reflexivity.
Qed.

Lemma addToGroup_present : forall (keys : list jsstring) (f g : jsstring -> list V) k t,
  NoDup keys -> In k keys ->
  g k = f k ++ [t] -> (forall x, x <> k -> g x = f x) ->
  addToGroup (List.map (fun x => (x, f x)) keys) k t =
  List.map (fun x => (x, g x)) keys.
Proof.
  induction keys as [|a keys IH]; intros f g k t Hnd Hin Hk Hother; [destruct Hin|].
  inversion Hnd as [|? ? Hna Hnd']; subst.
  simpl. destruct (JS.eqb a k) eqn:E.
  - apply eqb_eq in E. subst a. rewrite Hk. f_equal.
    apply map_ext_in. intros x Hx. rewrite Hother; [reflexivity|].
    intro Hxk. subst x. contradiction.
  - apply eqb_neq in E. rewrite (Hother a E). f_equal.
    apply IH; try assumption.
    destruct Hin as [Hin|Hin]; [congruence|exact Hin].
Qed.

Lemma firstSeen_NoDup : forall l, NoDup (Obs.firstSeen l).
Proof.
  induction l as [|x l IH]; simpl; constructor.
  - rewrite filter_In. intros [_ H]. rewrite eqb_refl in H. discriminate.
  - apply NoDup_filter. exact IH.
Qed.

Lemma existsb_eqb_in : forall (x : jsstring) l,
  existsb (JS.eqb x) l = true <-> In x l.
Proof.
  intros x l. rewrite existsb_exists. split.
  - intros [y [Hy E]]. apply eqb_eq in E. subst y. exact Hy.
  - intro H. exists x. split; [exact H|apply eqb_refl].
Qed.

Lemma groupBy_snoc : forall tokens t,
  groupBy groupOf (tokens ++ [t]) =
  addToGroup (groupBy groupOf tokens) (groupOf t) t.
Proof. intros tokens t. unfold groupBy. rewrite fold_left_app. reflexivity. Qed.

Lemma groupBy_grouped : forall tokens,
  groupBy groupOf tokens = Obs.grouped groupOf tokens.
Proof.
  induction tokens as [|t tokens IH] using rev_ind; [reflexivity|].
  rewrite groupBy_snoc, IH. unfold Obs.grouped.
  rewrite map_app. cbn [List.map]. rewrite firstSeen_snoc.
  destruct (existsb (JS.eqb (groupOf t)) (List.map groupOf tokens)) eqn:E.
  - apply addToGroup_present.
    + apply firstSeen_NoDup.
    + apply (proj2 (firstSeen_in _ _)). apply (proj1 (existsb_eqb_in _ _)). exact E.
    + rewrite inGroup_snoc, eqb_refl. reflexivity.
    + intros x Hx. rewrite inGroup_snoc.
      destruct (JS.eqb (groupOf t) x) eqn:Ex; [|reflexivity].
      apply eqb_eq in Ex. congruence.
  - assert (Hnot : existsb (JS.eqb (groupOf t))
                     (Obs.firstSeen (List.map groupOf tokens)) = false).
    { destruct (existsb (JS.eqb (groupOf t))
                  (Obs.firstSeen (List.map groupOf tokens))) eqn:E2; [|reflexivity].
      apply (proj1 (existsb_eqb_in _ _)) in E2.
      apply (proj1 (firstSeen_in _ _)) in E2.
      apply (proj2 (existsb_eqb_in _ _)) in E2. congruence. }
    rewrite addToGroup_absent by exact Hnot.
    rewrite map_app. cbn [List.map].
    rewrite inGroup_snoc, eqb_refl. f_equal.
    + apply map_ext_in. intros x Hx. rewrite inGroup_snoc.
      destruct (JS.eqb (groupOf t) x) eqn:Ex; [|reflexivity].
      apply eqb_eq in Ex. subst x.
      apply (proj2 (existsb_eqb_in _ _)) in Hx. congruence.
    + f_equal. f_equal.
      assert (Hnone : Obs.inGroup groupOf (groupOf t) tokens = []).
      { unfold Obs.inGroup. clear IH Hnot.
        induction tokens as [|u tokens IHt]; [reflexivity|].
        simpl in E. apply orb_false_iff in E. destruct E as [Eu Et].
        simpl. destruct (JS.eqb (groupOf u) (groupOf t)) eqn:Eut.
        - apply eqb_eq in Eut. rewrite Eut, eqb_refl in Eu. discriminate.
        - apply IHt. exact Et. }
      rewrite Hnone. reflexivity.
Qed.

End Grouping.

(** X7.  [groupFoundationTokens] and [groupSemanticTokens] return the groups
    in the order in which they first occur among the tokens, each group once,
    and each group holds exactly the tokens of its kind in the order in which
    they were given. *)
Theorem groups_keep_the_order_of_the_tokens : forall tokens : list ScssVariable,
  groupFoundationTokens tokens =
    List.map (fun k =>
                (k, filter (fun t => JS.eqb (foundationGroupName (name t)) k) tokens))
             (Obs.firstSeen
                (List.map (fun t => foundationGroupName (name t)) tokens)) /\
  groupSemanticTokens tokens =
    List.map (fun k =>
                (k, filter (fun t => JS.eqb (semanticGroupName (name t)) k) tokens))
             (Obs.firstSeen
                (List.map (fun t => semanticGroupName (name t)) tokens)).
Proof.
  intro tokens. split.
  - apply (groupBy_grouped ScssVariable
             (fun t => foundationGroupName (name t)) tokens).
  - apply (groupBy_grouped ScssVariable
             (fun t => semanticGroupName (name t)) tokens).
Qed.

(** ** Maps filled by a loop: the order of the keys *)

Section Fill.

Variable T V : Type.
Variable nameOf : T -> jsstring.
Variable valOf : T -> V.

Lemma mapKeys_mapSet : forall (m : StringMap V) k v,
  mapKeys (mapSet m k v) =
  if existsb (JS.eqb k) (mapKeys m) then mapKeys m else mapKeys m ++ [k].
Proof.
  induction m as [|[k' v'] m IH]; intros k v; [reflexivity|].
  change (mapSet ((k', v') :: m) k v)
    with (if JS.eqb k' k then (k', v) :: m else (k', v') :: mapSet m k v).
  change (mapKeys ((k', v') :: m)) with (k' :: mapKeys m).
  change (existsb (JS.eqb k) (k' :: mapKeys m))
    with (JS.eqb k k' || existsb (JS.eqb k) (mapKeys m)).
  destruct (JS.eqb k' k) eqn:E.
  - apply eqb_eq in E. subst k'. rewrite eqb_refl. reflexivity.
  - assert (E' : JS.eqb k k' = false).
    { apply eqb_neq. apply eqb_neq in E. congruence. }
    rewrite E'.
    change (mapKeys ((k', v') :: mapSet m k v))
      with (k' :: mapKeys (mapSet m k v)).
    rewrite IH. cbn [orb].
    destruct (existsb (JS.eqb k) (mapKeys m)); reflexivity.
Qed.

Lemma existsb_firstSeen : forall x l,
  existsb (JS.eqb x) (Obs.firstSeen l) = existsb (JS.eqb x) l.
Proof.
  intros x l.
  destruct (existsb (JS.eqb x) l) eqn:E.
  - apply existsb_eqb_in. apply (proj2 (firstSeen_in _ _)).
    apply existsb_eqb_in. exact E.
  - destruct (existsb (JS.eqb x) (Obs.firstSeen l)) eqn:E2; [|reflexivity].
    apply (proj1 (existsb_eqb_in _ _)) in E2.
    apply (proj1 (firstSeen_in _ _)) in E2.
    apply (proj2 (existsb_eqb_in _ _)) in E2. congruence.
Qed.

Lemma fill_keys : forall (l : list T),
  mapKeys (fold_left (fun m t => mapSet m (nameOf t) (valOf t)) l []) =
  Obs.firstSeen (List.map nameOf l).
Proof.
  induction l as [|t l IH] using rev_ind; [reflexivity|].
  rewrite fold_left_app. cbn [fold_left].
  rewrite mapKeys_mapSet, IH, map_app. cbn [List.map].
  rewrite firstSeen_snoc, existsb_firstSeen. reflexivity.
Qed.

End Fill.

Lemma dedupe_names : forall l,
  List.map name (dedupe l) = Obs.firstSeen (List.map name l).
Proof.
  intro l. unfold dedupe.
  destruct (setAll_invariant l [] (Forall_nil _) (NoDup_nil _)) as [Hk _].
  unfold Ref.setAll in Hk. rewrite (keyed_names _ Hk).
  apply (fill_keys ScssVariable ScssVariable name (fun v => v)).
Qed.

(** X8.  The loop [foundationMap.set(v.name, v)] followed by
    [Array.from(foundationMap.values())] keeps one record per name: the
    names come in the order of their first occurrence, and the record kept
    under a name is the last one given with that name.  A theme variable
    that overrides a global one therefore takes the place of the global
    variable in the output. *)
Theorem dedupe_first_place_last_record : forall l : list ScssVariable,
  List.map Some (dedupe l) =
  List.map (fun n => Ref.lastNamed n l) (Obs.firstSeen (List.map name l)).
Proof.
  intro l. rewrite <- dedupe_names, map_map.
  apply map_ext_in. intros v Hv. symmetry. apply dedupe_lastNamed. exact Hv.
Qed.

(** ** The metadata of the semantic tokens *)

Lemma semantic_lines_count : forall sem deduped,
  List.length (filter Ref.isChiDecl (semanticSection sem deduped)) =
  List.length sem.
Proof.
  intros sem deduped. rewrite chiDecls_semanticSection, length_map.
  apply Permutation_length. unfold groupSemanticTokens. apply groupBy_perm.
Qed.

Lemma semantic_name_prefix : forall name value,
  classifyToken (str "$" ++ name) value = L semantic ->
  startsWith name (str "color-") = true.
Proof.
  intros name value H. apply classify_semantic in H.
  apply semantic_patterns_meaning in H.
  assert (P : forall stem,
            startsWith (str "$" ++ name) (str "$" ++ stem) = true ->
            exists x, name = stem ++ x).
  { intros stem Hs. apply startsWith_iff in Hs. destruct Hs as [x Hx].
    exists x. apply dollar_app. exact Hx. }
  destruct H as [H|[H|[H|[rest [H _]]]]].
  - destruct (P (str "color-text-") H) as [x ->]. reflexivity.
  - destruct (P (str "color-icon-") H) as [x ->]. reflexivity.
  - destruct (P (str "color-border-") H) as [x ->]. reflexivity.
  - apply (dollar_app name (str "color-background-") rest) in H. subst name.
    reflexivity.
Qed.

(** X9.  For parsed theme and global files.  The semantic tokens are not
    deduplicated for the SCSS file: every semantic variable of the theme file
    gives a declaration line there and counts in [semanticCount], while the
    metadata keeps one entry per name (in the order of first occurrence),
    that of the last variable with the name.  The two agree only when the
    semantic names are distinct.  Every key starts with [color-]: none is an
    array index, so the order of the keys of the object is that of their
    insertion. *)
Theorem semantic_tokens_repeated_in_scss_not_in_metadata :
  forall (themeContent globalContent : jsstring) (theme : Theme)
         (layers : list Layer) (now : jsstring),
  layersInclude layers semantic = true ->
  let themeVars := parseScssVariables themeContent in
  let globalVars := parseScssVariables globalContent in
  let sem := filter isSemantic themeVars in
  let deduped := dedupe (foundationTokensOf themeVars globalVars layers) in
  let output := generateCssVariablesScss themeVars globalVars theme layers now in
  let metadata := generateTokenMetadata themeVars globalVars theme output now in
  List.length (filter Ref.isChiDecl (semanticSection sem deduped)) =
    List.length sem /\
  semanticCount output = List.length sem /\
  mapKeys (tokens_semantic metadata) = Obs.firstSeen (List.map name sem) /\
  Forall (fun k => startsWith k (str "color-") = true)
         (mapKeys (tokens_semantic metadata)) /\
  (forall k, mapGet (tokens_semantic metadata) k =
             option_map tokenEntry (Ref.lastNamed k sem)).
Proof.
  intros themeContent globalContent theme layers now Hl
         themeVars globalVars sem deduped output metadata.
  assert (Hk : mapKeys (tokens_semantic metadata) =
               Obs.firstSeen (List.map name sem)).
  { unfold metadata, generateTokenMetadata. cbn [tokens_semantic].
    apply (fill_keys ScssVariable TokenEntry name tokenEntry). }
  split; [apply semantic_lines_count|]. split.
  { unfold output, generateCssVariablesScss. cbn [semanticCount].
    unfold semanticTokensOf. rewrite Hl. reflexivity. }
  split; [exact Hk|]. split.
  - rewrite Hk. apply Forall_forall. intros k Hin.
    apply (proj1 (firstSeen_in _ _)) in Hin.
    apply in_map_iff in Hin. destruct Hin as [v [<- Hv]].
    apply filter_In in Hv. destruct Hv as [Hv Hs].
    pose proof (parseScssVariables_parsedOk themeContent) as Hok.
    rewrite Forall_forall in Hok. destruct (Hok v Hv) as [_ Hlayer].
    apply TokenLayer_eqb_eq in Hs.
    apply (semantic_name_prefix (name v) (rawValue v)).
    rewrite <- Hlayer. exact Hs.
  - intro k. unfold metadata, generateTokenMetadata. cbn [tokens_semantic].
    rewrite putEntries_get_last. unfold sem.
    destruct (Ref.lastNamed k (filter isSemantic themeVars)); reflexivity.
Qed.

Lemma semantic_tokens_repeated_in_scss_not_in_metadata_witness :
  layersInclude LAYERS semantic = true /\
  semanticCount
    (generateCssVariablesScss
       (parseScssVariables
          (str "$color-text-base: #000;" ++ [10%N] ++ str "$color-text-base: #111;"))
       (parseScssVariables []) lumen LAYERS []) = 2 /\
  mapKeys
    (tokens_semantic
       (generateTokenMetadata
          (parseScssVariables
             (str "$color-text-base: #000;" ++ [10%N] ++
              str "$color-text-base: #111;"))
          (parseScssVariables []) lumen
          (generateCssVariablesScss
             (parseScssVariables
                (str "$color-text-base: #000;" ++ [10%N] ++
                 str "$color-text-base: #111;"))
             (parseScssVariables []) lumen LAYERS []) [])) =
    [str "color-text-base"] /\
  option_map entry_rawValue
    (mapGet
       (tokens_semantic
          (generateTokenMetadata
             (parseScssVariables
                (str "$color-text-base: #000;" ++ [10%N] ++
                 str "$color-text-base: #111;"))
             (parseScssVariables []) lumen
             (generateCssVariablesScss
                (parseScssVariables
                   (str "$color-text-base: #000;" ++ [10%N] ++
                    str "$color-text-base: #111;"))
                (parseScssVariables []) lumen LAYERS []) []))
       (str "color-text-base")) = Some (str "#111").
Proof.
  assert (Hl : layersInclude LAYERS semantic = true) by reflexivity.
  destruct (semantic_tokens_repeated_in_scss_not_in_metadata
              (str "$color-text-base: #000;" ++ [10%N] ++
               str "$color-text-base: #111;") [] lumen LAYERS [] Hl)
    as [_ [Hc [Hk [_ Hg]]]].
  split; [exact Hl|]. split; [|split].
  - rewrite Hc. vm_compute. reflexivity.
  - rewrite Hk. vm_compute. reflexivity.
  - rewrite Hg. vm_compute. reflexivity.
Defined.

(** ** The metadata of the foundation tokens *)

Lemma firstSeen_NoDup_id : forall l, NoDup l -> Obs.firstSeen l = l.
Proof.
  induction l as [|x l IH]; intro H; [reflexivity|].
  inversion H as [|? ? Hx Hl]; subst. simpl. rewrite (IH Hl). f_equal.
  clear IH H Hl. induction l as [|y l IHl]; [reflexivity|].
  simpl. destruct (JS.eqb y x) eqn:E.
  - apply eqb_eq in E. subst y. exfalso. apply Hx. left. reflexivity.
  - simpl. f_equal. apply IHl. intro H. apply Hx. right. exact H.
Qed.

Section FillFrom.

Variable T V : Type.
Variable nameOf : T -> jsstring.
Variable valOf : T -> V.

Lemma fill_keys_from : forall (l : list T) (m : StringMap V),
  NoDup (mapKeys m) ->
  mapKeys (fold_left (fun m t => mapSet m (nameOf t) (valOf t)) l m) =
  Obs.firstSeen (mapKeys m ++ List.map nameOf l).
Proof.
  induction l as [|t l IH] using rev_ind; intros m Hm.
  - simpl. rewrite app_nil_r. symmetry. apply firstSeen_NoDup_id. exact Hm.
  - rewrite fold_left_app. cbn [fold_left].
    rewrite mapKeys_mapSet, (IH m Hm), map_app. cbn [List.map].
    rewrite app_assoc, firstSeen_snoc, existsb_firstSeen. reflexivity.
Qed.

End FillFrom.

Lemma synthetic_entries_agree :
  forallb Obs.syntheticEntryAgrees (List.concat ALL_SYNTHETIC_TOKENS) = true.
Proof. vm_compute. reflexivity. Qed.

Lemma described_foundation : forall globalContent themeContent,
  let described :=
    dedupe (filter isFoundation (parseScssVariables globalContent) ++
            filter isFoundation (parseScssVariables themeContent)) in
  NoDup (List.map name described ++ Ref.syntheticNames).
Proof.
  intros globalContent themeContent described.
  apply NoDup_app_disjoint.
  - apply dedupe_NoDup.
  - apply syntheticNames_NoDup.
  - intros x Hx. apply in_map_iff in Hx. destruct Hx as [v [<- Hv]].
    assert (Hall : Forall (fun v => Ref.parsedOk v /\ isFoundation v = true)
                          described).
    { unfold described. apply dedupe_Forall. apply Forall_app. split;
        apply Forall_forall; intros u Hu; apply filter_In in Hu;
        destruct Hu as [Hu Hf]; (split; [|exact Hf]);
        pose proof (parseScssVariables_parsedOk globalContent) as Hg;
        pose proof (parseScssVariables_parsedOk themeContent) as Ht;
        rewrite Forall_forall in Hg, Ht; auto. }
    rewrite Forall_forall in Hall. destruct (Hall v Hv) as [Hp Hf].
    apply parsed_foundation_not_synthetic; assumption.
Qed.

(** X10.  Whatever the layers asked for, the foundation part of the metadata
    lists the deduplicated foundation variables of the two files, in their
    order, followed by the 59 synthetic tokens in the order of the tables;
    every synthetic token has its entry there, with the [--chi-] name of the
    token, its expression as raw value, no resolved value yet, and the type
    and category of its row in the table. *)
Theorem foundation_metadata_entries :
  forall (globalContent themeContent : jsstring) (theme : Theme)
         (output : GeneratedOutput) (now : jsstring),
  let globalVars := parseScssVariables globalContent in
  let themeVars := parseScssVariables themeContent in
  let described :=
    dedupe (filter isFoundation globalVars ++ filter isFoundation themeVars) in
  let metadata := generateTokenMetadata themeVars globalVars theme output now in
  mapKeys (tokens_foundation metadata) =
    List.map name described ++
    List.map syn_name (List.concat ALL_SYNTHETIC_TOKENS) /\
  List.length (tokens_foundation metadata) = List.length described + 59 /\
  (forall s, In s (List.concat ALL_SYNTHETIC_TOKENS) ->
     mapGet (tokens_foundation metadata) (syn_name s) = Some (syntheticEntry s) /\
     cssVariable (syntheticEntry s) = str "--chi-" ++ syn_name s /\
     entry_rawValue (syntheticEntry s) = scssExpression s /\
     resolvedValue (syntheticEntry s) = [] /\
     entry_type (syntheticEntry s) = syn_type s /\
     entry_category (syntheticEntry s) = syn_category s).
Proof.
  intros globalContent themeContent theme output now
         globalVars themeVars described metadata.
  assert (Hkeys : mapKeys (tokens_foundation metadata) =
                  List.map name described ++
                  List.map syn_name (List.concat ALL_SYNTHETIC_TOKENS)).
  { unfold metadata. rewrite tokens_foundation_value.
    unfold putEntries at 1.
    rewrite (fill_keys_from SyntheticToken TokenEntry syn_name syntheticEntry).
    - unfold putEntries.
      rewrite (fill_keys ScssVariable TokenEntry name tokenEntry).
      fold globalVars themeVars. fold described.
      rewrite (firstSeen_NoDup_id (List.map name described))
        by apply dedupe_NoDup.
      apply firstSeen_NoDup_id.
      apply (described_foundation globalContent themeContent).
    - apply putEntries_NoDup. constructor. }
  split; [exact Hkeys|]. split.
  - unfold mapKeys in Hkeys.
    rewrite <- (length_map fst (tokens_foundation metadata)), Hkeys.
    rewrite length_app, !length_map. reflexivity.
  - intros s Hs. split.
    + unfold metadata. rewrite tokens_foundation_value.
      apply putEntries_get_in; [apply syntheticNames_NoDup|exact Hs].
    + pose proof synthetic_entries_agree as A.
      rewrite forallb_forall in A. specialize (A s Hs).
      unfold Obs.syntheticEntryAgrees in A.
      repeat (apply andb_true_iff in A; destruct A as [A ?]).
      repeat match goal with
             | H : JS.eqb _ _ = true |- _ => apply eqb_eq in H
             end.
      repeat split; assumption.
Qed.

(** ** Resolved values *)

Lemma applyResolvedValues_get : forall entries resolvedMap k,
  Forall (fun ke => resolvedValue (snd ke) = []) entries ->
  mapGet (applyResolvedValues entries resolvedMap) k =
  option_map (Obs.resolvedEntry resolvedMap) (mapGet entries k).
Proof.
  intros entries resolvedMap k. induction entries as [|[k' e] entries IH];
    intro H; [reflexivity|].
  inversion H as [|? ? He Hrest]; subst. simpl in He.
  unfold applyResolvedValues. cbn [List.map fst snd].
  fold (applyResolvedValues entries resolvedMap).
  assert (Hk : forall x, mapGet ((k', x) :: applyResolvedValues entries resolvedMap) k =
                         if JS.eqb k' k then Some x
                         else mapGet (applyResolvedValues entries resolvedMap) k)
    by reflexivity.
  assert (Hone :
    mapGet
      (match mapGet resolvedMap (cssVariable e) with
       | Some ((_ :: _) as resolved) =>
           (k', mkEntry (scssVariable e) (cssVariable e) (entry_rawValue e)
                        resolved (entry_type e) (entry_category e)
                        (entry_comment e))
       | _ => (k', e)
       end :: applyResolvedValues entries resolvedMap) k =
    if JS.eqb k' k then Some (Obs.resolvedEntry resolvedMap e)
    else mapGet (applyResolvedValues entries resolvedMap) k).
  { unfold Obs.resolvedEntry.
    destruct (mapGet resolvedMap (cssVariable e)) as [[|c r]|]; rewrite Hk;
      destruct (JS.eqb k' k); try reflexivity;
      destruct e; simpl in *; subst; reflexivity. }
  rewrite Hone. simpl mapGet.
  destruct (JS.eqb k' k); [reflexivity|]. apply IH. exact Hrest.
Qed.

Lemma applyResolvedValues_keys : forall entries resolvedMap,
  mapKeys (applyResolvedValues entries resolvedMap) = mapKeys entries.
Proof.
  intros entries resolvedMap. unfold applyResolvedValues, mapKeys.
  rewrite map_map. apply map_ext. intros [k e]. cbn [fst snd].
  destruct (mapGet resolvedMap (cssVariable e)) as [[|c r]|]; reflexivity.
Qed.

Lemma applyResolvedValues_empty : forall entries,
  applyResolvedValues entries [] = entries.
Proof.
  intro entries. unfold applyResolvedValues.
  rewrite <- (map_id entries) at 2. apply map_ext. intros [k e]. reflexivity.
Qed.

Lemma applyResolvedValues_twice : forall entries resolvedMap,
  applyResolvedValues (applyResolvedValues entries resolvedMap) resolvedMap =
  applyResolvedValues entries resolvedMap.
Proof.
  intros entries resolvedMap. unfold applyResolvedValues. rewrite map_map.
  apply map_ext. intros [k e]. cbn [fst snd].
  destruct (mapGet resolvedMap (cssVariable e)) as [[|c r]|] eqn:E;
    cbn [fst snd cssVariable]; rewrite E; reflexivity.
Qed.

Lemma putEntries_fresh : forall (T : Type) (nameOf : T -> jsstring)
  (entryOf : T -> TokenEntry) (l : list T) (e : StringMap TokenEntry),
  (forall t, resolvedValue (entryOf t) = []) ->
  Forall (fun ke => resolvedValue (snd ke) = []) e ->
  Forall (fun ke => resolvedValue (snd ke) = []) (putEntries nameOf entryOf l e).
Proof.
  intros T nameOf entryOf l. induction l as [|t l IH]; intros e Hf He; [exact He|].
  rewrite putEntries_cons. apply IH; [exact Hf|].
  clear IH. induction e as [|[k v] e IHe].
  - constructor; [apply Hf|constructor].
  - inversion He; subst. simpl. destruct (JS.eqb k (nameOf t)).
    + constructor; [apply Hf|assumption].
    + constructor; [assumption|apply IHe; assumption].
Qed.

Lemma synthetic_entries_fresh : forall s, resolvedValue (syntheticEntry s) = [].
Proof. reflexivity. Qed.

(** X11.  [applyResolvedValues] keeps the keys of the entries and their order,
    changes nothing when the map is empty, and changes nothing when applied a
    second time.  On the entries [generateTokenMetadata] has just made, it
    leaves under each key the same entry with, as resolved value, the value
    the map holds for the entry's [--chi-] name, and the empty string when
    the map holds none. *)
Theorem applyResolvedValues_on_fresh_metadata :
  forall (themeVars globalVars : list ScssVariable) (theme : Theme)
         (output : GeneratedOutput) (now : jsstring)
         (resolvedMap : StringMap jsstring),
  let metadata := generateTokenMetadata themeVars globalVars theme output now in
  (forall entries,
     mapKeys (applyResolvedValues entries resolvedMap) = mapKeys entries /\
     applyResolvedValues entries [] = entries /\
     applyResolvedValues (applyResolvedValues entries resolvedMap) resolvedMap =
       applyResolvedValues entries resolvedMap) /\
  (forall k,
     mapGet (applyResolvedValues (tokens_foundation metadata) resolvedMap) k =
     option_map (Obs.resolvedEntry resolvedMap)
                (mapGet (tokens_foundation metadata) k)) /\
  (forall k,
     mapGet (applyResolvedValues (tokens_semantic metadata) resolvedMap) k =
     option_map (Obs.resolvedEntry resolvedMap)
                (mapGet (tokens_semantic metadata) k)).
Proof.
  intros themeVars globalVars theme output now resolvedMap metadata.
  split; [|split].
  - intro entries. split; [apply applyResolvedValues_keys|].
    split; [apply applyResolvedValues_empty|apply applyResolvedValues_twice].
  - intro k. apply applyResolvedValues_get.
    unfold metadata. rewrite tokens_foundation_value.
    apply putEntries_fresh; [apply synthetic_entries_fresh|].
    apply putEntries_fresh; [reflexivity|constructor].
  - intro k. apply applyResolvedValues_get.
    unfold metadata, generateTokenMetadata. cbn [tokens_semantic].
    apply putEntries_fresh; [reflexivity|constructor].
Qed.

(** ** The lines of the generated text *)

Lemma splitChar_single : forall x,
  Obs.noLF x = true -> splitChar x 10%N = [x].
Proof.
  induction x as [|c x IH]; intro H; [reflexivity|].
  simpl in H. apply andb_true_iff in H. destruct H as [Hc Hx].
  simpl. apply negb_true_iff in Hc. rewrite Hc, (IH Hx). reflexivity.
Qed.

Lemma splitChar_app_LF : forall x s,
  Obs.noLF x = true -> splitChar (x ++ 10%N :: s) 10%N = x :: splitChar s 10%N.
Proof.
  induction x as [|c x IH]; intros s H; [reflexivity|].
  simpl in H. apply andb_true_iff in H. destruct H as [Hc Hx].
  simpl. apply negb_true_iff in Hc. rewrite Hc, (IH s Hx). reflexivity.
Qed.

Lemma splitChar_join : forall lines,
  lines <> [] -> Forall (fun l => Obs.noLF l = true) lines ->
  splitChar (join lines [10%N]) 10%N = lines.
Proof.
  induction lines as [|x lines IH]; intros Hne H; [congruence|].
  inversion H as [|? ? Hx Hrest]; subst.
  destruct lines as [|y lines].
  - simpl. apply splitChar_single. exact Hx.
  - change (join (x :: y :: lines) [10%N])
      with (x ++ 10%N :: join (y :: lines) [10%N]).
    rewrite splitChar_app_LF by exact Hx. f_equal.
    apply IH; [discriminate|exact Hrest].
Qed.

Lemma noLF_cons : forall c s,
  Obs.noLF (c :: s) = negb (N.eqb c 10) && Obs.noLF s.
Proof. reflexivity. Qed.

Lemma digitsFuel_noLF : forall fuel n acc,
  Obs.noLF acc = true -> Obs.noLF (digitsFuel fuel n acc) = true.
Proof.
  induction fuel as [|fuel IH]; intros n acc H; [exact H|].
  assert (Hacc : Obs.noLF ((48 + N.modulo n 10)%N :: acc) = true).
  { rewrite noLF_cons, H, andb_true_r. apply negb_true_iff. apply N.eqb_neq.
    pose proof (N.le_add_r 48 (N.modulo n 10)) as L. intro E.
    rewrite E in L. revert L. apply N.lt_nge. reflexivity. }
  simpl. destruct (N.ltb n 10); [exact Hacc|]. apply IH. exact Hacc.
Qed.

Lemma ofNat_noLF : forall n, Obs.noLF (ofNat n) = true.
Proof. intro n. unfold ofNat, ofN. apply digitsFuel_noLF. reflexivity. Qed.

Lemma repeat_noLF : forall s n,
  Obs.noLF s = true -> Obs.noLF (JS.repeat s n) = true.
Proof.
  intros s n H. unfold JS.repeat. induction n as [|n IH]; [reflexivity|].
  simpl. rewrite noLF_app, H, IH. reflexivity.
Qed.

Lemma ident_noLF : forall s,
  forallb isIdentChar s = true -> Obs.noLF s = true.
Proof.
  induction s as [|c s IH]; intro H; [reflexivity|].
  simpl in H. apply andb_true_iff in H. destruct H as [Hc Hs].
  simpl. rewrite (IH Hs), andb_true_r.
  destruct (N.eqb c 10) eqn:E; [|reflexivity].
  apply N.eqb_eq in E. subst c. discriminate Hc.
Qed.

(** Splits a goal [noLF (a ++ b ++ ...) = true] into its parts. *)
Ltac noLF_parts :=
  repeat (rewrite noLF_app; apply andb_true_iff; split);
  try reflexivity.

Lemma groupHeading_noLF : forall label,
  Obs.noLF label = true -> Obs.noLF (groupHeading label) = true.
Proof.
  intros label H. unfold groupHeading. noLF_parts; try exact H.
  apply repeat_noLF. reflexivity.
Qed.

Lemma commentSuffix_noLF : forall c,
  (forall text, c = Some text -> Obs.noLF text = true) ->
  Obs.noLF (commentSuffix c) = true.
Proof.
  intros [[|x text]|] H; try reflexivity.
  unfold commentSuffix. noLF_parts. apply H. reflexivity.
Qed.

Lemma tokenLine_noLF : forall v,
  Obs.wellFormed v -> Obs.noLF (tokenLine v) = true.
Proof.
  intros v [_ [Hid [_ [_ [Hc _]]]]].
  pose proof (ident_noLF _ Hid) as Hn.
  unfold tokenLine, toCssCustomProp, toScssInterpolation.
  noLF_parts; try exact Hn.
  apply commentSuffix_noLF. intros text Ht. apply (Hc text Ht).
Qed.

Lemma foundationGroupName_noLF : forall n,
  Obs.noLF (foundationGroupName n) = true.
Proof.
  intro n. unfold foundationGroupName.
  repeat match goal with
         | |- context [if ?b then _ else _] => destruct b
         end; reflexivity.
Qed.

Lemma semanticGroupName_noLF : forall n,
  Obs.noLF (semanticGroupName n) = true.
Proof.
  intro n. unfold semanticGroupName.
  repeat match goal with
         | |- context [if ?b then _ else _] => destruct b
         end; reflexivity.
Qed.

Lemma groupLines_noLF : forall (groupOf : ScssVariable -> jsstring) tokens,
  (forall v, Obs.noLF (groupOf v) = true) ->
  Forall Obs.wellFormed tokens ->
  Forall (fun l => Obs.noLF l = true)
         (List.concat (List.map (groupLines tokenLine) (groupBy groupOf tokens))).
Proof.
  intros groupOf tokens Hg Ht. rewrite groupBy_grouped. unfold Obs.grouped.
  apply Forall_concat. apply Forall_map. apply Forall_map.
  apply Forall_forall. intros k Hk.
  apply (proj1 (firstSeen_in _ _)) in Hk. apply in_map_iff in Hk.
  destruct Hk as [v [<- Hv]].
  unfold groupLines. cbn [fst snd]. constructor.
  - apply groupHeading_noLF. apply Hg.
  - apply Forall_app. split; [|repeat constructor].
    apply Forall_map. unfold Obs.inGroup. apply Forall_forall. intros u Hu.
    apply filter_In in Hu. destruct Hu as [Hu _].
    rewrite Forall_forall in Ht. apply tokenLine_noLF. apply Ht. exact Hu.
Qed.

Lemma syntheticLines_noLF :
  forallb Obs.noLF
    (List.concat (List.map (groupLines syntheticLine) syntheticScales)) = true.
Proof. vm_compute. reflexivity. Qed.

Lemma headerLines_noLF : forall theme now f s t,
  Obs.noLF now = true ->
  Forall (fun l => Obs.noLF l = true) (headerLines theme now f s t).
Proof.
  intros theme now f s t Hnow. unfold headerLines.
  repeat constructor; noLF_parts;
    try exact Hnow; try apply ofNat_noLF.
  destruct theme; reflexivity.
Qed.

Lemma foundationSection_noLF : forall deduped,
  Forall Obs.wellFormed deduped ->
  Forall (fun l => Obs.noLF l = true) (foundationSection deduped).
Proof.
  intros deduped H. unfold foundationSection.
  destruct deduped as [|v deduped]; [constructor|].
  apply Forall_app. split; [repeat constructor|].
  apply Forall_app. split.
  - unfold groupFoundationTokens. apply groupLines_noLF; [|exact H].
    intro u. apply foundationGroupName_noLF.
  - apply Forall_app. split; [|repeat constructor].
    apply Forall_forall. intros l Hl.
    pose proof syntheticLines_noLF as S. rewrite forallb_forall in S.
    apply S. exact Hl.
Qed.

Lemma semanticSection_noLF : forall sem deduped,
  Forall Obs.wellFormed sem ->
  Forall (fun l => Obs.noLF l = true) (semanticSection sem deduped).
Proof.
  intros sem deduped H. unfold semanticSection.
  destruct sem as [|v sem]; [constructor|].
  apply Forall_app. split; [destruct deduped; repeat constructor|].
  apply Forall_app. split.
  - unfold groupSemanticTokens. apply groupLines_noLF; [|exact H].
    intro u. apply semanticGroupName_noLF.
  - repeat constructor.
Qed.

Lemma filter_Forall : forall (A : Type) (P : A -> Prop) (p : A -> bool) l,
  Forall P l -> Forall P (filter p l).
Proof.
  intros A P p l H. apply Forall_forall. intros x Hx.
  apply filter_In in Hx. rewrite Forall_forall in H. apply H, Hx.
Qed.

Lemma scssLines_noLF : forall themeVars globalVars theme layers now,
  Forall Obs.wellFormed themeVars -> Forall Obs.wellFormed globalVars ->
  Obs.noLF now = true ->
  Forall (fun l => Obs.noLF l = true)
         (scssLines themeVars globalVars theme layers now).
Proof.
  intros themeVars globalVars theme layers now Ht Hg Hnow. unfold scssLines.
  assert (Hf : Forall Obs.wellFormed
                 (dedupe (foundationTokensOf themeVars globalVars layers))).
  { apply dedupe_Forall. unfold foundationTokensOf.
    destruct (layersInclude layers foundation); [|constructor].
    apply Forall_app. split; apply filter_Forall; assumption. }
  assert (Hs : Forall Obs.wellFormed (semanticTokensOf themeVars layers)).
  { unfold semanticTokensOf.
    destruct (layersInclude layers semantic); [|constructor].
    apply filter_Forall. exact Ht. }
  apply Forall_app. split; [apply headerLines_noLF; exact Hnow|].
  apply Forall_app. split; [apply foundationSection_noLF; exact Hf|].
  apply Forall_app. split; [apply semanticSection_noLF; exact Hs|].
  repeat constructor.
Qed.

(** X12.  When the time stamp holds no line feed, the text
    [generateCssVariablesScss] returns for two parsed files has exactly the
    lines the function pushed: no token name, comment, heading or count
    brings a line break of its own.  So the [--chi-] declarations of the
    text are those lines, one per token, and when the foundation block is
    there their number is the [totalCount] returned. *)
Theorem generated_text_lines :
  forall (globalContent themeContent : jsstring) (theme : Theme)
         (layers : list Layer) (now : jsstring),
  Obs.noLF now = true ->
  let globalVars := parseScssVariables globalContent in
  let themeVars := parseScssVariables themeContent in
  let output := generateCssVariablesScss themeVars globalVars theme layers now in
  splitChar (scss output) 10%N =
    scssLines themeVars globalVars theme layers now /\
  Ref.chiDecls (scss output) =
    filter Ref.isChiDecl (scssLines themeVars globalVars theme layers now) /\
  (dedupe (foundationTokensOf themeVars globalVars layers) <> [] ->
   List.length (Ref.chiDecls (scss output)) = totalCount output).
Proof.
  intros globalContent themeContent theme layers now Hnow
         globalVars themeVars output.
  assert (Hlines : splitChar (scss output) 10%N =
                   scssLines themeVars globalVars theme layers now).
  { unfold output, generateCssVariablesScss. cbn [scss].
    apply splitChar_join.
    - unfold scssLines, headerLines. discriminate.
    - apply scssLines_noLF; try exact Hnow;
        apply parseScssVariables_records_well_formed. }
  split; [exact Hlines|].
  assert (Hdecls : Ref.chiDecls (scss output) =
                   filter Ref.isChiDecl
                     (scssLines themeVars globalVars theme layers now)).
  { unfold Ref.chiDecls. rewrite Hlines. reflexivity. }
  split; [exact Hdecls|].
  intro Hne. rewrite Hdecls. apply counts_match_with_foundation. exact Hne.
Qed.

Lemma generated_text_lines_witness :
  let now := str "2025-01-01T00:00:00.000Z" in
  let globalVars := parseScssVariables (str "$color-white: #fff;") in
  let themeVars := parseScssVariables (str "$color-text-base: #000;") in
  let output := generateCssVariablesScss themeVars globalVars lumen LAYERS now in
  Obs.noLF now = true /\
  dedupe (foundationTokensOf themeVars globalVars LAYERS) <> [] /\
  List.length (Ref.chiDecls (scss output)) = 61.
Proof.
  intros now globalVars themeVars output.
  assert (Hnow : Obs.noLF now = true) by reflexivity.
  assert (Hne : dedupe (foundationTokensOf themeVars globalVars LAYERS) <> [])
    by (vm_compute; discriminate).
  split; [exact Hnow|]. split; [exact Hne|].
  destruct (generated_text_lines (str "$color-white: #fff;")
              (str "$color-text-base: #000;") lumen LAYERS now Hnow)
    as [_ [_ Hcount]].
  unfold output, themeVars, globalVars. rewrite (Hcount Hne).
  vm_compute. reflexivity.
Defined.

(** ** The command line *)

Lemma parseArgsFrom_cons : forall arg rest a,
  parseArgsFrom (arg :: rest) a =
  if startsWithS arg "--theme=" then
    let t := afterEquals arg in
    match themeOfName t with
    | Some th => parseArgsFrom rest (mkArgs [th] (arg_layers a) (jsonOnly a) (dryRun a))
    | None =>
        emit (ConsoleError (str "Unknown theme: " ++ t ++ str ". Available: " ++
                            join (List.map themeName THEMES) (str ", "))) ;;;
        throw (ProcessExit 1)
    end
  else if startsWithS arg "--layers=" then
    let layerArg := splitChar (afterEquals arg) 44%N in
    parseArgsFrom rest (mkArgs (arg_themes a) (keepLayers layerArg) (jsonOnly a) (dryRun a))
  else if JS.eqb arg (str "--json-only") then
    parseArgsFrom rest (mkArgs (arg_themes a) (arg_layers a) true (dryRun a))
  else if JS.eqb arg (str "--dry-run") then
    parseArgsFrom rest (mkArgs (arg_themes a) (arg_layers a) (jsonOnly a) true)
  else if JS.eqb arg (str "--help") || JS.eqb arg (str "-h") then
    throw (ProcessExit 0)
  else parseArgsFrom rest a.
Proof. reflexivity. Qed.



(** ** What a run writes *)

Lemma bind_trace : forall (E A B : Type) (P : E -> Prop)
  (m : Run E A) (f : A -> Run E B),
  Forall P (fst m) -> (forall a, Forall P (fst (f a))) ->
  Forall P (fst (bind m f)).
Proof.
  intros E A B P [t [e|a]] f Hm Hf; [exact Hm|].
  simpl in Hm. specialize (Hf a). unfold bind. destruct (f a) as [t' r].
  simpl in *. apply Forall_app. split; assumption.
Qed.

Lemma readAndParse_trace : forall (P : Event -> Prop) c,
  Forall P (fst (readAndParse c)).
Proof. intros P [msg|c]; constructor. Qed.

Lemma writeOrThrow_trace : forall (P : Event -> Prop) r e,
  P e -> Forall P (fst (writeOrThrow r e)).
Proof. intros P [msg|u] e H; simpl; [constructor|repeat constructor; exact H]. Qed.

Lemma resolveTokenValues_trace : forall (P : Event -> Prop) w theme,
  (forall msg, P (ConsoleWarn msg)) ->
  Forall P (fst (resolveTokenValues w theme)).
Proof.
  intros P w theme H. unfold resolveTokenValues.
  destruct (sassCompile w theme); simpl; repeat constructor. apply H.
Qed.

(** The events of one theme, sorted by what the flags allow. *)
Lemma processTheme_trace : forall (P : Event -> Prop) w a globalVars theme,
  (forall msg, P (ConsoleWarn msg)) ->
  (dryRun a = true -> forall o m, P (PrintDryRun theme o m)) ->
  (dryRun a = false -> jsonOnly a = false -> forall s, P (WriteScss theme s)) ->
  (dryRun a = false -> forall m, P (WriteJson theme m)) ->
  Forall P (fst (processTheme w a globalVars theme)).
Proof.
  intros P w a globalVars theme Hwarn Hdry Hscss Hjson. unfold processTheme.
  destruct (negb (varsFileExists w theme)).
  { repeat constructor. apply Hwarn. }
  apply bind_trace; [apply readAndParse_trace|]. intro themeVars.
  destruct (dryRun a) eqn:D.
  { repeat constructor. apply Hdry. reflexivity. }
  apply bind_trace.
  { destruct (jsonOnly a) eqn:J; simpl; [constructor|].
    apply writeOrThrow_trace. apply Hscss; reflexivity. }
  intros _. apply bind_trace; [apply resolveTokenValues_trace; exact Hwarn|].
  intro resolvedMap. apply writeOrThrow_trace. apply Hjson. reflexivity.
Qed.

Lemma processThemes_trace : forall (P : Event -> Prop) w a globalVars themes,
  (forall theme, Forall P (fst (processTheme w a globalVars theme))) ->
  Forall P (fst (processThemes w a globalVars themes)).
Proof.
  intros P w a globalVars themes H. induction themes as [|theme rest IH].
  - constructor.
  - simpl. apply bind_trace; [apply H|]. intros _. exact IH.
Qed.

Lemma parseArgs_trace : forall (P : Event -> Prop) args a,
  (forall msg, P (ConsoleError msg)) ->
  Forall P (fst (parseArgsFrom args a)).
Proof.
  intros P args a H.
  destruct (parseArgsFrom_outcome args a) as [[a' E]|[E|[msg E]]];
    rewrite E; repeat constructor. apply H.
Qed.

Lemma runScript_trace : forall (P : Event -> Prop) w argv,
  (forall msg, P (ConsoleError msg)) ->
  Forall P (fst (main w argv)) ->
  Forall P (fst (runScript w argv)).
Proof.
  intros P w argv He H. unfold runScript.
  destruct (main w argv) as [t [[msg|code]|u]]; simpl in *; try exact H.
  apply Forall_app. split; [exact H|]. repeat constructor. apply He.
Qed.

Lemma parseArgsFrom_flags : forall args a t a',
  parseArgsFrom args a = (t, inr a') ->
  (dryRun a = true \/ In (str "--dry-run") args -> dryRun a' = true) /\
  (jsonOnly a = true \/ In (str "--json-only") args -> jsonOnly a' = true).
Proof.
  induction args as [|arg rest IH]; intros a t a' H.
  - injection H as <- <-. split; intros [H|[]]; exact H.
  - rewrite parseArgsFrom_cons in H. cbv zeta in H.
    assert (Hd : arg = str "--dry-run" ->
                 startsWithS arg "--theme=" = false /\
                 startsWithS arg "--layers=" = false /\
                 JS.eqb arg (str "--json-only") = false /\
                 JS.eqb arg (str "--dry-run") = true)
      by (intros ->; repeat split; reflexivity).
    assert (Hj : arg = str "--json-only" ->
                 startsWithS arg "--theme=" = false /\
                 startsWithS arg "--layers=" = false /\
                 JS.eqb arg (str "--json-only") = true)
      by (intros ->; repeat split; reflexivity).
    destruct (startsWithS arg "--theme=") eqn:E1.
    { cbv zeta in H. destruct (themeOfName (afterEquals arg)); [|discriminate H].
      destruct (IH _ _ _ H) as [I1 I2]. cbn [dryRun jsonOnly] in I1, I2.
      split; intros [F|[F|F]]; auto.
      - destruct (Hd F) as [X _]. discriminate X.
      - destruct (Hj F) as [X _]. discriminate X. }
    destruct (startsWithS arg "--layers=") eqn:E2.
    { destruct (IH _ _ _ H) as [I1 I2]. cbn [dryRun jsonOnly] in I1, I2.
      split; intros [F|[F|F]]; auto.
      - destruct (Hd F) as [_ [X _]]. discriminate X.
      - destruct (Hj F) as [_ [X _]]. discriminate X. }
    destruct (JS.eqb arg (str "--json-only")) eqn:E3.
    { destruct (IH _ _ _ H) as [I1 I2]. cbn [dryRun jsonOnly] in I1, I2.
      split; intros [F|[F|F]]; auto.
      destruct (Hd F) as [_ [_ [X _]]]. discriminate X. }
    destruct (JS.eqb arg (str "--dry-run")) eqn:E4.
    { destruct (IH _ _ _ H) as [I1 I2]. cbn [dryRun jsonOnly] in I1, I2.
      split; intros [F|[F|F]]; auto.
      destruct (Hj F) as [_ [_ X]]. discriminate X. }
    destruct (JS.eqb arg (str "--help") || JS.eqb arg (str "-h"));
      [discriminate H|].
    destruct (IH _ _ _ H) as [I1 I2].
    split; intros [F|[F|F]]; auto.
    + destruct (Hd F) as [_ [_ [_ X]]]. congruence.
    + destruct (Hj F) as [_ [_ X]]. congruence.
Qed.

Lemma copyFiles_trace : forall (P : Event -> Prop) w docsDir files,
  (forall file, P (CopyToDocs docsDir file)) ->
  Forall P (fst (copyFiles w docsDir files)).
Proof.
  intros P w docsDir files H. induction files as [|file rest IH].
  - constructor.
  - simpl. apply bind_trace; [apply writeOrThrow_trace; apply H|].
    intros _. exact IH.
Qed.

Lemma orThrow_trace : forall (P : Event -> Prop) (A : Type) (r : FileResult A),
  Forall P (fst (orThrow r)).
Proof. intros P A [msg|x]; constructor. Qed.

Lemma syncAllDocs_trace : forall (P : Event -> Prop) w docs,
  (forall docsDir, P (MakeDocsDir docsDir)) ->
  (forall docsDir file, P (CopyToDocs docsDir file)) ->
  Forall P (fst (syncAllDocs w docs)).
Proof.
  intros P w docs Hm Hc. induction docs as [|docsDir rest IH].
  - constructor.
  - simpl. apply bind_trace; [|intros _; exact IH].
    unfold syncDocs. destruct (docsRepoExists w docsDir); [|constructor].
    apply bind_trace; [apply writeOrThrow_trace; apply Hm|]. intros _.
    apply bind_trace; [apply orThrow_trace|]. intro files.
    apply copyFiles_trace. apply Hc.
Qed.

Lemma readAllThemeJson_trace : forall (P : Event -> Prop) w themes,
  Forall P (fst (readAllThemeJson w themes)).
Proof.
  intros P w themes. induction themes as [|theme rest IH].
  - constructor.
  - simpl. apply bind_trace; [apply orThrow_trace|]. intros _. exact IH.
Qed.

Lemma consolidate_trace : forall (P : Event -> Prop) w themes,
  P WriteAllThemes ->
  (forall docsDir, P (MakeDocsDir docsDir)) ->
  (forall docsDir file, P (CopyToDocs docsDir file)) ->
  Forall P (fst (consolidate w themes)).
Proof.
  intros P w themes Hw Hm Hc. unfold consolidate.
  apply bind_trace; [apply readAllThemeJson_trace|]. intros _.
  apply bind_trace; [apply writeOrThrow_trace; exact Hw|]. intros _.
  apply syncAllDocs_trace; assumption.
Qed.

Lemma main_trace : forall (P : Event -> Prop) w argv,
  (forall msg, P (ConsoleError msg)) ->
  (forall a, parseArgs argv = ([], inr a) ->
     (forall globalVars theme,
        Forall P (fst (processTheme w a globalVars theme))) /\
     (dryRun a = false ->
      P WriteAllThemes /\
      (forall docsDir, P (MakeDocsDir docsDir)) /\
      (forall docsDir file, P (CopyToDocs docsDir file)))) ->
  Forall P (fst (main w argv)).
Proof.
  intros P w argv He H. unfold main.
  destruct (parseArgsFrom_outcome argv (mkArgs THEMES LAYERS false false))
    as [[a E]|[E|[msg E]]]; fold (parseArgs argv) in E.
  - destruct (H a E) as [Ht Hall].
    erewrite bind_value by exact E. cbn [fst app].
    apply bind_trace; [apply readAndParse_trace|]. intro globalVars.
    apply bind_trace; [apply processThemes_trace; apply Ht|]. intros _.
    destruct (dryRun a) eqn:D; cbn [negb andb]; [constructor|].
    destruct (Nat.eqb (List.length (arg_themes a)) (List.length THEMES));
      [|constructor].
    destruct (Hall eq_refl) as [Hw [Hm Hc]].
    apply consolidate_trace; assumption.
  - erewrite bind_thrown by exact E. constructor.
  - erewrite bind_thrown by exact E. repeat constructor. apply He.
Qed.

(** X14.  With [--dry-run] among the arguments the script writes no file
    and makes no directory: neither an SCSS file, nor a JSON file, nor the
    consolidated file, nor a copy in a documentation repository.  With
    [--json-only] among them it writes no SCSS file.  Both hold whatever the
    other arguments and whatever the files and the compiler do. *)
Theorem flags_limit_what_is_written : forall (w : World) (argv : list jsstring),
  (In (str "--dry-run") argv ->
   Forall (fun e => Obs.isWrite e = false) (fst (runScript w argv))) /\
  (In (str "--json-only") argv ->
   Forall (fun e => Obs.isScssWrite e = false) (fst (runScript w argv))).
Proof.
  intros w argv. split; intro Hin.
  - apply runScript_trace; [reflexivity|].
    apply main_trace; [reflexivity|]. intros a Ha.
    destruct (parseArgsFrom_flags _ _ _ _ Ha) as [Hd _].
    specialize (Hd (or_intror Hin)). split.
    + intros globalVars theme. apply processTheme_trace;
        try reflexivity; intro; congruence.
    + intro; congruence.
  - apply runScript_trace; [reflexivity|].
    apply main_trace; [reflexivity|]. intros a Ha.
    destruct (parseArgsFrom_flags _ _ _ _ Ha) as [_ Hj].
    specialize (Hj (or_intror Hin)). split.
    + intros globalVars theme. apply processTheme_trace;
        try reflexivity; intros; try reflexivity; congruence.
    + intros _. repeat split.
Qed.

(** ** The consolidated file *)






(** ** The copy to the documentation repositories *)

Lemma copyFiles_run : forall w d files,
  (forallb (Obs.copies w d) files = true ->
   copyFiles w d files = (List.map (CopyToDocs d) files, inr tt)) /\
  (forallb (Obs.copies w d) files = false ->
   exists t msg, copyFiles w d files = (t, inl (Exception msg))) /\
  Forall (fun e => exists f, e = CopyToDocs d f /\ In f files /\
                             copyToDocs w d f = Done tt)
         (fst (copyFiles w d files)).
Proof.
  intros w d. induction files as [|f files [IH1 [IH2 IH3]]].
  - split; [reflexivity|]. split; [discriminate|constructor].
  - cbn [copyFiles forallb]. unfold Obs.copies at 1 3.
    destruct (copyToDocs w d f) as [msg|[]] eqn:C.
    + split; [discriminate|]. split; [|constructor].
      intros _. exists [], msg. reflexivity.
    + cbn [andb writeOrThrow].
      split; [|split].
      * intro H. rewrite (bind_value _ _ _ (emit (CopyToDocs d f)) _
                            [CopyToDocs d f] tt eq_refl).
        rewrite (IH1 H). reflexivity.
      * intro H. destruct (IH2 H) as [t [msg E]].
        exists (CopyToDocs d f :: t), msg.
        rewrite (bind_value _ _ _ (emit (CopyToDocs d f)) _
                   [CopyToDocs d f] tt eq_refl).
        rewrite E. reflexivity.
      * rewrite (bind_value _ _ _ (emit (CopyToDocs d f)) _
                   [CopyToDocs d f] tt eq_refl).
        cbn [fst app]. constructor.
        { exists f. split; [reflexivity|]. split; [left; reflexivity|exact C]. }
        { apply Forall_forall. intros e He. rewrite Forall_forall in IH3.
          destruct (IH3 e He) as [f' [E [Hin Hc]]].
          exists f'. split; [exact E|]. split; [right; exact Hin|exact Hc]. }
Qed.

Lemma syncDocs_run : forall w d,
  (docsRepoExists w d = false -> syncDocs w d = ([], inr tt)) /\
  (docsRepoExists w d = true -> Obs.syncSucceeds w d = true ->
   syncDocs w d =
     (MakeDocsDir d :: List.map (CopyToDocs d) (Obs.listed w d), inr tt)) /\
  (docsRepoExists w d = true -> Obs.syncSucceeds w d = false ->
   exists t msg, syncDocs w d = (t, inl (Exception msg))) /\
  Forall (fun e => docsRepoExists w d = true /\
                   (e = MakeDocsDir d \/
                    exists f, e = CopyToDocs d f /\ In f (Obs.listed w d) /\
                              copyToDocs w d f = Done tt))
         (fst (syncDocs w d)).
Proof.
  intros w d. unfold syncDocs, Obs.syncSucceeds, Obs.listed.
  destruct (docsRepoExists w d) eqn:Ex.
  2:{ split; [reflexivity|]. split; [discriminate|]. split; [discriminate|].
      constructor. }
  split; [discriminate|].
  destruct (makeDocsTokensDir w d) as [msg|[]] eqn:M.
  { split; [discriminate|]. split; [|constructor].
    intros _ _. exists [], msg. reflexivity. }
  cbn [writeOrThrow].
  rewrite (bind_value _ _ _ (emit (MakeDocsDir d)) _ [MakeDocsDir d] tt eq_refl).
  destruct (readTokensDir w d) as [msg|files] eqn:R.
  { cbn [orThrow]. split; [discriminate|]. split.
    - intros _ _. exists [MakeDocsDir d], msg. reflexivity.
    - repeat constructor. }
  cbn [orThrow].
  rewrite (bind_value _ _ _ (ret files) _ [] files eq_refl). cbn [app].
  destruct (copyFiles_run w d files) as [C1 [C2 C3]].
  split; [|split].
  - intros _ H. rewrite (C1 H). reflexivity.
  - intros _ H. destruct (C2 H) as [t [msg E]].
    exists (MakeDocsDir d :: t), msg. rewrite E. reflexivity.
  - cbn [fst]. constructor.
    + split; [reflexivity|left; reflexivity].
    + apply Forall_forall. intros e He. rewrite Forall_forall in C3.
      split; [reflexivity|right; apply (C3 e He)].
Qed.

Lemma syncAllDocs_run : forall w docs,
  ((forall d, In d docs -> docsRepoExists w d = true ->
              Obs.syncSucceeds w d = true) ->
   syncAllDocs w docs = (Obs.syncEvents w docs, inr tt)) /\
  (forall d, In d docs -> docsRepoExists w d = true ->
             Obs.syncSucceeds w d = false ->
   exists msg, snd (syncAllDocs w docs) = inl (Exception msg)) /\
  Forall (fun e => exists d, In d docs /\ docsRepoExists w d = true /\
                   (e = MakeDocsDir d \/
                    exists f, e = CopyToDocs d f /\ In f (Obs.listed w d) /\
                              copyToDocs w d f = Done tt))
         (fst (syncAllDocs w docs)).
Proof.
  intros w. induction docs as [|d docs [IH1 [IH2 IH3]]].
  - split; [reflexivity|]. split; [intros d []|constructor].
  - destruct (syncDocs_run w d) as [S1 [S2 [S3 S4]]].
    cbn [syncAllDocs]. unfold Obs.syncEvents. cbn [flat_map].
    fold (Obs.syncEvents w docs).
    assert (Hev : forall t r, syncDocs w d = (t, r) ->
              Forall (fun e => exists d0, In d0 (d :: docs) /\
                               docsRepoExists w d0 = true /\
                               (e = MakeDocsDir d0 \/
                                exists f, e = CopyToDocs d0 f /\
                                          In f (Obs.listed w d0) /\
                                          copyToDocs w d0 f = Done tt)) t).
    { intros t r E. rewrite E in S4. cbn [fst] in S4.
      apply Forall_forall. intros e He. rewrite Forall_forall in S4.
      destruct (S4 e He) as [X Y]. exists d.
      split; [left; reflexivity|]. split; assumption. }
    assert (Hrest : Forall (fun e => exists d0, In d0 (d :: docs) /\
                               docsRepoExists w d0 = true /\
                               (e = MakeDocsDir d0 \/
                                exists f, e = CopyToDocs d0 f /\
                                          In f (Obs.listed w d0) /\
                                          copyToDocs w d0 f = Done tt))
                           (fst (syncAllDocs w docs))).
    { apply Forall_forall. intros e He. rewrite Forall_forall in IH3.
      destruct (IH3 e He) as [d0 [Hin Y]]. exists d0.
      split; [right; exact Hin|exact Y]. }
    destruct (docsRepoExists w d) eqn:Ex.
    + destruct (Obs.syncSucceeds w d) eqn:Ok.
      * rewrite (S2 eq_refl eq_refl) in *.
        rewrite (bind_value _ _ _ _ _ _ tt eq_refl).
        split; [|split].
        { intro H. rewrite IH1.
          - reflexivity.
          - intros d0 Hin. apply H. right. exact Hin. }
        { intros d0 [<-|Hin] He Hf; [congruence|].
          cbn [snd]. apply (IH2 d0 Hin He Hf). }
        { cbn [fst]. apply Forall_app. split; [|exact Hrest].
          apply (Hev _ _ eq_refl). }
      * destruct (S3 eq_refl eq_refl) as [t [msg E]]. rewrite E in *.
        rewrite (bind_thrown _ _ _ _ _ t (Exception msg) eq_refl).
        split; [|split].
        { intro H. specialize (H d (or_introl eq_refl) Ex). congruence. }
        { intros _ _ _ _. exists msg. reflexivity. }
        { cbn [fst]. apply (Hev _ _ eq_refl). }
    + rewrite (S1 eq_refl) in *.
      rewrite (bind_value _ _ _ _ _ _ tt eq_refl).
      split; [|split].
      { intro H. rewrite IH1.
        - reflexivity.
        - intros d0 Hin. apply H. right. exact Hin. }
      { intros d0 [<-|Hin] He Hf; [congruence|].
        cbn [snd]. apply (IH2 d0 Hin He Hf). }
      { cbn [fst app]. exact Hrest. }
Qed.

(** X25.  The token files are copied to the documentation repositories
    [matt-chi-documentation] and [chi-documentation], in this order, and only
    to those that exist beside the checkout.  When every step succeeds, the
    script makes the directory of each such repository and copies to it every
    file that [dist/tokens] lists, in the order of the listing.  When a step
    fails for a repository that exists, the script throws; a failure for the
    first repository leaves the second one untouched.  Whatever happens, a
    copy that was made is a copy of a listed file to a repository that
    exists. *)
Theorem docs_sync : forall (w : World),
  ((forall d, In d DOCS_REPOS -> docsRepoExists w d = true ->
              Obs.syncSucceeds w d = true) ->
   syncAllDocs w DOCS_REPOS = (Obs.syncEvents w DOCS_REPOS, inr tt)) /\
  (forall d, In d DOCS_REPOS -> docsRepoExists w d = true ->
             Obs.syncSucceeds w d = false ->
   exists msg, snd (syncAllDocs w DOCS_REPOS) = inl (Exception msg)) /\
  (docsRepoExists w (str "matt-chi-documentation") = true ->
   Obs.syncSucceeds w (str "matt-chi-documentation") = false ->
   Forall (fun e => Obs.docsOf e = Some (str "matt-chi-documentation"))
          (fst (syncAllDocs w DOCS_REPOS))) /\
  Forall (fun e => exists d, In d DOCS_REPOS /\ docsRepoExists w d = true /\
                   (e = MakeDocsDir d \/
                    exists f, e = CopyToDocs d f /\ In f (Obs.listed w d) /\
                              copyToDocs w d f = Done tt))
         (fst (syncAllDocs w DOCS_REPOS)).
Proof.
  intro w. destruct (syncAllDocs_run w DOCS_REPOS) as [R1 [R2 R3]].
  split; [exact R1|]. split; [exact R2|]. split; [|exact R3].
  intros Ex Hf. unfold DOCS_REPOS. cbn [syncAllDocs].
  destruct (syncDocs_run w (str "matt-chi-documentation")) as [_ [_ [S3 S4]]].
  destruct (S3 Ex Hf) as [t [msg E]]. rewrite E in *.
  rewrite (bind_thrown _ _ _ _ _ t (Exception msg) eq_refl).
  cbn [fst] in *. apply Forall_forall. intros e He.
  rewrite Forall_forall in S4. destruct (S4 e He) as [_ [->|[f [-> _]]]];
    reflexivity.
Qed.

(** ** The theme build runner *)

Lemma deleteCssFile_run : forall (w : Build.World) (theme : jsstring),
  Build.isAllowed theme = true ->
  Build.deleteCssFile w theme = (Obs.deleteEvents w theme, inr tt).
Proof.
  intros w theme A. unfold Build.deleteCssFile, Obs.deleteEvents.
  rewrite A. cbn [negb]. cbv zeta.
  destruct (Build.existsSync w (Build.distPath w (Build.cssFileName theme)));
    [|reflexivity].
  destruct (Build.isWindows w);
    destruct (Build.deleteFails w (Build.distPath w (Build.cssFileName theme)));
    reflexivity.
Qed.

Lemma deleteEvents_messages : forall w theme,
  Obs.startMessages (Obs.deleteEvents w theme) = [] /\
  Obs.succeedMessages (Obs.deleteEvents w theme) = [] /\
  Obs.failMessages (Obs.deleteEvents w theme) = [] /\
  Obs.commands (Obs.deleteEvents w theme) = Obs.deleteCommand w theme.
Proof.
  intros w theme. unfold Obs.deleteEvents, Obs.deleteCommand. cbv zeta.
  destruct (Build.existsSync w (Build.distPath w (Build.cssFileName theme)));
    [|repeat split; reflexivity].
  destruct (Build.isWindows w);
    destruct (Build.deleteFails w (Build.distPath w (Build.cssFileName theme)));
    repeat split; reflexivity.
Qed.

(** One theme, allowed. *)
Lemma buildTheme_allowed : forall (w : Build.World) (theme : jsstring),
  Build.isAllowed theme = true ->
  Build.buildTheme w theme =
  (Build.SpinnerStart (str "[CHI]: Building " ++ theme ++
                       str " theme (no file mutations)") ::
   Obs.deleteEvents w theme ++
   [ Build.ExecFile (fst (Obs.compileCommand theme)) (snd (Obs.compileCommand theme));
     match Build.viteFails w theme with
     | None => Build.SpinnerSucceed (str "[CHI]: Build for " ++ theme ++
                                     str " theme completed successfully")
     | Some msg => Build.SpinnerFail (str "[CHI]: Error during build for " ++
                                      theme ++ str " theme: " ++ msg)
     end ],
   match Build.viteFails w theme with
   | None => inr tt
   | Some msg => inl (Exception msg)
   end).
Proof.
  intros w theme A. unfold Build.buildTheme.
  rewrite (deleteCssFile_run w theme A).
  generalize (Obs.deleteEvents w theme). intro d.
  unfold Build.execFileSync, Obs.compileCommand. cbn [fst snd].
  destruct (Build.viteFails w theme) as [msg|];
    cbv beta iota zeta delta [bind emit throw tryCatch ret];
    cbn [app]; rewrite ?app_nil_r, <- ?app_assoc; reflexivity.
Qed.

Lemma builds_allowed : forall w theme,
  Obs.builds w theme = true ->
  Build.isAllowed theme = true /\ Build.viteFails w theme = None.
Proof.
  intros w theme H. unfold Obs.builds in H. apply andb_true_iff in H.
  destruct H as [A V]. split; [exact A|].
  destruct (Build.viteFails w theme); [discriminate V|reflexivity].
Qed.

Lemma messages_app : forall a b,
  Obs.startMessages (a ++ b) = Obs.startMessages a ++ Obs.startMessages b /\
  Obs.succeedMessages (a ++ b) = Obs.succeedMessages a ++ Obs.succeedMessages b /\
  Obs.failMessages (a ++ b) = Obs.failMessages a ++ Obs.failMessages b /\
  Obs.commands (a ++ b) = Obs.commands a ++ Obs.commands b.
Proof.
  intros a b. unfold Obs.startMessages, Obs.succeedMessages, Obs.failMessages,
    Obs.commands. rewrite !flat_map_app. repeat split.
Qed.

(** One theme: its messages, its commands and its outcome. *)
Lemma buildTheme_summary : forall (w : Build.World) (theme : jsstring),
  let t := fst (Build.buildTheme w theme) in
  Obs.startMessages t =
    [str "[CHI]: Building " ++ theme ++ str " theme (no file mutations)"] /\
  Obs.succeedMessages t =
    (if Obs.builds w theme
     then [str "[CHI]: Build for " ++ theme ++ str " theme completed successfully"]
     else []) /\
  List.length (Obs.failMessages t) = (if Obs.builds w theme then 0 else 1) /\
  Obs.commands t =
    (if Build.isAllowed theme
     then Obs.deleteCommand w theme ++ [Obs.compileCommand theme] else []) /\
  (if Obs.builds w theme then snd (Build.buildTheme w theme) = inr tt
   else exists msg, snd (Build.buildTheme w theme) = inl (Exception msg)).
Proof.
  intros w theme t. unfold t, Obs.builds.
  destruct (Build.isAllowed theme) eqn:A.
  - rewrite (buildTheme_allowed w theme A). cbn [fst snd andb].
    destruct (deleteEvents_messages w theme) as [D1 [D2 [D3 D4]]].
    change (?x :: Obs.deleteEvents w theme ++ ?y)
      with ([x] ++ Obs.deleteEvents w theme ++ y).
    destruct (messages_app
                [Build.SpinnerStart (str "[CHI]: Building " ++ theme ++
                                     str " theme (no file mutations)")]
                (Obs.deleteEvents w theme ++
                 [Build.ExecFile (fst (Obs.compileCommand theme))
                    (snd (Obs.compileCommand theme));
                  match Build.viteFails w theme with
                  | None => Build.SpinnerSucceed
                              (str "[CHI]: Build for " ++ theme ++
                               str " theme completed successfully")
                  | Some msg => Build.SpinnerFail
                                  (str "[CHI]: Error during build for " ++
                                   theme ++ str " theme: " ++ msg)
                  end])) as [M1 [M2 [M3 M4]]].
    rewrite M1, M2, M3, M4. clear M1 M2 M3 M4.
    match goal with
    | |- context [Obs.deleteEvents w theme ++ ?y] =>
        destruct (messages_app (Obs.deleteEvents w theme) y) as [M1 [M2 [M3 M4]]]
    end.
    rewrite M1, M2, M3, M4, D1, D2, D3, D4.
    destruct (Build.viteFails w theme) as [msg|]; cbn;
      repeat split; try reflexivity. exists msg. reflexivity.
  - rewrite (buildTheme_invalid w theme A). cbn. repeat split.
    eexists. reflexivity.
Qed.

Lemma bind_fst_inr : forall (E A B : Type) (m : Run E A) (f : A -> Run E B) a,
  snd m = inr a -> fst (bind m f) = fst m ++ fst (f a) /\
                   snd (bind m f) = snd (f a).
Proof.
  intros E A B [t r] f a H. simpl in H. subst r. unfold bind.
  destruct (f a); split; reflexivity.
Qed.

Lemma bind_fst_inl : forall (E A B : Type) (m : Run E A) (f : A -> Run E B) e,
  snd m = inl e -> fst (bind m f) = fst m /\ snd (bind m f) = inl e.
Proof.
  intros E A B [t r] f e H. simpl in H. subst r. split; reflexivity.
Qed.

Lemma buildAllThemes_summary : forall (w : Build.World) (themes : list jsstring),
  let t := fst (Build.buildAllThemes w themes) in
  Obs.startMessages t =
    List.map (fun theme => str "[CHI]: Building " ++ theme ++
                           str " theme (no file mutations)")
             (Obs.attempted w themes) /\
  Obs.succeedMessages t =
    List.map (fun theme => str "[CHI]: Build for " ++ theme ++
                           str " theme completed successfully")
             (Obs.built w themes) /\
  List.length (Obs.failMessages t) =
    (if forallb (Obs.builds w) themes then 0 else 1) /\
  Obs.commands t =
    flat_map (fun theme =>
                if Build.isAllowed theme
                then Obs.deleteCommand w theme ++ [Obs.compileCommand theme]
                else [])
             (Obs.attempted w themes) /\
  (if forallb (Obs.builds w) themes
   then snd (Build.buildAllThemes w themes) = inr tt
   else exists msg, snd (Build.buildAllThemes w themes) = inl (Exception msg)).
Proof.
  intros w themes. induction themes as [|theme rest IH].
  - cbn. repeat split.
  - cbv zeta in IH |- *. destruct IH as [I1 [I2 [I3 [I4 I5]]]].
    destruct (buildTheme_summary w theme) as [S1 [S2 [S3 [S4 S5]]]].
    cbv zeta in S1, S2, S3, S4.
    change (Build.buildAllThemes w (theme :: rest))
      with (bind (Build.buildTheme w theme)
                 (fun _ => Build.buildAllThemes w rest)).
    cbn [forallb Obs.attempted Obs.built flat_map List.map].
    destruct (Obs.builds w theme) eqn:B.
    + destruct (bind_fst_inr _ _ _ (Build.buildTheme w theme)
                  (fun _ => Build.buildAllThemes w rest) tt S5) as [F1 F2].
      rewrite F1, F2. cbn [andb].
      destruct (messages_app (fst (Build.buildTheme w theme))
                  (fst (Build.buildAllThemes w rest))) as [M1 [M2 [M3 M4]]].
      rewrite M1, M2, M3, M4, S1, S2, S4, I1, I2, I4.
      rewrite length_app, S3, I3.
      repeat split; try reflexivity. exact I5.
    + destruct S5 as [msg S5].
      destruct (bind_fst_inl _ _ _ (Build.buildTheme w theme)
                  (fun _ => Build.buildAllThemes w rest) _ S5) as [F1 F2].
      rewrite F1, F2, S1, S2, S3, S4. cbn [andb flat_map].
      rewrite app_nil_r.
      repeat split; try reflexivity. exists msg. reflexivity.
Qed.

(** X16.  A run of the build script starts the themes in their order up to
    and including the first theme that does not build (one that is not
    allowed, or whose compile step fails) and reports success for the themes
    before it; it reports at most one failure.  It ends with exit code 0
    when every theme builds, with exit code 1 otherwise; a failed removal of
    the old stylesheet changes nothing to that. *)
Theorem build_run_stops_at_first_failure :
  forall (w : Build.World) (env : option jsstring),
  let themes := Build.themes env in
  let t := fst (Build.runScript w env) in
  Obs.startMessages t =
    List.map (fun theme => str "[CHI]: Building " ++ theme ++
                           str " theme (no file mutations)")
             (Obs.attempted w themes) /\
  Obs.succeedMessages t =
    List.map (fun theme => str "[CHI]: Build for " ++ theme ++
                           str " theme completed successfully")
             (Obs.built w themes) /\
  List.length (Obs.failMessages t) =
    (if forallb (Obs.builds w) themes then 0 else 1) /\
  snd (Build.runScript w env) =
    (if forallb (Obs.builds w) themes then 0%Z else 1%Z).
Proof.
  intros w env themes t.
  destruct (buildAllThemes_summary w themes) as [S1 [S2 [S3 [_ S5]]]].
  cbv zeta in S1, S2, S3.
  assert (Ht : t = fst (Build.buildAllThemes w themes)).
  { unfold t, Build.runScript. fold themes.
    destruct (Build.buildAllThemes w themes) as [tr [[m|c]|u]]; reflexivity. }
  rewrite Ht. split; [exact S1|]. split; [exact S2|]. split; [exact S3|].
  unfold Build.runScript. fold themes.
  destruct (forallb (Obs.builds w) themes).
  - destruct (Build.buildAllThemes w themes) as [tr r]. simpl in S5.
    subst r. reflexivity.
  - destruct S5 as [msg S5].
    destruct (Build.buildAllThemes w themes) as [tr r]. simpl in S5.
    subst r. reflexivity.
Qed.


(** ** The popover: the throttle *)

(** X18.  Within [delayBetweenInteractions] milliseconds of the last action
    that was let through, an unforced [show], [hide] or [toggle] does nothing
    at all: the instance is left as it is and no event is dispatched.  A
    forced [show] of a hidden popover, or a forced [hide] of a shown one, acts
    in that window: [_shown] changes, the two events are dispatched, and the
    page is updated or the animation started; the time of the last action is
    not moved. *)
Theorem popover_throttle : forall (p : Popover) (last now : Z),
  lastActioned p = Some last -> last <> 0%Z ->
  (now - last <= delayBetweenInteractions p)%Z ->
  show p false now = p /\
  hide p false now = p /\
  toggle p now = p /\
  lastActioned (show p true now) = Some last /\
  lastActioned (hide p true now) = Some last /\
  (_shown p = false ->
   show p true now =
     mkPopover true (Some last) (animate p) (delayBetweenInteractions p)
       (dom p ++ [Dispatch SHOW_DEPRECATED; Dispatch SHOW] ++
        (if animate p then [AddClass TRANSITIONING; StartShowAnimation]
         else [AddClass ACTIVE; SetAriaHidden false]))) /\
  (_shown p = true ->
   hide p true now =
     mkPopover false (Some last) (animate p) (delayBetweenInteractions p)
       (dom p ++ [Dispatch HIDE_DEPRECATED; Dispatch HIDE] ++
        (if animate p then [StartHideAnimation]
         else [RemoveClass ACTIVE; SetAriaHidden true]))).
Proof.
  intros p last now Hl H0 Hd.
  assert (A : allowConsecutiveActions p now = (false, p)).
  { unfold allowConsecutiveActions. rewrite Hl.
    apply Z.eqb_neq in H0. rewrite H0.
    assert (L : (delayBetweenInteractions p <? now - last)%Z = false)
      by (apply Z.ltb_ge; exact Hd).
    rewrite L. reflexivity. }
  assert (Hs : show p false now = p).
  { unfold show. destruct (_shown p); [reflexivity|]. rewrite A. reflexivity. }
  assert (Hh : hide p false now = p).
  { unfold hide. destruct (_shown p); [|reflexivity]. rewrite A. reflexivity. }
  split; [exact Hs|]. split; [exact Hh|]. split.
  { unfold toggle. destruct (_shown p); assumption. }
  split.
  { unfold show. destruct (_shown p); [exact Hl|]. rewrite A.
    cbn [negb andb]. destruct p as [s l a d o]. simpl in Hl |- *.
    destruct a; exact Hl. }
  split.
  { unfold hide. destruct (_shown p); [|exact Hl]. rewrite A.
    cbn [negb andb]. destruct p as [s l a d o]. simpl in Hl |- *.
    destruct a; exact Hl. }
  split.
  - intro Sh. unfold show. rewrite Sh, A. cbn [negb andb].
    destruct p as [s l a d o]. simpl in Hl |- *. subst l.
    destruct a; unfold doAll; simpl; rewrite <- app_assoc; reflexivity.
  - intro Sh. unfold hide. rewrite Sh, A. cbn [negb andb].
    destruct p as [s l a d o]. simpl in Hl |- *. subst l.
    destruct a; unfold doAll; simpl; rewrite <- app_assoc; reflexivity.
Qed.

Lemma popover_throttle_witness :
  lastActioned (show (create false 50) false 1000) = Some 1000%Z /\
  toggle (show (create false 50) false 1000) 1030 =
    show (create false 50) false 1000 /\
  _shown (hide (show (create false 50) false 1000) true 1030) = false /\
  lastActioned (hide (show (create false 50) false 1000) true 1030) =
    Some 1000%Z /\
  _shown (toggle (show (create false 50) false 1000) 1051) = false.
Proof.
  assert (Hl : lastActioned (show (create false 50) false 1000) = Some 1000%Z)
    by reflexivity.
  assert (H0 : 1000%Z <> 0%Z) by discriminate.
  assert (Hd : (1030 - 1000 <=
                delayBetweenInteractions (show (create false 50) false 1000))%Z)
    by (vm_compute; discriminate).
  destruct (popover_throttle (show (create false 50) false 1000) 1000 1030
              Hl H0 Hd) as [_ [_ [T [_ [L [_ Hforced]]]]]].
  split; [exact Hl|]. split; [exact T|]. split.
  - rewrite (Hforced eq_refl). reflexivity.
  - split; [exact L|reflexivity].
Defined.

(** ** The popover over a sequence of calls *)

Lemma isActive_app : forall initial a b,
  Obs.isActive initial (a ++ b) =
  fold_left (fun b op =>
               match op with
               | AddClass ACTIVE => true
               | RemoveClass ACTIVE => false
               | _ => b
               end) b (Obs.isActive initial a).
Proof. intros initial a b. unfold Obs.isActive. apply fold_left_app. Qed.

Lemma ariaHidden_app : forall a b,
  Obs.ariaHidden (a ++ b) =
  fold_left (fun b op =>
               match op with
               | SetAriaHidden h => h
               | _ => b
               end) b (Obs.ariaHidden a).
Proof. intros a b. unfold Obs.ariaHidden. apply fold_left_app. Qed.

(** What the calls keep: the configuration, the attribute in step with
    [_shown], and the class in step with it from the first change on. *)
Lemma call_mirror : forall (initial : bool) (p : Popover) (c : Obs.Call),
  animate p = false ->
  Obs.isActive initial (dom p) =
    match dom p with [] => initial | _ :: _ => _shown p end ->
  Obs.ariaHidden (dom p) = negb (_shown p) ->
  (dom p = [] -> _shown p = false) ->
  animate (Obs.call p c) = false /\
  Obs.isActive initial (dom (Obs.call p c)) =
    match dom (Obs.call p c) with
    | [] => initial
    | _ :: _ => _shown (Obs.call p c)
    end /\
  Obs.ariaHidden (dom (Obs.call p c)) = negb (_shown (Obs.call p c)) /\
  (dom (Obs.call p c) = [] -> _shown (Obs.call p c) = false).
Proof.
  intros initial p c Ha H1 H2 H3.
  assert (Hshow : forall force now,
            animate (show p force now) = false /\
            Obs.isActive initial (dom (show p force now)) =
              match dom (show p force now) with
              | [] => initial
              | _ :: _ => _shown (show p force now)
              end /\
            Obs.ariaHidden (dom (show p force now)) =
              negb (_shown (show p force now)) /\
            (dom (show p force now) = [] -> _shown (show p force now) = false)).
  { intros force now. unfold show. destruct (_shown p) eqn:Sh.
    - rewrite Sh. repeat split; assumption.
    - unfold allowConsecutiveActions.
      destruct p as [s l a d o]. simpl in *. subst a s.
      destruct l as [last|];
        [destruct (Z.eqb last 0); [|destruct (Z.ltb d (now - last))]|];
        destruct force; cbn [negb andb fst snd setShown setLastActioned doAll
                             animate _shown dom lastActioned
                             delayBetweenInteractions];
        try (repeat split; assumption);
        rewrite <- ?app_assoc, ?isActive_app, ?ariaHidden_app;
        (split; [reflexivity|]); (split; [|split]);
        try reflexivity;
        try (destruct o; reflexivity);
        try (destruct o; discriminate). }
  assert (Hh : forall force now,
            animate (hide p force now) = false /\
            Obs.isActive initial (dom (hide p force now)) =
              match dom (hide p force now) with
              | [] => initial
              | _ :: _ => _shown (hide p force now)
              end /\
            Obs.ariaHidden (dom (hide p force now)) =
              negb (_shown (hide p force now)) /\
            (dom (hide p force now) = [] -> _shown (hide p force now) = false)).
  { intros force now. unfold hide. destruct (_shown p) eqn:Sh.
    - unfold allowConsecutiveActions.
      destruct p as [s l a d o]. simpl in *. subst a s.
      destruct l as [last|];
        [destruct (Z.eqb last 0); [|destruct (Z.ltb d (now - last))]|];
        destruct force; cbn [negb andb fst snd setShown setLastActioned doAll
                             animate _shown dom lastActioned
                             delayBetweenInteractions];
        try (repeat split; assumption);
        rewrite <- ?app_assoc, ?isActive_app, ?ariaHidden_app;
        (split; [reflexivity|]); (split; [|split]);
        try reflexivity;
        try (destruct o; reflexivity);
        try (destruct o; discriminate).
    - cbn [negb]. rewrite Sh. repeat split; assumption. }
  destruct c as [force now|force now|now]; cbn [Obs.call].
  - apply Hshow.
  - apply Hh.
  - unfold toggle. destruct (_shown p); [apply Hh|apply Hshow].
Qed.

(** X19.  For a popover made without animation, after any sequence of calls
    of [show], [hide] and [toggle] (forced or not, at any times): the
    [aria-hidden] attribute of the popover element is ['false'] exactly when
    [_shown] is true; the element carries the class [ACTIVE] exactly when
    [_shown] is true as soon as one call has changed the state, and until
    then it carries the class exactly when it did after the constructor
    (which never removes it from an element it is given).  So the class
    mirrors [_shown] throughout for an element that starts without it, and
    an element that starts with it is active while [_shown] is false until
    the first [show]. *)
Theorem popover_page_mirrors_shown :
  forall (initial : bool) (delay : Z) (cs : list Obs.Call),
  let p := Obs.calls (create false delay) cs in
  Obs.ariaHidden (dom p) = negb (_shown p) /\
  Obs.isActive initial (dom p) =
    match dom p with [] => initial | _ :: _ => _shown p end /\
  (dom p = [] -> _shown p = false) /\
  (initial = false -> Obs.isActive initial (dom p) = _shown p).
Proof.
  intros initial delay cs.
  assert (G : forall cs p,
            animate p = false ->
            Obs.isActive initial (dom p) =
              match dom p with [] => initial | _ :: _ => _shown p end ->
            Obs.ariaHidden (dom p) = negb (_shown p) ->
            (dom p = [] -> _shown p = false) ->
            Obs.isActive initial (dom (Obs.calls p cs)) =
              match dom (Obs.calls p cs) with
              | [] => initial
              | _ :: _ => _shown (Obs.calls p cs)
              end /\
            Obs.ariaHidden (dom (Obs.calls p cs)) =
              negb (_shown (Obs.calls p cs)) /\
            (dom (Obs.calls p cs) = [] -> _shown (Obs.calls p cs) = false)).
  { induction cs0 as [|c cs0 IH]; intros p Ha H1 H2 H3.
    - repeat split; assumption.
    - destruct (call_mirror initial p c Ha H1 H2 H3) as [Ha' [H1' [H2' H3']]].
      apply (IH (Obs.call p c) Ha' H1' H2' H3'). }
  intro p.
  destruct (G cs (create false delay) eq_refl eq_refl eq_refl (fun _ => eq_refl))
    as [H1 [H2 H3]].
  fold p in H1, H2, H3.
  split; [exact H2|]. split; [exact H1|]. split; [exact H3|].
  intro Hi. rewrite H1. destruct (dom p) eqn:D; [|reflexivity].
  rewrite (H3 eq_refl). exact Hi.
Qed.

Lemma dispatched_app : forall a b,
  Obs.dispatched (a ++ b) = Obs.dispatched a ++ Obs.dispatched b.
Proof. intros a b. unfold Obs.dispatched. apply flat_map_app. Qed.

Lemma showHideEvents_snoc : forall n first,
  Obs.showHideEvents (S n) first =
  Obs.showHideEvents n first ++
  (if Bool.eqb first (Nat.even n)
   then [SHOW_DEPRECATED; SHOW] else [HIDE_DEPRECATED; HIDE]).
Proof.
  induction n as [|n IH]; intro first.
  - destruct first; reflexivity.
  - change (Obs.showHideEvents (S (S n)) first)
      with ((if first then [SHOW_DEPRECATED; SHOW]
             else [HIDE_DEPRECATED; HIDE]) ++
            Obs.showHideEvents (S n) (negb first)).
    rewrite IH.
    change (Obs.showHideEvents (S n) first)
      with ((if first then [SHOW_DEPRECATED; SHOW]
             else [HIDE_DEPRECATED; HIDE]) ++
            Obs.showHideEvents n (negb first)).
    rewrite <- app_assoc. f_equal. f_equal.
    rewrite Nat.even_succ, <- Nat.negb_even.
    destruct first; destruct (Nat.even n); reflexivity.
Qed.

Lemma call_events : forall (p : Popover) (c : Obs.Call) (n : nat),
  Obs.dispatched (dom p) = Obs.showHideEvents n true ->
  _shown p = Nat.odd n ->
  exists n',
    Obs.dispatched (dom (Obs.call p c)) = Obs.showHideEvents n' true /\
    _shown (Obs.call p c) = Nat.odd n'.
Proof.
  intros p c n Hd Hs.
  assert (Same : exists n', Obs.dispatched (dom p) = Obs.showHideEvents n' true /\
                            _shown p = Nat.odd n')
    by (exists n; split; assumption).
  assert (Ev : Nat.even n = negb (_shown p))
    by (rewrite Hs, <- Nat.negb_odd; reflexivity).
  assert (Hshow : forall force now,
            exists n',
              Obs.dispatched (dom (show p force now)) = Obs.showHideEvents n' true /\
              _shown (show p force now) = Nat.odd n').
  { intros force now. unfold show. destruct (_shown p) eqn:Sh.
    - rewrite Sh. exact Same.
    - unfold allowConsecutiveActions.
      destruct p as [s l a d o]. simpl in *. subst s.
      assert (Next : Obs.dispatched (o ++ [Dispatch SHOW_DEPRECATED; Dispatch SHOW]) =
                     Obs.showHideEvents (S n) true).
      { rewrite dispatched_app, Hd, showHideEvents_snoc, Ev. reflexivity. }
      assert (Odd : Nat.odd (S n) = true).
      { rewrite Nat.odd_succ. rewrite Ev. reflexivity. }
      destruct l as [last|];
        [destruct (Z.eqb last 0); [|destruct (Z.ltb d (now - last))]|];
        destruct force; destruct a;
        cbn [negb andb fst snd setShown setLastActioned doAll
             animate _shown dom lastActioned delayBetweenInteractions];
        try (exists n; split; assumption);
        exists (S n); (split; [|symmetry; exact Odd]);
        rewrite <- Next; rewrite !dispatched_app; cbn;
        rewrite ?app_nil_r; reflexivity. }
  assert (Hh : forall force now,
            exists n',
              Obs.dispatched (dom (hide p force now)) = Obs.showHideEvents n' true /\
              _shown (hide p force now) = Nat.odd n').
  { intros force now. unfold hide. destruct (_shown p) eqn:Sh.
    - unfold allowConsecutiveActions.
      destruct p as [s l a d o]. simpl in *. subst s.
      assert (Next : Obs.dispatched (o ++ [Dispatch HIDE_DEPRECATED; Dispatch HIDE]) =
                     Obs.showHideEvents (S n) true).
      { rewrite dispatched_app, Hd, showHideEvents_snoc, Ev. reflexivity. }
      assert (Odd : Nat.odd (S n) = false).
      { rewrite Nat.odd_succ. rewrite Ev. reflexivity. }
      destruct l as [last|];
        [destruct (Z.eqb last 0); [|destruct (Z.ltb d (now - last))]|];
        destruct force; destruct a;
        cbn [negb andb fst snd setShown setLastActioned doAll
             animate _shown dom lastActioned delayBetweenInteractions];
        try (exists n; split; assumption);
        exists (S n); (split; [|symmetry; exact Odd]);
        rewrite <- Next; rewrite !dispatched_app; cbn;
        rewrite ?app_nil_r; reflexivity.
    - change (exists n', Obs.dispatched (dom p) = Obs.showHideEvents n' true /\
                         _shown p = Nat.odd n').
      rewrite Sh. exact Same. }
  destruct c as [force now|force now|now]; cbn [Obs.call].
  - apply Hshow.
  - apply Hh.
  - unfold toggle. destruct (_shown p); [apply Hh|apply Hshow].
Qed.

(** X20.  Whatever the calls of [show], [hide] and [toggle] made on a new
    popover, animated or not, the events dispatched on the trigger element
    come in pairs that alternate, starting with a show: [chi.popover.show]
    and [chiPopoverShow], then [chi.popover.hide] and [chiPopoverHide], and
    so on; the popover is shown exactly when the number of pairs is odd.  No
    call ever announces a show of a shown popover or a hide of a hidden one. *)
Theorem popover_events_alternate :
  forall (animated : bool) (delay : Z) (cs : list Obs.Call),
  let p := Obs.calls (create animated delay) cs in
  exists n,
    Obs.dispatched (dom p) = Obs.showHideEvents n true /\
    _shown p = Nat.odd n.
Proof.
  intros animated delay cs.
  assert (G : forall cs p n,
            Obs.dispatched (dom p) = Obs.showHideEvents n true ->
            _shown p = Nat.odd n ->
            exists n',
              Obs.dispatched (dom (Obs.calls p cs)) = Obs.showHideEvents n' true /\
              _shown (Obs.calls p cs) = Nat.odd n').
  { induction cs0 as [|c cs0 IH]; intros p n Hd Hs.
    - exists n. split; assumption.
    - destruct (call_events p c n Hd Hs) as [n' [Hd' Hs']].
      apply (IH (Obs.call p c) n' Hd' Hs'). }
  apply (G cs (create animated delay) 0); reflexivity.
Qed.

(** ** The click handlers *)

(** X21.  The handlers of [_initDefaultEventListeners] share the flag
    [_closeOnClickOnDocument].  When the document handler runs after the
    popover handler (a click inside the popover that reaches the document),
    the popover is left as it is; when it runs after the trigger handler,
    the outcome is that of [toggle] alone; in both cases the flag ends true.
    Run alone (a click elsewhere) it calls [hide] when the flag is true, and
    only sets the flag when it is not: a popover shown by [show()] before
    any click survives the first click elsewhere and is hidden by the
    second, when the throttle lets it through. *)
Theorem popover_click_handlers : forall (i : Clicks.Instance) (now : Z),
  let afterPopover :=
    Clicks._mouseClickOnDocument (Clicks._mouseClickOnPopover i) now in
  let afterTrigger :=
    Clicks._mouseClickOnDocument (Clicks._mouseClickEventHandler i now) now in
  let elsewhere := Clicks._mouseClickOnDocument i now in
  Clicks.popover afterPopover = Clicks.popover i /\
  Clicks._closeOnClickOnDocument afterPopover = true /\
  Clicks.popover afterTrigger = toggle (Clicks.popover i) now /\
  Clicks._closeOnClickOnDocument afterTrigger = true /\
  Clicks._closeOnClickOnDocument elsewhere = true /\
  (Clicks._closeOnClickOnDocument i = true ->
   Clicks.popover elsewhere = hide (Clicks.popover i) false now) /\
  (Clicks._closeOnClickOnDocument i = false ->
   Clicks.popover elsewhere = Clicks.popover i) /\
  (forall now2,
     Clicks._closeOnClickOnDocument i = false ->
     _shown (Clicks.popover i) = true ->
     fst (allowConsecutiveActions (Clicks.popover i) now2) = true ->
     _shown (Clicks.popover elsewhere) = true /\
     _shown (Clicks.popover (Clicks._mouseClickOnDocument elsewhere now2)) = false).
Proof.
  intros i now. destruct i as [p flag].
  unfold Clicks._mouseClickOnDocument, Clicks._mouseClickOnPopover,
    Clicks._mouseClickEventHandler.
  cbn [Clicks.popover Clicks._closeOnClickOnDocument].
  repeat split.
  - destruct flag; reflexivity.
  - intros ->. reflexivity.
  - intros ->. reflexivity.
  - subst flag. assumption.
  - subst flag. cbn [Clicks.popover Clicks._closeOnClickOnDocument].
    unfold hide.
    match goal with H : _shown p = true |- _ => rewrite H end. cbn [negb].
    destruct (allowConsecutiveActions p now2) as [allowed p'].
    match goal with H : fst (allowed, p') = true |- _ => simpl in H; subst allowed end.
    cbn [negb andb]. destruct p' as [s l a d o]. destruct a; reflexivity.
Qed.

(** ** The scan of the compiled CSS: what a match holds *)

Section BacktrackingFacts.

Variable R : Type.
Variable p : char -> bool.
Variable k : jsstring -> option R.

Lemma greedyStar_cons : forall c s,
  Resolve.greedyStar p k (c :: s) =
  if p c
  then match Resolve.greedyStar p k s with
       | Some r => Some r
       | None => k (c :: s)
       end
  else k (c :: s).
Proof. reflexivity. Qed.

Lemma lazyStar_eq : forall s,
  Resolve.lazyStar p k s =
  match k s with
  | Some r => Some r
  | None =>
      match s with
      | c :: s' => if p c then Resolve.lazyStar p k s' else None
      | [] => None
      end
  end.
Proof. intros [|c s]; reflexivity. Qed.

Lemma greedyStar_some : forall s r,
  Resolve.greedyStar p k s = Some r ->
  exists a b, s = a ++ b /\ forallb p a = true /\ k b = Some r.
Proof.
  induction s as [|c s IH]; intros r H.
  - exists [], []. repeat split. exact H.
  - rewrite greedyStar_cons in H. destruct (p c) eqn:E.
    + destruct (Resolve.greedyStar p k s) as [r'|] eqn:G.
      * injection H as <-. destruct (IH r' eq_refl) as [a [b [-> [Ha Hk]]]].
        exists (c :: a), b. simpl. rewrite E, Ha. repeat split. exact Hk.
      * exists [], (c :: s). repeat split. exact H.
    + exists [], (c :: s). repeat split. exact H.
Qed.

Lemma greedyStar_run : forall a b r,
  forallb p a = true ->
  (forall c b', b = c :: b' -> p c = false) ->
  k b = Some r ->
  Resolve.greedyStar p k (a ++ b) = Some r.
Proof.
  induction a as [|x a IH]; intros b r Ha Hb Hk.
  - simpl app. destruct b as [|c b']; [exact Hk|].
    rewrite greedyStar_cons, (Hb c b' eq_refl). exact Hk.
  - simpl in Ha. apply andb_true_iff in Ha. destruct Ha as [Hx Ha].
    simpl app. rewrite greedyStar_cons, Hx, (IH b r Ha Hb Hk). reflexivity.
Qed.

Lemma lazyStar_some : forall s r,
  Resolve.lazyStar p k s = Some r ->
  exists a b, s = a ++ b /\ forallb p a = true /\ k b = Some r /\
    forall a1 a2, a = a1 ++ a2 -> a2 <> [] -> k (a2 ++ b) = None.
Proof.
  induction s as [|c s IH]; intros r H; rewrite lazyStar_eq in H.
  - destruct (k []) as [r'|] eqn:K; [|discriminate H]. injection H as <-.
    exists [], []. repeat split; try exact K.
    intros a1 a2 E Hne. destruct a1; destruct a2; try discriminate. congruence.
  - destruct (k (c :: s)) as [r'|] eqn:K.
    + injection H as <-. exists [], (c :: s). repeat split; try exact K.
      intros a1 a2 E Hne. destruct a1; destruct a2; try discriminate. congruence.
    + destruct (p c) eqn:E; [|discriminate H].
      destruct (IH r H) as [a [b [-> [Ha [Hk Hmin]]]]].
      exists (c :: a), b. simpl. rewrite E, Ha. repeat split; try exact Hk.
      intros a1 a2 Hsplit Hne. destruct a1 as [|x a1].
      * simpl in Hsplit. subst a2. exact K.
      * injection Hsplit as _ Hsplit. apply (Hmin a1 a2 Hsplit Hne).
Qed.

Lemma lazyStar_run : forall a b r,
  forallb p a = true ->
  (forall a1 a2, a = a1 ++ a2 -> a2 <> [] -> k (a2 ++ b) = None) ->
  k b = Some r ->
  Resolve.lazyStar p k (a ++ b) = Some r.
Proof.
  induction a as [|x a IH]; intros b r Ha Hmin Hk.
  - simpl app. rewrite lazyStar_eq, Hk. reflexivity.
  - simpl in Ha. apply andb_true_iff in Ha. destruct Ha as [Hx Ha].
    rewrite lazyStar_eq.
    rewrite (Hmin [] (x :: a) eq_refl) by discriminate.
    cbn [app]. rewrite Hx. apply IH; [exact Ha| |exact Hk].
    intros a1 a2 E Hne. apply (Hmin (x :: a1) a2); [|exact Hne].
    simpl. rewrite E. reflexivity.
Qed.

End BacktrackingFacts.

Lemma captured_app : forall a b, Resolve.captured (a ++ b) b = a.
Proof.
  intros a b. unfold Resolve.captured. rewrite length_app, Nat.add_sub.
  rewrite firstn_app, Nat.sub_diag, firstn_all. simpl. apply app_nil_r.
Qed.

Lemma skipn_prefix : forall (a b : jsstring), skipn (List.length a) (a ++ b) = b.
Proof.
  intros a b. rewrite skipn_app, Nat.sub_diag, skipn_all. reflexivity.
Qed.

(** The last item of the pattern: the semicolon. *)
Lemma semicolon_item : forall (A : Type) (x : A) c s,
  match c :: s with
  | 59%N :: s9 => Some (x, s9)
  | _ => None
  end = if N.eqb c 59 then Some (x, s) else None.
Proof.
  intros A x c s. destruct c as [|q]; [reflexivity|].
  repeat (destruct q as [q|q|]; try reflexivity).
Qed.

Lemma colon_item : forall (A : Type) (f : jsstring -> option A) c s,
  match c :: s with
  | 58%N :: s5 => f s5
  | _ => None
  end = if N.eqb c 58 then f s else None.
Proof.
  intros A f c s. destruct c as [|q]; [reflexivity|].
  repeat (destruct q as [q|q|]; try reflexivity).
Qed.

Lemma noSemicolon_tail : forall g,
  (forall g1 c g2, g = g1 ++ c :: g2 -> g1 <> [] -> N.eqb c 59 = false) ->
  Obs.noSemicolon (tl g) = true.
Proof.
  intros [|x g] H; [reflexivity|]. simpl tl.
  assert (G : Obs.noSemicolon g = true \/
              exists g1 c g2, g = g1 ++ c :: g2 /\ N.eqb c 59 = true).
  { clear H. induction g as [|c g IH]; [left; reflexivity|].
    destruct (N.eqb c 59) eqn:E.
    - right. exists [], c, g. split; [reflexivity|exact E].
    - destruct IH as [IH|[g1 [d [g2 [-> Hd]]]]].
      + left. unfold Obs.noSemicolon. simpl. rewrite E. exact IH.
      + right. exists (c :: g1), d, g2. split; [reflexivity|exact Hd]. }
  destruct G as [G1|[g1 [c [g2 [-> Hc]]]]]; [exact G1|].
  rewrite (H (x :: g1) c g2 eq_refl) in Hc by discriminate. discriminate Hc.
Qed.

Lemma matchProp_some : forall s group1 group2 rest,
  Resolve.matchProp s = Some (group1, group2, rest) ->
  Obs.scanned (group1, group2) /\
  exists w nm w1 w2 w3,
    s = w ++ str "--chi-" ++ nm ++ w1 ++ [58%N] ++ w2 ++ group2 ++ w3 ++
        [59%N] ++ rest /\
    group1 = str "--chi-" ++ nm /\
    forallb isSpace w = true /\ forallb isSpace w1 = true /\
    forallb isSpace w2 = true /\ forallb isSpace w3 = true.
Proof.
  intros s group1 group2 rest H. unfold Resolve.matchProp in H.
  apply greedyStar_some in H. destruct H as [w [s1 [-> [Hw H]]]].
  destruct (startsWith s1 (str "--chi-")) eqn:P; [|discriminate H].
  apply startsWith_iff in P. destruct P as [t ->].
  change 6 with (List.length (str "--chi-")) in H. rewrite skipn_prefix in H.
  unfold Resolve.greedyPlus in H. destruct t as [|c t]; [discriminate H|].
  destruct (Resolve.isPropNameChar c) eqn:Pc; [|discriminate H].
  apply greedyStar_some in H. destruct H as [nm' [s3 [-> [Hnm H]]]].
  change (str "--chi-" ++ c :: nm' ++ s3)
    with (str "--chi-" ++ (c :: nm') ++ s3) in H.
  rewrite app_assoc, captured_app in H.
  apply greedyStar_some in H. destruct H as [w1 [s4 [-> [Hw1 H]]]].
  destruct s4 as [|c4 s5]; [discriminate H|].
  rewrite colon_item in H. destruct (N.eqb c4 58) eqn:C4; [|discriminate H].
  apply N.eqb_eq in C4. subst c4.
  apply greedyStar_some in H. destruct H as [w2 [s6 [-> [Hw2 H]]]].
  unfold Resolve.lazyPlus in H. destruct s6 as [|c6 s6]; [discriminate H|].
  destruct (isDot c6) eqn:D6; [|discriminate H].
  apply lazyStar_some in H. destruct H as [g' [s7 [-> [Hg [H Hmin]]]]].
  change (c6 :: g' ++ s7) with ((c6 :: g') ++ s7) in H.
  rewrite captured_app in H.
  apply greedyStar_some in H. destruct H as [w3 [s8 [Es7 [Hw3 H]]]].
  destruct s8 as [|c8 s9]; [discriminate H|].
  rewrite semicolon_item in H. destruct (N.eqb c8 59) eqn:C8; [|discriminate H].
  apply N.eqb_eq in C8. subst c8. injection H as <- <- <-.
  split.
  - unfold Obs.scanned. cbn [fst snd]. split.
    + exists (c :: nm'). split; [reflexivity|]. split; [discriminate|].
      simpl. rewrite Pc, Hnm. reflexivity.
    + split; [discriminate|]. split; [simpl; rewrite D6, Hg; reflexivity|].
      apply noSemicolon_tail. intros g1 x g2 E Hne.
      destruct g1 as [|y g1]; [congruence|]. injection E as _ E.
      destruct (N.eqb x 59) eqn:X; [|reflexivity]. exfalso.
      apply N.eqb_eq in X. subst x.
      assert (Hne2 : 59%N :: g2 <> []) by discriminate.
      specialize (Hmin g1 (59%N :: g2) E Hne2).
      cbn [app] in Hmin. rewrite greedyStar_cons in Hmin.
      change (isSpace 59%N) with false in Hmin. cbv beta iota in Hmin.
      discriminate Hmin.
  - exists w, (c :: nm'), w1, w2, w3. rewrite Es7.
    repeat split; assumption.
Qed.

Lemma scan_cons : forall prev skip c s,
  Resolve.scan prev skip (c :: s) =
  match skip with
  | S skip' => Resolve.scan (Some c) skip' s
  | O =>
      if match prev with
         | None => true
         | Some b => isLineTerminator b
         end
      then match Resolve.matchProp (c :: s) with
           | Some (group1, group2, rest) =>
               (group1, group2) ::
               Resolve.scan (Some c)
                 (List.length (c :: s) - List.length rest - 1) s
           | None => Resolve.scan (Some c) 0 s
           end
      else Resolve.scan (Some c) 0 s
  end.
Proof. intros prev [|skip] c s; reflexivity. Qed.

Lemma scan_scanned : forall s prev skip,
  Forall Obs.scanned (Resolve.scan prev skip s).
Proof.
  induction s as [|c s IH]; intros prev skip; [constructor|].
  rewrite scan_cons. destruct skip as [|skip]; [|apply IH].
  destruct (match prev with
            | None => true
            | Some b => isLineTerminator b
            end); [|apply IH].
  destruct (Resolve.matchProp (c :: s)) as [[[g1 g2] rest]|] eqn:M; [|apply IH].
  constructor; [|apply IH].
  apply (matchProp_some _ _ _ _ M).
Qed.

Lemma fill_get_in : forall (V : Type) (l : list (jsstring * V))
  (m : StringMap V) k v,
  mapGet (fold_left (fun m kv => mapSet m (fst kv) (snd kv)) l m) k = Some v ->
  In (k, v) l \/ mapGet m k = Some v.
Proof.
  intros V. induction l as [|[k' v'] l IH]; intros m k v H; [right; exact H|].
  simpl in H. apply IH in H. destruct H as [H|H]; [left; right; exact H|].
  cbn [fst snd] in H. destruct (JS.eqb k' k) eqn:E.
  - apply eqb_eq in E. subst k'. rewrite mapGet_mapSet_same in H.
    injection H as <-. left. left. reflexivity.
  - rewrite mapGet_mapSet_other in H by (apply eqb_neq; exact E).
    right. exact H.
Qed.

Lemma propName_prefix_inj : forall a b : jsstring,
  str "--chi-" ++ a = str "--chi-" ++ b -> a = b.
Proof. intros a b H. apply (app_inv_head _ _ _ H). Qed.

(** X22.  Every entry of the map [resolveTokenValues] builds from the compiled
    CSS has a key of the form [--chi-] followed by a non-empty name of the
    characters [a-z0-9-], and a value that is not empty, holds no line
    terminator and holds no semicolon after its first character.  So a token
    whose name has a character outside [a-z0-9-] (an upper-case letter or an
    underscore, which the SCSS parser accepts in names) is never given a
    resolved value, whatever the compiled CSS. *)
Theorem resolved_map_entries : forall css : jsstring,
  (forall k v, mapGet (Resolve.resolvedMap css) k = Some v ->
     (exists nm, k = str "--chi-" ++ nm /\ nm <> [] /\
                 forallb Resolve.isPropNameChar nm = true) /\
     v <> [] /\
     forallb isDot v = true /\
     forallb (fun c => negb (N.eqb c 59)) (tl v) = true) /\
  (forall name,
     forallb Resolve.isPropNameChar name = false ->
     mapGet (Resolve.resolvedMap css) (toCssCustomProp name) = None).
Proof.
  intro css.
  assert (G : forall k v, mapGet (Resolve.resolvedMap css) k = Some v ->
                          Obs.scanned (k, v)).
  { intros k v H. unfold Resolve.resolvedMap in H.
    apply fill_get_in in H. destruct H as [H|H]; [|discriminate H].
    pose proof (scan_scanned css None 0) as F. rewrite Forall_forall in F.
    apply (F (k, v)). exact H. }
  split.
  - intros k v H. apply (G k v H).
  - intros name Hn.
    destruct (mapGet (Resolve.resolvedMap css) (toCssCustomProp name))
      as [v|] eqn:E; [|reflexivity].
    exfalso. destruct (G _ _ E) as [[nm [Hk [_ Hnm]]] _].
    cbn [fst] in Hk. apply propName_prefix_inj in Hk. subst nm.
    congruence.
Qed.

(** ** The scan of the compiled CSS: a block of declarations *)

Lemma scan_skip : forall (a : jsstring) prev s,
  a <> [] ->
  Resolve.scan prev (List.length a) (a ++ s) =
  Resolve.scan (Some (last a 0%N)) 0 s.
Proof.
  induction a as [|c a IH]; intros prev s Hne; [congruence|].
  simpl app. simpl List.length. rewrite scan_cons.
  destruct a as [|d a]; [reflexivity|].
  rewrite IH by discriminate. reflexivity.
Qed.

Lemma last_default : forall (a : jsstring) x y, a <> [] -> last a x = last a y.
Proof.
  induction a as [|c a IH]; intros x y H; [congruence|].
  destruct a as [|d a]; [reflexivity|].
  change (last (d :: a) x = last (d :: a) y). apply IH. discriminate.
Qed.

Lemma scan_past : forall a b s,
  isLineTerminator b = false ->
  forallb (fun c => negb (isLineTerminator c)) a = true ->
  Resolve.scan (Some b) 0 (a ++ s) = Resolve.scan (Some (last a b)) 0 s.
Proof.
  induction a as [|c a IH]; intros b s Hb Ha; [reflexivity|].
  simpl in Ha. apply andb_true_iff in Ha. destruct Ha as [Hc Ha].
  apply negb_true_iff in Hc.
  simpl app. rewrite scan_cons, Hb. rewrite (IH c s Hc Ha).
  destruct a as [|d a]; [reflexivity|].
  change (last (c :: d :: a) b) with (last (d :: a) b).
  rewrite (last_default (d :: a) c b) by discriminate. reflexivity.
Qed.

(** The last item fails on a text that does not start with a semicolon. *)
Lemma spaces_semicolon_none : forall (A : Type) (x : A) (a z : jsstring),
  a <> [] -> isSpace (last a 0%N) = false -> Obs.noSemicolon a = true ->
  Resolve.greedyStar isSpace
    (fun s8 => match s8 with
               | 59%N :: s9 => Some (x, s9)
               | _ => None
               end) (a ++ z) = None.
Proof.
  intros A x. induction a as [|c a IH]; intros z Hne Hl Hs; [congruence|].
  unfold Obs.noSemicolon in Hs. simpl in Hs.
  apply andb_true_iff in Hs. destruct Hs as [Hc Hs].
  apply negb_true_iff in Hc.
  simpl app. rewrite greedyStar_cons, semicolon_item, Hc.
  destruct a as [|d a].
  - simpl in Hl. rewrite Hl. reflexivity.
  - rewrite (IH z) by (try discriminate; assumption).
    destruct (isSpace c); reflexivity.
Qed.

Lemma last_suffix : forall (a1 a2 : jsstring) x,
  a2 <> [] -> last (a1 ++ a2) x = last a2 x.
Proof.
  induction a1 as [|c a1 IH]; intros a2 x H; [reflexivity|].
  simpl app. destruct (a1 ++ a2) eqn:E.
  - destruct a1; destruct a2; try discriminate. congruence.
  - rewrite <- E. change (last (c :: a1 ++ a2) x) with (last (c :: a1 ++ a2) x).
    transitivity (last (a1 ++ a2) x); [|apply IH; exact H].
    rewrite E. reflexivity.
Qed.

Lemma matchProp_propLine : forall n v rest,
  Obs.plainName n = true -> Obs.plainValue v = true ->
  Resolve.matchProp (Obs.propLine (n, v) ++ rest) =
  Some (str "--chi-" ++ n, v, rest).
Proof.
  intros n v rest Hn Hv.
  destruct n as [|c n']; [discriminate Hn|].
  unfold Obs.plainName in Hn. simpl in Hn.
  apply andb_true_iff in Hn. destruct Hn as [Pc Hn'].
  destruct v as [|d v']; [discriminate Hv|].
  unfold Obs.plainValue in Hv.
  apply andb_true_iff in Hv. destruct Hv as [Hv Hsemi].
  apply andb_true_iff in Hv. destruct Hv as [Hv Hdots].
  apply andb_true_iff in Hv. destruct Hv as [Hfirst Hlast].
  apply negb_true_iff in Hfirst. apply negb_true_iff in Hlast.
  simpl in Hdots. apply andb_true_iff in Hdots. destruct Hdots as [Dd Hdots].
  set (Y := 59%N :: rest).
  set (X := 58%N :: 32%N :: (d :: v') ++ Y).
  unfold Obs.propLine. cbn [fst snd]. rewrite <- !app_assoc.
  change (Resolve.matchProp ([32%N; 32%N] ++ (str "--chi-" ++ (c :: n') ++ X)) =
          Some (str "--chi-" ++ c :: n', d :: v', rest)).
  unfold Resolve.matchProp.
  apply greedyStar_run; [reflexivity|intros x b' E; injection E as <- _; reflexivity|].
  cbv beta. rewrite startsWith_app.
  change 6 with (List.length (str "--chi-")). rewrite skipn_prefix.
  unfold Resolve.greedyPlus. cbn [app]. rewrite Pc.
  apply greedyStar_run;
    [exact Hn'|intros x b' E; unfold X in E; injection E as <- _; reflexivity|].
  cbv beta zeta.
  change (str "--chi-" ++ c :: n' ++ X) with (str "--chi-" ++ (c :: n') ++ X).
  rewrite app_assoc, captured_app.
  unfold X at 1. rewrite greedyStar_cons. change (isSpace 58%N) with false.
  cbv beta iota.
  change (32%N :: (d :: v') ++ Y) with ([32%N] ++ ((d :: v') ++ Y)).
  apply greedyStar_run;
    [reflexivity|intros x b' E; injection E as <- _; exact Hfirst|].
  cbv beta. unfold Resolve.lazyPlus. cbn [app]. rewrite Dd.
  apply lazyStar_run; [exact Hdots| |].
  - intros a1 a2 E Hne. apply spaces_semicolon_none; [exact Hne| |].
    + rewrite (last_default a2 0%N d Hne).
      rewrite <- (last_suffix (d :: a1) a2 d Hne).
      change ((d :: a1) ++ a2) with (d :: a1 ++ a2). rewrite <- E. exact Hlast.
    + unfold Obs.noSemicolon in Hsemi |- *. rewrite E in Hsemi.
      change (d :: a1 ++ a2) with ((d :: a1) ++ a2) in Hsemi.
      rewrite forallb_app in Hsemi. apply andb_true_iff in Hsemi. apply Hsemi.
  - unfold Y. rewrite greedyStar_cons. change (isSpace 59%N) with false.
    cbv beta iota.
    change (d :: v' ++ 59%N :: rest) with ((d :: v') ++ 59%N :: rest).
    rewrite captured_app. reflexivity.
Qed.

Lemma propLine_last : forall d, exists a, Obs.propLine d = a ++ [59%N].
Proof.
  intros [n v]. unfold Obs.propLine. cbn [fst snd].
  exists (str "  --chi-" ++ n ++ str ": " ++ v).
  rewrite <- !app_assoc. reflexivity.
Qed.

Lemma propLine_cons : forall d, exists a, Obs.propLine d = 32%N :: a.
Proof. intros [n v]. eexists. reflexivity. Qed.

(** One line of the block, met at a line start. *)
Lemma scan_propLine : forall b n v rest,
  isLineTerminator b = true ->
  Obs.plainName n = true -> Obs.plainValue v = true ->
  Resolve.scan (Some b) 0 (Obs.propLine (n, v) ++ 10%N :: rest) =
  (str "--chi-" ++ n, v) :: Resolve.scan (Some 10%N) 0 rest.
Proof.
  intros b n v rest Hb Hn Hv.
  pose proof (matchProp_propLine n v (10%N :: rest) Hn Hv) as M.
  destruct (propLine_cons (n, v)) as [a Ea].
  destruct (propLine_last (n, v)) as [a' Ea'].
  rewrite Ea in M |- *. cbn [app] in M |- *.
  rewrite scan_cons, Hb, M.
  f_equal.
  match goal with
  | |- Resolve.scan _ ?k _ = _ =>
      assert (L : List.length a = k)
  end.
  { cbn [List.length]. rewrite length_app. cbn [List.length].
    unfold jsstring, char in *. lia. }
  rewrite <- L.
  destruct a as [|x a].
  - exfalso. rewrite Ea in Ea'. destruct a' as [|y [|z a']]; discriminate Ea'.
  - rewrite scan_skip by discriminate.
    assert (Hl : last (x :: a) 0%N = 59%N).
    { assert (E : 32%N :: x :: a = a' ++ [59%N]) by (rewrite <- Ea, Ea'; reflexivity).
      change (last (x :: a) 0%N) with (last (32%N :: x :: a) 0%N).
      rewrite E. apply last_last. }
    unfold jsstring, char in *. rewrite Hl. rewrite scan_cons. reflexivity.
Qed.

Lemma scan_body : forall decls tail,
  Forall (fun d => Obs.plainName (fst d) = true /\
                   Obs.plainValue (snd d) = true) decls ->
  Resolve.scan (Some 10%N) 0
    (List.concat (List.map (fun d => Obs.propLine d ++ [10%N]) decls) ++ tail) =
  List.map (fun d => (str "--chi-" ++ fst d, snd d)) decls ++
  Resolve.scan (Some 10%N) 0 tail.
Proof.
  induction decls as [|[n v] decls IH]; intros tail H; [reflexivity|].
  inversion H as [|? ? [Hn Hv] Hrest]; subst. cbn [fst snd] in Hn, Hv.
  cbn [List.map List.concat fst snd].
  rewrite <- !app_assoc. cbn [app].
  rewrite (scan_propLine 10%N n v _ eq_refl Hn Hv).
  rewrite (IH tail Hrest). reflexivity.
Qed.

Lemma scan_header : forall rest,
  Resolve.scan None 0 (str ":root {" ++ 10%N :: rest) =
  Resolve.scan (Some 10%N) 0 rest.
Proof.
  intro rest.
  change (str ":root {" ++ 10%N :: rest)
    with (58%N :: str "root {" ++ 10%N :: rest).
  rewrite scan_cons. cbv iota.
  match goal with
  | |- context [Resolve.matchProp ?x] =>
      assert (M : Resolve.matchProp x = None)
        by (unfold Resolve.matchProp; rewrite greedyStar_cons; reflexivity);
      rewrite M
  end.
  rewrite (scan_past (str "root {") 58%N (10%N :: rest)) by reflexivity.
  rewrite scan_cons. reflexivity.
Qed.

(** X23.  On a [:root] block that holds one declaration per line, each of the
    form [  --chi-name: value;] with a non-empty name of the characters
    [a-z0-9-] and a value on one line, without semicolon and without white
    space at either end, the scan of [resolveTokenValues] finds exactly the
    declarations, in order, each with its full name and its full value; the
    keys of the resulting map are the names in the order of their first
    occurrence. *)
Theorem scan_of_a_root_block : forall decls : list (jsstring * jsstring),
  Forall (fun d => Obs.plainName (fst d) = true /\
                   Obs.plainValue (snd d) = true) decls ->
  Resolve.cssProps (Obs.rootBlock decls) =
    List.map (fun d => (str "--chi-" ++ fst d, snd d)) decls /\
  mapKeys (Resolve.resolvedMap (Obs.rootBlock decls)) =
    Obs.firstSeen (List.map (fun d => str "--chi-" ++ fst d) decls).
Proof.
  intros decls H.
  assert (E : Resolve.cssProps (Obs.rootBlock decls) =
              List.map (fun d => (str "--chi-" ++ fst d, snd d)) decls).
  { unfold Resolve.cssProps, Obs.rootBlock. cbn [app].
    rewrite scan_header, (scan_body decls _ H).
    change (Resolve.scan (Some 10%N) 0 (str "}" ++ [10%N])) with
      (@nil (jsstring * jsstring)).
    apply app_nil_r. }
  split; [exact E|].
  unfold Resolve.resolvedMap. rewrite E.
  rewrite (fill_keys (jsstring * jsstring) jsstring fst snd).
  rewrite map_map. reflexivity.
Qed.

Lemma scan_of_a_root_block_witness :
  Forall (fun d => Obs.plainName (fst d) = true /\
                   Obs.plainValue (snd d) = true)
    [ (str "color-text-base", str "#000000");
      (str "font-family-base", str "Inter, sans-serif") ] /\
  Resolve.cssProps
    (str ":root {" ++ [10%N] ++
     str "  --chi-color-text-base: #000000;" ++ [10%N] ++
     str "  --chi-font-family-base: Inter, sans-serif;" ++ [10%N] ++
     str "}" ++ [10%N]) =
  [ (str "--chi-color-text-base", str "#000000");
    (str "--chi-font-family-base", str "Inter, sans-serif") ].
Proof.
  assert (H : Forall (fun d => Obs.plainName (fst d) = true /\
                               Obs.plainValue (snd d) = true)
                [ (str "color-text-base", str "#000000");
                  (str "font-family-base", str "Inter, sans-serif") ])
    by (repeat constructor).
  split; [exact H|].
  exact (proj1 (scan_of_a_root_block _ H)).
Defined.
